(** * CapillaryAnnotator: the image-analysis pipeline, embedded and verified

    A shallow embedding of the numerical core of the annotator:
    - the automatic loop detector (adaptive threshold, morphological
      opening, two-pass connected-component labelling, blob validation and
      the skyline selector),
    - the projection-variance score of the deskew estimator
      ([RulerTool.tsx]),
    - the enhancement pipeline ([imageEnhancement.ts]),
    - the classification of the loops of a row ([geometry.ts]) and the
      morphology tally.

    Modelling conventions.
    - Typed arrays ([Uint8Array], [Uint8ClampedArray], [Int32Array],
      [Uint32Array]) are lists; a read is a list lookup, [None] standing for
      JavaScript's [undefined]; an indexed write is stdpp's list insert.
    - Image dimensions, array indices and labels are [nat]; sample values
      are [Z]; a JavaScript number that need not be an integer is a
      rational [Q].
    - Doubles.  [JS.fl] rounds a rational to the nearest double (binary64,
      ties to even; overflow and subnormal numbers are out of its range).
      The arithmetic on colours and coordinates whose result the source
      turns into a sample or a column number (the luminance, the scaling of
      a channel in [applyCLAHE], the blend of [sharpenImage], the rotated
      coordinate of the deskew score) is modelled operation by operation,
      each one rounding its exact result.  Quotients and products of
      integers (window means, blob centres and ratios, percentile counts,
      the stretch of the auto-levels, the histogram tables, column means
      and their variance) are exact rationals.
    - [for] loops are folds over [seq]; the one [while] loop (union-find
      [find]) takes fuel, and the theorems show the fuel is enough. *)

From Stdlib Require Import ZArith QArith Qround Qabs Qpower Lia Lqa.
From Stdlib Require String.
From stdpp Require Import base tactics option list numbers relations.

Open Scope Z_scope.

(** ** JavaScript numbers and loops *)

Module JS.

(** The result of a JavaScript division: a finite quotient or one of the
    three non-finite doubles. *)
Inductive num : Type :=
  | Fin (q : Q)
  | PosInf
  | NegInf
  | NaN.

Definition Qltb (a b : Q) : bool := negb (Qle_bool b a).

(** [a / b] on finite operands. *)
Definition div (a b : Q) : num :=
  if Qeq_bool b 0 then
    if Qeq_bool a 0 then NaN
    else if Qltb a 0 then NegInf else PosInf
  else Fin (a / b)%Q.

(** [s / (a * b)] for integers [a] and [b]: the product of a zero and a
    negative number is the negative zero, which flips the sign of the
    infinite quotient. *)
Definition div_by_product (s : Q) (a b : Z) : num :=
  if a * b =? 0 then
    if Qeq_bool s 0 then NaN
    else if xorb (Qltb s 0) (((a =? 0) && (b <? 0)) || ((a <? 0) && (b =? 0)))
         then NegInf else PosInf
  else Fin (s / inject_Z (a * b))%Q.

(** [a < b] with a finite right operand. *)
Definition lt (a : num) (b : Q) : bool :=
  match a with
  | Fin q => Qltb q b
  | PosInf => false
  | NegInf => true
  | NaN => false
  end.

(** [a > b + c] with a finite left operand [a] and finite [c]. *)
Definition gt_plus (a : Q) (b : num) (c : Q) : bool :=
  match b with
  | Fin q => Qltb (q + c)%Q a
  | PosInf => false
  | NegInf => true
  | NaN => false
  end.

(** *** Doubles *)

(** The binary exponent of a non-zero rational: the [e] with
    [2^e <= |q| < 2^(e+1)]. *)
Definition exponent (q : Q) : Z :=
  let e := Z.log2 (Z.abs (Qnum q)) - Z.log2 (Zpos (Qden q)) in
  if Qle_bool (2 ^ e) (Qabs q) then e else e - 1.

(** The nearest integer, a tie going to the even one. *)
Definition nearest_even (q : Q) : Z :=
  let f := Qfloor q in
  match (q - inject_Z f ?= 1 # 2)%Q with
  | Lt => f
  | Gt => f + 1
  | Eq => if Z.even f then f else f + 1
  end.

(** The double nearest to a rational: a significand of 53 bits, rounded to
    nearest with ties to even, scaled by a power of two. *)
Definition fl (q : Q) : Q :=
  if Qeq_bool q 0 then 0%Q
  else
    let ulp := (2 ^ (exponent q - 52))%Q in
    Qred (inject_Z (nearest_even (q / ulp)) * ulp).

(** The unit roundoff, 2^-53. *)
Definition epsilon : Q := 1 # 9007199254740992.

(** The four operations on doubles: the exact result, rounded. *)
Definition add (a b : Q) : Q := fl (a + b).
Definition sub (a b : Q) : Q := fl (a - b).
Definition mul (a b : Q) : Q := fl (a * b).
Definition quot (a b : Q) : Q := fl (a / b).

(** [0.299 * r + 0.587 * g + 0.114 * b] on three samples; a decimal
    literal is the double nearest to it. *)
Definition luminance (r g b : Z) : Q :=
  add (add (mul (fl (299 # 1000)) (inject_Z r)) (mul (fl (587 # 1000)) (inject_Z g)))
      (mul (fl (114 # 1000)) (inject_Z b)).

(** [Math.round]: the nearest integer, halves going up. *)
Definition round (q : Q) : Z := Qfloor (q + (1 # 2))%Q.

(** Truncation towards zero, the first step of a store into an integer
    typed array. *)
Definition trunc (q : Q) : Z := if Qltb q 0 then Qceiling q else Qfloor q.

(** A store into a [Uint8Array]: truncation, then wrap-around modulo 256;
    [NaN] (here [None]) is stored as 0. *)
Definition toUint8 (v : option Q) : Z :=
  match v with
  | Some q => trunc q mod 256
  | None => 0
  end.

(** [for (let i = lo; i < hi; i++) body]. *)
Definition for_range {S : Type} (lo hi : nat) (body : nat -> S -> S) (s : S) : S :=
  foldl (fun s i => body i s) s (seq lo (hi - lo)).

(** The same loop when the body can fail. *)
Definition for_rangeM {S : Type} (lo hi : nat) (body : nat -> S -> option S) (s : S)
  : option S :=
  foldl (fun o i => s ← o; body i s) (Some s) (seq lo (hi - lo)).

End JS.

(** ** The loop detector *)

Module Detect.

(** The module-level [CONFIG] object.  The functions that read it take the
    configuration as a parameter; [CONFIG] holds the values of the source. *)
Record Config : Type := {
  resizeWidth : Z;
  windowSize : Z;
  c : Q;
  minArea : Z;
  maxArea : Z;
  minAspectRatio : Q;
  minSolidity : Q;
  columnWidth : Z
}.

Definition CONFIG : Config := {|
  resizeWidth := 800;
  windowSize := 15;
  c := 2;
  minArea := 100;
  maxArea := 2000;
  minAspectRatio := (15 # 10)%Q;
  minSolidity := (6 # 10)%Q;
  columnWidth := 50
|}.

Record BlobStats : Type := {
  area : Z;
  minX : Z;
  maxX : Z;
  minY : Z;
  maxY : Z;
  centerX : Q;
  centerY : Q
}.

Definition isValidLoop (cfg : Config) (blob : BlobStats) : bool :=
  if (area blob <? minArea cfg) || (area blob >? maxArea cfg) then false
  else
    let width := maxX blob - minX blob + 1 in
    let height := maxY blob - minY blob + 1 in
    let aspectRatio := JS.div (inject_Z height) (inject_Z width) in
    if JS.lt aspectRatio (minAspectRatio cfg) then false
    else
      let bboxArea := width * height in
      let solidity := JS.div (inject_Z (area blob)) (inject_Z bboxArea) in
      if JS.lt solidity (minSolidity cfg) then false
      else true.

(** One step of the [forEach] of [filterOutermost]. *)
Definition skyline_step (cfg : Config) (numColumns : Z)
    (skyline : list (option BlobStats)) (blob : BlobStats)
  : list (option BlobStats) :=
  let colIndex := Qfloor (centerX blob / inject_Z (columnWidth cfg))%Q in
  if (0 <=? colIndex) && (colIndex <? numColumns) then
    match skyline !! Z.to_nat colIndex with
    | Some (Some currentBest) =>
        if JS.Qltb (centerY currentBest) (centerY blob)
        then <[Z.to_nat colIndex := Some blob]> skyline
        else skyline
    | _ => <[Z.to_nat colIndex := Some blob]> skyline
    end
  else skyline.

(** [filterOutermost]; [None] is the [RangeError] that [new Array(n)] throws
    for a length that is not an integer in [0, 2^32). *)
Definition filterOutermost (cfg : Config) (blobs : list BlobStats) (imageWidth : Z)
  : option (list BlobStats) :=
  if (length blobs =? 0)%nat then Some []
  else
    match JS.div (inject_Z imageWidth) (inject_Z (columnWidth cfg)) with
    | JS.Fin q =>
        let numColumns := Qceiling q in
        if (numColumns <? 0) || (2 ^ 32 <=? numColumns) then None
        else
          let skyline := replicate (Z.to_nat numColumns) None in
          let skyline := foldl (skyline_step cfg numColumns) skyline blobs in
          Some (omap id skyline)
    | _ => None
    end.

(** *** Adaptive threshold *)

(** A read at an index computed in [Z]: [undefined] below zero and past the
    end. *)
Definition rdZ (l : list Z) (i : Z) : option Z :=
  if i <? 0 then None else l !! Z.to_nat i.

(** A store into a [Uint32Array]: wrap-around modulo 2^32; [NaN] (here
    [None], the sum of a number and [undefined]) is stored as 0. *)
Definition toUint32 (v : option Z) : Z :=
  match v with
  | Some z => z mod 2 ^ 32
  | None => 0
  end.

(** [a + b] where either operand may be [NaN]. *)
Definition addN (a b : option Z) : option Z :=
  x ← a; y ← b; Some (x + y).

(** The integral image, row by row with a running row sum. *)
Definition integralImage (gray : list Z) (width height : nat) : list Z :=
  JS.for_range 0 height (fun y integral =>
    snd (JS.for_range 0 width (fun x '(sum, integral) =>
      let sum := addN sum (gray !! (y * width + x)%nat) in
      let v := if (y =? 0)%nat then sum
               else addN sum (integral !! ((y - 1) * width + x)%nat) in
      (sum, <[(y * width + x)%nat := toUint32 v]> integral))
      (Some 0, integral)))
    (replicate (width * height) 0).

Definition getSum (integral : list Z) (width height : nat) (x1 y1 x2 y2 : Z)
  : option Z :=
  let x1 := Z.max 0 x1 in
  let y1 := Z.max 0 y1 in
  let x2 := Z.min (Z.of_nat width - 1) x2 in
  let y2 := Z.min (Z.of_nat height - 1) y2 in
  let A := rdZ integral (y2 * Z.of_nat width + x2) in
  let B := if 0 <? y1 then rdZ integral ((y1 - 1) * Z.of_nat width + x2) else Some 0 in
  let C := if 0 <? x1 then rdZ integral (y2 * Z.of_nat width + (x1 - 1)) else Some 0 in
  let D := if (0 <? x1) && (0 <? y1)
           then rdZ integral ((y1 - 1) * Z.of_nat width + (x1 - 1)) else Some 0 in
  a ← A; b ← B; c ← C; d ← D; Some (a - b - c + d).

(** [gray[i] > sum / count + c] where [count] is the product of the clipped
    window's width [cw] and height [ch]; [None] operands are [undefined] or
    [NaN]. *)
Definition above_mean (g : option Z) (sum : option Z) (cw ch : Z) (c : Q) : bool :=
  match g, sum with
  | Some g, Some sum => JS.gt_plus (inject_Z g) (JS.div_by_product (inject_Z sum) cw ch) c
  | _, _ => false
  end.

Definition adaptiveThreshold (cfg : Config) (gray : list Z) (width height : nat)
  : list Z :=
  let binary := replicate (width * height) 0 in
  let w := windowSize cfg in
  let offset := w / 2 in
  let integral := integralImage gray width height in
  JS.for_range 0 height (fun y binary =>
    JS.for_range 0 width (fun x binary =>
      let x1 := Z.of_nat x - offset in
      let y1 := Z.of_nat y - offset in
      let x2 := Z.of_nat x + offset in
      let y2 := Z.of_nat y + offset in
      let cw := Z.min (Z.of_nat width - 1) x2 - Z.max 0 x1 + 1 in
      let ch := Z.min (Z.of_nat height - 1) y2 - Z.max 0 y1 + 1 in
      let sum := getSum integral width height x1 y1 x2 y2 in
      if above_mean (gray !! (y * width + x)%nat) sum cw ch (c cfg)
      then <[(y * width + x)%nat := 1]> binary
      else <[(y * width + x)%nat := 0]> binary) binary) binary.

(** *** Morphological opening *)

(** Truthiness of a sample read from a [Uint8Array]. *)
Definition truthy (v : option Z) : bool :=
  match v with
  | Some z => negb (z =? 0)
  | None => false
  end.

Definition erode (binary : list Z) (width height : nat) : list Z :=
  JS.for_range 1 (height - 1) (fun y eroded =>
    JS.for_range 1 (width - 1) (fun x eroded =>
      let idx := (y * width + x)%nat in
      if truthy (binary !! idx) &&
         truthy (binary !! (idx - 1)%nat) && truthy (binary !! (idx + 1)%nat) &&
         truthy (binary !! (idx - width)%nat) && truthy (binary !! (idx + width)%nat)
      then <[idx := 1]> eroded
      else eroded) eroded)
    (replicate (width * height) 0).

Definition dilate (eroded : list Z) (width height : nat) : list Z :=
  JS.for_range 1 (height - 1) (fun y dilated =>
    JS.for_range 1 (width - 1) (fun x dilated =>
      let idx := (y * width + x)%nat in
      if truthy (eroded !! idx) ||
         truthy (eroded !! (idx - 1)%nat) || truthy (eroded !! (idx + 1)%nat) ||
         truthy (eroded !! (idx - width)%nat) || truthy (eroded !! (idx + width)%nat)
      then <[idx := 1]> dilated
      else dilated) dilated)
    (replicate (width * height) 0).

Definition morphologyOpen (binary : list Z) (width height : nat) : list Z :=
  let eroded := erode binary width height in
  let dilated := dilate eroded width height in
  dilated.

(** *** Connected components *)

Record CCState : Type := {
  labels : list nat;
  currentLabel : nat;
  parent : list nat
}.

(** [find]: follow parent links up to a self-loop.  [None] when the fuel
    runs out or a link leaves the table. *)
Fixpoint find (fuel : nat) (parent : list nat) (i : nat) : option nat :=
  match fuel with
  | O => None
  | S fuel =>
      p ← parent !! i;
      if decide (i = p) then Some i else find fuel parent p
  end.

Definition union (fuel : nat) (parent : list nat) (i j : nat) : option (list nat) :=
  rootI ← find fuel parent i;
  rootJ ← find fuel parent j;
  Some (if decide (rootI = rootJ) then parent else <[rootJ := rootI]> parent).

(** A label read from the [Int32Array]. *)
Definition label_at (labels : list nat) (i : nat) : nat := default 0%nat (labels !! i).

(** [binary[i] === 0]. *)
Definition is_zero (v : option Z) : bool :=
  match v with
  | Some z => z =? 0
  | None => false
  end.

(** The body of the first pass at pixel (x, y). *)
Definition label_pixel (fuel : nat) (binary : list Z) (width : nat) (y x : nat)
    (st : CCState) : option CCState :=
  let idx := (y * width + x)%nat in
  if is_zero (binary !! idx) then Some st
  else
    let left := if (0 <? x)%nat then label_at (labels st) (y * width + (x - 1)) else 0%nat in
    let top := if (0 <? y)%nat then label_at (labels st) ((y - 1) * width + x) else 0%nat in
    if (left =? 0)%nat && (top =? 0)%nat then
      let l := S (currentLabel st) in
      Some {| labels := <[idx := l]> (labels st);
              currentLabel := l;
              parent := parent st ++ [l] |}
    else if negb (left =? 0)%nat && (top =? 0)%nat then
      Some {| labels := <[idx := left]> (labels st);
              currentLabel := currentLabel st;
              parent := parent st |}
    else if (left =? 0)%nat && negb (top =? 0)%nat then
      Some {| labels := <[idx := top]> (labels st);
              currentLabel := currentLabel st;
              parent := parent st |}
    else
      parent' ← union fuel (parent st) left top;
      Some {| labels := <[idx := Nat.min left top]> (labels st);
              currentLabel := currentLabel st;
              parent := parent' |}.

Definition first_pass (fuel : nat) (binary : list Z) (width height : nat)
  : option CCState :=
  JS.for_rangeM 0 height (fun y st =>
    JS.for_rangeM 0 width (fun x st => label_pixel fuel binary width y x st) st)
    {| labels := replicate (width * height) 0%nat;
       currentLabel := 0%nat;
       parent := [0%nat] |}.

(** The body of the second pass. *)
Definition resolve_pixel (fuel : nat) (parent : list nat) (i : nat) (labels : list nat)
  : option (list nat) :=
  if (0 <? label_at labels i)%nat then
    r ← find fuel parent (label_at labels i);
    Some (<[i := r]> labels)
  else Some labels.

(** [connectedComponents] with explicit fuel for [find]. *)
Definition connectedComponents_fuel (fuel : nat) (binary : list Z) (width height : nat)
  : option (list nat * nat) :=
  st ← first_pass fuel binary width height;
  labels' ← JS.for_rangeM 0 (length (labels st))
              (fun i labels => resolve_pixel fuel (parent st) i labels) (labels st);
  Some (labels', currentLabel st).

(** [connectedComponents]: the result is the pair [{ labels, count }].  A
    chain of parent links never gets longer than the number of pixels, so
    this much fuel lets every [find] run to its root. *)
Definition connectedComponents (binary : list Z) (width height : nat)
  : option (list nat * nat) :=
  connectedComponents_fuel (S (width * height)) binary width height.

(** *** Blob analysis *)

Record BlobAcc : Type := {
  acc_area : Z;
  acc_minX : Z; acc_maxX : Z;
  acc_minY : Z; acc_maxY : Z;
  acc_sumX : Z; acc_sumY : Z
}.

Definition analyzeBlob (labels : list nat) (label : nat) (width height : nat)
  : BlobStats :=
  let acc :=
    JS.for_range 0 height (fun y acc =>
      JS.for_range 0 width (fun x acc =>
        if decide (labels !! (y * width + x)%nat = Some label) then
          {| acc_area := acc_area acc + 1;
             acc_minX := if Z.of_nat x <? acc_minX acc then Z.of_nat x else acc_minX acc;
             acc_maxX := if Z.of_nat x >? acc_maxX acc then Z.of_nat x else acc_maxX acc;
             acc_minY := if Z.of_nat y <? acc_minY acc then Z.of_nat y else acc_minY acc;
             acc_maxY := if Z.of_nat y >? acc_maxY acc then Z.of_nat y else acc_maxY acc;
             acc_sumX := acc_sumX acc + Z.of_nat x;
             acc_sumY := acc_sumY acc + Z.of_nat y |}
        else acc) acc)
      {| acc_area := 0;
         acc_minX := Z.of_nat width; acc_maxX := 0;
         acc_minY := Z.of_nat height; acc_maxY := 0;
         acc_sumX := 0; acc_sumY := 0 |} in
  {| area := acc_area acc;
     minX := acc_minX acc; maxX := acc_maxX acc;
     minY := acc_minY acc; maxY := acc_maxY acc;
     centerX := if acc_area acc >? 0 then (inject_Z (acc_sumX acc) / inject_Z (acc_area acc))%Q else 0%Q;
     centerY := if acc_area acc >? 0 then (inject_Z (acc_sumY acc) / inject_Z (acc_area acc))%Q else 0%Q |}.

(** *** The pipeline of [processImage] *)

(** [toGrayscale]: the inverted luminance of every pixel, stored into a
    [Uint8Array] of [width * height] samples.  The loop steps through
    [data] four samples at a time; [p] is [i / 4]. *)
Definition toGrayscale (data : list Z) (width height : nat) : list Z :=
  JS.for_range 0 ((length data + 3) / 4)%nat (fun p gray =>
    let i := (p * 4)%nat in
    let luminance :=
      r ← data !! i; g ← data !! (i + 1)%nat; b ← data !! (i + 2)%nat;
      Some (JS.luminance r g b) in
    <[p := JS.toUint8 ((fun l => JS.sub 255 l) <$> luminance)]> gray)
    (replicate (width * height) 0).

(** Step 6 of [processImage]: the blobs of the labels 1 to [count] that
    pass [isValidLoop], in label order. *)
Definition candidates (cfg : Config) (labels : list nat) (count width height : nat)
  : list BlobStats :=
  JS.for_range 1 (S count) (fun i candidates =>
    let blob := analyzeBlob labels i width height in
    if isValidLoop cfg blob then candidates ++ [blob] else candidates) [].

(** Steps 2 to 7 of [processImage], from the pixels [data] read back from
    the resized canvas to the blobs the skyline selector keeps.  [None]: an
    exception was thrown on the way. *)
Definition outermostBlobs (cfg : Config) (data : list Z) (width height : nat)
  : option (list BlobStats) :=
  let gray := toGrayscale data width height in
  let binary := adaptiveThreshold cfg gray width height in
  let opened := morphologyOpen binary width height in
  '(labels, count) ← connectedComponents opened width height;
  filterOutermost cfg (candidates cfg labels count width height) (Z.of_nat width).

End Detect.

(** ** The deskew score ([RulerTool.tsx]) *)

Module Deskew.

(** A division whose result must be a finite number: [None] when the
    divisor is zero (JavaScript would produce [NaN] or an infinity). *)
Definition checked_div (a b : Q) : option Q :=
  if Qeq_bool b 0 then None else Some (a / b)%Q.

(** The x-coordinate of pixel (x, y) after the rotation about the image
    centre, [dx * cos - dy * sin + centerW] in double arithmetic; [sin] and
    [cos] are the doubles [Math.sin(angleRad)] and [Math.cos(angleRad)]. *)
Definition rotX (width height : nat) (sin cos : Q) (x y : nat) : Q :=
  let centerW := JS.quot (inject_Z (Z.of_nat width)) 2 in
  let centerH := JS.quot (inject_Z (Z.of_nat height)) 2 in
  let dx := JS.sub (inject_Z (Z.of_nat x)) centerW in
  let dy := JS.sub (inject_Z (Z.of_nat y)) centerH in
  JS.add (JS.sub (JS.mul dx cos) (JS.mul dy sin)) centerW.

(** The body of the accumulation loop: [projection] is a [Float64Array],
    [counts] a [Uint32Array].  [None]: the sample read was [undefined], so
    [NaN] entered the projection. *)
Definition accumulate (pixels : list Z) (width height : nat) (sin cos : Q)
    (y x : nat) (st : list Q * list Z) : option (list Q * list Z) :=
  let '(projection, counts) := st in
  let bin := Qfloor (rotX width height sin cos x y) in
  if (0 <=? bin) && (bin <? Z.of_nat width) then
    v ← pixels !! (y * width + x)%nat;
    p ← projection !! Z.to_nat bin;
    n ← counts !! Z.to_nat bin;
    Some (<[Z.to_nat bin := (p + inject_Z v)%Q]> projection,
          <[Z.to_nat bin := (n + 1) mod 2 ^ 32]> counts)
  else Some st.

(** The body of the normalisation loop over the columns. *)
Definition normalise (projection : list Q) (counts : list Z) (i : nat)
    (st : Q * Q * Z) : option (Q * Q * Z) :=
  let '(sum, sumSq, n) := st in
  p ← projection !! i;
  cnt ← counts !! i;
  if 0 <? cnt then
    val ← checked_div p (inject_Z cnt);
    Some ((sum + val)%Q, (sumSq + val * val)%Q, n + 1)
  else Some st.

(** [calculateProjectionVariance]; the angle enters through [sin] and
    [cos] only.  [None]: the result is not a finite number. *)
Definition calculateProjectionVariance (pixels : list Z) (width height : nat)
    (sin cos : Q) : option Q :=
  '(projection, counts) ←
    JS.for_rangeM 0 height (fun y st =>
      JS.for_rangeM 0 width (fun x st => accumulate pixels width height sin cos y x st) st)
      (replicate width 0%Q, replicate width 0);
  '(sum, sumSq, n) ←
    JS.for_rangeM 0 width (normalise projection counts) (0%Q, 0%Q, 0);
  if n =? 0 then Some 0%Q
  else
    mean ← checked_div sum (inject_Z n);
    q ← checked_div sumSq (inject_Z n);
    Some (q - mean * mean)%Q.

(** *** The angle search of [calculateSkewAngle] *)

(** The grayscale buffer, a [Uint8Array] of the rounded luminances. *)
Definition grayscale (data : list Z) (width height : nat) : list Z :=
  JS.for_range 0 (width * height) (fun i gray =>
    let luminance :=
      r ← data !! (i * 4)%nat; g ← data !! (i * 4 + 1)%nat; b ← data !! (i * 4 + 2)%nat;
      Some (JS.luminance r g b) in
    <[i := JS.toUint8 ((fun l => inject_Z (JS.round l)) <$> luminance)]> gray)
    (replicate (width * height) 0).

(** The Sobel X filter over the pixels off the border; [edges] is a
    [Uint8Array]. *)
Definition sobelX (gray : list Z) (width height : nat) : list Z :=
  JS.for_range 1 (height - 1) (fun y edges =>
    JS.for_range 1 (width - 1) (fun x edges =>
      let i := (y * width + x)%nat in
      let gx :=
        a ← gray !! (i - width - 1)%nat; b ← gray !! (i - width + 1)%nat;
        c ← gray !! (i - 1)%nat; d ← gray !! (i + 1)%nat;
        e ← gray !! (i + width - 1)%nat; f ← gray !! (i + width + 1)%nat;
        Some (-1 * a + 1 * b + -2 * c + 2 * d + -1 * e + 1 * f) in
      <[i := JS.toUint8 ((fun gx => inject_Z (Z.min 255 (Z.abs gx))) <$> gx)]> edges) edges)
    (replicate (width * height) 0).

(** One sweep over a list of angles: the state is the pair
    [(bestAngle, maxVariance)]; [score] is [calculateProjectionVariance] on
    the edge buffer, [None] being [NaN], which no comparison accepts. *)
Definition sweep (score : Q -> option Q) (angles : list Q) (st : Q * Q) : Q * Q :=
  foldl (fun '(bestAngle, maxVariance) angle =>
    match score angle with
    | Some variance =>
        if JS.Qltb maxVariance variance then (angle, variance)
        else (bestAngle, maxVariance)
    | None => (bestAngle, maxVariance)
    end) st angles.

(** The angles of the coarse search: -20, -19, ..., 20 degrees. *)
Definition coarseAngles : list Q :=
  (fun k => inject_Z (Z.of_nat k - 20)) <$> seq 0 41.

(** [calculateSkewAngle], from the pixels [data] read back from the
    downsampled canvas.  [trig angle] is the pair of doubles
    [(Math.sin(angleRad), Math.cos(angleRad))] for an angle in degrees, and
    [fine coarseBest] the doubles that the fine search visits, from
    [coarseBest - 1] on in steps of 0.1: both are parameters. *)
Definition calculateSkewAngle (trig : Q -> Q * Q) (fine : Q -> list Q)
    (data : list Z) (width height : nat) : Q :=
  let gray := grayscale data width height in
  let edges := sobelX gray width height in
  let score angle :=
    calculateProjectionVariance edges width height (trig angle).1 (trig angle).2 in
  let '(bestAngle, maxVariance) := sweep score coarseAngles (0%Q, (-1)%Q) in
  let coarseBest := bestAngle in
  let '(bestAngle, _) := sweep score (fine coarseBest) (bestAngle, maxVariance) in
  bestAngle.

End Deskew.

(** ** The enhancement pipeline ([imageEnhancement.ts]) *)

Module Enhance.

Record ImageData : Type := {
  width : nat;
  height : nat;
  data : list Z
}.

(** A store into a [Uint8ClampedArray] of an integer or [NaN] ([None]). *)
Definition clamp8 (v : option Z) : Z :=
  match v with
  | Some z => Z.max 0 (Z.min 255 z)
  | None => 0
  end.

(** [0.299 * r + 0.587 * g + 0.114 * b]; [None] is [NaN]. *)
Definition luminance (r g b : option Z) : option Q :=
  r ← r; g ← g; b ← b; Some (JS.luminance r g b).

Definition toGray (data : list Z) (width height : nat) : list Z :=
  JS.for_range 0 (width * height) (fun i gray =>
    let r := data !! (i * 4)%nat in
    let g := data !! (i * 4 + 1)%nat in
    let b := data !! (i * 4 + 2)%nat in
    <[i := clamp8 (JS.round <$> luminance r g b)]> gray)
    (replicate (width * height) 0).

(** [hist[v]++] for a sample [v] read from the gray buffer. *)
Definition bump (hist : list Z) (v : option Z) : list Z :=
  match v with
  | Some v => <[Z.to_nat v := hist !!! Z.to_nat v + 1]> hist
  | None => hist
  end.

Definition tileHistogram (gray : list Z) (width x0 y0 x1 y1 : nat) : list Z :=
  JS.for_range y0 y1 (fun y hist =>
    JS.for_range x0 x1 (fun x hist => bump hist (gray !! (y * width + x)%nat)) hist)
    (replicate 256 0).

(** Clip every bin at [clipVal]; returns the histogram and the clipped mass. *)
Definition clipHistogram (hist : list Z) (clipVal : Z) : list Z * Z :=
  JS.for_range 0 256 (fun i '(hist, clipped) =>
    if hist !!! i >? clipVal
    then (<[i := clipVal]> hist, clipped + (hist !!! i - clipVal))
    else (hist, clipped)) (hist, 0).

Definition redistribute (hist : list Z) (clipped : Z) : list Z :=
  let redistBatch := clipped / 256 in
  let residual := clipped - redistBatch * 256 in
  fst (JS.for_range 0 256 (fun i '(hist, residual) =>
    let hist := <[i := hist !!! i + redistBatch]> hist in
    if residual >? 0
    then (<[i := hist !!! i + 1]> hist, residual - 1)
    else (hist, residual)) (hist, residual)).

Definition cumulative (hist : list Z) : list Z :=
  JS.for_range 1 256 (fun i cdf =>
    <[i := cdf !!! (i - 1)%nat + hist !!! i]> cdf)
    (<[0%nat := hist !!! 0%nat]> (replicate 256 0)).

(** [cdf.find(v => v > 0) || 0]. *)
Definition cdfMinimum (cdf : list Z) : Z :=
  default 0 (head (filter (fun v => 0 < v) cdf)).

Definition tileLUT (gray : list Z) (width height : nat) (clipLimit : Q)
    (tileSize : nat) (ty tx : nat) : list Z :=
  let x0 := (tx * tileSize)%nat in
  let y0 := (ty * tileSize)%nat in
  let x1 := Nat.min (x0 + tileSize) width in
  let y1 := Nat.min (y0 + tileSize) height in
  let hist := tileHistogram gray width x0 y0 x1 y1 in
  let tilePixels := Z.of_nat ((x1 - x0) * (y1 - y0)) in
  let clipVal := Qfloor (clipLimit * inject_Z tilePixels / 256)%Q in
  let '(hist, clipped) := clipHistogram hist clipVal in
  let hist := redistribute hist clipped in
  let cdf := cumulative hist in
  let cdfMin := cdfMinimum cdf in
  let cdfRange := tilePixels - cdfMin in
  JS.for_range 0 256 (fun i lut =>
    if cdfRange >? 0
    then <[i := JS.round (inject_Z (cdf !!! i - cdfMin) / inject_Z cdfRange * 255)%Q]> lut
    else <[i := Z.of_nat i]> lut) (replicate 256 0).

(** [Math.ceil(n / tileSize)]. *)
Definition tilesAlong (n tileSize : nat) : nat :=
  Z.to_nat (Qceiling (inject_Z (Z.of_nat n) / inject_Z (Z.of_nat tileSize))%Q).

(** [Math.min(255, Math.round(v * ratio))]. *)
Definition scaleChannel (v : option Z) (ratio : Q) : option Z :=
  v ← v; Some (Z.min 255 (JS.round (JS.mul (inject_Z v) ratio))).

(** The body of the remapping loop at pixel (x, y). *)
Definition remapPixel (data gray : list Z) (lookupTables : list (list (list Z)))
    (width tileSize tilesX tilesY : nat) (y x : nat) (enhanced : list Z) : list Z :=
  let tx := Nat.min (x / tileSize) (tilesX - 1) in
  let ty := Nat.min (y / tileSize) (tilesY - 1) in
  let lut := (lookupTables !!! ty) !!! tx in
  let oldVal := gray !! (y * width + x)%nat in
  let newVal := oldVal ← oldVal; lut !! Z.to_nat oldVal in
  let idx := ((y * width + x) * 4)%nat in
  let oldLum := luminance (data !! idx) (data !! (idx + 1)%nat) (data !! (idx + 2)%nat) in
  let enhanced :=
    match oldLum with
    | Some l =>
        if JS.Qltb 0 l then
          let ratio := newVal ← newVal; Some (JS.quot (inject_Z newVal) l) in
          let put v := clamp8 (ratio ← ratio; scaleChannel v ratio) in
          <[(idx + 2)%nat := put (data !! (idx + 2)%nat)]>
            (<[(idx + 1)%nat := put (data !! (idx + 1)%nat)]>
               (<[idx := put (data !! idx)]> enhanced))
        else
          <[(idx + 2)%nat := clamp8 newVal]>
            (<[(idx + 1)%nat := clamp8 newVal]> (<[idx := clamp8 newVal]> enhanced))
    | None =>
        <[(idx + 2)%nat := clamp8 newVal]>
          (<[(idx + 1)%nat := clamp8 newVal]> (<[idx := clamp8 newVal]> enhanced))
    end in
  <[(idx + 3)%nat := clamp8 (data !! (idx + 3)%nat)]> enhanced.

(** [applyCLAHE]; [lookupTables] is filled tile by tile before the
    remapping loop reads it, [enhanced] starts as a copy of [data]. *)
Definition applyCLAHE (imageData : ImageData) (clipLimit : Q) (tileSize : nat)
  : ImageData :=
  let width := width imageData in
  let height := height imageData in
  let data := data imageData in
  let enhanced := data in
  let gray := toGray data width height in
  let tilesX := tilesAlong width tileSize in
  let tilesY := tilesAlong height tileSize in
  let lookupTables :=
    (fun ty => (fun tx => tileLUT gray width height clipLimit tileSize ty tx)
                 <$> seq 0 tilesX) <$> seq 0 tilesY in
  let enhanced :=
    JS.for_range 0 height (fun y enhanced =>
      JS.for_range 0 width (fun x enhanced =>
        remapPixel data gray lookupTables width tileSize tilesX tilesY y x enhanced)
        enhanced) enhanced in
  {| width := width; height := height; data := enhanced |}.

(** The luminance histogram of [adjustBrightnessContrast]. *)
Definition lumHistogram (data : list Z) (width height : nat) : list Z :=
  JS.for_range 0 (width * height) (fun i hist =>
    let r := data !! (i * 4)%nat in
    let g := data !! (i * 4 + 1)%nat in
    let b := data !! (i * 4 + 2)%nat in
    bump hist (JS.round <$> luminance r g b)) (replicate 256 0).

(** The percentile scan; the last component records the [break]. *)
Definition percentiles (hist : list Z) (lowPercentile highPercentile : Z) : Z * Z :=
  let '(_, minVal, maxVal, _) :=
    JS.for_range 0 256 (fun i '(cumSum, minVal, maxVal, done) =>
      if done : bool then (cumSum, minVal, maxVal, done)
      else
        let cumSum := cumSum + hist !!! i in
        let minVal := if (cumSum >=? lowPercentile) && (minVal =? 0)
                      then Z.of_nat i else minVal in
        if cumSum >=? highPercentile
        then (cumSum, minVal, Z.of_nat i, true)
        else (cumSum, minVal, maxVal, false)) (0, 0, 255, false) in
  (minVal, maxVal).

(** [Math.max(0, Math.min(255, Math.round(((val - minVal) / range) * 255)))]. *)
Definition stretch (val : option Z) (minVal range : Z) : option Z :=
  val ← val;
  Some (Z.max 0 (Z.min 255
          (JS.round (inject_Z (val - minVal) / inject_Z range * 255)%Q))).

Definition adjustBrightnessContrast (imageData : ImageData) : ImageData :=
  let width := width imageData in
  let height := height imageData in
  let data := data imageData in
  let enhanced := data in
  let hist := lumHistogram data width height in
  let totalPixels := Z.of_nat (width * height) in
  let lowPercentile := Qfloor (inject_Z totalPixels * (1 # 100))%Q in
  let highPercentile := Qfloor (inject_Z totalPixels * (99 # 100))%Q in
  let '(minVal, maxVal) := percentiles hist lowPercentile highPercentile in
  let range := maxVal - minVal in
  if range =? 0 then imageData
  else
    let enhanced :=
      JS.for_range 0 ((length data + 3) / 4)%nat (fun p enhanced =>
        let i := (p * 4)%nat in
        let enhanced :=
          JS.for_range 0 3 (fun c enhanced =>
            <[(i + c)%nat := clamp8 (stretch (data !! (i + c)%nat) minVal range)]> enhanced)
            enhanced in
        <[(i + 3)%nat := clamp8 (data !! (i + 3)%nat)]> enhanced) enhanced in
    {| width := width; height := height; data := enhanced |}.

Definition kernel : list Z := [0; -1; 0; -1; 5; -1; 0; -1; 0].

(** The convolution sum at pixel (x, y), channel [c]; the loop variables
    [ky] and [kx] run over -1, 0, 1 and are shifted by one here. *)
Definition convolve (data : list Z) (width : nat) (y x c : nat) : option Z :=
  JS.for_range 0 3 (fun ky sum =>
    JS.for_range 0 3 (fun kx sum =>
      let idx := (((y + ky - 1) * width + (x + kx - 1)) * 4 + c)%nat in
      let kIdx := (ky * 3 + kx)%nat in
      s ← sum; d ← data !! idx; k ← kernel !! kIdx; Some (s + d * k)) sum) (Some 0).

(** [sharpenImage]; [amount] is a double. *)
Definition sharpenImage (imageData : ImageData) (amount : Q) : ImageData :=
  let width := width imageData in
  let height := height imageData in
  let data := data imageData in
  let enhanced := data in
  let enhanced :=
    JS.for_range 1 (height - 1) (fun y enhanced =>
      JS.for_range 1 (width - 1) (fun x enhanced =>
        JS.for_range 0 3 (fun c enhanced =>
          let sum := convolve data width y x c in
          let idx := ((y * width + x) * 4 + c)%nat in
          let sharpened := (fun sum => Z.max 0 (Z.min 255 sum)) <$> sum in
          let blended :=
            d ← data !! idx; s ← sharpened;
            Some (JS.round (JS.add (JS.mul (inject_Z d) (JS.sub 1 amount))
                                   (JS.mul (inject_Z s) amount))) in
          <[idx := clamp8 blended]> enhanced) enhanced) enhanced) enhanced in
  {| width := width; height := height; data := enhanced |}.

(** The three stages of [enhanceImage], from the [ImageData] read off the
    canvas to the one written back. *)
Definition enhanceImage (imageData : ImageData) : ImageData :=
  let imageData := applyCLAHE imageData (25 # 10) 8 in
  let imageData := adjustBrightnessContrast imageData in
  let imageData := sharpenImage imageData (JS.fl (6 # 10)) in
  imageData.

End Enhance.

(** ** Loop classification ([geometry.ts]) and the morphology tally *)

Module Geometry.

Inductive Morphology : Type :=
  | Normal | Tortuous | Enlarged | Giant | Ramified | Bizarre.

#[global] Instance Morphology_eq_dec : EqDecision Morphology.
Proof. solve_decision. Defined.

(** The [Loop] interface of the annotator. *)
Record Loop : Type := {
  id : String.string;
  x : Q;
  y : Q;
  morphology : Morphology;
  diameter : Q;
  isOutermost : bool
}.

(** [{ ...loop, isOutermost: flag }]. *)
Definition with_outermost (loop : Loop) (flag : bool) : Loop :=
  {| id := id loop; x := x loop; y := y loop; morphology := morphology loop;
     diameter := diameter loop; isOutermost := flag |}.

(** [[...loops].sort((a, b) => a.x - b.x)]: the sort of an array is stable,
    so on finite coordinates it returns what a stable insertion sort does;
    an element goes before the first element that is not to its left. *)
Fixpoint insert_by_x (a : Loop) (l : list Loop) : list Loop :=
  match l with
  | [] => [a]
  | b :: l' => if JS.Qltb (x b) (x a) then b :: insert_by_x a l' else a :: b :: l'
  end.

Definition sort_by_x (loops : list Loop) : list Loop := foldr insert_by_x [] loops.

(** The callback of [sortedLoops.map].  [None] is the [TypeError] of
    reading [y] off a neighbour that does not exist. *)
Definition classify (calculateAngle : Q * Q -> Q * Q -> Q * Q -> Q)
    (sortedLoops : list Loop) (index : nat) (loop : Loop) : option Loop :=
  if (index =? 0)%nat || (index =? length sortedLoops - 1)%nat
  then Some (with_outermost loop true)
  else
    prev ← sortedLoops !! (index - 1)%nat;
    next ← sortedLoops !! (index + 1)%nat;
    let isRetracted := JS.Qltb (y prev) (y loop) && JS.Qltb (y next) (y loop) in
    if negb isRetracted then Some (with_outermost loop true)
    else
      let angle := calculateAngle (x prev, y prev) (x loop, y loop) (x next, y next) in
      Some (with_outermost loop (JS.Qltb 90 angle)).

(** [updateLoopClassifications].  [calculateAngle] goes through [Math.sqrt]
    and [Math.acos], which are not modelled: the angle at the middle one of
    three points is a parameter, applied to the coordinates of the three
    loops. *)
Definition updateLoopClassifications (calculateAngle : Q * Q -> Q * Q -> Q * Q -> Q)
    (loops : list Loop) : option (list Loop) :=
  if (length loops <? 3)%nat
  then Some ((fun l => with_outermost l true) <$> loops)
  else
    let sortedLoops := sort_by_x loops in
    mapM (fun classified : option Loop => classified)
         (imap (classify calculateAngle sortedLoops) sortedLoops).

(** The morphology counts of [MorphologyTally] and of the report. *)
Module MorphologyStats.
Record t : Type := {
  Normal : Z; Tortuous : Z; Enlarged : Z; Giant : Z; Ramified : Z; Bizarre : Z
}.
End MorphologyStats.

(** [stats[loop.morphology]++]. *)
Definition count_loop (stats : MorphologyStats.t) (loop : Loop) : MorphologyStats.t :=
  let '(MorphologyStats.Build_t n t e g r b) := stats in
  match morphology loop with
  | Normal => MorphologyStats.Build_t (n + 1) t e g r b
  | Tortuous => MorphologyStats.Build_t n (t + 1) e g r b
  | Enlarged => MorphologyStats.Build_t n t (e + 1) g r b
  | Giant => MorphologyStats.Build_t n t e (g + 1) r b
  | Ramified => MorphologyStats.Build_t n t e g (r + 1) b
  | Bizarre => MorphologyStats.Build_t n t e g r (b + 1)
  end.

(** The counters once [loops.forEach] has run. *)
Definition tally (loops : list Loop) : MorphologyStats.t :=
  foldl count_loop (MorphologyStats.Build_t 0 0 0 0 0 0) loops.

(** [Object.values(stats).reduce((sum, count) => sum + count, 0)]. *)
Definition total (stats : MorphologyStats.t) : Z :=
  foldl Z.add 0
    [MorphologyStats.Normal stats; MorphologyStats.Tortuous stats;
     MorphologyStats.Enlarged stats; MorphologyStats.Giant stats;
     MorphologyStats.Ramified stats; MorphologyStats.Bizarre stats].

End Geometry.

(** ** Vocabulary of the specification *)

Module Spec.

(** Bounding-box dimensions of a blob. *)
Definition bboxWidth (blob : Detect.BlobStats) : Z :=
  Detect.maxX blob - Detect.minX blob + 1.

Definition bboxHeight (blob : Detect.BlobStats) : Z :=
  Detect.maxY blob - Detect.minY blob + 1.

(** The skyline column of a blob, and the number of columns of an image. *)
Definition column (cfg : Detect.Config) (blob : Detect.BlobStats) : Z :=
  Qfloor (Detect.centerX blob / inject_Z (Detect.columnWidth cfg))%Q.

Definition numColumns (cfg : Detect.Config) (imageWidth : Z) : Z :=
  Qceiling (inject_Z imageWidth / inject_Z (Detect.columnWidth cfg))%Q.

(** What the skyline array holds once the blobs in [pre] have been seen. *)
Definition skyline_inv (numColumns : Z) (pre : list Detect.BlobStats)
    (sk : list (option Detect.BlobStats)) : Prop :=
  length sk = Z.to_nat numColumns /\
  (forall i b, sk !! i = Some (Some b) ->
     b ∈ pre /\ column Detect.CONFIG b = Z.of_nat i /\
     forall b', b' ∈ pre -> column Detect.CONFIG b' = Z.of_nat i ->
                (Detect.centerY b' <= Detect.centerY b)%Q) /\
  (forall i, sk !! i = Some None ->
     forall b', b' ∈ pre -> column Detect.CONFIG b' <> Z.of_nat i).

(** The two solid rectangles of area 100. *)
Definition rect_5x20 : Detect.BlobStats :=
  {| Detect.area := 100; Detect.minX := 10; Detect.maxX := 14; Detect.minY := 30; Detect.maxY := 49;
     Detect.centerX := 12%Q; Detect.centerY := (79 # 2)%Q |}.

Definition rect_20x5 : Detect.BlobStats :=
  {| Detect.area := 100; Detect.minX := 40; Detect.maxX := 59; Detect.minY := 30; Detect.maxY := 34;
     Detect.centerX := (99 # 2)%Q; Detect.centerY := 32%Q |}.

(** Two blobs of the same skyline column, at centerY 100 and 200. *)
Definition blob_at_100 : Detect.BlobStats :=
  {| Detect.area := 150; Detect.minX := 115; Detect.maxX := 124;
     Detect.minY := 90; Detect.maxY := 109;
     Detect.centerX := 120%Q; Detect.centerY := 100%Q |}.

Definition blob_at_200 : Detect.BlobStats :=
  {| Detect.area := 150; Detect.minX := 125; Detect.maxX := 134;
     Detect.minY := 190; Detect.maxY := 209;
     Detect.centerX := 130%Q; Detect.centerY := 200%Q |}.

(** The default configuration with another threshold constant. *)
Definition with_c (c : Q) : Detect.Config :=
  {| Detect.resizeWidth := 800; Detect.windowSize := 15; Detect.c := c;
     Detect.minArea := 100; Detect.maxArea := 2000;
     Detect.minAspectRatio := (15 # 10)%Q; Detect.minSolidity := (6 # 10)%Q;
     Detect.columnWidth := 50 |}.

(** A [width] x [height] image whose every pixel is the opaque gray [v]. *)
Definition uniform_image (width height : nat) (v : Z) : Enhance.ImageData :=
  {| Enhance.width := width; Enhance.height := height;
     Enhance.data := concat (replicate (width * height) [v; v; v; 255]) |}.

(** The samples of a buffer are bytes. *)
Definition bytes (data : list Z) : Prop := Forall (fun v => 0 <= v <= 255) data.

(** The alpha samples of [enhanced] are those of [data]. *)
Definition same_alpha (data enhanced : list Z) : Prop :=
  length enhanced = length data /\
  forall j, (j mod 4 = 3)%nat -> enhanced !! j = data !! j.

(** *** Projection variance, as the specification words it

    [rnd] turns the rotated x-coordinate, the double [Deskew.rotX], into a
    column number. *)

(** Pixel coordinates (x, y) in raster order. *)
Definition coords (width height : nat) : list (nat * nat) :=
  y ← seq 0 height; (fun x => (x, y)) <$> seq 0 width.

Definition sumQ (l : list Q) : Q := foldr Qplus 0%Q l.

(** The edge intensities, among the pixels [l], that fall into column [i]. *)
Definition samples (rnd : Q -> Z) (pixels : list Z) (width height : nat)
    (sin cos : Q) (l : list (nat * nat)) (i : nat) : list Q :=
  (fun p => inject_Z (pixels !!! (p.2 * width + p.1)%nat)) <$>
    filter (fun p => rnd (Deskew.rotX width height sin cos p.1 p.2) = Z.of_nat i) l.


(** Variance of a list of numbers; 0 for the empty list. *)
Definition variance (means : list Q) : Q :=
  match means with
  | [] => 0%Q
  | _ =>
      let n := inject_Z (Z.of_nat (length means)) in
      (sumQ ((fun m => m * m) <$> means) / n - (sumQ means / n) * (sumQ means / n))%Q
  end.


(** The two accumulators of the projection once the pixels [l] have been
    visited: column sums and column counts (modulo 2^32). *)
Definition accumulated (pixels : list Z) (width height : nat) (sin cos : Q)
    (l : list (nat * nat)) (st : list Q * list Z) : Prop :=
  length st.1 = width /\ length st.2 = width /\
  forall i, (i < width)%nat ->
    exists p, st.1 !! i = Some p /\
              (p == sumQ (samples Qfloor pixels width height sin cos l i))%Q /\
              st.2 !! i = Some (Z.of_nat (length (samples Qfloor pixels width height sin cos l i))
                                mod 2 ^ 32).

(** The doubles [Math.sin] and [Math.cos] return at -10 degrees, to 17
    significant digits. *)
Definition sin_minus_10 : Q := (- 17364817766693033 # 100000000000000000)%Q.
Definition cos_minus_10 : Q := (984807753012208 # 1000000000000000)%Q.

(** The doubles [Math.sin] and [Math.cos] return at the angle
    -1.3877787807814457e-16 degrees, which the fine search reaches from
    the coarse angle -1: the sine is -6288211335136391 / 2^111. *)
Definition sin_tiny : Q := (- 6288211335136391 # 2596148429267413814265248164610048)%Q.
Definition cos_tiny : Q := 1%Q.

(** A 4x1 edge buffer with one bright sample. *)
Definition one_bright : list Z := [255; 0; 0; 0].

(** *** 4-connected components of a mask

    A pixel is a pair (x, y). *)

Definition index (width : nat) (p : nat * nat) : nat := (p.2 * width + p.1)%nat.

Definition in_image (width height : nat) (p : nat * nat) : Prop :=
  (p.1 < width)%nat /\ (p.2 < height)%nat.

(** Foreground: the sample of the mask at the pixel is not 0. *)
Definition fgb (binary : list Z) (width : nat) (p : nat * nat) : bool :=
  match binary !! index width p with
  | Some v => negb (v =? 0)
  | None => false
  end.

Definition foreground (binary : list Z) (width height : nat) (p : nat * nat) : Prop :=
  in_image width height p /\ fgb binary width p = true.

Definition adjacent4 (p q : nat * nat) : Prop :=
  (p.2 = q.2 /\ (p.1 = S q.1 \/ q.1 = S p.1)) \/
  (p.1 = q.1 /\ (p.2 = S q.2 \/ q.2 = S p.2)).

(** Two foreground pixels are in the same component when a chain of
    4-adjacent foreground pixels joins them. *)
Definition connected4 (binary : list Z) (width height : nat)
  : relation (nat * nat) :=
  rtc (fun p q => foreground binary width height p /\
                  foreground binary width height q /\ adjacent4 p q).

(** A foreground pixel with no foreground pixel to its left or above: the
    first pass allocates a fresh label exactly there. *)
Definition starts_label (binary : list Z) (width : nat) (p : nat * nat) : bool :=
  fgb binary width p &&
  negb ((0 <? p.1)%nat && fgb binary width ((p.1 - 1)%nat, p.2)) &&
  negb ((0 <? p.2)%nat && fgb binary width (p.1, (p.2 - 1)%nat)).

(** The distinct root labels of a label map. *)
Definition distinct_labels (labels : list nat) : list nat :=
  remove_dups (filter (fun l => l <> 0%nat) labels).

(** A U-shaped component: two arms joined by the bottom row. *)
Definition u_shape : list Z := [1; 0; 1; 1; 1; 1].

(** The label of a pixel in a label map. *)
Definition label_of (labels : list nat) (width : nat) (p : nat * nat) : nat :=
  Detect.label_at labels (index width p).

(** The state of the first pass when the first [k] pixels of the raster
    scan have been labelled. *)
Record cc_inv (binary : list Z) (width height : nat) (k : nat)
    (st : Detect.CCState) : Prop := {
  inv_labels_length : length (Detect.labels st) = (width * height)%nat;
  inv_parent_length : length (Detect.parent st) = S (Detect.currentLabel st);
  inv_label_fg : forall p,
    in_image width height p -> (index width p < k)%nat -> fgb binary width p = true ->
    (1 <= label_of (Detect.labels st) width p <= Detect.currentLabel st)%nat;
  inv_label_todo : forall i, (k <= i)%nat -> Detect.label_at (Detect.labels st) i = 0%nat;
  inv_label_bg : forall p,
    in_image width height p -> fgb binary width p = false ->
    label_of (Detect.labels st) width p = 0%nat;
  inv_forest : forall l, (l <= Detect.currentLabel st)%nat ->
    exists r, Detect.find (S k) (Detect.parent st) l = Some r /\ (1 <= l -> 1 <= r)%nat;
  inv_sound : forall p q,
    in_image width height p -> in_image width height q ->
    (index width p < k)%nat -> (index width q < k)%nat ->
    fgb binary width p = true -> fgb binary width q = true ->
    Detect.find (S (width * height)) (Detect.parent st) (label_of (Detect.labels st) width p)
    = Detect.find (S (width * height)) (Detect.parent st) (label_of (Detect.labels st) width q) ->
    connected4 binary width height p q;
  inv_complete : forall p q,
    in_image width height p -> in_image width height q ->
    (index width p < k)%nat -> (index width q < k)%nat ->
    fgb binary width p = true -> fgb binary width q = true ->
    adjacent4 p q ->
    Detect.find (S (width * height)) (Detect.parent st) (label_of (Detect.labels st) width p)
    = Detect.find (S (width * height)) (Detect.parent st) (label_of (Detect.labels st) width q);
  inv_count :
    Detect.currentLabel st
    = length (filter (fun p => starts_label binary width p = true)
                (take k (coords width height)))
}.

(** The code's [left] and [top] at pixel (x, y), and the labels of the
    visited foreground neighbours of that pixel. *)
Definition left_label (width : nat) (labels : list nat) (x y : nat) : nat :=
  if (0 <? x)%nat then Detect.label_at labels (y * width + (x - 1)) else 0%nat.

Definition top_label (width : nat) (labels : list nat) (x y : nat) : nat :=
  if (0 <? y)%nat then Detect.label_at labels ((y - 1) * width + x) else 0%nat.

Definition neighbour_label (width : nat) (labels : list nat) (x y l : nat) : Prop :=
  l <> 0%nat /\ (l = left_label width labels x y \/ l = top_label width labels x y).

(** What the second pass writes for a first-pass label [l]. *)
Definition resolve (fuel : nat) (parent : list nat) (l : nat) : nat :=
  if (0 <? l)%nat then default 0%nat (Detect.find fuel parent l) else l.

Definition sumZ (l : list Z) : Z := foldr Z.add 0 l.

(** The lookup table [applyCLAHE] builds, with clip limit 2.5, for a tile
    of 64 pixels: entry [i] is round (min i 63 * 255 / 63). *)
Definition full_tile_lut : list Z :=
  Eval vm_compute in Enhance.tileLUT (replicate 64 0) 8 8 (25 # 10)%Q 8 0 0.

(** A histogram: 256 counts, none negative. *)
Definition histogram (hist : list Z) : Prop :=
  length hist = 256%nat /\ Forall (fun n => 0 <= n) hist.

(** What the table of a full tile makes of the gray value [v]. *)
Definition washed_out (v : Z) : Z := full_tile_lut !!! Z.to_nat v.

(** *** Morphological opening, pixel by pixel *)

(** (x, y) is off the one-pixel border of the image. *)
Definition interior (width height x y : nat) : bool :=
  (1 <=? x)%nat && (x <? width - 1)%nat && (1 <=? y)%nat && (y <? height - 1)%nat.

(** The 3x3 cross centred at the interior pixel (x, y) lies in the mask. *)
Definition fits (binary : list Z) (width height x y : nat) : bool :=
  interior width height x y &&
  Detect.truthy (binary !! (y * width + x)%nat) &&
  Detect.truthy (binary !! (y * width + x - 1)%nat) &&
  Detect.truthy (binary !! (y * width + x + 1)%nat) &&
  Detect.truthy (binary !! (y * width + x - width)%nat) &&
  Detect.truthy (binary !! (y * width + x + width)%nat).

(** (x, y) is an interior pixel covered by a cross that lies in the mask. *)
Definition opened (binary : list Z) (width height x y : nat) : bool :=
  interior width height x y &&
  (fits binary width height x y ||
   fits binary width height (x - 1) y || fits binary width height (x + 1) y ||
   fits binary width height x (y - 1) || fits binary width height x (y + 1)).

(** One mask lies within another. *)
Definition submask (A B : list Z) : Prop :=
  forall i, Detect.truthy (A !! i) = true -> Detect.truthy (B !! i) = true.

(** A 3x3 mask that holds one cross. *)
Definition cross_3x3 : list Z := [0; 1; 0; 1; 1; 1; 0; 1; 0].

(** *** Adaptive threshold, pixel by pixel *)

(** The sum of the samples of row [y] over the columns [xa, xb). *)
Definition rowSum (gray : list Z) (width y xa xb : nat) : Z :=
  sumZ ((fun x => gray !!! (y * width + x)%nat) <$> seq xa (xb - xa)).

(** The sum of the samples over the rectangle [xa, xb) x [ya, yb). *)
Definition rectSum (gray : list Z) (width xa xb ya yb : nat) : Z :=
  sumZ ((fun y => rowSum gray width y xa xb) <$> seq ya (yb - ya)).

(** The window of half-width [offset] around the coordinate [x], clipped
    to [0, n): it runs from [windowLo] up to but not including
    [windowHi]. *)
Definition windowLo (offset : Z) (x : nat) : nat :=
  Z.to_nat (Z.max 0 (Z.of_nat x - offset)).

Definition windowHi (offset : Z) (n x : nat) : nat :=
  S (Z.to_nat (Z.min (Z.of_nat n - 1) (Z.of_nat x + offset))).

(** The mean of the samples in the clipped window of the pixel (x, y). *)
Definition windowMean (cfg : Detect.Config) (gray : list Z) (width height x y : nat) : Q :=
  let offset := Detect.windowSize cfg / 2 in
  let xa := windowLo offset x in
  let xb := windowHi offset width x in
  let ya := windowLo offset y in
  let yb := windowHi offset height y in
  (inject_Z (rectSum gray width xa xb ya yb)
   / inject_Z (Z.of_nat (xb - xa) * Z.of_nat (yb - ya)))%Q.

(** 1 where the sample exceeds the mean of its window by more than the
    constant [c], 0 elsewhere. *)
Definition thresholded (cfg : Detect.Config) (gray : list Z) (width height x y : nat) : Z :=
  if JS.Qltb (windowMean cfg gray width height x y + Detect.c cfg)%Q
             (inject_Z (gray !!! (y * width + x)%nat))
  then 1 else 0.

(** *** Blobs *)

(** The pixels that carry [label] in a label map, in raster order. *)
Definition pixels_of (labels : list nat) (label width height : nat) : list (nat * nat) :=
  filter (fun p => labels !! index width p = Some label) (coords width height).

(** The accumulators of [analyzeBlob] once the pixels in [l] have been
    found to carry the label. *)
Record blob_inv (width height : nat) (l : list (nat * nat)) (acc : Detect.BlobAcc)
  : Prop := {
  blob_area : Detect.acc_area acc = Z.of_nat (length l);
  blob_sumX : Detect.acc_sumX acc = sumZ ((fun p => Z.of_nat p.1) <$> l);
  blob_sumY : Detect.acc_sumY acc = sumZ ((fun p => Z.of_nat p.2) <$> l);
  blob_box : forall p, p ∈ l ->
    Detect.acc_minX acc <= Z.of_nat p.1 <= Detect.acc_maxX acc /\
    Detect.acc_minY acc <= Z.of_nat p.2 <= Detect.acc_maxY acc;
  blob_none : l = [] ->
    Detect.acc_minX acc = Z.of_nat width /\ Detect.acc_maxX acc = 0 /\
    Detect.acc_minY acc = Z.of_nat height /\ Detect.acc_maxY acc = 0;
  blob_tight : l <> [] ->
    (exists p, p ∈ l /\ Z.of_nat p.1 = Detect.acc_minX acc) /\
    (exists p, p ∈ l /\ Z.of_nat p.1 = Detect.acc_maxX acc) /\
    (exists p, p ∈ l /\ Z.of_nat p.2 = Detect.acc_minY acc) /\
    (exists p, p ∈ l /\ Z.of_nat p.2 = Detect.acc_maxY acc)
}.

(** The blob of a label that no pixel carries. *)
Definition empty_blob (width height : nat) : Detect.BlobStats :=
  {| Detect.area := 0;
     Detect.minX := Z.of_nat width; Detect.maxX := 0;
     Detect.minY := Z.of_nat height; Detect.maxY := 0;
     Detect.centerX := 0%Q; Detect.centerY := 0%Q |}.

(** The samples of [n] pixels of one colour. *)
Definition flat_pixels (n : nat) (r g b a : Z) : list Z :=
  concat (replicate n [r; g; b; a]).

(** The exact luminance [0.299 r + 0.587 g + 0.114 b]. *)
Definition luma (r g b : Z) : Q :=
  ((299 # 1000) * inject_Z r + (587 # 1000) * inject_Z g + (114 # 1000) * inject_Z b)%Q.

(** *** Enhancement, pixel by pixel *)

(** The sample of channel [c] of the pixel (x, y) in an RGBA buffer. *)
Definition sample (data : list Z) (width x y c : nat) : option Z :=
  data !! ((y * width + x) * 4 + c)%nat.

(** (x, y) lies on the one-pixel border of the image. *)
Definition on_border (width height x y : nat) : Prop :=
  x = 0%nat \/ y = 0%nat \/ x = (width - 1)%nat \/ y = (height - 1)%nat.

(** The tone curve that [applyCLAHE], with clip limit 2.5 and tile size 8,
    applies to the colour (r, g, b) of a pixel of an image made of full
    tiles: the gray level goes through the table of a full tile, and the
    colour is scaled by the ratio of the new level to the luminance, all
    in double arithmetic. *)
Definition tone (r g b : Z) : Z * Z * Z :=
  let l := JS.luminance r g b in
  let newVal := washed_out (JS.round l) in
  if JS.Qltb 0 l then
    let ratio := JS.quot (inject_Z newVal) l in
    (Z.min 255 (JS.round (JS.mul (inject_Z r) ratio)),
     Z.min 255 (JS.round (JS.mul (inject_Z g) ratio)),
     Z.min 255 (JS.round (JS.mul (inject_Z b) ratio)))
  else (newVal, newVal, newVal).

(** *** Edges *)

(** The horizontal Sobel gradient at the interior pixel (x, y). *)
Definition gradientX (gray : list Z) (width x y : nat) : Z :=
  let at_ (x y : nat) := gray !!! (y * width + x)%nat in
  - at_ (x - 1)%nat (y - 1)%nat + at_ (x + 1)%nat (y - 1)%nat
  - 2 * at_ (x - 1)%nat y + 2 * at_ (x + 1)%nat y
  - at_ (x - 1)%nat (y + 1)%nat + at_ (x + 1)%nat (y + 1)%nat.

(** Every row of the image holds one gray level. *)
Definition flat_rows (gray : list Z) (width height : nat) : Prop :=
  forall x x' y, (x < width)%nat -> (x' < width)%nat -> (y < height)%nat ->
    gray !! (y * width + x)%nat = gray !! (y * width + x')%nat.

(** A 3x3 image with a vertical step edge. *)
Definition step_edge : list Z := [0; 0; 90; 0; 0; 90; 0; 0; 90].

(** *** Loop classification *)

(** The loops run from left to right. *)
Fixpoint sorted_by_x (l : list Geometry.Loop) : Prop :=
  match l with
  | [] => True
  | a :: l' => Forall (fun b => (Geometry.x a <= Geometry.x b)%Q) l' /\ sorted_by_x l'
  end.

(** A loop with its flag forgotten. *)
Definition unflagged (loop : Geometry.Loop) : Geometry.Loop :=
  Geometry.with_outermost loop true.

Definition point (loop : Geometry.Loop) : Q * Q := (Geometry.x loop, Geometry.y loop).

(** The flag that the loop at [index] of the sorted list gets. *)
Definition outermost_flag (calculateAngle : Q * Q -> Q * Q -> Q * Q -> Q)
    (sortedLoops : list Geometry.Loop) (index : nat) (loop : Geometry.Loop) : bool :=
  if (index =? 0)%nat || (index =? length sortedLoops - 1)%nat then true
  else
    match sortedLoops !! (index - 1)%nat, sortedLoops !! (index + 1)%nat with
    | Some prev, Some next =>
        if JS.Qltb (Geometry.y prev) (Geometry.y loop)
           && JS.Qltb (Geometry.y next) (Geometry.y loop)
        then JS.Qltb 90 (calculateAngle (point prev) (point loop) (point next))
        else true
    | _, _ => true
    end.

(** The counter of one morphology. *)
Definition count_of (m : Geometry.Morphology) (stats : Geometry.MorphologyStats.t) : Z :=
  match m with
  | Geometry.Normal => Geometry.MorphologyStats.Normal stats
  | Geometry.Tortuous => Geometry.MorphologyStats.Tortuous stats
  | Geometry.Enlarged => Geometry.MorphologyStats.Enlarged stats
  | Geometry.Giant => Geometry.MorphologyStats.Giant stats
  | Geometry.Ramified => Geometry.MorphologyStats.Ramified stats
  | Geometry.Bizarre => Geometry.MorphologyStats.Bizarre stats
  end.

(** Three loops in a row, the middle one lower than its neighbours. *)
Definition loop_at (x y : Q) (m : Geometry.Morphology) : Geometry.Loop :=
  {| Geometry.id := String.EmptyString; Geometry.x := x; Geometry.y := y;
     Geometry.morphology := m; Geometry.diameter := 0; Geometry.isOutermost := false |}.

Definition retracted_row : list Geometry.Loop :=
  [loop_at 30 10 Geometry.Normal; loop_at 10 10 Geometry.Giant;
   loop_at 20 50 Geometry.Normal].

(** A white 12x20 image with a black bar, 8 pixels wide and 14 high. *)
Definition bar_image : list Z :=
  concat ((fun p : nat * nat =>
             if (2 <=? p.1)%nat && (p.1 <=? 9)%nat && (3 <=? p.2)%nat && (p.2 <=? 16)%nat
             then [0; 0; 0; 255] else [255; 255; 255; 255]) <$> coords 12 20).

(** A 2x1 image: a dark pixel and a bright one. *)
Definition two_pixels : Enhance.ImageData :=
  {| Enhance.width := 2; Enhance.height := 1;
     Enhance.data := [10; 20; 30; 255; 200; 210; 220; 255] |}.

(** A dark 2x2 image with one bright corner. *)
Definition bright_corner : list Z := [10; 10; 10; 200].

End Spec.

(** * Verification *)

Import Detect.

(** ** Loops *)

Section Loops.
Context {St : Type}.

Lemma for_range_empty (lo hi : nat) (body : nat -> St -> St) (s : St) :
  (hi <= lo)%nat -> JS.for_range lo hi body s = s.
Proof.
  intros Hle. unfold JS.for_range.
  replace (hi - lo)%nat with 0%nat by lia. reflexivity.
Qed.

Lemma for_range_snoc (lo hi : nat) (body : nat -> St -> St) (s : St) :
  (lo <= hi)%nat ->
  JS.for_range lo (S hi) body s = body hi (JS.for_range lo hi body s).
Proof.
  intros Hle. unfold JS.for_range.
  replace (S hi - lo)%nat with (S (hi - lo)) by lia.
  rewrite seq_S, foldl_app. simpl. f_equal. lia.
Qed.

Lemma for_range_ind (P : nat -> St -> Prop) (lo hi : nat) (body : nat -> St -> St) (s : St) :
  (lo <= hi)%nat ->
  P lo s ->
  (forall i t, (lo <= i < hi)%nat -> P i t -> P (S i) (body i t)) ->
  P hi (JS.for_range lo hi body s).
Proof.
  intros Hle H0 Hstep. induction hi as [|hi IH].
  - assert (lo = 0%nat) by lia. subst. rewrite for_range_empty by lia. exact H0.
  - destruct (decide (lo = S hi)) as [->|Hne].
    + rewrite for_range_empty by lia. exact H0.
    + rewrite for_range_snoc by lia. apply Hstep; [lia|].
      apply IH; [lia|]. intros i t Hi. apply Hstep. lia.
Qed.

Lemma for_rangeM_empty (lo hi : nat) (body : nat -> St -> option St) (s : St) :
  (hi <= lo)%nat -> JS.for_rangeM lo hi body s = Some s.
Proof.
  intros Hle. unfold JS.for_rangeM.
  replace (hi - lo)%nat with 0%nat by lia. reflexivity.
Qed.

Lemma for_rangeM_snoc (lo hi : nat) (body : nat -> St -> option St) (s : St) :
  (lo <= hi)%nat ->
  JS.for_rangeM lo (S hi) body s = JS.for_rangeM lo hi body s ≫= body hi.
Proof.
  intros Hle. unfold JS.for_rangeM.
  replace (S hi - lo)%nat with (S (hi - lo)) by lia.
  rewrite seq_S, foldl_app. simpl.
  replace (lo + (hi - lo))%nat with hi by lia. reflexivity.
Qed.

Lemma for_rangeM_ind (P : nat -> St -> Prop) (lo hi : nat)
    (body : nat -> St -> option St) (s : St) :
  (lo <= hi)%nat ->
  P lo s ->
  (forall i t, (lo <= i < hi)%nat -> P i t -> exists t', body i t = Some t' /\ P (S i) t') ->
  exists t, JS.for_rangeM lo hi body s = Some t /\ P hi t.
Proof.
  intros Hle H0 Hstep. induction hi as [|hi IH].
  - assert (lo = 0%nat) by lia. subst. rewrite for_rangeM_empty by lia. eauto.
  - destruct (decide (lo = S hi)) as [->|Hne].
    + rewrite for_rangeM_empty by lia. eauto.
    + rewrite for_rangeM_snoc by lia.
      destruct IH as (t & -> & Ht); [lia| |].
      { intros i u Hi. apply Hstep. lia. }
      simpl. apply Hstep; [lia|exact Ht].
Qed.

(** A raster scan: the invariant is indexed by the number of pixels
    already visited. *)
Lemma raster_ind (P : nat -> St -> Prop) (w h : nat) (body : nat -> nat -> St -> St) (s : St) :
  P 0%nat s ->
  (forall y x t, (y < h)%nat -> (x < w)%nat ->
     P (y * w + x)%nat t -> P (S (y * w + x)) (body y x t)) ->
  P (h * w)%nat (JS.for_range 0 h (fun y t => JS.for_range 0 w (body y) t) s).
Proof.
  intros H0 Hstep.
  apply (for_range_ind (fun y t => P (y * w)%nat t)); [lia|exact H0|].
  intros y t Hy Ht.
  replace (S y * w)%nat with (y * w + w)%nat by lia.
  apply (for_range_ind (fun x t => P (y * w + x)%nat t)); [lia| |].
  - replace (y * w + 0)%nat with (y * w)%nat by lia. exact Ht.
  - intros x u Hx Hu. replace (y * w + S x)%nat with (S (y * w + x)) by lia.
    apply Hstep; [lia|lia|exact Hu].
Qed.

Lemma raster_indM (P : nat -> St -> Prop) (w h : nat)
    (body : nat -> nat -> St -> option St) (s : St) :
  P 0%nat s ->
  (forall y x t, (y < h)%nat -> (x < w)%nat ->
     P (y * w + x)%nat t -> exists t', body y x t = Some t' /\ P (S (y * w + x)) t') ->
  exists t, JS.for_rangeM 0 h (fun y t => JS.for_rangeM 0 w (body y) t) s = Some t
            /\ P (h * w)%nat t.
Proof.
  intros H0 Hstep.
  apply (for_rangeM_ind (fun y t => P (y * w)%nat t)); [lia|exact H0|].
  intros y t Hy Ht.
  replace (S y * w)%nat with (y * w + w)%nat by lia.
  apply (for_rangeM_ind (fun x t => P (y * w + x)%nat t)); [lia| |].
  - replace (y * w + 0)%nat with (y * w)%nat by lia. exact Ht.
  - intros x u Hx Hu. replace (y * w + S x)%nat with (S (y * w + x)) by lia.
    apply Hstep; [lia|lia|exact Hu].
Qed.

End Loops.

(** An invariant that does not depend on the loop counter. *)
Lemma for_range_inv {St : Type} (P : St -> Prop) (lo hi : nat)
    (body : nat -> St -> St) (s : St) :
  P s ->
  (forall i t, (lo <= i < hi)%nat -> P t -> P (body i t)) ->
  P (JS.for_range lo hi body s).
Proof.
  intros H0 Hstep. destruct (decide (lo <= hi)%nat) as [Hle|Hgt].
  - apply (for_range_ind (fun _ t => P t)); assumption.
  - rewrite for_range_empty by lia. exact H0.
Qed.

(** A loop whose body leaves the state alone. *)
Lemma for_range_fixed {St : Type} (lo hi : nat) (body : nat -> St -> St) (s : St) :
  (forall i, (lo <= i < hi)%nat -> body i s = s) ->
  JS.for_range lo hi body s = s.
Proof.
  intros Hfix. destruct (decide (lo <= hi)%nat) as [Hle|Hgt].
  - apply (for_range_ind (fun _ t => t = s)); [exact Hle|reflexivity|].
    intros i t Hi ->. apply Hfix. exact Hi.
  - apply for_range_empty. lia.
Qed.

(** ** Rational comparisons *)

Lemma Qltb_true (a b : Q) : JS.Qltb a b = true <-> (a < b)%Q.
Proof.
  unfold JS.Qltb. rewrite negb_true_iff.
  destruct (Qle_bool b a) eqn:E.
  - apply Qle_bool_iff in E. split; [discriminate|]. intros H. exfalso.
    apply (Qlt_not_le _ _ H E).
  - split; [|reflexivity]. intros _. apply Qnot_le_lt. intros H.
    apply Qle_bool_iff in H. congruence.
Qed.

Lemma Qltb_false (a b : Q) : JS.Qltb a b = false <-> (b <= a)%Q.
Proof.
  unfold JS.Qltb. rewrite negb_false_iff. apply Qle_bool_iff.
Qed.

Lemma div_finite (a b : Q) : ~ (b == 0)%Q -> JS.div a b = JS.Fin (a / b)%Q.
Proof.
  intros Hb. unfold JS.div.
  destruct (Qeq_bool b 0) eqn:E; [|reflexivity].
  apply Qeq_bool_iff in E. contradiction.
Qed.

Lemma inject_Z_nonzero (z : Z) : z <> 0 -> ~ (inject_Z z == 0)%Q.
Proof.
  intros Hz H. apply Hz. unfold Qeq in H. simpl in H. lia.
Qed.

(** ** Doubles *)

Lemma nearest_even_error (q : Q) :
  (q - (1 # 2) <= inject_Z (JS.nearest_even q) <= q + (1 # 2))%Q.
Proof.
  unfold JS.nearest_even.
  pose proof (Qfloor_le q) as Hlo. pose proof (Qlt_floor q) as Hhi.
  rewrite inject_Z_plus in Hhi. change (inject_Z 1) with 1%Q in Hhi.
  destruct (q - inject_Z (Qfloor q) ?= 1 # 2)%Q eqn:E.
  - apply Qeq_alt in E. destruct (Z.even (Qfloor q)).
    + lra.
    + rewrite inject_Z_plus. change (inject_Z 1) with 1%Q. lra.
  - apply Qlt_alt in E. lra.
  - apply Qgt_alt in E. rewrite inject_Z_plus. change (inject_Z 1) with 1%Q. lra.
Qed.

Lemma two_power_pos (e : Z) : (0 < 2 ^ e)%Q.
Proof. apply Qpower_0_lt. reflexivity. Qed.

Lemma two_power_Z (n : Z) : 0 <= n -> (inject_Z (2 ^ n) == 2 ^ n)%Q.
Proof. intros Hn. rewrite Zpower_Qpower by exact Hn. reflexivity. Qed.

Lemma Qabs_fraction (q : Q) :
  (Qabs q == inject_Z (Z.abs (Qnum q)) / inject_Z (Zpos (Qden q)))%Q.
Proof.
  destruct q as [n d]. unfold Qabs. cbn [Qnum Qden].
  rewrite (Qmake_Qdiv (Z.abs n) d). reflexivity.
Qed.

Lemma scale_down_le (X D d : Q) : (0 < X -> 0 < d -> d <= D -> X / D * d <= X)%Q.
Proof.
  intros HX Hd HD. assert (HD0 : (0 < D)%Q) by lra.
  set (r := (X / D)%Q). assert (Hr : (r * D == X)%Q) by (unfold r; field; lra).
  assert (Hr0 : (0 < r)%Q).
  { unfold r. apply Qlt_shift_div_l; [exact HD0|]. lra. }
  nra.
Qed.

Lemma scale_up_le (X D d : Q) : (0 < X -> 0 < D -> D <= d -> X <= X / D * d)%Q.
Proof.
  intros HX HD Hd.
  set (r := (X / D)%Q). assert (Hr : (r * D == X)%Q) by (unfold r; field; lra).
  assert (Hr0 : (0 < r)%Q).
  { unfold r. apply Qlt_shift_div_l; [exact HD|]. lra. }
  nra.
Qed.

(** [JS.exponent] is the binary exponent: the significand that [JS.fl]
    rounds lies in [2^52, 2^53). *)
Lemma exponent_spec (q : Q) :
  ~ (q == 0)%Q -> (2 ^ JS.exponent q <= Qabs q < 2 ^ (JS.exponent q + 1))%Q.
Proof.
  intros Hq. unfold JS.exponent.
  set (n := Z.abs (Qnum q)). set (d := Zpos (Qden q)).
  assert (Hn : 0 < n).
  { subst n. destruct q as [[|p|p] dq]; cbn; try lia. exfalso. apply Hq. reflexivity. }
  assert (Hd : 0 < d) by (subst d; lia).
  pose proof (Z.log2_spec n Hn) as [Hn1 Hn2]. pose proof (Z.log2_spec d Hd) as [Hd1 Hd2].
  pose proof (Z.log2_nonneg n) as Hln. pose proof (Z.log2_nonneg d) as Hld.
  assert (Habs : (Qabs q == inject_Z n / inject_Z d)%Q) by apply Qabs_fraction.
  assert (Hdq : (0 < inject_Z d)%Q) by (change 0%Q with (inject_Z 0); rewrite <- Zlt_Qlt; lia).
  assert (Hnq : (0 < inject_Z n)%Q) by (change 0%Q with (inject_Z 0); rewrite <- Zlt_Qlt; lia).
  set (ln := Z.log2 n) in *. set (ld := Z.log2 d) in *.
  assert (Q1 : (2 ^ ln <= inject_Z n)%Q)
    by (rewrite <- two_power_Z by lia; rewrite <- Zle_Qle; lia).
  assert (Q2 : (inject_Z n < 2 ^ (ln + 1))%Q)
    by (rewrite <- two_power_Z by lia; rewrite <- Zlt_Qlt;
        replace (ln + 1) with (Z.succ ln) by lia; lia).
  assert (Q3 : (2 ^ ld <= inject_Z d)%Q)
    by (rewrite <- two_power_Z by lia; rewrite <- Zle_Qle; lia).
  assert (Q4 : (inject_Z d < 2 ^ (ld + 1))%Q)
    by (rewrite <- two_power_Z by lia; rewrite <- Zlt_Qlt;
        replace (ld + 1) with (Z.succ ld) by lia; lia).
  assert (Hne : ~ (2 == 0)%Q) by discriminate.
  assert (Hlow : (2 ^ (ln - ld - 1) <= Qabs q)%Q).
  { rewrite Habs. apply Qle_shift_div_l; [exact Hdq|].
    replace (ln - ld - 1) with (ln - (ld + 1)) by lia.
    rewrite Qpower_minus by exact Hne.
    apply Qle_trans with (2 ^ ln)%Q; [|exact Q1].
    apply scale_down_le; [apply two_power_pos|exact Hdq|lra]. }
  assert (Hhigh : (Qabs q < 2 ^ (ln - ld + 1))%Q).
  { rewrite Habs. apply Qlt_shift_div_r; [exact Hdq|].
    replace (ln - ld + 1) with (ln + 1 - ld) by lia.
    rewrite Qpower_minus by exact Hne.
    apply Qlt_le_trans with (2 ^ (ln + 1))%Q; [exact Q2|].
    apply scale_up_le; [apply two_power_pos|apply two_power_pos|exact Q3]. }
  destruct (Qle_bool (2 ^ (ln - ld)) (Qabs q)) eqn:E.
  - apply Qle_bool_iff in E. split; [exact E|exact Hhigh].
  - split; [exact Hlow|].
    replace (ln - ld - 1 + 1) with (ln - ld) by lia.
    apply Qnot_le_lt. intros H. apply Qle_bool_iff in H. congruence.
Qed.

(** The error of one rounding is at most 2^-53, relative to the number
    rounded. *)
Lemma fl_error (q : Q) : (Qabs (JS.fl q - q) <= Qabs q * JS.epsilon)%Q.
Proof.
  unfold JS.fl. destruct (Qeq_bool q 0) eqn:E.
  - apply Qeq_bool_iff in E. rewrite E. vm_compute. discriminate.
  - assert (Hq : ~ (q == 0)%Q).
    { intros H. apply Qeq_bool_iff in H. congruence. }
    cbv zeta. rewrite Qred_correct.
    pose proof (exponent_spec q Hq) as [Hlo _].
    set (e := JS.exponent q) in *.
    set (ulp := (2 ^ (e - 52))%Q).
    assert (Hulp : (0 < ulp)%Q) by apply two_power_pos.
    assert (Hsplit : (2 ^ e == ulp * (2 ^ 52))%Q).
    { unfold ulp. rewrite <- Qpower_plus by discriminate.
      replace (e - 52 + 52) with e by lia. reflexivity. }
    pose proof (nearest_even_error (q / ulp)) as [H1 H2].
    set (m := inject_Z (JS.nearest_even (q / ulp))) in *.
    set (s := (q / ulp)%Q) in *.
    assert (Hs : (s * ulp == q)%Q) by (unfold s; field; lra).
    assert (Habs : (ulp * (2 ^ 52) <= Qabs q)%Q) by (rewrite <- Hsplit; exact Hlo).
    change (2 ^ 52)%Q with 4503599627370496%Q in Habs.
    apply Qabs_Qle_condition. unfold JS.epsilon.
    set (A := Qabs q) in *.
    split; nra.
Qed.

(** The same, for a number of magnitude at most [M]. *)
Lemma fl_near (q M : Q) :
  (- M <= q <= M)%Q ->
  (q - M * JS.epsilon <= JS.fl q <= q + M * JS.epsilon)%Q.
Proof.
  intros HM. pose proof (fl_error q) as He.
  assert (Hq : (Qabs q <= M)%Q) by (apply Qabs_Qle_condition; exact HM).
  apply Qabs_Qle_condition in He.
  assert (Heps : (0 < JS.epsilon)%Q) by reflexivity.
  set (A := Qabs q) in *. set (e := JS.epsilon) in *.
  assert (HA : (0 <= A)%Q) by apply Qabs_nonneg.
  split; nra.
Qed.

(** Zero is a double. *)
Lemma fl_zero (q : Q) : (q == 0)%Q -> JS.fl q = 0%Q.
Proof.
  intros Hq. unfold JS.fl. apply Qeq_bool_iff in Hq. rewrite Hq. reflexivity.
Qed.

(** Some doubles: 0.1 and 1/3, and two ties, which go to the even
    significand. *)
Lemma fl_examples :
  JS.fl (1 # 10) = (3602879701896397 # 36028797018963968)%Q /\
  JS.fl (1 # 3) = (6004799503160661 # 18014398509481984)%Q /\
  JS.fl 9007199254740993 = 9007199254740992%Q /\
  JS.fl (-9007199254740995) = (-9007199254740996)%Q.
Proof. repeat split; vm_compute; reflexivity. Qed.

(** The three coefficients of the luminance, as doubles. *)
Lemma fl_299 : JS.fl (299 # 1000) = (5386305154335113 # 18014398509481984)%Q.
Proof. vm_compute. reflexivity. Qed.

Lemma fl_587 : JS.fl (587 # 1000) = (2643612981266481 # 4503599627370496)%Q.
Proof. vm_compute. reflexivity. Qed.

Lemma fl_114 : JS.fl (114 # 1000) = (8214565720323785 # 72057594037927936)%Q.
Proof. vm_compute. reflexivity. Qed.

Lemma byte_Q (v : Z) : 0 <= v <= 255 -> (0 <= inject_Z v <= 255)%Q.
Proof.
  intros [H1 H2]. split.
  - change 0%Q with (inject_Z 0). rewrite <- Zle_Qle. exact H1.
  - change 255%Q with (inject_Z 255). rewrite <- Zle_Qle. exact H2.
Qed.

(** The double luminance of a colour is within 2^-40 of the exact one. *)
Lemma luminance_error (r g b : Z) :
  0 <= r <= 255 -> 0 <= g <= 255 -> 0 <= b <= 255 ->
  (Spec.luma r g b - (1 # 1099511627776) <= JS.luminance r g b
   <= Spec.luma r g b + (1 # 1099511627776))%Q.
Proof.
  intros Hr Hg Hb. apply byte_Q in Hr, Hg, Hb.
  unfold JS.luminance, JS.add, JS.mul, Spec.luma. rewrite fl_299, fl_587, fl_114.
  set (R := inject_Z r) in *. set (G := inject_Z g) in *. set (B := inject_Z b) in *.
  set (c1 := (5386305154335113 # 18014398509481984)%Q).
  set (c2 := (2643612981266481 # 4503599627370496)%Q).
  set (c3 := (8214565720323785 # 72057594037927936)%Q).
  pose proof (fl_near (c1 * R) 256 ltac:(unfold c1; split; lra)) as H1.
  pose proof (fl_near (c2 * G) 256 ltac:(unfold c2; split; lra)) as H2.
  pose proof (fl_near (c3 * B) 256 ltac:(unfold c3; split; lra)) as H3.
  unfold JS.epsilon in *.
  set (p1 := JS.fl (c1 * R)) in *. set (p2 := JS.fl (c2 * G)) in *.
  set (p3 := JS.fl (c3 * B)) in *.
  pose proof (fl_near (p1 + p2) 512 ltac:(unfold c1, c2 in *; split; lra)) as H4.
  unfold JS.epsilon in *. set (s := JS.fl (p1 + p2)) in *.
  pose proof (fl_near (s + p3) 512 ltac:(unfold c1, c2, c3 in *; split; lra)) as H5.
  unfold JS.epsilon in *. unfold c1, c2, c3 in *. lra.
Qed.

Lemma luma_bounds (r g b : Z) :
  0 <= r <= 255 -> 0 <= g <= 255 -> 0 <= b <= 255 ->
  (0 <= Spec.luma r g b <= 255)%Q.
Proof.
  intros Hr Hg Hb. apply byte_Q in Hr, Hg, Hb. unfold Spec.luma. lra.
Qed.

Lemma Qfloor_unique (q : Q) (z : Z) :
  (inject_Z z <= q)%Q -> (q < inject_Z (z + 1))%Q -> Qfloor q = z.
Proof.
  intros Hlo Hhi.
  pose proof (Qfloor_le q) as Hfl. pose proof (Qlt_floor q) as Hfu.
  assert (H1 : z < Qfloor q + 1).
  { rewrite Zlt_Qlt. eapply Qle_lt_trans; eassumption. }
  assert (H2 : Qfloor q < z + 1).
  { rewrite Zlt_Qlt. eapply Qle_lt_trans; eassumption. }
  lia.
Qed.

(** [Math.round] of a double that is less than one half away from an
    integer. *)
Lemma round_near (q : Q) (z : Z) :
  (inject_Z z - (1 # 2) <= q < inject_Z z + (1 # 2))%Q -> JS.round q = z.
Proof.
  intros [H1 H2]. unfold JS.round. apply Qfloor_unique.
  - lra.
  - rewrite inject_Z_plus. change (inject_Z 1) with 1%Q. lra.
Qed.

(** The double luminance of a gray pixel rounds to its level. *)
Lemma luminance_gray (v : Z) :
  0 <= v <= 255 ->
  JS.round (JS.luminance v v v) = v /\
  (inject_Z v - (1 # 1099511627776) <= JS.luminance v v v
   <= inject_Z v + (1 # 1099511627776))%Q.
Proof.
  intros Hv. pose proof (luminance_error v v v Hv Hv Hv) as He.
  assert (Hl : (Spec.luma v v v == inject_Z v)%Q) by (unfold Spec.luma; ring).
  rewrite Hl in He. split; [|exact He]. apply round_near. lra.
Qed.

(** Rounding keeps the sign. *)
Lemma fl_nonneg (q : Q) : (0 <= q)%Q -> (0 <= JS.fl q)%Q.
Proof.
  intros Hq. pose proof (fl_near q q ltac:(split; lra)) as [H _].
  unfold JS.epsilon in H. nra.
Qed.

(** [Math.round] of a number between two integers. *)
Lemma round_range (q : Q) (lo hi : Z) :
  (inject_Z lo - (1 # 2) <= q)%Q -> (q < inject_Z hi + (1 # 2))%Q ->
  lo <= JS.round q <= hi.
Proof.
  intros Hlo Hhi. unfold JS.round.
  pose proof (Qfloor_le (q + (1 # 2))) as Hfl. pose proof (Qlt_floor (q + (1 # 2))) as Hfu.
  rewrite inject_Z_plus in Hfu. change (inject_Z 1) with 1%Q in Hfu.
  split.
  - assert (H : lo < Qfloor (q + (1 # 2)) + 1).
    { rewrite Zlt_Qlt, inject_Z_plus. change (inject_Z 1) with 1%Q. lra. }
    lia.
  - assert (H : Qfloor (q + (1 # 2)) < hi + 1).
    { rewrite Zlt_Qlt, inject_Z_plus. change (inject_Z 1) with 1%Q. lra. }
    lia.
Qed.

(** The rounded double luminance of a colour is a byte. *)
Lemma luminance_round_byte (r g b : Z) :
  0 <= r <= 255 -> 0 <= g <= 255 -> 0 <= b <= 255 ->
  0 <= JS.round (JS.luminance r g b) <= 255.
Proof.
  intros Hr Hg Hb. pose proof (luminance_error r g b Hr Hg Hb) as He.
  pose proof (luma_bounds r g b Hr Hg Hb) as Hl.
  apply round_range.
  - change (inject_Z 0) with 0%Q. lra.
  - change (inject_Z 255) with 255%Q. lra.
Qed.

(** ** Blob validation *)

Lemma isValidLoop_unfold (blob : BlobStats) :
  0 < Spec.bboxWidth blob -> 0 < Spec.bboxHeight blob ->
  isValidLoop CONFIG blob =
    negb ((area blob <? 100) || (area blob >? 2000)) &&
    negb (JS.Qltb (inject_Z (Spec.bboxHeight blob) / inject_Z (Spec.bboxWidth blob)) (15 # 10)) &&
    negb (JS.Qltb (inject_Z (area blob) /
                   inject_Z (Spec.bboxWidth blob * Spec.bboxHeight blob)) (6 # 10)).
Proof.
  intros Hw Hh. unfold isValidLoop, Spec.bboxWidth, Spec.bboxHeight in *. simpl.
  rewrite !div_finite by (apply inject_Z_nonzero; nia). simpl.
  destruct ((area blob <? 100) || (area blob >? 2000)); simpl; [reflexivity|].
  destruct (JS.Qltb _ (15 # 10)); simpl; [reflexivity|].
  destruct (JS.Qltb _ (6 # 10)); reflexivity.
Qed.

(** C4. [isValidLoop] accepts a blob exactly when its area lies in
    [100, 2000], its bounding-box aspect ratio height/width is at least 1.5
    and its solidity area/(width*height) is at least 0.6.  Of two solid
    rectangles of area 100, the one 5 wide and 20 tall is accepted and the
    one 20 wide and 5 tall is rejected. *)
Theorem isValidLoop_accepts_iff :
  (forall blob : BlobStats,
     minX blob <= maxX blob -> minY blob <= maxY blob ->
     isValidLoop CONFIG blob = true <->
       100 <= area blob <= 2000 /\
       (15 # 10 <= inject_Z (Spec.bboxHeight blob) / inject_Z (Spec.bboxWidth blob))%Q /\
       (6 # 10 <= inject_Z (area blob) /
                  inject_Z (Spec.bboxWidth blob * Spec.bboxHeight blob))%Q) /\
  (forall blob : BlobStats,
     area blob = 100 -> Spec.bboxWidth blob = 5 -> Spec.bboxHeight blob = 20 ->
     isValidLoop CONFIG blob = true) /\
  (forall blob : BlobStats,
     area blob = 100 -> Spec.bboxWidth blob = 20 -> Spec.bboxHeight blob = 5 ->
     isValidLoop CONFIG blob = false).
Proof.
  split; [|split].
  - intros blob HX HY.
    rewrite isValidLoop_unfold by (unfold Spec.bboxWidth, Spec.bboxHeight; lia).
    rewrite !andb_true_iff, !negb_true_iff, orb_false_iff, !Qltb_false.
    rewrite Z.ltb_ge, Z.gtb_ltb, Z.ltb_ge. intuition lia.
  - intros blob Ha Hw Hh.
    rewrite isValidLoop_unfold by lia. rewrite Ha, Hw, Hh. reflexivity.
  - intros blob Ha Hw Hh.
    rewrite isValidLoop_unfold by lia. rewrite Ha, Hw, Hh. reflexivity.
Qed.

Lemma isValidLoop_accepts_iff_witness :
  isValidLoop CONFIG Spec.rect_5x20 = true /\ isValidLoop CONFIG Spec.rect_20x5 = false /\
  (isValidLoop CONFIG Spec.rect_5x20 = true <->
     100 <= area Spec.rect_5x20 <= 2000 /\
     (15 # 10 <= inject_Z (Spec.bboxHeight Spec.rect_5x20) / inject_Z (Spec.bboxWidth Spec.rect_5x20))%Q /\
     (6 # 10 <= inject_Z (area Spec.rect_5x20) /
                inject_Z (Spec.bboxWidth Spec.rect_5x20 * Spec.bboxHeight Spec.rect_5x20))%Q).
Proof.
  destruct isValidLoop_accepts_iff as (Hiff & Htall & Hwide).
  split; [|split].
  - apply Htall; reflexivity.
  - apply Hwide; reflexivity.
  - apply Hiff; simpl; lia.
Defined.

(** The bounding box of a blob with at least one pixel is well formed, so
    the theorem applies to every blob the detector analyses. *)
Lemma analyzeBlob_bbox (labels : list nat) (label width height : nat) :
  0 < area (analyzeBlob labels label width height) ->
  minX (analyzeBlob labels label width height) <= maxX (analyzeBlob labels label width height) /\
  minY (analyzeBlob labels label width height) <= maxY (analyzeBlob labels label width height).
Proof.
  unfold analyzeBlob. cbn [area minX maxX minY maxY].
  apply (for_range_inv (fun acc =>
    0 < acc_area acc ->
    acc_minX acc <= acc_maxX acc /\ acc_minY acc <= acc_maxY acc)).
  - cbn. lia.
  - intros y acc Hy Hacc. apply for_range_inv; [exact Hacc|].
    intros x acc' Hx Hacc'.
    destruct (decide (labels !! (y * width + x)%nat = Some label)); [|exact Hacc'].
    cbn [acc_area acc_minX acc_maxX acc_minY acc_maxY]. intros _.
    destruct (Z.ltb_spec (Z.of_nat x) (acc_minX acc'));
      destruct (Z.gtb_spec (Z.of_nat x) (acc_maxX acc'));
      destruct (Z.ltb_spec (Z.of_nat y) (acc_minY acc'));
      destruct (Z.gtb_spec (Z.of_nat y) (acc_maxY acc')); lia.
Qed.

Lemma analyzeBlob_area_nonneg (labels : list nat) (label width height : nat) :
  0 <= area (analyzeBlob labels label width height).
Proof.
  unfold analyzeBlob. cbn [area].
  apply (for_range_inv (fun acc => 0 <= acc_area acc)); [cbn; lia|].
  intros y acc Hy Hacc. apply for_range_inv; [exact Hacc|].
  intros x acc' Hx Hacc'.
  destruct (decide (labels !! (y * width + x)%nat = Some label)); [|exact Hacc'].
  cbn [acc_area]. lia.
Qed.

Lemma isValidLoop_analyzeBlob (labels : list nat) (label width height : nat) :
  let blob := analyzeBlob labels label width height in
  isValidLoop CONFIG blob = true <->
    100 <= area blob <= 2000 /\
    (15 # 10 <= inject_Z (Spec.bboxHeight blob) / inject_Z (Spec.bboxWidth blob))%Q /\
    (6 # 10 <= inject_Z (area blob) /
               inject_Z (Spec.bboxWidth blob * Spec.bboxHeight blob))%Q.
Proof.
  intros blob. destruct (Z.ltb_spec 0 (area blob)) as [Hpos|Hzero].
  - destruct (analyzeBlob_bbox labels label width height Hpos) as [HX HY].
    fold blob in HX, HY.
    rewrite isValidLoop_unfold by (unfold Spec.bboxWidth, Spec.bboxHeight; lia).
    rewrite !andb_true_iff, !negb_true_iff, orb_false_iff, !Qltb_false.
    rewrite Z.ltb_ge, Z.gtb_ltb, Z.ltb_ge. intuition lia.
  - split; [|lia]. unfold isValidLoop. simpl minArea.
    destruct (Z.ltb_spec (area blob) 100); [simpl; discriminate|lia].
Qed.

(** ** Skyline selection *)

Section Skyline.
Variable numColumns : Z.
Hypothesis numColumns_nonneg : 0 <= numColumns.

Lemma skyline_inv_init : Spec.skyline_inv numColumns [] (replicate (Z.to_nat numColumns) None).
Proof.
  split; [apply length_replicate|]. split.
  - intros i b H. apply lookup_replicate in H. destruct H as [H _]. discriminate.
  - intros i _ b' Hb'. inversion Hb'.
Qed.

Lemma skyline_inv_step (pre : list BlobStats) (sk : list (option BlobStats)) (x : BlobStats) :
  Spec.skyline_inv numColumns pre sk ->
  Spec.skyline_inv numColumns (pre ++ [x]) (skyline_step CONFIG numColumns sk x).
Proof.
  intros (Hlen & Hsome & Hnone). unfold skyline_step.
  fold (Spec.column CONFIG x).
  destruct ((0 <=? Spec.column CONFIG x) && (Spec.column CONFIG x <? numColumns)) eqn:Hrange.
  - apply andb_true_iff in Hrange. destruct Hrange as [H0 H1].
    apply Z.leb_le in H0. apply Z.ltb_lt in H1.
    set (j := Z.to_nat (Spec.column CONFIG x)).
    assert (Hj : (j < length sk)%nat) by (subst j; lia).
    assert (Hcj : Spec.column CONFIG x = Z.of_nat j) by (subst j; lia).
    destruct (lookup_lt_is_Some_2 sk j Hj) as [o Ho]. rewrite Ho.
    assert (Hreplace :
      (forall b', b' ∈ pre -> Spec.column CONFIG b' = Z.of_nat j -> (centerY b' <= centerY x)%Q) ->
      Spec.skyline_inv numColumns (pre ++ [x]) (<[j := Some x]> sk)).
    { intros Hmax. split; [rewrite length_insert; exact Hlen|]. split.
      - intros i b Hi. destruct (decide (i = j)) as [->|Hij].
        + rewrite list_lookup_insert_eq in Hi by exact Hj. injection Hi as <-.
          split; [apply elem_of_app; right; apply list_elem_of_singleton; reflexivity|]. split; [exact Hcj|].
          intros b' Hb' Hc. apply elem_of_app in Hb'. destruct Hb' as [Hb'|Hb'].
          * apply Hmax; assumption.
          * apply list_elem_of_singleton in Hb'. subst b'. apply Qle_refl.
        + rewrite list_lookup_insert_ne in Hi by congruence.
          destruct (Hsome i b Hi) as (Hin & Hc & Hm).
          split; [apply elem_of_app; left; assumption|]. split; [exact Hc|].
          intros b' Hb' Hc'. apply elem_of_app in Hb'. destruct Hb' as [Hb'|Hb'].
          * apply Hm; assumption.
          * apply list_elem_of_singleton in Hb'. subst b'. lia.
      - intros i Hi b' Hb'. destruct (decide (i = j)) as [->|Hij].
        + rewrite list_lookup_insert_eq in Hi by exact Hj. discriminate.
        + rewrite list_lookup_insert_ne in Hi by congruence.
          apply elem_of_app in Hb'. destruct Hb' as [Hb'|Hb'].
          * apply (Hnone i Hi b' Hb').
          * apply list_elem_of_singleton in Hb'. subst b'. lia. }
    destruct o as [currentBest|].
    + destruct (Hsome j currentBest Ho) as (Hin & Hc & Hm).
      destruct (JS.Qltb (centerY currentBest) (centerY x)) eqn:Hlt.
      * apply Qltb_true in Hlt. apply Hreplace. intros b' Hb' Hc'.
        apply Qle_trans with (centerY currentBest); [apply Hm; assumption|].
        apply Qlt_le_weak. exact Hlt.
      * apply Qltb_false in Hlt. split; [exact Hlen|]. split.
        -- intros i b Hi. destruct (Hsome i b Hi) as (Hin' & Hc'' & Hm').
           split; [apply elem_of_app; left; assumption|]. split; [exact Hc''|].
           intros b' Hb' Hc'. apply elem_of_app in Hb'. destruct Hb' as [Hb'|Hb'].
           ++ apply Hm'; assumption.
           ++ apply list_elem_of_singleton in Hb'. subst b'.
              assert (i = j) by lia. subst i. rewrite Ho in Hi. injection Hi as <-.
              exact Hlt.
        -- intros i Hi b' Hb'. apply elem_of_app in Hb'. destruct Hb' as [Hb'|Hb'].
           ++ apply (Hnone i Hi b' Hb').
           ++ apply list_elem_of_singleton in Hb'. subst b'. intros Hc'.
              assert (i = j) by lia. subst i. congruence.
    + apply Hreplace. intros b' Hb' Hc'. exfalso. exact (Hnone j Ho b' Hb' Hc').
  - apply andb_false_iff in Hrange.
    assert (Hout : forall i, (i < length sk)%nat -> Spec.column CONFIG x <> Z.of_nat i).
    { intros i Hi Hc. destruct Hrange as [H|H].
      - apply Z.leb_gt in H. lia.
      - apply Z.ltb_ge in H. lia. }
    split; [exact Hlen|]. split.
    + intros i b Hi. destruct (Hsome i b Hi) as (Hin & Hc & Hm).
      split; [apply elem_of_app; left; assumption|]. split; [exact Hc|].
      intros b' Hb' Hc'. apply elem_of_app in Hb'. destruct Hb' as [Hb'|Hb'].
      * apply Hm; assumption.
      * apply list_elem_of_singleton in Hb'. subst b'. exfalso.
        apply (Hout i); [eapply lookup_lt_Some; exact Hi|exact Hc'].
    + intros i Hi b' Hb'. apply elem_of_app in Hb'. destruct Hb' as [Hb'|Hb'].
      * apply (Hnone i Hi b' Hb').
      * apply list_elem_of_singleton in Hb'. subst b'.
        apply Hout. eapply lookup_lt_Some; exact Hi.
Qed.

Lemma skyline_inv_foldl (blobs pre : list BlobStats) (sk : list (option BlobStats)) :
  Spec.skyline_inv numColumns pre sk ->
  Spec.skyline_inv numColumns (pre ++ blobs) (foldl (skyline_step CONFIG numColumns) sk blobs).
Proof.
  revert pre sk. induction blobs as [|x blobs IH]; intros pre sk Hinv; simpl.
  - rewrite app_nil_r. exact Hinv.
  - replace (pre ++ x :: blobs) with ((pre ++ [x]) ++ blobs) by (rewrite <- app_assoc; reflexivity).
    apply IH. apply skyline_inv_step. exact Hinv.
Qed.

End Skyline.

(** The non-null entries of the skyline, in column order. *)
Lemma skyline_compact_columns (sk : list (option BlobStats)) (k : nat) :
  (forall i b, sk !! i = Some (Some b) -> Spec.column CONFIG b = Z.of_nat (k + i)) ->
  NoDup (Spec.column CONFIG <$> omap id sk) /\
  Forall (fun c => Z.of_nat k <= c) (Spec.column CONFIG <$> omap id sk).
Proof.
  revert k. induction sk as [|o sk IH]; intros k Hcol; simpl.
  - split; constructor.
  - destruct (IH (S k)) as [Hnd Hge].
    { intros i b Hi. rewrite (Hcol (S i) b Hi). f_equal. lia. }
    destruct o as [b|]; simpl.
    + assert (Hb : Spec.column CONFIG b = Z.of_nat k).
      { rewrite (Hcol 0%nat b eq_refl). f_equal. lia. }
      split.
      * constructor; [|exact Hnd]. intros Hin.
        rewrite Forall_forall in Hge. specialize (Hge _ Hin). lia.
      * constructor; [lia|]. eapply Forall_impl; [exact Hge|]. simpl. intros; lia.
    + split; [exact Hnd|]. eapply Forall_impl; [exact Hge|]. simpl. intros; lia.
Qed.

Lemma numColumns_bounds (imageWidth : Z) :
  0 <= imageWidth < 2 ^ 32 ->
  0 <= Spec.numColumns CONFIG imageWidth < 2 ^ 32.
Proof.
  intros [H0 H1]. unfold Spec.numColumns. simpl.
  assert (Hq : (0 <= inject_Z imageWidth)%Q) by (rewrite <- (Zle_Qle 0); exact H0).
  change (inject_Z 50) with 50%Q. split.
  - change 0 with (Qceiling 0). apply Qceiling_resp_le.
    apply Qle_shift_div_l; [reflexivity|lra].
  - apply Z.le_lt_trans with imageWidth; [|exact H1].
    rewrite <- (Qceiling_Z imageWidth) at 2. apply Qceiling_resp_le.
    apply Qle_shift_div_r; [reflexivity|lra].
Qed.

Lemma filterOutermost_unfold (blobs : list BlobStats) (imageWidth : Z) :
  blobs <> [] -> 0 <= imageWidth < 2 ^ 32 ->
  filterOutermost CONFIG blobs imageWidth =
    Some (omap id (foldl (skyline_step CONFIG (Spec.numColumns CONFIG imageWidth))
                     (replicate (Z.to_nat (Spec.numColumns CONFIG imageWidth)) None) blobs)).
Proof.
  intros Hne Hw. pose proof (numColumns_bounds imageWidth Hw) as Hn.
  unfold filterOutermost. destruct blobs as [|b blobs]; [congruence|]. simpl length.
  simpl Nat.eqb. cbv iota.
  rewrite div_finite by (apply inject_Z_nonzero; simpl; lia).
  fold (Spec.numColumns CONFIG imageWidth).
  destruct (Z.ltb_spec (Spec.numColumns CONFIG imageWidth) 0); [lia|].
  destruct (Z.leb_spec (2 ^ 32) (Spec.numColumns CONFIG imageWidth)); [lia|].
  reflexivity.
Qed.

(** C5. The skyline selector puts each blob in the column of width 50 that
    contains its centroid-x and returns at most one blob per column, one
    with the maximum centroid-y of that column; of two blobs in the same
    column with centerY 100 and 200 only the one at 200 is returned. *)
Theorem filterOutermost_skyline :
  (forall (blobs : list BlobStats) (imageWidth : Z),
     0 <= imageWidth < 2 ^ 32 ->
     exists result,
       filterOutermost CONFIG blobs imageWidth = Some result /\
       NoDup (Spec.column CONFIG <$> result) /\
       (forall b, b ∈ result ->
          b ∈ blobs /\
          0 <= Spec.column CONFIG b < Spec.numColumns CONFIG imageWidth /\
          forall b', b' ∈ blobs -> Spec.column CONFIG b' = Spec.column CONFIG b ->
                     (centerY b' <= centerY b)%Q) /\
       (forall b', b' ∈ blobs ->
          0 <= Spec.column CONFIG b' < Spec.numColumns CONFIG imageWidth ->
          exists b, b ∈ result /\ Spec.column CONFIG b = Spec.column CONFIG b')) /\
  (forall (b1 b2 : BlobStats) (imageWidth : Z),
     0 <= imageWidth < 2 ^ 32 ->
     (centerY b1 == 100)%Q -> (centerY b2 == 200)%Q ->
     Spec.column CONFIG b1 = Spec.column CONFIG b2 ->
     0 <= Spec.column CONFIG b1 < Spec.numColumns CONFIG imageWidth ->
     filterOutermost CONFIG [b1; b2] imageWidth = Some [b2] /\
     filterOutermost CONFIG [b2; b1] imageWidth = Some [b2]).
Proof.
  assert (Hgen : forall (blobs : list BlobStats) (imageWidth : Z),
     0 <= imageWidth < 2 ^ 32 ->
     exists result,
       filterOutermost CONFIG blobs imageWidth = Some result /\
       NoDup (Spec.column CONFIG <$> result) /\
       (forall b, b ∈ result ->
          b ∈ blobs /\
          0 <= Spec.column CONFIG b < Spec.numColumns CONFIG imageWidth /\
          forall b', b' ∈ blobs -> Spec.column CONFIG b' = Spec.column CONFIG b ->
                     (centerY b' <= centerY b)%Q) /\
       (forall b', b' ∈ blobs ->
          0 <= Spec.column CONFIG b' < Spec.numColumns CONFIG imageWidth ->
          exists b, b ∈ result /\ Spec.column CONFIG b = Spec.column CONFIG b')).
  { intros blobs imageWidth Hw.
    destruct (decide (blobs = [])) as [->|Hne].
    { exists []. split; [reflexivity|]. split; [constructor|].
      split; intros b Hb; inversion Hb. }
    pose proof (numColumns_bounds imageWidth Hw) as Hn.
    rewrite filterOutermost_unfold by assumption.
    set (n := Spec.numColumns CONFIG imageWidth) in *.
    set (sk := foldl (skyline_step CONFIG n) (replicate (Z.to_nat n) None) blobs).
    destruct (skyline_inv_foldl n (proj1 Hn) blobs [] _ (skyline_inv_init n))
      as (Hlen & Hsome & Hnone). fold sk in Hlen, Hsome, Hnone. simpl in Hsome, Hnone.
    exists (omap id sk). split; [reflexivity|]. split; [|split].
    - apply (skyline_compact_columns sk 0). intros i b Hi.
      destruct (Hsome i b Hi) as (_ & Hc & _). exact Hc.
    - intros b Hb. apply list_elem_of_omap in Hb. destruct Hb as (o & Ho & Hid).
      simpl in Hid. subst o. apply list_elem_of_lookup in Ho. destruct Ho as [i Hi].
      destruct (Hsome i b Hi) as (Hin & Hc & Hm).
      pose proof (lookup_lt_Some _ _ _ Hi) as Hlt.
      split; [exact Hin|]. split; [lia|].
      intros b' Hb' Hc'. apply Hm; [exact Hb'|congruence].
    - intros b' Hb' Hr.
      set (j := Z.to_nat (Spec.column CONFIG b')).
      assert (Hj : (j < length sk)%nat) by (subst j; lia).
      destruct (lookup_lt_is_Some_2 sk j Hj) as [o Ho].
      destruct o as [b|].
      + exists b. destruct (Hsome j b Ho) as (_ & Hc & _). split.
        * apply list_elem_of_omap. exists (Some b). split; [|reflexivity].
          apply list_elem_of_lookup. exists j. exact Ho.
        * subst j. lia.
      + exfalso. apply (Hnone j Ho b' Hb'). subst j. lia. }
  split; [exact Hgen|].
  intros b1 b2 imageWidth Hw H1 H2 Hc Hr.
  pose proof (numColumns_bounds imageWidth Hw) as Hn.
  rewrite !filterOutermost_unfold by (assumption || discriminate).
  set (n := Spec.numColumns CONFIG imageWidth) in *.
  set (j := Z.to_nat (Spec.column CONFIG b1)).
  assert (Hj : (j < Z.to_nat n)%nat) by (subst j; lia).
  assert (Hlook : replicate (Z.to_nat n) (@None BlobStats) !! j = Some None)
    by (apply lookup_replicate; auto).
  assert (Hrng : (0 <=? Spec.column CONFIG b1) && (Spec.column CONFIG b1 <? n) = true).
  { apply andb_true_iff. split; [apply Z.leb_le|apply Z.ltb_lt]; lia. }
  assert (Hlt12 : JS.Qltb (centerY b1) (centerY b2) = true)
    by (apply Qltb_true; rewrite H1, H2; reflexivity).
  assert (Hlt21 : JS.Qltb (centerY b2) (centerY b1) = false)
    by (apply Qltb_false; rewrite H1, H2; discriminate).
  assert (Hcompact : forall b : BlobStats,
            omap id (<[j := Some b]> (replicate (Z.to_nat n) None)) = [b]).
  { intros b. rewrite insert_replicate_lt by exact Hj.
    assert (Hnone : forall m, omap id (replicate m (@None BlobStats)) = []).
    { induction m; simpl; auto. }
    rewrite omap_app. simpl. rewrite !Hnone. reflexivity. }
  split; simpl; unfold skyline_step; fold (Spec.column CONFIG b1);
    fold (Spec.column CONFIG b2); rewrite <- ?Hc, Hrng; fold j; rewrite Hlook;
    rewrite list_lookup_insert_eq by (rewrite length_replicate; exact Hj).
  - rewrite Hlt12. rewrite list_insert_insert_eq. apply f_equal, Hcompact.
  - rewrite Hlt21. apply f_equal, Hcompact.
Qed.

Lemma filterOutermost_skyline_witness :
  (exists result,
     filterOutermost CONFIG [Spec.blob_at_100; Spec.blob_at_200] 800 = Some result /\
     NoDup (Spec.column CONFIG <$> result)) /\
  filterOutermost CONFIG [Spec.blob_at_100; Spec.blob_at_200] 800 = Some [Spec.blob_at_200] /\
  filterOutermost CONFIG [Spec.blob_at_200; Spec.blob_at_100] 800 = Some [Spec.blob_at_200].
Proof.
  destruct filterOutermost_skyline as [Hgen Htwo]. split.
  - destruct (Hgen [Spec.blob_at_100; Spec.blob_at_200] 800) as (r & Hr & Hnd & _); [lia|].
    exists r. split; assumption.
  - apply Htwo; [lia|reflexivity|reflexivity|reflexivity|].
    change (Spec.column CONFIG Spec.blob_at_100) with 2.
    change (Spec.numColumns CONFIG 800) with 16. lia.
Defined.

(** ** Adaptive threshold *)

Lemma integralImage_zero (width height : nat) :
  integralImage (replicate (width * height) 0) width height
  = replicate (width * height) 0.
Proof.
  unfold integralImage. apply for_range_fixed. intros y Hy.
  rewrite (for_range_fixed _ _ _ (Some 0, replicate (width * height) 0)); [reflexivity|].
  intros x Hx.
  assert (Hidx : (y * width + x < width * height)%nat) by nia.
  rewrite (proj2 (lookup_replicate _ _ _ _) (conj eq_refl Hidx)).
  simpl. destruct (Nat.eqb_spec y 0) as [->|Hy0].
  - simpl. f_equal. apply insert_replicate.
  - assert (Hup : ((y - 1) * width + x < width * height)%nat) by nia.
    rewrite (proj2 (lookup_replicate _ _ _ _) (conj eq_refl Hup)).
    simpl. f_equal. apply insert_replicate.
Qed.

Lemma rdZ_zero (n : nat) (i : Z) :
  rdZ (replicate n 0) i = Some 0 \/ rdZ (replicate n 0) i = None.
Proof.
  unfold rdZ. destruct (i <? 0); [right; reflexivity|].
  destruct (replicate n 0 !! Z.to_nat i) as [v|] eqn:E; [|right; reflexivity].
  apply lookup_replicate in E. destruct E as [-> _]. left; reflexivity.
Qed.

Lemma getSum_zero (n width height : nat) (x1 y1 x2 y2 : Z) :
  getSum (replicate n 0) width height x1 y1 x2 y2 = Some 0 \/
  getSum (replicate n 0) width height x1 y1 x2 y2 = None.
Proof.
  unfold getSum.
  destruct (rdZ_zero n (Z.min (Z.of_nat height - 1) y2 * Z.of_nat width
                        + Z.min (Z.of_nat width - 1) x2)) as [->| ->];
    [|right; reflexivity].
  assert (Hopt : forall (b : bool) i,
            (if b then rdZ (replicate n 0) i else Some 0) = Some 0 \/
            (if b then rdZ (replicate n 0) i else Some 0) = None).
  { intros [] i; [apply rdZ_zero|left; reflexivity]. }
  destruct (Hopt (0 <? Z.max 0 y1)
              ((Z.max 0 y1 - 1) * Z.of_nat width + Z.min (Z.of_nat width - 1) x2))
    as [->| ->]; [|right; reflexivity].
  destruct (Hopt (0 <? Z.max 0 x1)
              (Z.min (Z.of_nat height - 1) y2 * Z.of_nat width + (Z.max 0 x1 - 1)))
    as [->| ->]; [|right; reflexivity].
  destruct (Hopt ((0 <? Z.max 0 x1) && (0 <? Z.max 0 y1))
              ((Z.max 0 y1 - 1) * Z.of_nat width + (Z.max 0 x1 - 1)))
    as [->| ->]; [|right; reflexivity].
  left. reflexivity.
Qed.

(** A zero sample never exceeds a zero local mean plus a constant that is
    not negative. *)
Lemma above_mean_zero (g sum : option Z) (cw ch : Z) (c : Q) :
  (0 <= c)%Q ->
  g = Some 0 \/ g = None ->
  sum = Some 0 \/ sum = None ->
  above_mean g sum cw ch c = false.
Proof.
  intros Hc [->| ->] [->| ->]; try reflexivity. unfold above_mean, JS.div_by_product.
  destruct (cw * ch =? 0); [reflexivity|].
  unfold JS.gt_plus. apply Qltb_false.
  assert (H0 : (inject_Z 0 / inject_Z (cw * ch) == 0)%Q).
  { unfold Qdiv. apply Qmult_0_l. }
  rewrite H0. change (inject_Z 0) with 0%Q. lra.
Qed.

(** C6 (as amended). On an all-zero grayscale buffer, for every window size
    and every threshold constant that is not negative, adaptive
    thresholding marks no pixel as foreground. *)
Theorem adaptiveThreshold_blank (cfg : Config) (width height : nat) :
  (0 <= c cfg)%Q ->
  adaptiveThreshold cfg (replicate (width * height) 0) width height
  = replicate (width * height) 0.
Proof.
  intros Hc. unfold adaptiveThreshold. rewrite integralImage_zero.
  apply for_range_fixed. intros y Hy. apply for_range_fixed. intros x Hx.
  rewrite above_mean_zero; [apply insert_replicate|exact Hc| |apply getSum_zero].
  destruct (replicate (width * height) 0 !! (y * width + x)%nat) as [v|] eqn:E;
    [|right; reflexivity].
  apply lookup_replicate in E. destruct E as [-> _]. left; reflexivity.
Qed.

Lemma adaptiveThreshold_blank_witness :
  adaptiveThreshold CONFIG (replicate (3 * 2) 0) 3 2 = replicate (3 * 2) 0.
Proof.
  apply (adaptiveThreshold_blank CONFIG 3 2). simpl. discriminate.
Defined.

(** C6 as stated fails: with the threshold constant -1 the single pixel of
    a blank 1x1 image exceeds its local mean plus the constant. *)
Lemma adaptiveThreshold_blank_negative_constant :
  adaptiveThreshold (Spec.with_c (-1)) (replicate (1 * 1) 0) 1 1 = [1] /\
  adaptiveThreshold (Spec.with_c (-1)) (replicate (1 * 1) 0) 1 1 <> replicate (1 * 1) 0.
Proof.
  split; [reflexivity|discriminate].
Qed.

(** ** Morphological opening *)

(** A pixel index determines its coordinates. *)
Lemma raster_index_inj (w x y x' y' : nat) :
  (x < w)%nat -> (x' < w)%nat -> (y * w + x = y' * w + x')%nat ->
  x = x' /\ y = y'.
Proof.
  intros Hx Hx' Heq.
  assert (y = y') by (destruct (Nat.lt_trichotomy y y') as [H|[H|H]]; [nia|exact H|nia]).
  subst y'. split; [lia|reflexivity].
Qed.

Lemma truthy_replicate_zero (n i : nat) : truthy (replicate n 0 !! i) = false.
Proof.
  destruct (replicate n 0 !! i) as [v|] eqn:E; [|reflexivity].
  apply lookup_replicate in E. destruct E as [-> _]. reflexivity.
Qed.

(** A marking pass over the interior: every marked sample sits at an
    interior pixel whose condition held. *)
Lemma mark_interior_spec (cond : nat -> bool) (width height : nat) :
  let marked :=
    JS.for_range 1 (height - 1) (fun y a =>
      JS.for_range 1 (width - 1) (fun x a =>
        if cond (y * width + x)%nat then <[(y * width + x)%nat := 1]> a else a) a)
      (replicate (width * height) 0) in
  length marked = (width * height)%nat /\
  forall i, truthy (marked !! i) = true ->
    exists y x, (1 <= y < height - 1)%nat /\ (1 <= x < width - 1)%nat /\
                i = (y * width + x)%nat /\ cond i = true.
Proof.
  cbv zeta.
  apply (for_range_inv (fun a =>
    length a = (width * height)%nat /\
    forall i, truthy (a !! i) = true ->
      exists y x, (1 <= y < height - 1)%nat /\ (1 <= x < width - 1)%nat /\
                  i = (y * width + x)%nat /\ cond i = true)).
  - split; [apply length_replicate|]. intros i Hi.
    rewrite truthy_replicate_zero in Hi. discriminate.
  - intros y a Hy Ha. apply for_range_inv; [exact Ha|].
    intros x b Hx [Hlen Hb]. destruct (cond (y * width + x)%nat) eqn:Hc.
    + split; [rewrite length_insert; exact Hlen|].
      intros i Hi. destruct (decide (i = y * width + x)%nat) as [->|Hne].
      * exists y, x. auto.
      * rewrite list_lookup_insert_ne in Hi by congruence. apply Hb. exact Hi.
    + split; assumption.
Qed.

Lemma erode_spec (binary : list Z) (width height : nat) (i : nat) :
  truthy (erode binary width height !! i) = true ->
  (width + 1 <= i)%nat /\
  truthy (binary !! i) = true /\
  truthy (binary !! (i - 1)%nat) = true /\ truthy (binary !! (i + 1)%nat) = true /\
  truthy (binary !! (i - width)%nat) = true /\ truthy (binary !! (i + width)%nat) = true.
Proof.
  intros Hi.
  destruct (mark_interior_spec (fun idx =>
      truthy (binary !! idx) &&
      truthy (binary !! (idx - 1)%nat) && truthy (binary !! (idx + 1)%nat) &&
      truthy (binary !! (idx - width)%nat) && truthy (binary !! (idx + width)%nat))
      width height) as [_ Hspec].
  destruct (Hspec i Hi) as (y & x & Hy & Hx & -> & Hc).
  rewrite !andb_true_iff in Hc. split; [nia|tauto].
Qed.

Lemma dilate_spec (eroded : list Z) (width height : nat) :
  length (dilate eroded width height) = (width * height)%nat /\
  forall i, truthy (dilate eroded width height !! i) = true ->
    exists y x, (1 <= y < height - 1)%nat /\ (1 <= x < width - 1)%nat /\
      i = (y * width + x)%nat /\
      (truthy (eroded !! i) = true \/
       truthy (eroded !! (i - 1)%nat) = true \/ truthy (eroded !! (i + 1)%nat) = true \/
       truthy (eroded !! (i - width)%nat) = true \/ truthy (eroded !! (i + width)%nat) = true).
Proof.
  destruct (mark_interior_spec (fun idx =>
      truthy (eroded !! idx) ||
      truthy (eroded !! (idx - 1)%nat) || truthy (eroded !! (idx + 1)%nat) ||
      truthy (eroded !! (idx - width)%nat) || truthy (eroded !! (idx + width)%nat))
      width height) as [Hlen Hspec].
  split; [exact Hlen|]. intros i Hi.
  destruct (Hspec i Hi) as (y & x & Hy & Hx & -> & Hc).
  exists y, x. rewrite !orb_true_iff in Hc. tauto.
Qed.

(** C9. Morphological opening is anti-extensive and clears the border:
    every foreground pixel of the output is foreground in the input, and
    every pixel on the 1-pixel image border is background in the output. *)
Theorem morphologyOpen_anti_extensive_border (binary : list Z) (width height : nat) :
  (forall i, truthy (morphologyOpen binary width height !! i) = true ->
             truthy (binary !! i) = true) /\
  (forall x y, (x < width)%nat -> (y < height)%nat ->
     x = 0%nat \/ y = 0%nat \/ x = (width - 1)%nat \/ y = (height - 1)%nat ->
     morphologyOpen binary width height !! (y * width + x)%nat = Some 0).
Proof.
  unfold morphologyOpen.
  destruct (dilate_spec (erode binary width height) width height) as [Hlen Hspec].
  split.
  - intros i Hi. destruct (Hspec i Hi) as (y & x & Hy & Hx & Hidx & Hc).
    assert (Hiw : (width + 1 <= i)%nat) by nia.
    destruct Hc as [H|[H|[H|[H|H]]]]; apply erode_spec in H;
      destruct H as (Hn & H0 & Hl & Hr & Hu & Hd).
    + exact H0.
    + replace (i - 1 + 1)%nat with i in Hr by lia. exact Hr.
    + replace (i + 1 - 1)%nat with i in Hl by lia. exact Hl.
    + replace (i - width + width)%nat with i in Hd by lia. exact Hd.
    + replace (i + width - width)%nat with i in Hu by lia. exact Hu.
  - intros x y Hx Hy Hborder.
    assert (Hin : (y * width + x < length (dilate (erode binary width height) width height))%nat)
      by (rewrite Hlen; nia).
    destruct (lookup_lt_is_Some_2 _ _ Hin) as [v Hv]. rewrite Hv. f_equal.
    destruct (decide (v = 0)) as [->|Hv0]; [reflexivity|]. exfalso.
    assert (Ht : truthy (dilate (erode binary width height) width height
                          !! (y * width + x)%nat) = true).
    { rewrite Hv. simpl. apply negb_true_iff, Z.eqb_neq. exact Hv0. }
    destruct (Hspec _ Ht) as (y' & x' & Hy' & Hx' & Hidx & _).
    destruct (raster_index_inj width x y x' y') as [-> ->]; [lia|lia|exact Hidx|]. lia.
Qed.

Lemma morphologyOpen_anti_extensive_border_witness :
  morphologyOpen (replicate 9 1) 3 3 !! (0 * 3 + 0)%nat = Some 0 /\
  truthy (replicate 9 1 !! 4%nat) = true.
Proof.
  destruct (morphologyOpen_anti_extensive_border (replicate 9 1) 3 3) as [Hanti Hborder].
  split.
  - apply Hborder; [lia|lia|left; reflexivity].
  - apply Hanti. reflexivity.
Defined.

(** ** Enhancement *)

(** C2. On a uniform gray image [applyCLAHE] does not return the luminance
    unchanged.  For the uniform 8x8 image of gray 100, with the pipeline's
    clip limit 2.5 and tile size 8, the clip value is floor(2.5 * 64 / 256)
    = 0: the whole histogram is clipped and spread again over bins 0..63,
    the range of the cumulative distribution is 63, the identity table of
    the zero-range branch is not used, and every pixel comes out white. *)
Theorem applyCLAHE_uniform_gray_100 :
  Enhance.applyCLAHE (Spec.uniform_image 8 8 100) (25 # 10) 8 = Spec.uniform_image 8 8 255 /\
  Enhance.toGray (Enhance.data (Spec.uniform_image 8 8 100)) 8 8 = replicate 64 100 /\
  Enhance.toGray (Enhance.data (Enhance.applyCLAHE (Spec.uniform_image 8 8 100) (25 # 10) 8)) 8 8
    = replicate 64 255.
Proof.
  split; [|split]; vm_compute; reflexivity.
Qed.

Lemma mod4_offset (p c : nat) : (c < 4)%nat -> ((p * 4 + c) mod 4 = c)%nat.
Proof.
  intros Hc. rewrite Nat.add_comm, Nat.Div0.mod_add. apply Nat.mod_small. exact Hc.
Qed.

Ltac colour_slot :=
  first [ rewrite mod4_offset by lia | rewrite Nat.Div0.mod_mul ]; lia.

Section Alpha.
Variable data : list Z.
Hypothesis data_bytes : Spec.bytes data.

Lemma same_alpha_refl : Spec.same_alpha data data.
Proof. split; reflexivity. Qed.

Lemma same_alpha_colour (enhanced : list Z) (k : nat) (v : Z) :
  (k mod 4 <> 3)%nat ->
  Spec.same_alpha data enhanced -> Spec.same_alpha data (<[k := v]> enhanced).
Proof.
  intros Hk [Hlen Ha]. split; [rewrite length_insert; exact Hlen|].
  intros j Hj. rewrite list_lookup_insert_ne by congruence. apply Ha. exact Hj.
Qed.

Lemma clamp8_byte (k : nat) (v : Z) :
  data !! k = Some v -> Enhance.clamp8 (data !! k) = v.
Proof.
  intros Hv. rewrite Hv. simpl.
  unfold Spec.bytes in data_bytes. rewrite Forall_lookup in data_bytes.
  specialize (data_bytes k v Hv). lia.
Qed.

Lemma same_alpha_copy (enhanced : list Z) (k : nat) :
  Spec.same_alpha data enhanced ->
  Spec.same_alpha data (<[k := Enhance.clamp8 (data !! k)]> enhanced).
Proof.
  intros [Hlen Ha]. split; [rewrite length_insert; exact Hlen|].
  intros j Hj. destruct (decide (j = k)) as [->|Hne].
  - destruct (data !! k) as [v|] eqn:Hv.
    + rewrite list_lookup_insert_eq
        by (rewrite Hlen; eapply lookup_lt_Some; exact Hv).
      f_equal. rewrite <- Hv. apply clamp8_byte. exact Hv.
    + rewrite list_insert_ge; [rewrite Ha by exact Hj; exact Hv|].
      rewrite Hlen. apply lookup_ge_None. exact Hv.
  - rewrite list_lookup_insert_ne by congruence. apply Ha. exact Hj.
Qed.

Lemma remapPixel_alpha (gray : list Z) (lookupTables : list (list (list Z)))
    (width tileSize tilesX tilesY y x : nat) (enhanced : list Z) :
  Spec.same_alpha data enhanced ->
  Spec.same_alpha data
    (Enhance.remapPixel data gray lookupTables width tileSize tilesX tilesY y x enhanced).
Proof.
  intros Ha. unfold Enhance.remapPixel. apply same_alpha_copy.
  destruct (Enhance.luminance _ _ _) as [l|]; [destruct (JS.Qltb 0 l)|];
    repeat (apply same_alpha_colour; [colour_slot|]); exact Ha.
Qed.

Lemma applyCLAHE_alpha (width height : nat) (clipLimit : Q) (tileSize : nat) :
  Spec.same_alpha data
    (Enhance.data (Enhance.applyCLAHE
       {| Enhance.width := width; Enhance.height := height; Enhance.data := data |}
       clipLimit tileSize)).
Proof.
  unfold Enhance.applyCLAHE. simpl.
  apply for_range_inv; [apply same_alpha_refl|]. intros y e Hy He.
  apply for_range_inv; [exact He|]. intros x e' Hx He'.
  apply remapPixel_alpha. exact He'.
Qed.

Lemma adjustBrightnessContrast_alpha (width height : nat) :
  Spec.same_alpha data
    (Enhance.data (Enhance.adjustBrightnessContrast
       {| Enhance.width := width; Enhance.height := height; Enhance.data := data |})).
Proof.
  unfold Enhance.adjustBrightnessContrast. simpl.
  destruct (Enhance.percentiles _ _ _) as [minVal maxVal].
  destruct (maxVal - minVal =? 0); simpl; [apply same_alpha_refl|].
  apply for_range_inv; [apply same_alpha_refl|]. intros p e Hp He.
  apply same_alpha_copy.
  apply for_range_inv; [exact He|]. intros ch e' Hc He'.
  apply same_alpha_colour; [colour_slot|exact He'].
Qed.

Lemma sharpenImage_alpha (width height : nat) (amount : Q) :
  Spec.same_alpha data
    (Enhance.data (Enhance.sharpenImage
       {| Enhance.width := width; Enhance.height := height; Enhance.data := data |}
       amount)).
Proof.
  unfold Enhance.sharpenImage. simpl.
  apply for_range_inv; [apply same_alpha_refl|]. intros y e Hy He.
  apply for_range_inv; [exact He|]. intros x e' Hx He'.
  apply for_range_inv; [exact He'|]. intros ch e'' Hc He''.
  apply same_alpha_colour; [colour_slot|exact He''].
Qed.

End Alpha.

(** C10. Every stage of the enhancement pipeline preserves the alpha
    channel: the alpha sample of every pixel of the output of [applyCLAHE],
    [adjustBrightnessContrast] and [sharpenImage] is the alpha sample of
    the same pixel of that stage's input. *)
Theorem enhancement_preserves_alpha (imageData : Enhance.ImageData)
    (clipLimit amount : Q) (tileSize : nat) (i : nat) :
  Spec.bytes (Enhance.data imageData) ->
  length (Enhance.data imageData)
    = (4 * (Enhance.width imageData * Enhance.height imageData))%nat ->
  (0 < tileSize)%nat ->
  (i < Enhance.width imageData * Enhance.height imageData)%nat ->
  Enhance.data (Enhance.applyCLAHE imageData clipLimit tileSize) !! (4 * i + 3)%nat
    = Enhance.data imageData !! (4 * i + 3)%nat /\
  Enhance.data (Enhance.adjustBrightnessContrast imageData) !! (4 * i + 3)%nat
    = Enhance.data imageData !! (4 * i + 3)%nat /\
  Enhance.data (Enhance.sharpenImage imageData amount) !! (4 * i + 3)%nat
    = Enhance.data imageData !! (4 * i + 3)%nat /\
  is_Some (Enhance.data imageData !! (4 * i + 3)%nat).
Proof.
  intros Hbytes Hlen Hts Hi. destruct imageData as [w h data]. simpl in *.
  assert (Hmod : ((4 * i + 3) mod 4 = 3)%nat)
    by (rewrite (Nat.mul_comm 4 i); apply mod4_offset; lia).
  split; [|split; [|split]].
  - apply (applyCLAHE_alpha data Hbytes w h clipLimit tileSize). exact Hmod.
  - apply (adjustBrightnessContrast_alpha data Hbytes w h). exact Hmod.
  - apply (sharpenImage_alpha data w h amount). exact Hmod.
  - apply lookup_lt_is_Some_2. lia.
Qed.

Lemma enhancement_preserves_alpha_witness :
  Enhance.data (Enhance.applyCLAHE (Spec.uniform_image 2 2 100) (25 # 10) 8) !! (4 * 1 + 3)%nat
    = Some 255 /\
  Enhance.data (Enhance.adjustBrightnessContrast (Spec.uniform_image 2 2 100)) !! (4 * 1 + 3)%nat
    = Some 255 /\
  Enhance.data (Enhance.sharpenImage (Spec.uniform_image 2 2 100) (6 # 10)) !! (4 * 1 + 3)%nat
    = Some 255.
Proof.
  destruct (enhancement_preserves_alpha (Spec.uniform_image 2 2 100) (25 # 10) (6 # 10) 8 1)
    as (H1 & H2 & H3 & _).
  - unfold Spec.bytes. simpl. repeat constructor; discriminate.
  - reflexivity.
  - lia.
  - simpl. lia.
  - rewrite H1, H2, H3. repeat split.
Defined.

(** *** Why a uniform tile is not left alone

    With clip limit 2.5 a tile of 64 pixels has clip value 0: clipping
    empties the histogram whatever the tile holds, so the lookup table of a
    full tile does not depend on the image. *)

Lemma sumZ_insert (l : list Z) (i : nat) (v : Z) :
  (i < length l)%nat ->
  Spec.sumZ (<[i := v]> l) = Spec.sumZ l - l !!! i + v.
Proof.
  revert i. induction l as [|a l IH]; intros i Hi; [simpl in Hi; lia|].
  destruct i as [|i]; simpl.
  - unfold Spec.sumZ. simpl. lia.
  - unfold Spec.sumZ in *. simpl. simpl in Hi.
    change (foldr Z.add 0 (<[i:=v]> l)) with (Spec.sumZ (<[i:=v]> l)).
    unfold Spec.sumZ. rewrite IH by lia.
    change ((a :: l) !!! S i) with (l !!! i). lia.
Qed.

Lemma bump_histogram (hist : list Z) (v : Z) :
  Spec.histogram hist -> 0 <= v <= 255 ->
  Spec.histogram (Enhance.bump hist (Some v)) /\
  Spec.sumZ (Enhance.bump hist (Some v)) = Spec.sumZ hist + 1.
Proof.
  intros [Hlen Hpos] Hv. unfold Enhance.bump.
  assert (Hi : (Z.to_nat v < length hist)%nat) by lia.
  split; [split|].
  - rewrite length_insert. exact Hlen.
  - apply Forall_insert; [exact Hpos|].
    rewrite Forall_lookup in Hpos.
    destruct (lookup_lt_is_Some_2 _ _ Hi) as [n Hn].
    rewrite (list_lookup_total_correct _ _ _ Hn). specialize (Hpos _ _ Hn). simpl in Hpos. lia.
  - rewrite sumZ_insert by exact Hi. lia.
Qed.

Lemma tileHistogram_full (gray : list Z) (width height x0 y0 x1 y1 : nat) :
  Spec.bytes gray -> length gray = (width * height)%nat ->
  (x0 <= x1 <= width)%nat -> (y0 <= y1 <= height)%nat ->
  Spec.histogram (Enhance.tileHistogram gray width x0 y0 x1 y1) /\
  Spec.sumZ (Enhance.tileHistogram gray width x0 y0 x1 y1)
  = Z.of_nat ((x1 - x0) * (y1 - y0)).
Proof.
  intros Hbytes Hlen Hx Hy. unfold Enhance.tileHistogram.
  assert (Hgoal :
    Spec.histogram (JS.for_range y0 y1 (fun y hist =>
      JS.for_range x0 x1 (fun x hist =>
        Enhance.bump hist (gray !! (y * width + x)%nat)) hist) (replicate 256 0)) /\
    Spec.sumZ (JS.for_range y0 y1 (fun y hist =>
      JS.for_range x0 x1 (fun x hist =>
        Enhance.bump hist (gray !! (y * width + x)%nat)) hist) (replicate 256 0))
    = Z.of_nat ((y1 - y0) * (x1 - x0))).
  { apply (for_range_ind (fun y hist =>
      Spec.histogram hist /\ Spec.sumZ hist = Z.of_nat ((y - y0) * (x1 - x0)))); [lia| |].
    - split; [split; [apply length_replicate|]|].
      + apply Forall_replicate. lia.
      + rewrite Nat.sub_diag. reflexivity.
    - intros y hist Hyr [Hh Hs].
      replace (Z.of_nat ((S y - y0) * (x1 - x0)))
        with (Z.of_nat ((y - y0) * (x1 - x0) + (x1 - x0))) by (f_equal; nia).
      apply (for_range_ind (fun x hist =>
        Spec.histogram hist /\ Spec.sumZ hist = Z.of_nat ((y - y0) * (x1 - x0) + (x - x0))));
        [lia| |].
      + rewrite Nat.sub_diag, Nat.add_0_r. split; assumption.
      + intros x hist' Hxr [Hh' Hs'].
        assert (Hidx : (y * width + x < length gray)%nat) by (rewrite Hlen; nia).
        destruct (lookup_lt_is_Some_2 _ _ Hidx) as [v Hv]. rewrite Hv.
        assert (Hvb : 0 <= v <= 255).
        { unfold Spec.bytes in Hbytes. rewrite Forall_lookup in Hbytes.
          exact (Hbytes _ _ Hv). }
        destruct (bump_histogram hist' v Hh' Hvb) as [Hh'' Hs''].
        split; [exact Hh''|]. rewrite Hs'', Hs'. lia. }
  destruct Hgoal as [Hh Hs]. split; [exact Hh|]. rewrite Hs. f_equal. lia.
Qed.

(** Clipping at 0 empties a histogram and collects its whole mass. *)
Lemma clipHistogram_zero (hist : list Z) :
  Spec.histogram hist ->
  Enhance.clipHistogram hist 0 = (replicate 256 0, Spec.sumZ hist).
Proof.
  intros [Hlen Hpos]. unfold Enhance.clipHistogram.
  assert (Hinv : let r := JS.for_range 0 256 (fun i '(h, clipped) =>
                   if h !!! i >? 0
                   then (<[i := 0]> h, clipped + (h !!! i - 0))
                   else (h, clipped)) (hist, 0) in
                 r.1 = replicate 256 0 ++ drop 256 hist /\
                 r.2 = Spec.sumZ (take 256 hist)).
  { cbv zeta.
    apply (for_range_ind (fun i (r : list Z * Z) =>
      r.1 = replicate i 0 ++ drop i hist /\ r.2 = Spec.sumZ (take i hist))); [lia| |].
    - split; reflexivity.
    - intros i [h clipped] Hi [Hh Hc]. cbn [fst snd] in *. subst h clipped.
      assert (Hil : (i < length hist)%nat) by lia.
      destruct (lookup_lt_is_Some_2 _ _ Hil) as [n Hn].
      assert (Hn0 : 0 <= n) by (rewrite Forall_lookup in Hpos; exact (Hpos _ _ Hn)).
      assert (Hlk : (replicate i 0 ++ drop i hist) !! i = Some n).
      { rewrite lookup_app_r by (rewrite length_replicate; lia).
        rewrite length_replicate, Nat.sub_diag, lookup_drop, Nat.add_0_r. exact Hn. }
      pose proof (list_lookup_total_correct _ _ _ Hlk) as Hcur.
      rewrite Hcur. rewrite (take_S_r _ _ _ Hn).
      assert (Hsum : Spec.sumZ (take i hist ++ [n]) = Spec.sumZ (take i hist) + n).
      { unfold Spec.sumZ. rewrite foldr_app. simpl.
        generalize (take i hist). intros l. induction l as [|a l IH]; simpl; lia. }
      rewrite Hsum.
      assert (Hnext : <[i := 0]> (replicate i 0 ++ drop i hist)
                      = replicate (S i) 0 ++ drop (S i) hist).
      { rewrite insert_app_r_alt by (rewrite length_replicate; lia).
        rewrite length_replicate, Nat.sub_diag.
        rewrite (drop_S _ _ _ Hn). cbn [insert list_insert].
        rewrite replicate_S_end, <- app_assoc. reflexivity. }
      destruct (Z.gtb_spec n 0) as [Hgt|Hle]; cbn [fst snd].
      + split; [exact Hnext|lia].
      + assert (Hz : n = 0) by lia. split; [|lia].
        rewrite <- Hnext. symmetry. apply list_insert_id.
        rewrite Hlk, Hz. reflexivity. }
  cbv zeta in Hinv. destruct Hinv as [H1 H2].
  rewrite drop_ge, app_nil_r in H1 by lia. rewrite take_ge in H2 by lia.
  destruct (JS.for_range 0 256 _ (hist, 0)) as [h clipped]. simpl in *. congruence.
Qed.

(** The lookup table of a tile of 8x8 pixels is the same for every image. *)
Lemma tileLUT_full_tile (gray : list Z) (width height ty tx : nat) :
  Spec.bytes gray -> length gray = (width * height)%nat ->
  (tx * 8 + 8 <= width)%nat -> (ty * 8 + 8 <= height)%nat ->
  Enhance.tileLUT gray width height (25 # 10) 8 ty tx = Spec.full_tile_lut.
Proof.
  intros Hbytes Hlen Hx Hy. unfold Enhance.tileLUT.
  rewrite (Nat.min_l (tx * 8 + 8) width) by lia.
  rewrite (Nat.min_l (ty * 8 + 8) height) by lia.
  destruct (tileHistogram_full gray width height (tx * 8) (ty * 8) (tx * 8 + 8) (ty * 8 + 8)
              Hbytes Hlen ltac:(lia) ltac:(lia)) as [Hh Hs].
  replace ((tx * 8 + 8 - tx * 8) * (ty * 8 + 8 - ty * 8))%nat with 64%nat in * by lia.
  assert (Hclip : Qfloor ((25 # 10) * inject_Z (Z.of_nat 64) / 256) = 0) by reflexivity.
  rewrite Hclip, (clipHistogram_zero _ Hh), Hs.
  remember (Enhance.cumulative (Enhance.redistribute (replicate 256 0) (Z.of_nat 64)))
    as cdf eqn:Hcdf.
  vm_compute in Hcdf. subst cdf. vm_compute. reflexivity.
Qed.

(** *** Uniform images *)

Lemma concat_replicate_lookup (l : list Z) (n i k : nat) :
  length l = 4%nat -> (i < n)%nat -> (k < 4)%nat ->
  concat (replicate n l) !! (i * 4 + k)%nat = l !! k.
Proof.
  intros Hl. revert i. induction n as [|n IH]; intros i Hi Hk; [lia|].
  simpl. destruct i as [|i].
  - simpl. apply lookup_app_l. lia.
  - rewrite lookup_app_r by lia. rewrite Hl.
    replace (S i * 4 + k - 4)%nat with (i * 4 + k)%nat by lia.
    apply IH; lia.
Qed.

Lemma uniform_image_lookup (w h : nat) (v : Z) (i k : nat) :
  (i < w * h)%nat -> (k < 4)%nat ->
  Enhance.data (Spec.uniform_image w h v) !! (i * 4 + k)%nat = [v; v; v; 255] !! k.
Proof.
  intros Hi Hk. unfold Spec.uniform_image. cbn [Enhance.data].
  apply concat_replicate_lookup; [reflexivity|exact Hi|exact Hk].
Qed.

Lemma uniform_image_length (w h : nat) (v : Z) :
  length (Enhance.data (Spec.uniform_image w h v)) = (4 * (w * h))%nat.
Proof.
  unfold Spec.uniform_image. cbn [Enhance.data].
  induction (w * h)%nat as [|n IH]; [reflexivity|].
  simpl in *. rewrite IH. lia.
Qed.

(** Rounding a rational that is an integer. *)
Lemma round_integer (q : Q) (z : Z) : (q == inject_Z z)%Q -> JS.round q = z.
Proof.
  intros Hq. unfold JS.round.
  assert (H : (q + (1 # 2) == (2 * z + 1) # 2)%Q).
  { rewrite Hq. unfold Qeq, Qplus, inject_Z. simpl. lia. }
  rewrite (Qfloor_comp _ _ H). unfold Qfloor.
  symmetry. apply (Z.div_unique _ _ _ 1); lia.
Qed.

Lemma toGray_uniform (w h : nat) (v : Z) :
  0 <= v <= 255 ->
  Enhance.toGray (Enhance.data (Spec.uniform_image w h v)) w h = replicate (w * h) v.
Proof.
  intros Hv. unfold Enhance.toGray.
  assert (Hbody : forall i, (i < w * h)%nat ->
    Enhance.clamp8 (JS.round <$>
      Enhance.luminance (Enhance.data (Spec.uniform_image w h v) !! (i * 4)%nat)
                        (Enhance.data (Spec.uniform_image w h v) !! (i * 4 + 1)%nat)
                        (Enhance.data (Spec.uniform_image w h v) !! (i * 4 + 2)%nat)) = v).
  { intros i Hi.
    pose proof (uniform_image_lookup w h v i 0 Hi ltac:(lia)) as H0.
    rewrite Nat.add_0_r in H0. rewrite H0.
    rewrite (uniform_image_lookup w h v i 1 Hi ltac:(lia)).
    rewrite (uniform_image_lookup w h v i 2 Hi ltac:(lia)).
    cbn [lookup list_lookup Enhance.luminance mbind option_bind fmap option_fmap option_map].
    rewrite (proj1 (luminance_gray v Hv)). simpl. lia. }
  match goal with |- ?loop = _ =>
    assert (Hloop : loop = replicate (w * h) v ++ replicate (w * h - w * h) 0);
      [|rewrite Hloop, Nat.sub_diag; apply app_nil_r]
  end.
  apply (for_range_ind (fun i g =>
    g = replicate i v ++ replicate (w * h - i) 0)); [lia| |].
  - rewrite Nat.sub_0_r. reflexivity.
  - intros i g Hi ->. rewrite (Hbody i) by lia.
    rewrite insert_app_r_alt by (rewrite length_replicate; lia).
    rewrite length_replicate, Nat.sub_diag.
    replace (w * h - i)%nat with (S (w * h - S i)) by lia.
    rewrite (replicate_S_end i v), <- app_assoc. reflexivity.
Qed.

Lemma tilesAlong_multiple (a : nat) : Enhance.tilesAlong (8 * a) 8 = a.
Proof.
  unfold Enhance.tilesAlong.
  assert (H : (inject_Z (Z.of_nat (8 * a)) / inject_Z (Z.of_nat 8) == inject_Z (Z.of_nat a))%Q).
  { rewrite Nat2Z.inj_mul, inject_Z_mult. change (inject_Z (Z.of_nat 8)) with 8%Q.
    field. }
  rewrite (Qceiling_comp _ _ H), Qceiling_Z. apply Nat2Z.id.
Qed.

Lemma full_tile_lut_lookup (v : Z) :
  0 <= v <= 255 ->
  Spec.full_tile_lut !! Z.to_nat v = Some (Spec.washed_out v) /\
  0 <= Spec.washed_out v <= 255.
Proof.
  intros Hv. unfold Spec.washed_out.
  assert (Hall : forallb (fun i =>
            match Spec.full_tile_lut !! i with
            | Some t => (0 <=? t) && (t <=? 255)
            | None => false
            end) (seq 0 256) = true) by (vm_compute; reflexivity).
  rewrite forallb_forall in Hall. specialize (Hall (Z.to_nat v)).
  destruct (Spec.full_tile_lut !! Z.to_nat v) as [t|] eqn:Ht.
  - rewrite (list_lookup_total_correct _ _ _ Ht).
    split; [reflexivity|].
    assert (Hin : In (Z.to_nat v) (seq 0 256)) by (apply in_seq; lia).
    apply Hall in Hin. apply andb_true_iff in Hin. lia.
  - assert (Hin : In (Z.to_nat v) (seq 0 256)) by (apply in_seq; lia).
    apply Hall in Hin. discriminate.
Qed.

Lemma washed_out_changes (v : Z) : 1 <= v <= 254 -> Spec.washed_out v <> v.
Proof.
  intros Hv.
  assert (Hall : forallb (fun v => negb (Spec.washed_out v =? v)) (seqZ 1 254) = true)
    by (vm_compute; reflexivity).
  rewrite forallb_forall in Hall. specialize (Hall v).
  apply negb_true_iff, Z.eqb_neq in Hall; [exact Hall|].
  apply list_elem_of_In, elem_of_seqZ. lia.
Qed.

(** Scaling a gray pixel by the ratio of its new level to its luminance
    gives the new level: the double product is never half a unit off. *)
Lemma scale_gray (v : Z) :
  1 <= v <= 255 ->
  Z.min 255 (JS.round (JS.mul (inject_Z v)
    (JS.quot (inject_Z (Spec.washed_out v)) (JS.luminance v v v)))) = Spec.washed_out v.
Proof.
  intros Hv.
  assert (Hall : forallb (fun v =>
            Z.min 255 (JS.round (JS.mul (inject_Z v)
              (JS.quot (inject_Z (Spec.washed_out v)) (JS.luminance v v v))))
            =? Spec.washed_out v) (seqZ 1 255) = true)
    by (vm_compute; reflexivity).
  rewrite forallb_forall in Hall. apply Z.eqb_eq, Hall.
  apply list_elem_of_In, elem_of_seqZ. lia.
Qed.

Lemma insert_four {A : Type} (P R : list A) (i : nat) (x0 x1 x2 x3 a b c d : A) :
  length P = i ->
  <[(i + 3)%nat := d]> (<[(i + 2)%nat := c]> (<[(i + 1)%nat := b]>
    (<[i := a]> (P ++ x0 :: x1 :: x2 :: x3 :: R))))
  = P ++ a :: b :: c :: d :: R.
Proof.
  intros <-.
  rewrite (insert_app_r_alt P _ (length P)) by lia.
  rewrite (insert_app_r_alt P _ (length P + 1)) by lia.
  rewrite (insert_app_r_alt P _ (length P + 2)) by lia.
  rewrite (insert_app_r_alt P _ (length P + 3)) by lia.
  replace (length P - length P)%nat with 0%nat by lia.
  replace (length P + 1 - length P)%nat with 1%nat by lia.
  replace (length P + 2 - length P)%nat with 2%nat by lia.
  replace (length P + 3 - length P)%nat with 3%nat by lia.
  reflexivity.
Qed.

Lemma concat_replicate_length (chunk : list Z) (n : nat) :
  length (concat (replicate n chunk)) = (n * length chunk)%nat.
Proof.
  induction n as [|n IH]; [reflexivity|].
  simpl. rewrite length_app, IH. reflexivity.
Qed.

Section UniformTiles.
Variables (a b : nat) (v : Z).
Hypothesis Hv : 1 <= v <= 255.

Local Notation "'W'" := (8 * a)%nat (only parsing).
Local Notation "'H'" := (8 * b)%nat (only parsing).
Local Notation "'TABLES'" :=
  ((fun ty => (fun tx => Enhance.tileLUT (replicate (W * H) v) W H (25 # 10) 8 ty tx)
                <$> seq 0 a) <$> seq 0 b) (only parsing).

Lemma uniform_tables_lookup (x y : nat) :
  (x < W)%nat -> (y < H)%nat ->
  (TABLES !!! Nat.min (y / 8) (b - 1)) !!! Nat.min (x / 8) (a - 1) = Spec.full_tile_lut.
Proof.
  intros Hx Hy.
  assert (Htx : (x / 8 < a)%nat) by (apply Nat.Div0.div_lt_upper_bound; lia).
  assert (Hty : (y / 8 < b)%nat) by (apply Nat.Div0.div_lt_upper_bound; lia).
  rewrite (Nat.min_l (y / 8)), (Nat.min_l (x / 8)) by lia.
  assert (Hrow : TABLES !! (y / 8)%nat
            = Some ((fun tx => Enhance.tileLUT (replicate (W * H) v) W H (25 # 10) 8 (y / 8) tx)
                      <$> seq 0 a)).
  { rewrite list_lookup_fmap, lookup_seq_lt by exact Hty. reflexivity. }
  rewrite (list_lookup_total_correct _ _ _ Hrow).
  assert (Hcell : ((fun tx => Enhance.tileLUT (replicate (W * H) v) W H (25 # 10) 8 (y / 8) tx)
                     <$> seq 0 a) !! (x / 8)%nat
            = Some (Enhance.tileLUT (replicate (W * H) v) W H (25 # 10) 8 (y / 8) (x / 8))).
  { rewrite list_lookup_fmap, lookup_seq_lt by exact Htx. reflexivity. }
  rewrite (list_lookup_total_correct _ _ _ Hcell).
  apply tileLUT_full_tile.
  - apply Forall_replicate. lia.
  - apply length_replicate.
  - lia.
  - lia.
Qed.

Lemma remapPixel_uniform (x y : nat) (enhanced : list Z) :
  (x < W)%nat -> (y < H)%nat ->
  Enhance.remapPixel (Enhance.data (Spec.uniform_image W H v)) (replicate (W * H) v)
    TABLES W 8 a b y x enhanced
  = <[((y * W + x) * 4 + 3)%nat := 255]>
      (<[((y * W + x) * 4 + 2)%nat := Spec.washed_out v]>
         (<[((y * W + x) * 4 + 1)%nat := Spec.washed_out v]>
            (<[((y * W + x) * 4)%nat := Spec.washed_out v]> enhanced))).
Proof.
  intros Hx Hy. unfold Enhance.remapPixel.
  assert (Hp : (y * W + x < W * H)%nat) by nia.
  rewrite (uniform_tables_lookup x y Hx Hy).
  rewrite (proj2 (lookup_replicate _ _ _ _) (conj eq_refl Hp)).
  cbn [mbind option_bind].
  destruct (full_tile_lut_lookup v ltac:(lia)) as [Hlut Ht]. rewrite Hlut.
  pose proof (uniform_image_lookup W H v _ 0 Hp ltac:(lia)) as H0.
  rewrite Nat.add_0_r in H0. rewrite H0.
  rewrite (uniform_image_lookup W H v _ 1 Hp ltac:(lia)).
  rewrite (uniform_image_lookup W H v _ 2 Hp ltac:(lia)).
  rewrite (uniform_image_lookup W H v _ 3 Hp ltac:(lia)).
  cbn [lookup list_lookup Enhance.luminance mbind option_bind].
  assert (Hpos : JS.Qltb 0 (JS.luminance v v v) = true).
  { apply Qltb_true. destruct (luminance_gray v ltac:(lia)) as [_ [Hl _]].
    assert (H1 : (1 <= inject_Z v)%Q)
      by (change 1%Q with (inject_Z 1); rewrite <- Zle_Qle; lia).
    lra. }
  rewrite Hpos. cbn [mbind option_bind Enhance.scaleChannel].
  rewrite (scale_gray v Hv).
  assert (Hc : Enhance.clamp8 (Some (Spec.washed_out v)) = Spec.washed_out v)
    by (simpl; lia).
  rewrite Hc. reflexivity.
Qed.

Lemma applyCLAHE_uniform :
  Enhance.applyCLAHE (Spec.uniform_image W H v) (25 # 10) 8
  = Spec.uniform_image W H (Spec.washed_out v).
Proof.
  unfold Enhance.applyCLAHE.
  change (Enhance.width (Spec.uniform_image W H v)) with W.
  change (Enhance.height (Spec.uniform_image W H v)) with H.
  rewrite !tilesAlong_multiple.
  rewrite (toGray_uniform W H v) by lia.
  unfold Spec.uniform_image at 3. f_equal.
  set (T := Spec.washed_out v).
  match goal with |- ?loop = _ =>
    assert (Hloop : loop =
      concat (replicate (H * W) [T; T; T; 255])
      ++ concat (replicate (W * H - H * W) [v; v; v; 255]));
      [|rewrite Hloop; replace (W * H - H * W)%nat with 0%nat by lia;
        rewrite (Nat.mul_comm H W); apply app_nil_r]
  end.
  apply (raster_ind (fun k e =>
    e = concat (replicate k [T; T; T; 255])
        ++ concat (replicate (W * H - k) [v; v; v; 255]))).
  - rewrite Nat.sub_0_r. reflexivity.
  - intros y x e Hy Hx ->.
    rewrite (remapPixel_uniform x y _ Hx Hy). fold T.
    rewrite (replicate_S_end (y * W + x) [T; T; T; 255]), concat_app, <- app_assoc.
    replace (W * H - (y * W + x))%nat with (S (W * H - S (y * W + x))) by nia.
    cbn [replicate concat app].
    rewrite (insert_four _ _ ((y * W + x) * 4))
      by (rewrite concat_replicate_length; simpl; lia).
    reflexivity.
Qed.

End UniformTiles.

(** The defect is not particular to one image: on every uniform opaque
    image made of full 8x8 tiles, whatever its gray value between 1 and
    254, the luminance of every pixel changes. *)
Lemma applyCLAHE_uniform_never_identity (a b : nat) (v : Z) :
  1 <= v <= 254 ->
  Enhance.toGray (Enhance.data (Spec.uniform_image (8 * a) (8 * b) v)) (8 * a) (8 * b)
    = replicate (8 * a * (8 * b)) v /\
  Enhance.toGray
    (Enhance.data (Enhance.applyCLAHE (Spec.uniform_image (8 * a) (8 * b) v) (25 # 10) 8))
    (8 * a) (8 * b)
    = replicate (8 * a * (8 * b)) (Spec.washed_out v) /\
  Spec.washed_out v <> v.
Proof.
  intros Hv. split; [apply toGray_uniform; lia|]. split.
  - rewrite (applyCLAHE_uniform a b v) by lia.
    apply toGray_uniform. apply full_tile_lut_lookup. lia.
  - apply washed_out_changes. exact Hv.
Qed.

(** ** Projection variance *)

Lemma coords_snoc (w h : nat) :
  Spec.coords w (S h) = Spec.coords w h ++ ((fun x => (x, h)) <$> seq 0 w).
Proof.
  unfold Spec.coords. rewrite seq_S, bind_app. simpl. rewrite app_nil_r. reflexivity.
Qed.

Lemma coords_length (w h : nat) : length (Spec.coords w h) = (h * w)%nat.
Proof.
  induction h as [|h IH]; [reflexivity|].
  rewrite coords_snoc, length_app, IH, length_fmap, length_seq. lia.
Qed.

Lemma coords_lookup (w h x y : nat) :
  (x < w)%nat -> (y < h)%nat -> Spec.coords w h !! (y * w + x)%nat = Some (x, y).
Proof.
  intros Hx. induction h as [|h IH]; intros Hy; [lia|].
  rewrite coords_snoc. destruct (decide (y = h)) as [->|Hne].
  - rewrite lookup_app_r by (rewrite coords_length; lia).
    rewrite coords_length. replace (h * w + x - h * w)%nat with x by lia.
    rewrite list_lookup_fmap, lookup_seq_lt by exact Hx. reflexivity.
  - rewrite lookup_app_l by (rewrite coords_length; nia). apply IH. lia.
Qed.

Lemma coords_take_snoc (w h x y : nat) :
  (x < w)%nat -> (y < h)%nat ->
  take (S (y * w + x)) (Spec.coords w h) = take (y * w + x) (Spec.coords w h) ++ [(x, y)].
Proof.
  intros Hx Hy. apply take_S_r. apply coords_lookup; assumption.
Qed.

Lemma sumQ_snoc (l : list Q) (v : Q) : (Spec.sumQ (l ++ [v]) == Spec.sumQ l + v)%Q.
Proof.
  induction l as [|a l IH]; simpl.
  - ring.
  - fold (Spec.sumQ (l ++ [v])). fold (Spec.sumQ l). rewrite IH. ring.
Qed.

Section Projection.
Variables (pixels : list Z) (width height : nat) (sin cos : Q).
Hypothesis pixels_length : length pixels = (width * height)%nat.

Let bin (x y : nat) : Z := Qfloor (Deskew.rotX width height sin cos x y).
Let S_ (l : list (nat * nat)) (i : nat) : list Q :=
  Spec.samples Qfloor pixels width height sin cos l i.

Lemma samples_snoc_hit (l : list (nat * nat)) (x y i : nat) :
  bin x y = Z.of_nat i ->
  S_ (l ++ [(x, y)]) i = S_ l i ++ [inject_Z (pixels !!! (y * width + x)%nat)].
Proof.
  intros Hb. unfold S_, Spec.samples. rewrite filter_app, fmap_app. f_equal.
  rewrite filter_cons_True by exact Hb. reflexivity.
Qed.

Lemma samples_snoc_miss (l : list (nat * nat)) (x y i : nat) :
  bin x y <> Z.of_nat i ->
  S_ (l ++ [(x, y)]) i = S_ l i.
Proof.
  intros Hb. unfold S_, Spec.samples. rewrite filter_app, fmap_app.
  rewrite filter_cons_False by exact Hb. rewrite filter_nil, fmap_nil. apply app_nil_r.
Qed.

Lemma samples_length_le (l : list (nat * nat)) (i : nat) :
  (length (S_ l i) <= length l)%nat.
Proof.
  unfold S_, Spec.samples. rewrite length_fmap. apply length_filter.
Qed.

Let accumulated := Spec.accumulated pixels width height sin cos.

Lemma accumulate_step (y x : nat) (st : list Q * list Z) :
  (y < height)%nat -> (x < width)%nat ->
  accumulated (take (y * width + x) (Spec.coords width height)) st ->
  exists st', Deskew.accumulate pixels width height sin cos y x st = Some st' /\
              accumulated (take (S (y * width + x)) (Spec.coords width height)) st'.
Proof.
  intros Hy Hx (Hlp & Hlc & Hacc). fold S_ in Hacc. unfold accumulated, Spec.accumulated. fold S_. destruct st as [projection counts]. cbn [fst snd] in *.
  rewrite coords_take_snoc by assumption.
  set (l := take (y * width + x) (Spec.coords width height)) in *.
  unfold Deskew.accumulate. fold (bin x y).
  destruct ((0 <=? bin x y) && (bin x y <? Z.of_nat width)) eqn:Hrange.
  - apply andb_true_iff in Hrange. destruct Hrange as [H0 H1].
    apply Z.leb_le in H0. apply Z.ltb_lt in H1.
    set (j := Z.to_nat (bin x y)).
    assert (Hj : (j < width)%nat) by (subst j; lia).
    assert (Hbj : bin x y = Z.of_nat j) by (subst j; lia).
    assert (Hk : (y * width + x < length pixels)%nat) by (rewrite pixels_length; nia).
    destruct (lookup_lt_is_Some_2 _ _ Hk) as [v Hv]. rewrite Hv.
    destruct (Hacc j Hj) as (p & Hp & Hpsum & Hcnt). rewrite Hp, Hcnt. cbn [mbind option_bind].
    eexists. split; [reflexivity|].
    split; [cbn [fst snd]; rewrite length_insert; exact Hlp|].
    split; [cbn [fst snd]; rewrite length_insert; exact Hlc|].
    intros i Hi. cbn [fst snd]. destruct (decide (i = j)) as [->|Hne].
    + rewrite !list_lookup_insert_eq by lia. eexists. split; [reflexivity|].
      rewrite samples_snoc_hit by exact Hbj.
      rewrite (list_lookup_total_correct _ _ _ Hv). split.
      * rewrite sumQ_snoc, Hpsum. reflexivity.
      * f_equal. rewrite length_app. cbn [length].
        rewrite Zplus_mod_idemp_l. f_equal. unfold S_. lia.
    + rewrite !list_lookup_insert_ne by congruence.
      rewrite samples_snoc_miss by lia. apply Hacc. exact Hi.
  - eexists. split; [reflexivity|].
    split; [exact Hlp|]. split; [exact Hlc|].
    intros i Hi. cbn [fst snd]. rewrite samples_snoc_miss; [apply Hacc; exact Hi|].
    apply andb_false_iff in Hrange. destruct Hrange as [H|H].
    + apply Z.leb_gt in H. lia.
    + apply Z.ltb_ge in H. lia.
Qed.

Lemma accumulate_loop :
  exists st,
    JS.for_rangeM 0 height (fun y st =>
      JS.for_rangeM 0 width (fun x st =>
        Deskew.accumulate pixels width height sin cos y x st) st)
      (replicate width 0%Q, replicate width 0) = Some st /\
    accumulated (Spec.coords width height) st.
Proof.
  destruct (raster_indM
    (fun k st => accumulated (take k (Spec.coords width height)) st)
    width height (Deskew.accumulate pixels width height sin cos)
    (replicate width 0%Q, replicate width 0)) as (st & Hst & Hacc).
  - split; [apply length_replicate|]. split; [apply length_replicate|].
    intros i Hi. exists 0%Q. simpl.
    split; [apply lookup_replicate; auto|]. split; [reflexivity|].
    apply lookup_replicate; auto.
  - intros y x st Hy Hx Hacc. apply accumulate_step; assumption.
  - exists st. split; [exact Hst|].
    rewrite take_ge in Hacc by (rewrite coords_length; lia). exact Hacc.
Qed.

End Projection.

Lemma checked_div_nonzero (a b : Q) :
  ~ (b == 0)%Q -> Deskew.checked_div a b = Some (a / b)%Q.
Proof.
  intros Hb. unfold Deskew.checked_div.
  destruct (Qeq_bool b 0) eqn:E; [|reflexivity].
  apply Qeq_bool_iff in E. contradiction.
Qed.

(** The normalisation loop always finishes; with no populated column its
    three accumulators stay at zero. *)
Lemma normalise_total (projection : list Q) (counts : list Z) (width : nat) :
  length projection = width -> length counts = width ->
  exists sum sumSq n,
    JS.for_rangeM 0 width (Deskew.normalise projection counts) (0%Q, 0%Q, 0)
      = Some (sum, sumSq, n) /\
    0 <= n /\
    ((forall i, (i < width)%nat -> counts !! i = Some 0) ->
     (sum, sumSq, n) = (0%Q, 0%Q, 0)).
Proof.
  intros Hlp Hlc.
  destruct (for_rangeM_ind
    (fun i (st : Q * Q * Z) =>
       0 <= st.2 /\
       ((forall j, (j < i)%nat -> counts !! j = Some 0) -> st = (0%Q, 0%Q, 0)))
    0 width (Deskew.normalise projection counts) (0%Q, 0%Q, 0))
    as (st & Hst & Hn & Hzero).
  - lia.
  - split; [simpl; lia|reflexivity].
  - intros i [[sum sumSq] n] Hi [Hn Hzero]. cbn [fst snd] in *.
    unfold Deskew.normalise.
    destruct (lookup_lt_is_Some_2 projection i ltac:(lia)) as [p Hp].
    destruct (lookup_lt_is_Some_2 counts i ltac:(lia)) as [cnt Hcnt].
    rewrite Hp, Hcnt. cbn [mbind option_bind].
    destruct (Z.ltb_spec 0 cnt) as [Hpos|Hnpos].
    + rewrite checked_div_nonzero by (apply inject_Z_nonzero; lia).
      cbn [mbind option_bind]. eexists. split; [reflexivity|].
      cbn [fst snd]. split; [lia|].
      intros Hall. specialize (Hall i ltac:(lia)). rewrite Hcnt in Hall.
      injection Hall as ->. lia.
    + eexists. split; [reflexivity|]. cbn [fst snd]. split; [exact Hn|].
      intros Hall. apply Hzero. intros j Hj. apply Hall. lia.
  - destruct st as [[sum sumSq] n]. exists sum, sumSq, n.
    split; [exact Hst|]. split; [exact Hn|].
    intros Hall. apply Hzero. exact Hall.
Qed.

Section Normalise.
Variables (pixels : list Z) (width height : nat) (sin cos : Q).
Variables (projection : list Q) (counts : list Z).

Let S_ (i : nat) : list Q :=
  Spec.samples Qfloor pixels width height sin cos (Spec.coords width height) i.

Hypothesis columns :
  forall i, (i < width)%nat ->
    exists p, projection !! i = Some p /\ (p == Spec.sumQ (S_ i))%Q /\
              counts !! i = Some (Z.of_nat (length (S_ i))).


End Normalise.

Lemma samples_none (pixels : list Z) (width height : nat) (sin cos : Q)
    (l : list (nat * nat)) (i : nat) :
  (forall p, p ∈ l ->
     Qfloor (Deskew.rotX width height sin cos p.1 p.2) <> Z.of_nat i) ->
  Spec.samples Qfloor pixels width height sin cos l i = [].
Proof.
  intros Hout. unfold Spec.samples.
  induction l as [|p l IH]; [reflexivity|].
  rewrite filter_cons_False by (apply Hout; left).
  apply IH. intros q Hq. apply Hout. right. exact Hq.
Qed.

Lemma coords_elem (w h : nat) (p : nat * nat) :
  p ∈ Spec.coords w h -> (p.1 < w)%nat /\ (p.2 < h)%nat.
Proof.
  unfold Spec.coords. intros Hp. apply list_elem_of_bind in Hp.
  destruct Hp as (y & Hp & Hy). apply list_elem_of_fmap in Hp.
  destruct Hp as (x & -> & Hx). apply elem_of_seq in Hx, Hy. simpl. lia.
Qed.

(** C8. On a well-formed edge buffer the projection variance is a finite
    number for every angle (no read of a missing sample, no division by
    zero); when no column receives a sample it is 0. *)
Theorem calculateProjectionVariance_total
    (pixels : list Z) (width height : nat) (sin cos : Q) :
  length pixels = (width * height)%nat ->
  (exists v, Deskew.calculateProjectionVariance pixels width height sin cos = Some v) /\
  ((forall x y, (x < width)%nat -> (y < height)%nat ->
      ~ (0 <= Qfloor (Deskew.rotX width height sin cos x y) < Z.of_nat width)) ->
   Deskew.calculateProjectionVariance pixels width height sin cos = Some 0%Q).
Proof.
  intros Hlen. unfold Deskew.calculateProjectionVariance.
  destruct (accumulate_loop pixels width height sin cos Hlen)
    as ([projection counts] & -> & Hlp & Hlc & Hacc).
  cbn [fst snd mbind option_bind] in *.
  destruct (normalise_total projection counts width Hlp Hlc)
    as (sum & sumSq & n & -> & Hn & Hzero).
  cbn [mbind option_bind]. split.
  - destruct (Z.eqb_spec n 0) as [->|Hne]; [eauto|].
    rewrite !checked_div_nonzero by (apply inject_Z_nonzero; exact Hne).
    cbn [mbind option_bind]. eauto.
  - intros Hout.
    assert (Hall : forall i, (i < width)%nat -> counts !! i = Some 0).
    { intros i Hi. destruct (Hacc i Hi) as (p & _ & _ & Hcnt). rewrite Hcnt.
      rewrite samples_none; [reflexivity|].
      intros q Hq Hb. apply coords_elem in Hq. destruct Hq as [Hx Hy].
      apply (Hout q.1 q.2 Hx Hy). lia. }
    specialize (Hzero Hall). injection Hzero as -> -> ->. reflexivity.
Qed.




Lemma calculateProjectionVariance_total_witness :
  (exists v, Deskew.calculateProjectionVariance Spec.one_bright 4 1
               Spec.sin_minus_10 Spec.cos_minus_10 = Some v) /\
  Deskew.calculateProjectionVariance [7] 1 1 Spec.sin_minus_10 Spec.cos_minus_10 = Some 0%Q.
Proof.
  split.
  - apply (calculateProjectionVariance_total Spec.one_bright 4 1). reflexivity.
  - apply (calculateProjectionVariance_total [7] 1 1); [reflexivity|].
    intros x y Hx Hy. replace x with 0%nat by lia. replace y with 0%nat by lia.
    vm_compute. intros [H _]. apply H. reflexivity.
Defined.

(** The rounding of the doubles decides the column.  At the angle
    -1.39e-16 degrees, which the fine search visits, the sine is -2.4e-18:
    the double [dx * cos - dy * sin] absorbs it, every pixel of a 2x2
    buffer stays in its own column, and the score of the buffer with one
    bright corner is 4064.0625. *)
Lemma calculateProjectionVariance_tiny_angle :
  (fun p => Qfloor (Deskew.rotX 2 2 Spec.sin_tiny Spec.cos_tiny p.1 p.2)) <$> Spec.coords 2 2
  = [0; 1; 0; 1] /\
  match Deskew.calculateProjectionVariance [255; 0; 0; 0] 2 2 Spec.sin_tiny Spec.cos_tiny with
  | Some v => (v == 65025 # 16)%Q
  | None => False
  end.
Proof. split; vm_compute; reflexivity. Qed.

(** ** Union-find *)

Lemma find_mono (f f' : nat) (P : list nat) (i r : nat) :
  find f P i = Some r -> (f <= f')%nat -> find f' P i = Some r.
Proof.
  revert f' i. induction f as [|f IH]; intros f' i Hfind Hle; [discriminate|].
  destruct f' as [|f']; [lia|]. simpl in *.
  destruct (P !! i) as [p|]; [|discriminate]. simpl in *.
  destruct (decide (i = p)); [exact Hfind|]. apply IH; [exact Hfind|lia].
Qed.

Lemma find_root (f : nat) (P : list nat) (i r : nat) :
  find f P i = Some r -> P !! r = Some r.
Proof.
  revert i. induction f as [|f IH]; intros i Hfind; [discriminate|]. simpl in Hfind.
  destruct (P !! i) as [p|] eqn:Hp; [|discriminate]. simpl in Hfind.
  destruct (decide (i = p)) as [->|Hne].
  - injection Hfind as <-. exact Hp.
  - eapply IH. exact Hfind.
Qed.

Lemma find_self (f : nat) (P : list nat) (i : nat) :
  P !! i = Some i -> find (S f) P i = Some i.
Proof.
  intros Hi. simpl. rewrite Hi. simpl. destruct (decide (i = i)); [reflexivity|congruence].
Qed.

Lemma find_app (f : nat) (P Q : list nat) (i r : nat) :
  find f P i = Some r -> find f (P ++ Q) i = Some r.
Proof.
  revert i. induction f as [|f IH]; intros i Hfind; [discriminate|]. simpl in *.
  destruct (P !! i) as [p|] eqn:Hp; [|discriminate].
  rewrite (lookup_app_l_Some _ _ _ _ Hp). simpl in *.
  destruct (decide (i = p)); [exact Hfind|]. apply IH. exact Hfind.
Qed.

(** Linking the root [rJ] below the root [rI] sends the class of [rJ] to
    [rI] and leaves every other class alone; paths grow by at most one. *)
Lemma find_link (f : nat) (P : list nat) (rI rJ x r : nat) :
  P !! rI = Some rI -> P !! rJ = Some rJ -> rI <> rJ ->
  find f P x = Some r ->
  find (S f) (<[rJ := rI]> P) x = Some (if decide (r = rJ) then rI else r).
Proof.
  intros HI HJ Hne. revert x. induction f as [|f IH]; intros x Hfind; [discriminate|].
  pose proof (lookup_lt_Some _ _ _ HJ) as HJlt.
  simpl in Hfind. destruct (P !! x) as [p|] eqn:Hp; [|discriminate]. simpl in Hfind.
  destruct (decide (x = p)) as [->|Hxp].
  - injection Hfind as <-. destruct (decide (p = rJ)) as [->|HpJ].
    + change (find (S (S f)) (<[rJ:=rI]> P) rJ) with
        (<[rJ:=rI]> P !! rJ ≫= fun p => if decide (rJ = p) then Some rJ
                                         else find (S f) (<[rJ:=rI]> P) p).
      rewrite list_lookup_insert_eq by exact HJlt. simpl.
      destruct (decide (rJ = rI)); [congruence|].
      rewrite list_lookup_insert_ne by congruence. rewrite HI. simpl.
      destruct (decide (rI = rI)); [reflexivity|congruence].
    + apply find_self. rewrite list_lookup_insert_ne by congruence. exact Hp.
  - assert (x <> rJ) by congruence.
    change (find (S (S f)) (<[rJ:=rI]> P) x) with
      (<[rJ:=rI]> P !! x ≫= fun p => if decide (x = p) then Some x
                                      else find (S f) (<[rJ:=rI]> P) p).
    rewrite list_lookup_insert_ne by congruence. rewrite Hp. simpl.
    destruct (decide (x = p)); [congruence|]. apply IH. exact Hfind.
Qed.

(** ** Connected components: geometry *)

Lemma label_at_insert_eq (labels : list nat) (k v : nat) :
  (k < length labels)%nat -> label_at (<[k := v]> labels) k = v.
Proof.
  intros Hk. unfold label_at. rewrite list_lookup_insert_eq by exact Hk. reflexivity.
Qed.

Lemma label_at_insert_ne (labels : list nat) (k i v : nat) :
  k <> i -> label_at (<[k := v]> labels) i = label_at labels i.
Proof.
  intros Hk. unfold label_at. rewrite list_lookup_insert_ne by exact Hk. reflexivity.
Qed.

Lemma index_inj (w h : nat) (p q : nat * nat) :
  Spec.in_image w h p -> Spec.in_image w h q ->
  Spec.index w p = Spec.index w q -> p = q.
Proof.
  destruct p as [px py], q as [qx qy]. unfold Spec.in_image, Spec.index. simpl.
  intros [Hpx _] [Hqx _] Heq.
  destruct (raster_index_inj w px py qx qy Hpx Hqx Heq) as [-> ->]. reflexivity.
Qed.

Lemma index_lt (w h : nat) (p : nat * nat) :
  Spec.in_image w h p -> (Spec.index w p < w * h)%nat.
Proof.
  destruct p as [px py]. unfold Spec.in_image, Spec.index. simpl. intros [Hx Hy]. nia.
Qed.

Lemma adjacent4_sym (p q : nat * nat) : Spec.adjacent4 p q -> Spec.adjacent4 q p.
Proof.
  unfold Spec.adjacent4. intros [[H1 H2]|[H1 H2]]; [left|right]; split; auto; tauto.
Qed.

Lemma adjacent4_irrefl (p : nat * nat) : ~ Spec.adjacent4 p p.
Proof.
  unfold Spec.adjacent4. intros [[_ H]|[_ H]]; lia.
Qed.

(** The neighbours of (x, y) that the raster scan has already visited are
    the left one and the top one. *)
Lemma visited_neighbour (w x y : nat) (n : nat * nat) :
  (x < w)%nat -> (n.1 < w)%nat ->
  (Spec.index w n < y * w + x)%nat ->
  Spec.adjacent4 n (x, y) ->
  (n = ((x - 1)%nat, y) /\ (0 < x)%nat) \/ (n = (x, (y - 1)%nat) /\ (0 < y)%nat).
Proof.
  destruct n as [nx ny]. unfold Spec.index, Spec.adjacent4. simpl.
  intros Hx Hnx Hlt [[-> [ -> | -> ]]|[-> [ -> | -> ]]].
  - lia.
  - left. split; [f_equal; lia|lia].
  - nia.
  - right. split; [f_equal; lia|lia].
Qed.

Section Connectivity.
Variables (binary : list Z) (width height : nat).

Lemma connected4_refl (p : nat * nat) : Spec.connected4 binary width height p p.
Proof. apply rtc_refl. Qed.

Lemma connected4_trans (p q r : nat * nat) :
  Spec.connected4 binary width height p q ->
  Spec.connected4 binary width height q r ->
  Spec.connected4 binary width height p r.
Proof. apply rtc_trans. Qed.

Lemma connected4_step (p q : nat * nat) :
  Spec.foreground binary width height p -> Spec.foreground binary width height q ->
  Spec.adjacent4 p q -> Spec.connected4 binary width height p q.
Proof. intros Hp Hq Ha. apply rtc_once. auto. Qed.

Lemma connected4_sym (p q : nat * nat) :
  Spec.connected4 binary width height p q -> Spec.connected4 binary width height q p.
Proof.
  intros H. induction H as [p|p q r (Hp & Hq & Ha) _ IH]; [apply rtc_refl|].
  eapply rtc_trans; [exact IH|].
  apply connected4_step; [exact Hq|exact Hp|apply adjacent4_sym; exact Ha].
Qed.

End Connectivity.

(** ** Connected components: the first pass *)

Section FirstPass.
Variables (binary : list Z) (width height : nat).
Hypothesis binary_length : length binary = (width * height)%nat.

Local Notation "'FUEL'" := (S (width * height)) (only parsing).

Lemma is_zero_fgb (p : nat * nat) :
  Spec.in_image width height p ->
  is_zero (binary !! Spec.index width p) = negb (Spec.fgb binary width p).
Proof.
  intros Hp. pose proof (index_lt width height p Hp) as Hlt.
  rewrite <- binary_length in Hlt.
  destruct (lookup_lt_is_Some_2 _ _ Hlt) as [v Hv].
  unfold Spec.fgb. rewrite Hv. simpl. rewrite negb_involutive. reflexivity.
Qed.

Section Pixel.
Variables (st : CCState) (x y : nat).
Hypothesis Hx : (x < width)%nat.
Hypothesis Hy : (y < height)%nat.
Hypothesis Hinv : Spec.cc_inv binary width height (y * width + x) st.

Lemma left_label_nonzero :
  Spec.left_label width (labels st) x y <> 0%nat ->
  (0 < x)%nat /\ Spec.fgb binary width ((x - 1)%nat, y) = true /\
  Spec.label_of (labels st) width ((x - 1)%nat, y) = Spec.left_label width (labels st) x y.
Proof.
  unfold Spec.left_label. destruct (Nat.ltb_spec 0 x) as [H0|H0]; [|congruence].
  intros Hne. split; [exact H0|]. split; [|reflexivity].
  destruct (Spec.fgb binary width ((x - 1)%nat, y)) eqn:Hfg; [reflexivity|].
  exfalso. apply Hne.
  apply (Spec.inv_label_bg _ _ _ _ _ Hinv ((x - 1)%nat, y)); [|exact Hfg].
  split; simpl; lia.
Qed.

Lemma left_label_zero :
  Spec.left_label width (labels st) x y = 0%nat ->
  (0 <? x)%nat && Spec.fgb binary width ((x - 1)%nat, y) = false.
Proof.
  unfold Spec.left_label. destruct (Nat.ltb_spec 0 x) as [H0|H0]; [|reflexivity].
  intros Hz. simpl.
  destruct (Spec.fgb binary width ((x - 1)%nat, y)) eqn:Hfg; [|reflexivity].
  exfalso.
  pose proof (Spec.inv_label_fg _ _ _ _ _ Hinv ((x - 1)%nat, y)) as Hl.
  unfold Spec.label_of, Spec.index in Hl. simpl in Hl.
  rewrite Hz in Hl. assert (1 <= 0 <= currentLabel st)%nat; [|lia].
  apply Hl; [split; simpl; lia|lia|exact Hfg].
Qed.

Lemma top_label_nonzero :
  Spec.top_label width (labels st) x y <> 0%nat ->
  (0 < y)%nat /\ Spec.fgb binary width (x, (y - 1)%nat) = true /\
  Spec.label_of (labels st) width (x, (y - 1)%nat) = Spec.top_label width (labels st) x y.
Proof.
  unfold Spec.top_label. destruct (Nat.ltb_spec 0 y) as [H0|H0]; [|congruence].
  intros Hne. split; [exact H0|]. split; [|reflexivity].
  destruct (Spec.fgb binary width (x, (y - 1)%nat)) eqn:Hfg; [reflexivity|].
  exfalso. apply Hne.
  apply (Spec.inv_label_bg _ _ _ _ _ Hinv (x, (y - 1)%nat)); [|exact Hfg].
  split; simpl; lia.
Qed.

Lemma top_label_zero :
  Spec.top_label width (labels st) x y = 0%nat ->
  (0 <? y)%nat && Spec.fgb binary width (x, (y - 1)%nat) = false.
Proof.
  unfold Spec.top_label. destruct (Nat.ltb_spec 0 y) as [H0|H0]; [|reflexivity].
  intros Hz. simpl.
  destruct (Spec.fgb binary width (x, (y - 1)%nat)) eqn:Hfg; [|reflexivity].
  exfalso.
  pose proof (Spec.inv_label_fg _ _ _ _ _ Hinv (x, (y - 1)%nat)) as Hl.
  unfold Spec.label_of, Spec.index in Hl. simpl in Hl.
  rewrite Hz in Hl. assert (1 <= 0 <= currentLabel st)%nat; [|lia].
  apply Hl; [split; simpl; lia|nia|exact Hfg].
Qed.

(** A nonzero [left] or [top] is at most the current label. *)
Lemma left_label_le : (Spec.left_label width (labels st) x y <= currentLabel st)%nat.
Proof.
  destruct (decide (Spec.left_label width (labels st) x y = 0%nat)) as [->|Hne]; [lia|].
  destruct (left_label_nonzero Hne) as (H0 & Hfg & <-).
  apply (Spec.inv_label_fg _ _ _ _ _ Hinv); [split; simpl; lia| |exact Hfg].
  unfold Spec.index. simpl. lia.
Qed.

Lemma top_label_le : (Spec.top_label width (labels st) x y <= currentLabel st)%nat.
Proof.
  destruct (decide (Spec.top_label width (labels st) x y = 0%nat)) as [->|Hne]; [lia|].
  destruct (top_label_nonzero Hne) as (H0 & Hfg & <-).
  apply (Spec.inv_label_fg _ _ _ _ _ Hinv); [split; simpl; lia| |exact Hfg].
  unfold Spec.index. simpl. nia.
Qed.

Lemma neighbour_label_pixel (l : nat) :
  Spec.neighbour_label width (labels st) x y l ->
  exists n, Spec.in_image width height n /\ (Spec.index width n < y * width + x)%nat /\
            Spec.fgb binary width n = true /\ Spec.adjacent4 n (x, y) /\
            Spec.label_of (labels st) width n = l.
Proof.
  intros [Hne [->| ->]].
  - destruct (left_label_nonzero Hne) as (H0 & Hfg & Hl).
    exists ((x - 1)%nat, y). split; [split; simpl; lia|].
    split; [unfold Spec.index; simpl; lia|]. split; [exact Hfg|].
    split; [|exact Hl]. left. simpl. split; [reflexivity|right; lia].
  - destruct (top_label_nonzero Hne) as (H0 & Hfg & Hl).
    exists (x, (y - 1)%nat). split; [split; simpl; lia|].
    split; [unfold Spec.index; simpl; nia|]. split; [exact Hfg|].
    split; [|exact Hl]. right. simpl. split; [reflexivity|right; lia].
Qed.

Lemma pixel_neighbour_label (n : nat * nat) :
  Spec.in_image width height n -> (Spec.index width n < y * width + x)%nat ->
  Spec.fgb binary width n = true -> Spec.adjacent4 n (x, y) ->
  Spec.neighbour_label width (labels st) x y (Spec.label_of (labels st) width n).
Proof.
  intros Hn Hlt Hfg Hadj.
  pose proof (Spec.inv_label_fg _ _ _ _ _ Hinv n Hn Hlt Hfg) as Hl.
  split; [lia|].
  destruct (visited_neighbour width x y n Hx (proj1 Hn) Hlt Hadj) as [[-> H0]|[-> H0]].
  - left. unfold Spec.left_label. destruct (Nat.ltb_spec 0 x); [reflexivity|lia].
  - right. unfold Spec.top_label. destruct (Nat.ltb_spec 0 y); [reflexivity|lia].
Qed.

End Pixel.


(** Labelling pixel (x, y) with [L] and replacing the parent table by
    [parent'] keeps the invariant, provided [parent'] merges no more than
    the classes of the visited foreground neighbours and puts [L] in their
    class. *)
Section Extend.
Variables (st : CCState) (x y : nat).
Hypothesis Hx : (x < width)%nat.
Hypothesis Hy : (y < height)%nat.
Hypothesis Hinv : Spec.cc_inv binary width height (y * width + x) st.
Hypothesis Hfg : Spec.fgb binary width (x, y) = true.
Variables (L cur' : nat) (parent' : list nat).
Hypothesis Hcur : (currentLabel st <= cur')%nat.
Hypothesis HL : (1 <= L <= cur')%nat.
Hypothesis Hplen : length parent' = S cur'.
Hypothesis Hforest : forall l, (l <= cur')%nat ->
  exists r, find (S (S (y * width + x))) parent' l = Some r /\ (1 <= l -> 1 <= r)%nat.
Hypothesis Hmono : forall a b,
  (a <= currentLabel st)%nat -> (b <= currentLabel st)%nat ->
  find FUEL (parent st) a = find FUEL (parent st) b ->
  find FUEL parent' a = find FUEL parent' b.
Hypothesis Hlink : forall l,
  Spec.neighbour_label width (labels st) x y l ->
  find FUEL parent' L = find FUEL parent' l.
Hypothesis Hold : forall a b,
  (1 <= a <= currentLabel st)%nat -> (1 <= b <= currentLabel st)%nat ->
  find FUEL parent' a = find FUEL parent' b ->
  find FUEL (parent st) a = find FUEL (parent st) b \/
  exists l1 l2,
    Spec.neighbour_label width (labels st) x y l1 /\
    Spec.neighbour_label width (labels st) x y l2 /\
    find FUEL (parent st) a = find FUEL (parent st) l1 /\
    find FUEL (parent st) b = find FUEL (parent st) l2.
Hypothesis Hnew : forall b,
  (1 <= b <= currentLabel st)%nat ->
  find FUEL parent' L = find FUEL parent' b ->
  exists l, Spec.neighbour_label width (labels st) x y l /\
            find FUEL (parent st) b = find FUEL (parent st) l.
Hypothesis Hcount :
  (Spec.left_label width (labels st) x y = 0%nat /\
   Spec.top_label width (labels st) x y = 0%nat /\ cur' = S (currentLabel st)) \/
  ((Spec.left_label width (labels st) x y <> 0%nat \/
    Spec.top_label width (labels st) x y <> 0%nat) /\ cur' = currentLabel st).

Lemma pixel_in_image : Spec.in_image width height (x, y).
Proof. split; assumption. Qed.

Lemma pixel_foreground : Spec.foreground binary width height (x, y).
Proof. split; [apply pixel_in_image|exact Hfg]. Qed.

Lemma visited_cases (p : nat * nat) :
  Spec.in_image width height p -> (Spec.index width p < S (y * width + x))%nat ->
  p = (x, y) \/ (Spec.index width p < y * width + x)%nat.
Proof.
  intros Hp Hlt. destruct (decide (Spec.index width p = y * width + x)%nat) as [Heq|Hne].
  - left. apply (index_inj width height); [exact Hp|apply pixel_in_image|exact Heq].
  - right. lia.
Qed.

Lemma label_of_new :
  Spec.label_of (<[(y * width + x)%nat := L]> (labels st)) width (x, y) = L.
Proof.
  unfold Spec.label_of, Spec.index. simpl. apply label_at_insert_eq.
  rewrite (Spec.inv_labels_length _ _ _ _ _ Hinv). nia.
Qed.

Lemma label_of_old (p : nat * nat) :
  Spec.index width p <> (y * width + x)%nat ->
  Spec.label_of (<[(y * width + x)%nat := L]> (labels st)) width p
  = Spec.label_of (labels st) width p.
Proof.
  intros Hne. unfold Spec.label_of. apply label_at_insert_ne. congruence.
Qed.

Lemma joined_through_neighbour (l : nat) (q : nat * nat) :
  Spec.neighbour_label width (labels st) x y l ->
  Spec.in_image width height q -> (Spec.index width q < y * width + x)%nat ->
  Spec.fgb binary width q = true ->
  find FUEL (parent st) (Spec.label_of (labels st) width q) = find FUEL (parent st) l ->
  Spec.connected4 binary width height q (x, y).
Proof.
  intros Hl Hq Hlt Hfq Heq.
  destruct (neighbour_label_pixel st x y Hx Hy Hinv l Hl) as (n & Hn & Hnlt & Hfn & Hadj & Hln).
  apply connected4_trans with n.
  - apply (Spec.inv_sound _ _ _ _ _ Hinv); try assumption. rewrite Hln. exact Heq.
  - apply connected4_step; [split; assumption|apply pixel_foreground|exact Hadj].
Qed.

Lemma cc_inv_extend :
  Spec.cc_inv binary width height (S (y * width + x))
    {| labels := <[(y * width + x)%nat := L]> (labels st);
       currentLabel := cur';
       parent := parent' |}.
Proof.
  pose proof (Spec.inv_labels_length _ _ _ _ _ Hinv) as Hlen.
  constructor; cbn [labels currentLabel parent].
  - rewrite length_insert. exact Hlen.
  - exact Hplen.
  - intros p Hp Hlt Hfp. destruct (visited_cases p Hp Hlt) as [->|Hlt'].
    + rewrite label_of_new. exact HL.
    + rewrite label_of_old by lia.
      pose proof (Spec.inv_label_fg _ _ _ _ _ Hinv p Hp Hlt' Hfp). lia.
  - intros i Hi. rewrite label_at_insert_ne by lia.
    apply (Spec.inv_label_todo _ _ _ _ _ Hinv). lia.
  - intros p Hp Hfp. rewrite label_of_old.
    + apply (Spec.inv_label_bg _ _ _ _ _ Hinv); assumption.
    + intros Heq.
      assert (p = (x, y))
        by (apply (index_inj width height); [exact Hp|apply pixel_in_image|exact Heq]).
      subst p. congruence.
  - exact Hforest.
  - intros p q Hp Hq Hlp Hlq Hfp Hfq Heq.
    destruct (visited_cases p Hp Hlp) as [->|Hlp'];
      destruct (visited_cases q Hq Hlq) as [->|Hlq'].
    + apply connected4_refl.
    + rewrite label_of_new, label_of_old in Heq by lia.
      pose proof (Spec.inv_label_fg _ _ _ _ _ Hinv q Hq Hlq' Hfq) as Hbq.
      destruct (Hnew _ Hbq Heq) as (l & Hl & Hql).
      apply connected4_sym. apply (joined_through_neighbour l); assumption.
    + rewrite label_of_new, label_of_old in Heq by lia.
      pose proof (Spec.inv_label_fg _ _ _ _ _ Hinv p Hp Hlp' Hfp) as Hbp.
      destruct (Hnew _ Hbp (eq_sym Heq)) as (l & Hl & Hpl).
      apply (joined_through_neighbour l); assumption.
    + rewrite !label_of_old in Heq by lia.
      pose proof (Spec.inv_label_fg _ _ _ _ _ Hinv p Hp Hlp' Hfp) as Hbp.
      pose proof (Spec.inv_label_fg _ _ _ _ _ Hinv q Hq Hlq' Hfq) as Hbq.
      destruct (Hold _ _ Hbp Hbq Heq) as [Hsame|(l1 & l2 & Hl1 & Hl2 & Hp1 & Hq2)].
      * apply (Spec.inv_sound _ _ _ _ _ Hinv); assumption.
      * apply connected4_trans with (x, y).
        -- apply (joined_through_neighbour l1); assumption.
        -- apply connected4_sym. apply (joined_through_neighbour l2); assumption.
  - intros p q Hp Hq Hlp Hlq Hfp Hfq Hadj.
    destruct (visited_cases p Hp Hlp) as [->|Hlp'];
      destruct (visited_cases q Hq Hlq) as [->|Hlq'].
    + exfalso. exact (adjacent4_irrefl _ Hadj).
    + rewrite label_of_new, label_of_old by lia. apply Hlink.
      apply (pixel_neighbour_label st x y Hx Hy Hinv); try assumption.
      apply adjacent4_sym. exact Hadj.
    + rewrite label_of_new, label_of_old by lia. symmetry. apply Hlink.
      apply (pixel_neighbour_label st x y Hx Hy Hinv); assumption.
    + rewrite !label_of_old by lia.
      pose proof (Spec.inv_label_fg _ _ _ _ _ Hinv p Hp Hlp' Hfp) as Hbp.
      pose proof (Spec.inv_label_fg _ _ _ _ _ Hinv q Hq Hlq' Hfq) as Hbq.
      apply Hmono; [lia|lia|].
      apply (Spec.inv_complete _ _ _ _ _ Hinv); assumption.
  - rewrite coords_take_snoc by assumption. rewrite filter_app, length_app.
    rewrite <- (Spec.inv_count _ _ _ _ _ Hinv).
    assert (Hstart : Spec.starts_label binary width (x, y)
              = (Spec.left_label width (labels st) x y =? 0)%nat
                && (Spec.top_label width (labels st) x y =? 0)%nat).
    { unfold Spec.starts_label. cbn [fst snd]. rewrite Hfg. cbn [andb].
      f_equal.
      - destruct (Nat.eqb_spec (Spec.left_label width (labels st) x y) 0) as [Hz|Hnz].
        + rewrite (left_label_zero st x y Hx Hy Hinv Hz). reflexivity.
        + destruct (left_label_nonzero st x y Hx Hy Hinv Hnz) as (H0 & Hf & _).
          rewrite Hf. destruct (Nat.ltb_spec 0 x); [reflexivity|lia].
      - destruct (Nat.eqb_spec (Spec.top_label width (labels st) x y) 0) as [Hz|Hnz].
        + rewrite (top_label_zero st x y Hx Hy Hinv Hz). reflexivity.
        + destruct (top_label_nonzero st x y Hx Hy Hinv Hnz) as (H0 & Hf & _).
          rewrite Hf. destruct (Nat.ltb_spec 0 y); [reflexivity|lia]. }
    destruct Hcount as [(Hl0 & Ht0 & ->)|([Hl0|Ht0] & ->)].
    + rewrite filter_cons_True by (rewrite Hstart, Hl0, Ht0; reflexivity).
      simpl. lia.
    + rewrite filter_cons_False; [simpl; lia|]. rewrite Hstart.
      apply Nat.eqb_neq in Hl0. rewrite Hl0. simpl. congruence.
    + rewrite filter_cons_False; [simpl; lia|]. rewrite Hstart.
      apply Nat.eqb_neq in Ht0. rewrite Ht0, andb_false_r. congruence.
Qed.

End Extend.

(** A background pixel changes nothing. *)
Lemma cc_inv_skip (st : CCState) (x y : nat) :
  (x < width)%nat -> (y < height)%nat ->
  Spec.cc_inv binary width height (y * width + x) st ->
  Spec.fgb binary width (x, y) = false ->
  Spec.cc_inv binary width height (S (y * width + x)) st.
Proof.
  intros Hx Hy Hinv Hbg.
  assert (Hold : forall p, Spec.in_image width height p ->
            (Spec.index width p < S (y * width + x))%nat ->
            Spec.fgb binary width p = true ->
            (Spec.index width p < y * width + x)%nat).
  { intros p Hp Hlt Hfp.
    destruct (decide (Spec.index width p = y * width + x)%nat) as [Heq|Hne]; [|lia].
    assert (p = (x, y))
      by (apply (index_inj width height); [exact Hp|split; assumption|exact Heq]).
    subst p. congruence. }
  constructor.
  - apply (Spec.inv_labels_length _ _ _ _ _ Hinv).
  - apply (Spec.inv_parent_length _ _ _ _ _ Hinv).
  - intros p Hp Hlt Hfp. apply (Spec.inv_label_fg _ _ _ _ _ Hinv); auto.
  - intros i Hi. apply (Spec.inv_label_todo _ _ _ _ _ Hinv). lia.
  - apply (Spec.inv_label_bg _ _ _ _ _ Hinv).
  - intros l Hl. destruct (Spec.inv_forest _ _ _ _ _ Hinv l Hl) as (r & Hr & H1).
    exists r. split; [|exact H1]. eapply find_mono; [exact Hr|lia].
  - intros p q Hp Hq Hlp Hlq Hfp Hfq. apply (Spec.inv_sound _ _ _ _ _ Hinv); auto.
  - intros p q Hp Hq Hlp Hlq Hfp Hfq. apply (Spec.inv_complete _ _ _ _ _ Hinv); auto.
  - rewrite coords_take_snoc by assumption. rewrite filter_app, length_app.
    rewrite filter_cons_False.
    + simpl. rewrite Nat.add_0_r. apply (Spec.inv_count _ _ _ _ _ Hinv).
    + unfold Spec.starts_label. cbn [fst snd]. rewrite Hbg. simpl. congruence.
Qed.

Section Step.
Variables (st : CCState) (x y : nat).
Hypothesis Hx : (x < width)%nat.
Hypothesis Hy : (y < height)%nat.
Hypothesis Hinv : Spec.cc_inv binary width height (y * width + x) st.

(** Every label in use has a root, found within the fuel. *)
Lemma root_exists (a : nat) :
  (a <= currentLabel st)%nat ->
  exists r, find (S (y * width + x)) (parent st) a = Some r /\
            find FUEL (parent st) a = Some r /\
            (1 <= a -> 1 <= r)%nat /\ (r <= currentLabel st)%nat /\
            parent st !! r = Some r.
Proof.
  intros Ha. destruct (Spec.inv_forest _ _ _ _ _ Hinv a Ha) as (r & Hr & H1).
  exists r. split; [exact Hr|]. split; [eapply find_mono; [exact Hr|nia]|].
  split; [exact H1|]. pose proof (find_root _ _ _ _ Hr) as Hroot.
  split; [|exact Hroot]. apply lookup_lt_Some in Hroot.
  rewrite (Spec.inv_parent_length _ _ _ _ _ Hinv) in Hroot. lia.
Qed.

Lemma forest_mono :
  forall l, (l <= currentLabel st)%nat ->
  exists r, find (S (S (y * width + x))) (parent st) l = Some r /\ (1 <= l -> 1 <= r)%nat.
Proof.
  intros l Hl. destruct (root_exists l Hl) as (r & Hr & _ & H1 & _).
  exists r. split; [eapply find_mono; [exact Hr|lia]|exact H1].
Qed.

Hypothesis Hfg : Spec.fgb binary width (x, y) = true.

Lemma step_fresh :
  Spec.left_label width (labels st) x y = 0%nat ->
  Spec.top_label width (labels st) x y = 0%nat ->
  Spec.cc_inv binary width height (S (y * width + x))
    {| labels := <[(y * width + x)%nat := S (currentLabel st)]> (labels st);
       currentLabel := S (currentLabel st);
       parent := parent st ++ [S (currentLabel st)] |}.
Proof.
  intros Hl0 Ht0.
  pose proof (Spec.inv_parent_length _ _ _ _ _ Hinv) as Hplen.
  assert (Hsame : forall a, (a <= currentLabel st)%nat ->
            find FUEL (parent st ++ [S (currentLabel st)]) a = find FUEL (parent st) a).
  { intros a Ha. destruct (root_exists a Ha) as (r & _ & Hr & _).
    rewrite Hr. apply find_app. exact Hr. }
  assert (Hself : forall f, find (S f) (parent st ++ [S (currentLabel st)])
                              (S (currentLabel st)) = Some (S (currentLabel st))).
  { intros f. apply find_self. rewrite lookup_app_r by lia.
    rewrite Hplen, Nat.sub_diag. reflexivity. }
  apply cc_inv_extend; try assumption.
  - lia.
  - lia.
  - rewrite length_app, Hplen. simpl. lia.
  - intros l Hl. destruct (decide (l = S (currentLabel st))) as [->|Hne].
    + exists (S (currentLabel st)). split; [apply Hself|lia].
    + destruct (root_exists l ltac:(lia)) as (r & Hr & _ & H1 & _).
      exists r. split; [|exact H1]. apply find_app. eapply find_mono; [exact Hr|lia].
  - intros a b Ha Hb Heq. rewrite !Hsame by assumption. exact Heq.
  - intros l [Hne [->| ->]]; congruence.
  - intros a b Ha Hb Heq. left. rewrite !Hsame in Heq by lia. exact Heq.
  - intros b Hb Heq. exfalso. rewrite Hself, Hsame in Heq by lia.
    destruct (root_exists b ltac:(lia)) as (r & _ & Hr & _ & Hle & _).
    rewrite Hr in Heq. injection Heq as <-. lia.
  - left. auto.
Qed.

Lemma step_propagate (L : nat) :
  (L = Spec.left_label width (labels st) x y /\
   Spec.top_label width (labels st) x y = 0%nat \/
   L = Spec.top_label width (labels st) x y /\
   Spec.left_label width (labels st) x y = 0%nat) ->
  L <> 0%nat ->
  Spec.cc_inv binary width height (S (y * width + x))
    {| labels := <[(y * width + x)%nat := L]> (labels st);
       currentLabel := currentLabel st;
       parent := parent st |}.
Proof.
  intros Hcase HL.
  assert (Hle : (L <= currentLabel st)%nat).
  { destruct Hcase as [[-> _]|[-> _]];
      [apply (left_label_le st x y)|apply (top_label_le st x y)]; assumption. }
  assert (Honly : forall l, Spec.neighbour_label width (labels st) x y l -> l = L).
  { intros l [Hne Hl]. destruct Hcase as [[-> H0]|[-> H0]]; destruct Hl; congruence. }
  assert (HNL : Spec.neighbour_label width (labels st) x y L).
  { split; [exact HL|]. destruct Hcase as [[-> _]|[-> _]]; auto. }
  apply cc_inv_extend; try assumption.
  - lia.
  - lia.
  - apply (Spec.inv_parent_length _ _ _ _ _ Hinv).
  - apply forest_mono.
  - auto.
  - intros l Hl. rewrite (Honly l Hl). reflexivity.
  - intros a b Ha Hb Heq. left. exact Heq.
  - intros b Hb Heq. exists L. split; [exact HNL|]. symmetry. exact Heq.
  - right. split; [|reflexivity].
    destruct Hcase as [[<- _]|[<- _]]; [left|right]; exact HL.
Qed.

End Step.

Section StepUnion.
Variables (st : CCState) (x y : nat).
Hypothesis Hx : (x < width)%nat.
Hypothesis Hy : (y < height)%nat.
Hypothesis Hinv : Spec.cc_inv binary width height (y * width + x) st.
Hypothesis Hfg : Spec.fgb binary width (x, y) = true.
Hypothesis Hleft : Spec.left_label width (labels st) x y <> 0%nat.
Hypothesis Htop : Spec.top_label width (labels st) x y <> 0%nat.

Lemma step_union :
  exists parent',
    union FUEL (parent st) (Spec.left_label width (labels st) x y)
      (Spec.top_label width (labels st) x y) = Some parent' /\
    Spec.cc_inv binary width height (S (y * width + x))
      {| labels := <[(y * width + x)%nat :=
                      Nat.min (Spec.left_label width (labels st) x y)
                              (Spec.top_label width (labels st) x y)]> (labels st);
         currentLabel := currentLabel st;
         parent := parent' |}.
Proof.
  set (left := Spec.left_label width (labels st) x y) in *.
  set (top := Spec.top_label width (labels st) x y) in *.
  pose proof (left_label_le st x y Hx Hy Hinv) as Hlle. fold left in Hlle.
  pose proof (top_label_le st x y Hx Hy Hinv) as Htle. fold top in Htle.
  destruct (root_exists st x y Hx Hy Hinv left Hlle) as (rI & HIk & HI & HI1 & HIle & HIroot).
  destruct (root_exists st x y Hx Hy Hinv top Htle) as (rJ & HJk & HJ & HJ1 & HJle & HJroot).
  assert (HNleft : Spec.neighbour_label width (labels st) x y left)
    by (split; [exact Hleft|left; reflexivity]).
  assert (HNtop : Spec.neighbour_label width (labels st) x y top)
    by (split; [exact Htop|right; reflexivity]).
  assert (Hmin : (1 <= Nat.min left top <= currentLabel st)%nat) by lia.
  unfold union. rewrite HI, HJ. cbn [mbind option_bind].
  eexists. split; [reflexivity|].
  destruct (decide (rI = rJ)) as [<-|Hne].
  - (* the two neighbours are already in one class *)
    assert (HL : find FUEL (parent st) (Nat.min left top) = Some rI)
      by (destruct (Nat.min_spec left top) as [[_ ->]|[_ ->]]; assumption).
    apply cc_inv_extend; try assumption.
    + lia.
    + apply (Spec.inv_parent_length _ _ _ _ _ Hinv).
    + apply forest_mono; assumption.
    + auto.
    + intros l [_ [->| ->]]; fold left; fold top; congruence.
    + intros a b Ha Hb Heq. left. exact Heq.
    + intros b Hb Heq. exists left. split; [exact HNleft|]. congruence.
    + right. split; [left; exact Hleft|reflexivity].
  - (* the class of [top] is linked below the root of [left] *)
    assert (Hlinked : forall a r, (a <= currentLabel st)%nat ->
              find FUEL (parent st) a = Some r ->
              find FUEL (<[rJ := rI]> (parent st)) a
              = Some (if decide (r = rJ) then rI else r)).
    { intros a r Ha Hr.
      destruct (root_exists st x y Hx Hy Hinv a Ha) as (r0 & Hr0 & Hr0' & _).
      assert (r0 = r) by congruence. subst r0.
      eapply find_mono; [apply find_link; eassumption|nia]. }
    assert (HL : find FUEL (<[rJ := rI]> (parent st)) (Nat.min left top) = Some rI).
    { destruct (Nat.min_spec left top) as [[_ ->]|[_ ->]].
      - rewrite (Hlinked _ _ Hlle HI). destruct (decide (rI = rJ)); congruence.
      - rewrite (Hlinked _ _ Htle HJ). destruct (decide (rJ = rJ)); congruence. }
    apply cc_inv_extend; try assumption.
    + lia.
    + rewrite length_insert. apply (Spec.inv_parent_length _ _ _ _ _ Hinv).
    + intros l Hl.
      destruct (root_exists st x y Hx Hy Hinv l Hl) as (r & Hr & _ & H1 & _).
      eexists. split; [apply find_link; eassumption|].
      intros Hl1. destruct (decide (r = rJ)); [apply HI1; lia|apply H1; exact Hl1].
    + intros a b Ha Hb Heq.
      destruct (root_exists st x y Hx Hy Hinv a Ha) as (ra & _ & Hra & _).
      rewrite Hra in Heq. symmetry in Heq.
      rewrite (Hlinked _ _ Ha Hra), (Hlinked _ _ Hb Heq). reflexivity.
    + intros l [_ [->| ->]]; fold left; fold top; rewrite HL; symmetry.
      * rewrite (Hlinked _ _ Hlle HI). destruct (decide (rI = rJ)); congruence.
      * rewrite (Hlinked _ _ Htle HJ). destruct (decide (rJ = rJ)); congruence.
    + intros a b Ha Hb Heq.
      destruct (root_exists st x y Hx Hy Hinv a ltac:(lia)) as (ra & _ & Hra & _).
      destruct (root_exists st x y Hx Hy Hinv b ltac:(lia)) as (rb & _ & Hrb & _).
      rewrite (Hlinked a ra ltac:(lia) Hra), (Hlinked b rb ltac:(lia) Hrb) in Heq.
      rewrite Hra, Hrb.
      destruct (decide (ra = rJ)) as [->|Ha'], (decide (rb = rJ)) as [->|Hb'].
      * left. reflexivity.
      * right. exists top, left. injection Heq as <-. rewrite HI, HJ. auto.
      * right. exists left, top. injection Heq as ->. rewrite HI, HJ. auto.
      * left. exact Heq.
    + intros b Hb Heq.
      destruct (root_exists st x y Hx Hy Hinv b ltac:(lia)) as (rb & _ & Hrb & _).
      rewrite HL, (Hlinked b rb ltac:(lia) Hrb) in Heq. rewrite Hrb.
      destruct (decide (rb = rJ)) as [->|Hb'].
      * exists top. split; [exact HNtop|]. congruence.
      * exists left. split; [exact HNleft|]. congruence.
    + right. split; [left; exact Hleft|reflexivity].
Qed.

End StepUnion.

(** The body of the first pass keeps the invariant and never fails. *)
Lemma label_pixel_inv (st : CCState) (x y : nat) :
  (x < width)%nat -> (y < height)%nat ->
  Spec.cc_inv binary width height (y * width + x) st ->
  exists st', label_pixel FUEL binary width y x st = Some st' /\
              Spec.cc_inv binary width height (S (y * width + x)) st'.
Proof.
  intros Hx Hy Hinv. unfold label_pixel.
  pose proof (is_zero_fgb (x, y) (conj Hx Hy)) as Hz.
  change (Spec.index width (x, y)) with (y * width + x)%nat in Hz. rewrite Hz.
  destruct (Spec.fgb binary width (x, y)) eqn:Hfg; simpl negb; cbv iota.
  2: { exists st. split; [reflexivity|]. apply cc_inv_skip; assumption. }
  fold (Spec.left_label width (labels st) x y).
  fold (Spec.top_label width (labels st) x y).
  destruct (Nat.eqb_spec (Spec.left_label width (labels st) x y) 0) as [Hl|Hl];
    destruct (Nat.eqb_spec (Spec.top_label width (labels st) x y) 0) as [Ht|Ht];
    cbn [andb negb].
  - eexists. split; [reflexivity|]. apply step_fresh; assumption.
  - eexists. split; [reflexivity|]. apply step_propagate; auto.
  - eexists. split; [reflexivity|]. apply step_propagate; auto.
  - destruct (step_union st x y Hx Hy Hinv Hfg Hl Ht) as (parent' & -> & Hinv').
    cbn [mbind option_bind]. eexists. split; [reflexivity|]. exact Hinv'.
Qed.

Lemma cc_inv_init :
  Spec.cc_inv binary width height 0
    {| labels := replicate (width * height) 0%nat;
       currentLabel := 0%nat;
       parent := [0%nat] |}.
Proof.
  assert (Hzero : forall i, label_at (replicate (width * height) 0%nat) i = 0%nat).
  { intros i. unfold label_at.
    destruct (replicate (width * height) 0%nat !! i) as [v|] eqn:E; [|reflexivity].
    apply lookup_replicate in E. destruct E as [-> _]. reflexivity. }
  constructor; cbn [labels currentLabel parent].
  - apply length_replicate.
  - reflexivity.
  - intros p _ Hlt. lia.
  - intros i _. apply Hzero.
  - intros p _ _. apply Hzero.
  - intros l Hl. assert (l = 0%nat) by lia. subst l. exists 0%nat.
    split; [reflexivity|lia].
  - intros p q _ _ Hlt. lia.
  - intros p q _ _ Hlt. lia.
  - reflexivity.
Qed.

Lemma first_pass_inv :
  exists st, first_pass FUEL binary width height = Some st /\
             Spec.cc_inv binary width height (width * height) st.
Proof.
  unfold first_pass.
  destruct (raster_indM (Spec.cc_inv binary width height) width height
              (label_pixel FUEL binary width) _ cc_inv_init) as (st & Hst & Hinv).
  - intros y x st Hy Hx Hinv. apply label_pixel_inv; assumption.
  - exists st. split; [exact Hst|]. rewrite Nat.mul_comm. exact Hinv.
Qed.

(** ** Connected components: the second pass and the result *)

Lemma index_surj (j : nat) :
  (j < width * height)%nat ->
  exists p, Spec.in_image width height p /\ Spec.index width p = j.
Proof.
  intros Hj. assert (Hw : (0 < width)%nat) by nia.
  exists ((j mod width)%nat, (j / width)%nat). split.
  - split; simpl.
    + apply Nat.mod_upper_bound. lia.
    + apply Nat.Div0.div_lt_upper_bound. exact Hj.
  - unfold Spec.index. simpl. pose proof (Nat.div_mod_eq j width). lia.
Qed.

Section SecondPass.
Variable st : CCState.
Hypothesis Hinv : Spec.cc_inv binary width height (width * height) st.

Lemma label_at_bound (j : nat) : (label_at (labels st) j <= currentLabel st)%nat.
Proof.
  destruct (decide (j < width * height)%nat) as [Hj|Hj].
  - destruct (index_surj j Hj) as (p & Hp & <-).
    destruct (Spec.fgb binary width p) eqn:Hfg.
    + apply (Spec.inv_label_fg _ _ _ _ _ Hinv p Hp); [|exact Hfg].
      apply index_lt. exact Hp.
    + pose proof (Spec.inv_label_bg _ _ _ _ _ Hinv p Hp Hfg) as H0.
      unfold Spec.label_of in H0. lia.
  - rewrite (Spec.inv_label_todo _ _ _ _ _ Hinv) by lia. lia.
Qed.

Lemma final_root (l : nat) :
  (l <= currentLabel st)%nat ->
  exists r, find FUEL (parent st) l = Some r /\ (1 <= l -> 1 <= r)%nat /\
            (r <= currentLabel st)%nat.
Proof.
  intros Hl. destruct (Spec.inv_forest _ _ _ _ _ Hinv l Hl) as (r & Hr & H1).
  exists r. split; [exact Hr|]. split; [exact H1|].
  pose proof (find_root _ _ _ _ Hr) as Hroot. apply lookup_lt_Some in Hroot.
  rewrite (Spec.inv_parent_length _ _ _ _ _ Hinv) in Hroot. lia.
Qed.

Lemma second_pass :
  exists labels',
    JS.for_rangeM 0 (length (labels st))
      (fun i labels => resolve_pixel FUEL (parent st) i labels) (labels st)
      = Some labels' /\
    length labels' = (width * height)%nat /\
    forall j, label_at labels' j = Spec.resolve FUEL (parent st) (label_at (labels st) j).
Proof.
  pose proof (Spec.inv_labels_length _ _ _ _ _ Hinv) as Hlen.
  destruct (for_rangeM_ind
    (fun i labs =>
       length labs = (width * height)%nat /\
       (forall j, (j < i)%nat ->
          label_at labs j = Spec.resolve FUEL (parent st) (label_at (labels st) j)) /\
       (forall j, (i <= j)%nat -> label_at labs j = label_at (labels st) j))
    0 (length (labels st))
    (fun i labels => resolve_pixel FUEL (parent st) i labels) (labels st))
    as (labs & Hlabs & Hl & Hdone & _).
  - lia.
  - split; [exact Hlen|]. split; [intros j Hj; lia|reflexivity].
  - intros i labs Hi (Hl & Hdone & Htodo). unfold resolve_pixel.
    rewrite (Htodo i) by lia.
    destruct (Nat.ltb_spec 0 (label_at (labels st) i)) as [Hpos|Hzero].
    + destruct (final_root _ (label_at_bound i)) as (r & Hr & _).
      rewrite Hr. cbn [mbind option_bind]. eexists. split; [reflexivity|].
      split; [rewrite length_insert; exact Hl|]. split.
      * intros j Hj. destruct (decide (j = i)) as [->|Hne].
        -- rewrite label_at_insert_eq by lia. unfold Spec.resolve.
           destruct (Nat.ltb_spec 0 (label_at (labels st) i)); [|lia].
           rewrite Hr. reflexivity.
        -- rewrite label_at_insert_ne by congruence. apply Hdone. lia.
      * intros j Hj. rewrite label_at_insert_ne by lia. apply Htodo. lia.
    + eexists. split; [reflexivity|]. split; [exact Hl|]. split.
      * intros j Hj. destruct (decide (j = i)) as [->|Hne].
        -- rewrite (Htodo i) by lia. unfold Spec.resolve.
           destruct (Nat.ltb_spec 0 (label_at (labels st) i)); [lia|reflexivity].
        -- apply Hdone. lia.
      * intros j Hj. apply Htodo. lia.
  - exists labs. split; [exact Hlabs|]. split; [exact Hl|].
    intros j. destruct (decide (j < length (labels st))%nat) as [Hj|Hj].
    + apply Hdone. exact Hj.
    + unfold Spec.resolve, label_at.
      rewrite (lookup_ge_None_2 labs) by lia.
      rewrite (lookup_ge_None_2 (labels st)) by lia. reflexivity.
Qed.

End SecondPass.

(** The result of [connectedComponents], in terms of the first-pass state. *)
Lemma connectedComponents_result :
  exists st labels',
    Spec.cc_inv binary width height (width * height) st /\
    connectedComponents binary width height = Some (labels', currentLabel st) /\
    length labels' = (width * height)%nat /\
    forall j, label_at labels' j = Spec.resolve FUEL (parent st) (label_at (labels st) j).
Proof.
  destruct first_pass_inv as (st & Hfirst & Hinv).
  destruct (second_pass st Hinv) as (labels' & Hsecond & Hlen & Hres).
  exists st, labels'. split; [exact Hinv|]. split; [|split; assumption].
  unfold connectedComponents, connectedComponents_fuel.
  rewrite Hfirst. cbn [mbind option_bind]. rewrite Hsecond. reflexivity.
Qed.

End FirstPass.

Lemma resolve_foreground (binary : list Z) (width height : nat) (st : CCState)
    (p : nat * nat) :
  length binary = (width * height)%nat ->
  Spec.cc_inv binary width height (width * height) st ->
  Spec.foreground binary width height p ->
  exists r, (1 <= r <= currentLabel st)%nat /\
    find (S (width * height)) (parent st) (Spec.label_of (labels st) width p) = Some r /\
    Spec.resolve (S (width * height)) (parent st) (Spec.label_of (labels st) width p) = r.
Proof.
  intros Hlen Hinv [Hp Hfg].
  pose proof (Spec.inv_label_fg _ _ _ _ _ Hinv p Hp (index_lt _ _ _ Hp) Hfg) as Hl.
  destruct (final_root binary width height Hlen st Hinv _ (proj2 Hl)) as (r & Hr & H1 & Hle).
  exists r. split; [split; [apply H1; lia|exact Hle]|]. split; [exact Hr|].
  unfold Spec.resolve. destruct (Nat.ltb_spec 0 (Spec.label_of (labels st) width p)); [|lia].
  rewrite Hr. reflexivity.
Qed.

(** C1. For every binary mask the labeller returns a label map in which two
    foreground pixels carry the same final label exactly when a chain of
    4-adjacent foreground pixels joins them; background pixels, and only
    they, carry label 0. *)
Theorem connectedComponents_partition (binary : list Z) (width height : nat) :
  length binary = (width * height)%nat ->
  exists labels count,
    connectedComponents binary width height = Some (labels, count) /\
    length labels = (width * height)%nat /\
    (forall p, Spec.in_image width height p ->
       Spec.label_of labels width p <> 0%nat <-> Spec.foreground binary width height p) /\
    (forall p q,
       Spec.foreground binary width height p -> Spec.foreground binary width height q ->
       Spec.label_of labels width p = Spec.label_of labels width q <->
       Spec.connected4 binary width height p q).
Proof.
  intros Hlen.
  destruct (connectedComponents_result binary width height Hlen)
    as (st & labels' & Hinv & Hcc & Hlenl & Hres).
  exists labels', (currentLabel st). split; [exact Hcc|]. split; [exact Hlenl|].
  assert (Hfinal : forall p, Spec.label_of labels' width p
            = Spec.resolve (S (width * height)) (parent st) (Spec.label_of (labels st) width p))
    by (intros p; apply Hres).
  split.
  - intros p Hp. rewrite Hfinal. split.
    + intros Hne. split; [exact Hp|].
      destruct (Spec.fgb binary width p) eqn:Hfg; [reflexivity|]. exfalso. apply Hne.
      rewrite (Spec.inv_label_bg _ _ _ _ _ Hinv p Hp Hfg). reflexivity.
    + intros Hfg. destruct (resolve_foreground _ _ _ _ _ Hlen Hinv Hfg) as (r & Hr & _ & ->). lia.
  - intros p q Hfp Hfq. rewrite !Hfinal.
    destruct (resolve_foreground _ _ _ _ _ Hlen Hinv Hfp) as (rp & _ & Hrp & Hp').
    destruct (resolve_foreground _ _ _ _ _ Hlen Hinv Hfq) as (rq & _ & Hrq & Hq').
    split.
    + intros Heq. destruct Hfp as [Hp Hfp], Hfq as [Hq Hfq].
      apply (Spec.inv_sound _ _ _ _ _ Hinv); try assumption; try (apply index_lt; assumption).
      congruence.
    + intros Hconn. clear rp rq Hrp Hrq Hp' Hq' Hfp Hfq.
      induction Hconn as [p|p p' q (Hfp & Hfp' & Hadj) _ IH]; [reflexivity|].
      rewrite <- IH.
      destruct (resolve_foreground _ _ _ _ _ Hlen Hinv Hfp) as (rp & _ & Hrp & ->).
      destruct (resolve_foreground _ _ _ _ _ Hlen Hinv Hfp') as (rp' & _ & Hrp' & ->).
      destruct Hfp as [Hp Hfp], Hfp' as [Hp' Hfp'].
      pose proof (Spec.inv_complete _ _ _ _ _ Hinv p p' Hp Hp'
                    (index_lt _ _ _ Hp) (index_lt _ _ _ Hp') Hfp Hfp' Hadj) as Heq.
      congruence.
Qed.

Lemma connectedComponents_partition_witness :
  exists labels count,
    connectedComponents Spec.u_shape 3 2 = Some (labels, count) /\
    length labels = 6%nat /\
    (Spec.label_of labels 3 (0%nat, 0%nat) = Spec.label_of labels 3 (2%nat, 0%nat) <->
     Spec.connected4 Spec.u_shape 3 2 (0%nat, 0%nat) (2%nat, 0%nat)).
Proof.
  destruct (connectedComponents_partition Spec.u_shape 3 2 eq_refl)
    as (labels & count & Hcc & Hlen & _ & Hiff).
  exists labels, count. split; [exact Hcc|]. split; [exact Hlen|].
  apply Hiff; (split; [split; simpl; lia|reflexivity]).
Defined.

(** What the labeller returns, for the lemmas below. *)
Lemma connectedComponents_labels (binary : list Z) (width height : nat) :
  length binary = (width * height)%nat ->
  exists labels count,
    connectedComponents binary width height = Some (labels, count) /\
    length labels = (width * height)%nat /\
    (forall p, Spec.in_image width height p ->
       Spec.label_of labels width p <> 0%nat <-> Spec.foreground binary width height p) /\
    (forall p q,
       Spec.foreground binary width height p -> Spec.foreground binary width height q ->
       Spec.label_of labels width p = Spec.label_of labels width q <->
       Spec.connected4 binary width height p q) /\
    (forall j, (label_at labels j <= count)%nat) /\
    count = length (filter (fun p => Spec.starts_label binary width p = true)
                      (Spec.coords width height)).
Proof.
  intros Hlen.
  destruct (connectedComponents_result binary width height Hlen)
    as (st & labels' & Hinv & Hcc & Hlenl & Hres).
  exists labels', (currentLabel st). split; [exact Hcc|]. split; [exact Hlenl|].
  assert (Hfinal : forall p, Spec.label_of labels' width p
            = Spec.resolve (S (width * height)) (parent st) (Spec.label_of (labels st) width p))
    by (intros p; apply Hres).
  split; [|split; [|split]].
  - intros p Hp. rewrite Hfinal. split.
    + intros Hne. split; [exact Hp|].
      destruct (Spec.fgb binary width p) eqn:Hfg; [reflexivity|]. exfalso. apply Hne.
      rewrite (Spec.inv_label_bg _ _ _ _ _ Hinv p Hp Hfg). reflexivity.
    + intros Hfg. destruct (resolve_foreground _ _ _ _ _ Hlen Hinv Hfg) as (r & Hr & _ & ->). lia.
  - intros p q Hfp Hfq. rewrite !Hfinal.
    destruct (resolve_foreground _ _ _ _ _ Hlen Hinv Hfp) as (rp & _ & Hrp & Hp').
    destruct (resolve_foreground _ _ _ _ _ Hlen Hinv Hfq) as (rq & _ & Hrq & Hq').
    split.
    + intros Heq. destruct Hfp as [Hp Hfp], Hfq as [Hq Hfq].
      apply (Spec.inv_sound _ _ _ _ _ Hinv); try assumption; try (apply index_lt; assumption).
      congruence.
    + intros Hconn. clear rp rq Hrp Hrq Hp' Hq' Hfp Hfq.
      induction Hconn as [p|p p' q (Hfp & Hfp' & Hadj) _ IH]; [reflexivity|].
      rewrite <- IH.
      destruct (resolve_foreground _ _ _ _ _ Hlen Hinv Hfp) as (rp & _ & Hrp & ->).
      destruct (resolve_foreground _ _ _ _ _ Hlen Hinv Hfp') as (rp' & _ & Hrp' & ->).
      destruct Hfp as [Hp Hfp], Hfp' as [Hp' Hfp'].
      pose proof (Spec.inv_complete _ _ _ _ _ Hinv p p' Hp Hp'
                    (index_lt _ _ _ Hp) (index_lt _ _ _ Hp') Hfp Hfp' Hadj) as Heq.
      congruence.
  - intros j. rewrite Hres. unfold Spec.resolve.
    pose proof (label_at_bound binary width height Hlen st Hinv j) as Hle.
    destruct (Nat.ltb_spec 0 (label_at (labels st) j)); [|exact Hle].
    destruct (final_root binary width height Hlen st Hinv _ Hle) as (r & -> & _ & Hr).
    exact Hr.
  - rewrite (Spec.inv_count _ _ _ _ _ Hinv).
    rewrite take_ge by (rewrite coords_length; lia). reflexivity.
Qed.

Lemma coords_in_image (w h : nat) (p : nat * nat) :
  p ∈ Spec.coords w h <-> Spec.in_image w h p.
Proof.
  split; [apply coords_elem|].
  intros [Hx Hy]. apply list_elem_of_lookup. exists (p.2 * w + p.1)%nat.
  destruct p as [x y]. apply coords_lookup; assumption.
Qed.

Lemma NoDup_bounded_length (l : list nat) (n : nat) :
  NoDup l -> (forall x, x ∈ l -> (1 <= x <= n)%nat) -> (length l <= n)%nat.
Proof.
  intros Hnd Hb.
  assert (Hsub : l ⊆+ seq 1 n).
  { apply NoDup_submseteq; [exact Hnd|]. intros x Hx. apply elem_of_seq.
    specialize (Hb x Hx). lia. }
  apply submseteq_length in Hsub. rewrite length_seq in Hsub. exact Hsub.
Qed.

(** The least number with a decidable property. *)
Lemma least_index (P : nat -> Prop) `{!forall n, Decision (P n)} (n : nat) :
  P n -> exists m, P m /\ forall k, (k < m)%nat -> ~ P k.
Proof.
  intros Hn.
  assert (Hleast : forall b, (forall k, (k < b)%nat -> ~ P k) \/
                        exists m, P m /\ forall k, (k < m)%nat -> ~ P k).
  { induction b as [|b IH]; [left; intros k Hk; lia|].
    destruct IH as [Hnone|Hsome]; [|right; exact Hsome].
    destruct (decide (P b)) as [Hb|Hb].
    - right. exists b. split; [exact Hb|exact Hnone].
    - left. intros k Hk. destruct (decide (k = b)) as [->|Hne]; [exact Hb|].
      apply Hnone. lia. }
  destruct (Hleast n) as [Hnone|Hsome]; [|exact Hsome].
  exists n. split; [exact Hn|exact Hnone].
Qed.

(** A list that holds a value twice loses an element to [remove_dups]. *)
Lemma remove_dups_length_le (k : list nat) : (length (remove_dups k) <= length k)%nat.
Proof.
  induction k as [|a k IH]; [reflexivity|].
  cbn [remove_dups]. destruct (decide_rel elem_of a k); cbn [length]; lia.
Qed.

Lemma remove_dups_length_lt (k : list nat) (i j x : nat) :
  i <> j -> k !! i = Some x -> k !! j = Some x ->
  (length (remove_dups k) < length k)%nat.
Proof.
  revert i j. induction k as [|a k IH]; intros i j Hij Hi Hj; [discriminate|].
  cbn [remove_dups].
  assert (Hdup : forall n, k !! n = Some a ->
            (length (if decide_rel elem_of a k then remove_dups k else a :: remove_dups k)
             < length (a :: k))%nat).
  { intros n Hn. destruct (decide_rel elem_of a k) as [_|Hno].
    - pose proof (remove_dups_length_le k). cbn [length]. lia.
    - exfalso. apply Hno. apply list_elem_of_lookup. exists n. exact Hn. }
  destruct i as [|i], j as [|j]; try lia; cbn [lookup list_lookup] in Hi, Hj.
  - injection Hi as <-. apply (Hdup j Hj).
  - injection Hj as <-. apply (Hdup i Hi).
  - pose proof (IH i j ltac:(lia) Hi Hj) as Hlt.
    destruct (decide_rel elem_of a k); cbn [length]; lia.
Qed.

(** A list of numbers has no duplicates, or holds a value at two places. *)
Lemma NoDup_or_twice (k : list nat) :
  NoDup k \/ exists i j x, (i < j)%nat /\ k !! i = Some x /\ k !! j = Some x.
Proof.
  induction k as [|a k IH]; [left; constructor|].
  destruct (decide (a ∈ k)) as [Hin|Hnot].
  - right. apply list_elem_of_lookup in Hin. destruct Hin as [j Hj].
    exists 0%nat, (S j), a. split; [lia|]. split; [reflexivity|exact Hj].
  - destruct IH as [Hnd|(i & j & x & Hij & Hi & Hj)].
    + left. constructor; assumption.
    + right. exists (S i), (S j), x. split; [lia|]. split; assumption.
Qed.

(** Every label of the final map is the label of a pixel at which the
    first pass allocated a fresh label: the first pixel of its component
    in raster order. *)
Lemma label_has_start (binary : list Z) (width height : nat) (labels : list nat) (l : nat) :
  length labels = (width * height)%nat ->
  (forall p, Spec.in_image width height p ->
     Spec.label_of labels width p <> 0%nat <-> Spec.foreground binary width height p) ->
  (forall p q,
     Spec.foreground binary width height p -> Spec.foreground binary width height q ->
     Spec.label_of labels width p = Spec.label_of labels width q <->
     Spec.connected4 binary width height p q) ->
  l <> 0%nat -> l ∈ labels ->
  exists p, Spec.in_image width height p /\ Spec.starts_label binary width p = true /\
            Spec.label_of labels width p = l.
Proof.
  intros Hlen Hfg Hsame Hl0 Hl.
  apply list_elem_of_lookup in Hl. destruct Hl as [j Hj].
  assert (HPj : label_at labels j = l) by (unfold label_at; rewrite Hj; reflexivity).
  destruct (least_index (fun n => label_at labels n = l) j HPj) as (m & Hm & Hleast).
  assert (Hmlt : (m < width * height)%nat).
  { rewrite <- Hlen. apply lookup_lt_is_Some. unfold label_at in Hm.
    destruct (labels !! m); [eauto|]. simpl in Hm. congruence. }
  destruct (index_surj (replicate (width * height) 0) width height (length_replicate _ _) m Hmlt)
    as (p & Hp & Hidx).
  assert (Hlp : Spec.label_of labels width p = l) by (unfold Spec.label_of; rewrite Hidx; exact Hm).
  assert (Hfp : Spec.foreground binary width height p) by (apply Hfg; [exact Hp|congruence]).
  exists p. split; [exact Hp|]. split; [|exact Hlp].
  assert (Hnone : forall n, Spec.in_image width height n -> Spec.adjacent4 p n ->
            (Spec.index width n < Spec.index width p)%nat ->
            Spec.fgb binary width n = false).
  { intros n Hn Hadj Hlt. destruct (Spec.fgb binary width n) eqn:E; [|reflexivity].
    exfalso. assert (Hfn : Spec.foreground binary width height n) by (split; assumption).
    assert (Hln : Spec.label_of labels width n = l).
    { rewrite <- Hlp. symmetry. apply Hsame; [exact Hfp|exact Hfn|].
      apply rtc_once. auto. }
    apply (Hleast (Spec.index width n)); [rewrite <- Hidx; exact Hlt|exact Hln]. }
  unfold Spec.starts_label. destruct Hfp as [_ Hf]. rewrite Hf.
  destruct p as [x y]. destruct Hp as [Hx Hy]. cbn [fst snd] in *.
  assert (Hleft : ((0 <? x)%nat && Spec.fgb binary width ((x - 1)%nat, y)) = false).
  { destruct (Nat.ltb_spec 0 x) as [H0|H0]; [|reflexivity]. cbn [andb].
    apply Hnone.
    - split; cbn [fst snd]; lia.
    - left. cbn [fst snd]. split; [reflexivity|left; lia].
    - unfold Spec.index. cbn [fst snd]. lia. }
  assert (Htop : ((0 <? y)%nat && Spec.fgb binary width (x, (y - 1)%nat)) = false).
  { destruct (Nat.ltb_spec 0 y) as [H0|H0]; [|reflexivity]. cbn [andb].
    apply Hnone.
    - split; cbn [fst snd]; lia.
    - right. cbn [fst snd]. split; [reflexivity|left; lia].
    - unfold Spec.index. cbn [fst snd]. nia. }
  rewrite Hleft, Htop. reflexivity.
Qed.

(** C3 (as amended). The count returned with the label map is the number
    of labels the first pass allocated, one for each foreground pixel that
    has no foreground pixel to its left or above.  Every final label is at
    most the count, so the count bounds the number of distinct root labels
    from above; it exceeds that number exactly when two provisional labels
    were merged, that is when two pixels that each received a fresh label
    carry the same final label. *)
Theorem connectedComponents_count (binary : list Z) (width height : nat) :
  length binary = (width * height)%nat ->
  exists labels count,
    connectedComponents binary width height = Some (labels, count) /\
    count = length (filter (fun p => Spec.starts_label binary width p = true)
                      (Spec.coords width height)) /\
    (forall l, l ∈ labels -> (l <= count)%nat) /\
    (length (Spec.distinct_labels labels) <= count)%nat /\
    ((length (Spec.distinct_labels labels) < count)%nat <->
     exists p q, p <> q /\
       Spec.in_image width height p /\ Spec.in_image width height q /\
       Spec.starts_label binary width p = true /\ Spec.starts_label binary width q = true /\
       Spec.label_of labels width p = Spec.label_of labels width q).
Proof.
  intros Hlen.
  destruct (connectedComponents_labels binary width height Hlen)
    as (labels & count & Hcc & Hl & Hfg & Hsame & Hle & Hcount).
  exists labels, count. split; [exact Hcc|]. split; [exact Hcount|].
  assert (Hbound : forall l, l ∈ labels -> (l <= count)%nat).
  { intros l Hin. apply list_elem_of_lookup in Hin. destruct Hin as [j Hj].
    specialize (Hle j). unfold label_at in Hle. rewrite Hj in Hle. exact Hle. }
  split; [exact Hbound|].
  set (S_ := filter (fun p => Spec.starts_label binary width p = true)
               (Spec.coords width height)) in *.
  set (g := Spec.label_of labels width).
  assert (HS : forall p, p ∈ S_ <->
            Spec.in_image width height p /\ Spec.starts_label binary width p = true).
  { intros p. unfold S_. rewrite list_elem_of_filter, coords_in_image. tauto. }
  assert (Hstart_fg : forall p, p ∈ S_ -> Spec.foreground binary width height p).
  { intros p Hp. apply HS in Hp. destruct Hp as [Hin Hs]. split; [exact Hin|].
    unfold Spec.starts_label in Hs. apply andb_true_iff in Hs. destruct Hs as [Hs _].
    apply andb_true_iff in Hs. apply Hs. }
  assert (Hdistinct : forall l, l ∈ Spec.distinct_labels labels <-> l <> 0%nat /\ l ∈ labels).
  { intros l. unfold Spec.distinct_labels.
    rewrite elem_of_remove_dups, list_elem_of_filter. tauto. }
  assert (Hcover : forall l, l ∈ Spec.distinct_labels labels -> l ∈ g <$> S_).
  { intros l Hin. apply Hdistinct in Hin. destruct Hin as [Hl0 Hin].
    destruct (label_has_start binary width height labels l Hl Hfg Hsame Hl0 Hin)
      as (p & Hp & Hs & Hlp).
    apply list_elem_of_fmap. exists p. split; [symmetry; exact Hlp|].
    apply HS. split; assumption. }
  assert (Hback : forall l, l ∈ g <$> S_ -> l ∈ Spec.distinct_labels labels).
  { intros l Hin. apply list_elem_of_fmap in Hin. destruct Hin as (p & -> & Hp).
    pose proof (Hstart_fg p Hp) as Hfp. apply Hdistinct. split.
    - apply Hfg; [apply Hfp|exact Hfp].
    - unfold g, Spec.label_of, label_at.
      destruct (lookup_lt_is_Some_2 labels (Spec.index width p)) as [v Hv].
      { rewrite Hl. apply (index_lt _ _ _ (proj1 Hfp)). }
      rewrite Hv. apply list_elem_of_lookup. exists (Spec.index width p). exact Hv. }
  assert (Hnd : NoDup (Spec.distinct_labels labels)) by apply NoDup_remove_dups.
  assert (Hle1 : (length (Spec.distinct_labels labels) <= length (remove_dups (g <$> S_)))%nat).
  { apply submseteq_length. apply NoDup_submseteq; [exact Hnd|].
    intros l Hin. apply elem_of_remove_dups. apply Hcover. exact Hin. }
  assert (Hle2 : (length (remove_dups (g <$> S_)) <= count)%nat).
  { rewrite Hcount. fold S_. rewrite <- (length_fmap g S_). apply remove_dups_length_le. }
  split; [lia|]. split.
  - intros Hlt.
    destruct (NoDup_or_twice (g <$> S_)) as [Hinj|(i & j & x & Hij & Hi & Hj)].
    + exfalso.
      assert (Hsub : (length (g <$> S_) <= length (Spec.distinct_labels labels))%nat).
      { apply submseteq_length. apply NoDup_submseteq; [exact Hinj|exact Hback]. }
      rewrite length_fmap in Hsub. fold S_ in Hcount. lia.
    + rewrite list_lookup_fmap in Hi, Hj.
      destruct (S_ !! i) as [p|] eqn:Ep; [|discriminate].
      destruct (S_ !! j) as [q|] eqn:Eq; [|discriminate].
      simpl in Hi, Hj. injection Hi as Hi. injection Hj as Hj.
      assert (Hpq : p <> q).
      { intros ->. assert (HndS : NoDup S_).
        { unfold S_. apply NoDup_filter. unfold Spec.coords.
          apply NoDup_bind.
          - intros y1 y2 z _ _ H1 H2. apply list_elem_of_fmap in H1, H2.
            destruct H1 as (x1 & -> & _), H2 as (x2 & E & _). congruence.
          - intros y _. apply NoDup_fmap; [intros x1 x2; congruence|apply NoDup_seq].
          - apply NoDup_seq. }
        pose proof (proj1 (NoDup_alt S_) HndS i j q Ep Eq). lia. }
      exists p, q. split; [exact Hpq|].
      apply list_elem_of_lookup_2 in Ep, Eq. apply HS in Ep, Eq.
      destruct Ep as [Hp Hsp], Eq as [Hq Hsq].
      repeat (split; [assumption|]). unfold g in *. congruence.
  - intros (p & q & Hpq & Hp & Hq & Hsp & Hsq & Heq).
    assert (Hp' : p ∈ S_) by (apply HS; split; assumption).
    assert (Hq' : q ∈ S_) by (apply HS; split; assumption).
    apply list_elem_of_lookup in Hp', Hq'. destruct Hp' as [i Hi], Hq' as [j Hj].
    assert (Hij : i <> j) by (intros ->; congruence).
    pose proof (remove_dups_length_lt (g <$> S_) i j (g p) Hij) as Hlt.
    rewrite !list_lookup_fmap, Hi, Hj in Hlt. simpl in Hlt.
    specialize (Hlt eq_refl ltac:(f_equal; symmetry; exact Heq)).
    rewrite length_fmap in Hlt. fold S_ in Hcount. lia.
Qed.

Lemma connectedComponents_count_witness :
  exists labels count,
    connectedComponents Spec.u_shape 3 2 = Some (labels, count) /\
    count = 2%nat /\ (length (Spec.distinct_labels labels) < count)%nat.
Proof.
  destruct (connectedComponents_count Spec.u_shape 3 2 eq_refl)
    as (labels & count & Hcc & Hcount & _ & _ & Hmerge).
  exists labels, count. split; [exact Hcc|]. split; [exact Hcount|].
  apply Hmerge. exists (0%nat, 0%nat), (2%nat, 0%nat).
  split; [discriminate|].
  split; [split; simpl; lia|]. split; [split; simpl; lia|].
  split; [reflexivity|]. split; [reflexivity|].
  assert (E : Some (labels, count) = Some ([1; 0; 1; 1; 1; 1]%nat, 2%nat))
    by (rewrite <- Hcc; vm_compute; reflexivity).
  injection E as -> _. reflexivity.
Defined.

(** C3 as stated fails: on the U-shaped mask the first pass allocates two
    labels and merges them, so the count is 2 while the label map holds a
    single root label. *)
Lemma connectedComponents_count_u_shape :
  connectedComponents Spec.u_shape 3 2 = Some ([1; 0; 1; 1; 1; 1]%nat, 2%nat) /\
  Spec.distinct_labels [1; 0; 1; 1; 1; 1]%nat = [1%nat] /\
  2%nat <> length (Spec.distinct_labels [1; 0; 1; 1; 1; 1]%nat).
Proof.
  split; [|split]; vm_compute; congruence.
Qed.

(** ** Raster loops that write one cell per pixel *)

(** A nested loop over the box [xlo, xhi) x [ylo, yhi) whose body at
    (x, y) touches only the cell [y * w + x], the new content of the cell
    being a function [g] of its old content: every cell of the box ends up
    holding [g] of its initial content, every other cell is left alone. *)
Lemma raster_cells {A : Type} (w ylo yhi xlo xhi : nat)
    (body : nat -> nat -> list A -> list A)
    (g : nat -> nat -> option A -> option A) (init : list A) :
  (xhi <= w)%nat ->
  (forall y x a, (ylo <= y < yhi)%nat -> (xlo <= x < xhi)%nat ->
     length (body y x a) = length a) ->
  (forall y x a j, (ylo <= y < yhi)%nat -> (xlo <= x < xhi)%nat ->
     j <> (y * w + x)%nat -> body y x a !! j = a !! j) ->
  (forall y x a, (ylo <= y < yhi)%nat -> (xlo <= x < xhi)%nat ->
     body y x a !! (y * w + x)%nat = g y x (a !! (y * w + x)%nat)) ->
  let r := JS.for_range ylo yhi (fun y a => JS.for_range xlo xhi (body y) a) init in
  length r = length init /\
  (forall x y, (ylo <= y < yhi)%nat -> (xlo <= x < xhi)%nat ->
     r !! (y * w + x)%nat = g y x (init !! (y * w + x)%nat)) /\
  (forall j, (forall x y, (ylo <= y < yhi)%nat -> (xlo <= x < xhi)%nat ->
                j <> (y * w + x)%nat) ->
     r !! j = init !! j).
Proof.
  intros Hw Hlen Hframe Hcell r.
  set (done := fun (y0 x0 x y : nat) =>
         (ylo <= y)%nat /\ (xlo <= x < xhi)%nat /\
         (y < y0 \/ (y = y0 /\ x < x0))%nat).
  set (Inv := fun (y0 x0 : nat) (a : list A) =>
         length a = length init /\
         (forall x y, done y0 x0 x y -> a !! (y * w + x)%nat = g y x (init !! (y * w + x)%nat)) /\
         (forall j, (forall x y, done y0 x0 x y -> j <> (y * w + x)%nat) -> a !! j = init !! j)).
  assert (Hrow : forall y0 a, Inv y0 xhi a -> Inv (S y0) xlo a).
  { intros y0 a (Hl & Hd & Hn). split; [exact Hl|]. split.
    - intros x y (Hy & Hx & Hlt). apply Hd. unfold done. split; [lia|]. split; [lia|]. lia.
    - intros j Hj. apply Hn. intros x y (Hy & Hx & Hlt). apply Hj. unfold done. lia. }
  assert (Hstep : forall y0 x0 a, (ylo <= y0 < yhi)%nat -> (xlo <= x0 < xhi)%nat ->
            Inv y0 x0 a -> Inv y0 (S x0) (body y0 x0 a)).
  { intros y0 x0 a Hy0 Hx0 (Hl & Hd & Hn).
    split; [rewrite Hlen by assumption; exact Hl|]. split.
    - intros x y (Hy & Hx & Hlt).
      destruct (decide (y = y0 /\ x = x0)) as [[-> ->]|Hne].
      + rewrite Hcell by assumption. f_equal. apply Hn.
        intros x y (Hy' & Hx' & Hlt') Heq.
        apply raster_index_inj in Heq; [|lia|lia]. lia.
      + rewrite Hframe; [|assumption|assumption|].
        * apply Hd. unfold done. lia.
        * intros Heq. apply raster_index_inj in Heq; [|lia|lia]. lia.
    - intros j Hj. rewrite Hframe; [|assumption|assumption|].
      + apply Hn. intros x y (Hy & Hx & Hlt). apply Hj. unfold done. lia.
      + apply Hj. unfold done. lia. }
  assert (Hinit : Inv ylo xlo init).
  { split; [reflexivity|]. split.
    - intros x y (Hy & Hx & Hlt). lia.
    - intros j _. reflexivity. }
  assert (Hfinal : Inv (Nat.max ylo yhi) xlo r).
  { destruct (decide (ylo <= yhi)%nat) as [Hle|Hgt].
    - replace (Nat.max ylo yhi) with yhi by lia. subst r.
      apply (for_range_ind (fun y a => Inv y xlo a)); [exact Hle|exact Hinit|].
      intros y a Hy Ha. apply Hrow.
      destruct (decide (xlo <= xhi)%nat) as [Hlx|Hgx].
      + apply (for_range_ind (fun x a => Inv y x a)); [exact Hlx|exact Ha|].
        intros x b Hx Hb. apply Hstep; [lia|lia|exact Hb].
      + rewrite for_range_empty by lia.
        destruct Ha as (Hl & Hd & Hn). split; [exact Hl|]. split.
        * intros x' y' (Hy' & Hx' & Hlt). lia.
        * intros j Hj. apply Hn. intros x' y' (Hy' & Hx' & Hlt). lia.
    - replace (Nat.max ylo yhi) with ylo by lia. subst r.
      rewrite for_range_empty by lia. exact Hinit. }
  destruct Hfinal as (Hl & Hd & Hn). split; [exact Hl|]. split.
  - intros x y Hy Hx. apply Hd. unfold done. lia.
  - intros j Hj. apply Hn. intros x y (Hy & Hx & Hlt). apply Hj; lia.
Qed.

(** ** Morphological opening, pixel by pixel *)

Lemma interior_true (width height x y : nat) :
  Spec.interior width height x y = true <->
  (1 <= x < width - 1)%nat /\ (1 <= y < height - 1)%nat.
Proof.
  unfold Spec.interior. rewrite !andb_true_iff, !Nat.leb_le, !Nat.ltb_lt. lia.
Qed.

(** What a marking pass leaves in the cell of the pixel (x, y). *)
Lemma mark_interior_lookup (cond : nat -> bool) (width height x y : nat) :
  (x < width)%nat -> (y < height)%nat ->
  JS.for_range 1 (height - 1) (fun y a =>
    JS.for_range 1 (width - 1) (fun x a =>
      if cond (y * width + x)%nat then <[(y * width + x)%nat := 1]> a else a) a)
    (replicate (width * height) 0) !! (y * width + x)%nat
  = Some (if Spec.interior width height x y && cond (y * width + x)%nat then 1 else 0).
Proof.
  intros Hx Hy.
  assert (Hidx : (y * width + x < width * height)%nat) by nia.
  destruct (raster_cells width 1 (height - 1) 1 (width - 1)
              (fun y x a => if cond (y * width + x)%nat
                            then <[(y * width + x)%nat := 1]> a else a)
              (fun y x o => if cond (y * width + x)%nat then (fun _ => 1) <$> o else o)
              (replicate (width * height) 0)) as (_ & Hin & Hout).
  - lia.
  - intros y' x' a _ _. destruct (cond _); [apply length_insert|reflexivity].
  - intros y' x' a j _ _ Hj. destruct (cond _); [|reflexivity].
    apply list_lookup_insert_ne. congruence.
  - intros y' x' a _ _. destruct (cond _); [|reflexivity].
    destruct (a !! (y' * width + x')%nat) eqn:E.
    + apply list_lookup_insert_eq. apply lookup_lt_Some in E. exact E.
    + simpl. apply lookup_ge_None. rewrite length_insert. apply lookup_ge_None. exact E.
  - destruct (Spec.interior width height x y) eqn:Hint.
    + apply interior_true in Hint. rewrite Hin by lia.
      rewrite lookup_replicate_2 by exact Hidx. simpl.
      destruct (cond _); reflexivity.
    + rewrite Hout.
      * rewrite lookup_replicate_2 by exact Hidx. reflexivity.
      * intros x' y' Hy' Hx' Heq. apply raster_index_inj in Heq; [|lia|lia].
        destruct Heq as [-> ->].
        assert (Spec.interior width height x' y' = true) by (apply interior_true; lia).
        congruence.
Qed.

Lemma erode_lookup (binary : list Z) (width height x y : nat) :
  (x < width)%nat -> (y < height)%nat ->
  erode binary width height !! (y * width + x)%nat
  = Some (if Spec.fits binary width height x y then 1 else 0).
Proof.
  intros Hx Hy. unfold erode.
  rewrite (mark_interior_lookup
             (fun idx => truthy (binary !! idx) &&
                         truthy (binary !! (idx - 1)%nat) && truthy (binary !! (idx + 1)%nat) &&
                         truthy (binary !! (idx - width)%nat) && truthy (binary !! (idx + width)%nat))
             width height x y Hx Hy).
  unfold Spec.fits. rewrite <- !andb_assoc. reflexivity.
Qed.

Lemma truthy_bit (b : bool) : truthy (Some (if b then 1 else 0)) = b.
Proof. destruct b; reflexivity. Qed.

Lemma morphologyOpen_lookup (binary : list Z) (width height x y : nat) :
  (x < width)%nat -> (y < height)%nat ->
  morphologyOpen binary width height !! (y * width + x)%nat
  = Some (if Spec.opened binary width height x y then 1 else 0).
Proof.
  intros Hx Hy. unfold morphologyOpen, dilate.
  rewrite (mark_interior_lookup
             (fun idx => truthy (erode binary width height !! idx) ||
                         truthy (erode binary width height !! (idx - 1)%nat) ||
                         truthy (erode binary width height !! (idx + 1)%nat) ||
                         truthy (erode binary width height !! (idx - width)%nat) ||
                         truthy (erode binary width height !! (idx + width)%nat))
             width height x y Hx Hy).
  unfold Spec.opened.
  destruct (Spec.interior width height x y) eqn:Hint; [|reflexivity].
  apply interior_true in Hint. simpl.
  replace (y * width + x - 1)%nat with (y * width + (x - 1))%nat by lia.
  replace (y * width + x + 1)%nat with (y * width + (x + 1))%nat by lia.
  replace (y * width + x - width)%nat with ((y - 1) * width + x)%nat by nia.
  replace (y * width + x + width)%nat with ((y + 1) * width + x)%nat by nia.
  rewrite !erode_lookup by lia. rewrite !truthy_bit. reflexivity.
Qed.

(** X1. Opening, pixel by pixel: the output holds 1 at the interior pixels
    covered by a 3x3 cross that lies in the input mask, and 0 at every other
    pixel; it is a 0/1 mask of [width * height] samples whatever the input
    holds. *)
Theorem morphologyOpen_crosses (binary : list Z) (width height : nat) :
  length (morphologyOpen binary width height) = (width * height)%nat /\
  forall x y, (x < width)%nat -> (y < height)%nat ->
    morphologyOpen binary width height !! (y * width + x)%nat
    = Some (if Spec.opened binary width height x y then 1 else 0).
Proof.
  split; [apply dilate_spec|]. intros x y. apply morphologyOpen_lookup.
Qed.

Lemma fits_mono (A B : list Z) (width height x y : nat) :
  Spec.submask A B ->
  Spec.fits A width height x y = true -> Spec.fits B width height x y = true.
Proof.
  intros Hsub. unfold Spec.fits. rewrite !andb_true_iff.
  intros (((((Hi & H0) & H1) & H2) & H3) & H4).
  repeat split; try assumption; apply Hsub; assumption.
Qed.

Lemma opened_lookup (binary : list Z) (width height i : nat) :
  truthy (morphologyOpen binary width height !! i) = true <->
  exists x y, (x < width)%nat /\ (y < height)%nat /\ i = (y * width + x)%nat /\
              Spec.opened binary width height x y = true.
Proof.
  split.
  - intros Ht.
    destruct (dilate_spec (erode binary width height) width height) as [_ Hd].
    destruct (Hd i Ht) as (y & x & Hy & Hx & -> & _).
    exists x, y. split; [lia|]. split; [lia|]. split; [reflexivity|].
    rewrite morphologyOpen_lookup in Ht by lia. rewrite truthy_bit in Ht. exact Ht.
  - intros (x & y & Hx & Hy & -> & Ho).
    rewrite morphologyOpen_lookup by assumption. rewrite Ho. reflexivity.
Qed.

(** X2. Opening is monotone: a mask that lies within another opens to a
    mask that lies within the other's opening. *)
Theorem morphologyOpen_monotone (A B : list Z) (width height : nat) :
  Spec.submask A B ->
  Spec.submask (morphologyOpen A width height) (morphologyOpen B width height).
Proof.
  intros Hsub i Hi. apply opened_lookup in Hi. apply opened_lookup.
  destruct Hi as (x & y & Hx & Hy & -> & Ho).
  exists x, y. split; [exact Hx|]. split; [exact Hy|]. split; [reflexivity|].
  unfold Spec.opened in *. rewrite andb_true_iff in *.
  destruct Ho as [Hint Ho]. split; [exact Hint|].
  rewrite !orb_true_iff in *.
  destruct Ho as [[[[Ho|Ho]|Ho]|Ho]|Ho];
    apply (fits_mono A B _ _ _ _ Hsub) in Ho; tauto.
Qed.

Lemma morphologyOpen_monotone_witness :
  truthy (morphologyOpen Spec.cross_3x3 3 3 !! 4%nat) = true /\
  truthy (morphologyOpen (replicate 9 1) 3 3 !! 4%nat) = true.
Proof.
  split; [reflexivity|].
  apply (morphologyOpen_monotone Spec.cross_3x3 (replicate 9 1) 3 3); [|reflexivity].
  intros i. do 9 (destruct i as [|i]; [simpl; auto|]). simpl. auto.
Defined.

(** ** Adaptive threshold, pixel by pixel *)

Lemma sumZ_app (l1 l2 : list Z) : Spec.sumZ (l1 ++ l2) = Spec.sumZ l1 + Spec.sumZ l2.
Proof.
  unfold Spec.sumZ. induction l1 as [|a l1 IH]; simpl; [reflexivity|]. rewrite IH. lia.
Qed.

Lemma sumZ_seq_split (f : nat -> Z) (a b c : nat) :
  (a <= b <= c)%nat ->
  Spec.sumZ (f <$> seq a (c - a))
  = Spec.sumZ (f <$> seq a (b - a)) + Spec.sumZ (f <$> seq b (c - b)).
Proof.
  intros H. replace (c - a)%nat with ((b - a) + (c - b))%nat by lia.
  rewrite seq_app, fmap_app, sumZ_app.
  replace (a + (b - a))%nat with b by lia. reflexivity.
Qed.

Lemma sumZ_cons (a : Z) (l : list Z) : Spec.sumZ (a :: l) = a + Spec.sumZ l.
Proof. reflexivity. Qed.

Lemma sumZ_fmap_add {A : Type} (f g : A -> Z) (l : list A) :
  Spec.sumZ ((fun x => f x + g x) <$> l) = Spec.sumZ (f <$> l) + Spec.sumZ (g <$> l).
Proof.
  induction l as [|a l IH]; [reflexivity|].
  rewrite !fmap_cons, !sumZ_cons, IH. lia.
Qed.

Lemma sumZ_fmap_ext {A : Type} (f g : A -> Z) (l : list A) :
  (forall x, x ∈ l -> f x = g x) -> Spec.sumZ (f <$> l) = Spec.sumZ (g <$> l).
Proof.
  intros H. f_equal. apply list_fmap_ext. intros i x Hx. apply H.
  apply list_elem_of_lookup. eauto.
Qed.

Lemma sumZ_fmap_bounds {A : Type} (f : A -> Z) (lo hi : Z) (l : list A) :
  (forall x, lo <= f x <= hi) ->
  lo * Z.of_nat (length l) <= Spec.sumZ (f <$> l) <= hi * Z.of_nat (length l).
Proof.
  intros H. induction l as [|a l IH]; [simpl; unfold Spec.sumZ; simpl; lia|].
  rewrite fmap_cons, sumZ_cons. specialize (H a). simpl length. lia.
Qed.

Lemma bytes_lookup_total (gray : list Z) (i : nat) :
  Spec.bytes gray -> 0 <= gray !!! i <= 255.
Proof.
  intros Hb. rewrite list_lookup_total_alt.
  destruct (gray !! i) as [v|] eqn:E; simpl; [|lia].
  unfold Spec.bytes in Hb. rewrite Forall_forall in Hb. apply Hb.
  apply list_elem_of_lookup. eauto.
Qed.

Section Rectangles.
Variables (gray : list Z) (width : nat).

Lemma rowSum_snoc (y x : nat) :
  Spec.rowSum gray width y 0 (S x)
  = Spec.rowSum gray width y 0 x + gray !!! (y * width + x)%nat.
Proof.
  unfold Spec.rowSum. rewrite !Nat.sub_0_r, seq_S, fmap_app, sumZ_app.
  unfold Spec.sumZ. simpl. lia.
Qed.

Lemma rowSum_split (y a b c : nat) :
  (a <= b <= c)%nat ->
  Spec.rowSum gray width y a c = Spec.rowSum gray width y a b + Spec.rowSum gray width y b c.
Proof. intros H. unfold Spec.rowSum. apply sumZ_seq_split. exact H. Qed.

Lemma rectSum_snoc (x y : nat) :
  Spec.rectSum gray width 0 x 0 (S y)
  = Spec.rectSum gray width 0 x 0 y + Spec.rowSum gray width y 0 x.
Proof.
  unfold Spec.rectSum. rewrite !Nat.sub_0_r, seq_S, fmap_app, sumZ_app.
  unfold Spec.sumZ at 2. simpl. lia.
Qed.

Lemma rectSum_no_rows (xa xb y : nat) : Spec.rectSum gray width xa xb y y = 0.
Proof. unfold Spec.rectSum. rewrite Nat.sub_diag. reflexivity. Qed.

Lemma rectSum_no_columns (x ya yb : nat) : Spec.rectSum gray width x x ya yb = 0.
Proof.
  unfold Spec.rectSum.
  pose proof (sumZ_fmap_bounds (fun y => Spec.rowSum gray width y x x) 0 0
                (seq ya (yb - ya))) as H.
  assert (H0 : forall y, 0 <= Spec.rowSum gray width y x x <= 0).
  { intros y. unfold Spec.rowSum. rewrite Nat.sub_diag. simpl. unfold Spec.sumZ. simpl. lia. }
  specialize (H H0). lia.
Qed.

Lemma rectSum_split_y (xa xb a b c : nat) :
  (a <= b <= c)%nat ->
  Spec.rectSum gray width xa xb a c
  = Spec.rectSum gray width xa xb a b + Spec.rectSum gray width xa xb b c.
Proof. intros H. unfold Spec.rectSum. apply sumZ_seq_split. exact H. Qed.

Lemma rectSum_split_x (a b c ya yb : nat) :
  (a <= b <= c)%nat ->
  Spec.rectSum gray width a c ya yb
  = Spec.rectSum gray width a b ya yb + Spec.rectSum gray width b c ya yb.
Proof.
  intros H. unfold Spec.rectSum. rewrite <- sumZ_fmap_add.
  apply sumZ_fmap_ext. intros y _. apply rowSum_split. exact H.
Qed.

(** The sum over a rectangle from the sums over the four rectangles
    anchored at the origin. *)
Lemma rectSum_corners (xa xb ya yb : nat) :
  (xa <= xb)%nat -> (ya <= yb)%nat ->
  Spec.rectSum gray width xa xb ya yb
  = Spec.rectSum gray width 0 xb 0 yb - Spec.rectSum gray width 0 xb 0 ya
    - Spec.rectSum gray width 0 xa 0 yb + Spec.rectSum gray width 0 xa 0 ya.
Proof.
  intros Hx Hy.
  rewrite (rectSum_split_x 0 xa xb 0 yb) by lia.
  rewrite (rectSum_split_x 0 xa xb 0 ya) by lia.
  rewrite (rectSum_split_y xa xb 0 ya yb) by lia. lia.
Qed.

Hypothesis gray_bytes : Spec.bytes gray.

Lemma rowSum_bounds (y xa xb : nat) :
  0 <= Spec.rowSum gray width y xa xb <= 255 * Z.of_nat (xb - xa).
Proof.
  unfold Spec.rowSum.
  pose proof (sumZ_fmap_bounds (fun x => gray !!! (y * width + x)%nat) 0 255
                (seq xa (xb - xa))) as H.
  rewrite length_seq in H. apply H. intros x. apply bytes_lookup_total. exact gray_bytes.
Qed.

Lemma rectSum_bounds (xa xb ya yb : nat) :
  0 <= Spec.rectSum gray width xa xb ya yb <= 255 * Z.of_nat ((xb - xa) * (yb - ya)).
Proof.
  unfold Spec.rectSum.
  pose proof (sumZ_fmap_bounds (fun y => Spec.rowSum gray width y xa xb) 0
                (255 * Z.of_nat (xb - xa)) (seq ya (yb - ya))) as H.
  rewrite length_seq in H. specialize (H (fun y => rowSum_bounds y xa xb)).
  rewrite Nat2Z.inj_mul. lia.
Qed.

End Rectangles.

Section Threshold.
Variables (gray : list Z) (width height : nat).
Hypothesis gray_length : length gray = (width * height)%nat.
Hypothesis gray_bytes : Spec.bytes gray.
Hypothesis no_overflow : 255 * Z.of_nat (width * height) < 2 ^ 32.

(** The integral image holds, at (x, y), the sum of the samples above and
    to the left of (x, y), the pixel included. *)
Lemma integralImage_lookup :
  length (integralImage gray width height) = (width * height)%nat /\
  forall x y, (x < width)%nat -> (y < height)%nat ->
    integralImage gray width height !! (y * width + x)%nat
    = Some (Spec.rectSum gray width 0 (S x) 0 (S y)).
Proof.
  unfold integralImage.
  apply (for_range_ind (fun y0 a =>
           length a = (width * height)%nat /\
           forall x y, (x < width)%nat -> (y < y0)%nat ->
             a !! (y * width + x)%nat = Some (Spec.rectSum gray width 0 (S x) 0 (S y))));
    [lia| |].
  { split; [apply length_replicate|]. intros x y _ Hy. lia. }
  intros y0 a Hy0 [Hlen Hdone].
  assert (Hinner :
    let r := JS.for_range 0 width (fun x '(sum, integral) =>
               let sum := addN sum (gray !! (y0 * width + x)%nat) in
               let v := if (y0 =? 0)%nat then sum
                        else addN sum (integral !! ((y0 - 1) * width + x)%nat) in
               (sum, <[(y0 * width + x)%nat := toUint32 v]> integral)) (Some 0, a) in
    r.1 = Some (Spec.rowSum gray width y0 0 width) /\
    length r.2 = (width * height)%nat /\
    forall x y, (x < width)%nat -> (y < y0 \/ (y = y0 /\ x < width))%nat ->
      r.2 !! (y * width + x)%nat = Some (Spec.rectSum gray width 0 (S x) 0 (S y))).
  { apply (for_range_ind (fun x0 (r : option Z * list Z) =>
             r.1 = Some (Spec.rowSum gray width y0 0 x0) /\
             length r.2 = (width * height)%nat /\
             forall x y, (x < width)%nat -> (y < y0 \/ (y = y0 /\ x < x0))%nat ->
               r.2 !! (y * width + x)%nat = Some (Spec.rectSum gray width 0 (S x) 0 (S y))));
      [lia| |].
    { simpl. split; [reflexivity|]. split; [exact Hlen|].
      intros x y Hx [Hy|[_ Hy]]; [apply Hdone; assumption|lia]. }
    intros x0 [sum b] Hx0 (Hsum & Hlb & Hb). simpl in Hsum, Hlb, Hb. subst sum.
    assert (Hidx : (y0 * width + x0 < width * height)%nat) by nia.
    assert (Hg : gray !! (y0 * width + x0)%nat = Some (gray !!! (y0 * width + x0)%nat)).
    { apply list_lookup_lookup_total_lt. lia. }
    cbn beta iota zeta. rewrite Hg. cbn [addN mbind option_bind].
    rewrite <- rowSum_snoc.
    assert (Hv : (if (y0 =? 0)%nat then Some (Spec.rowSum gray width y0 0 (S x0))
                  else addN (Some (Spec.rowSum gray width y0 0 (S x0)))
                         (b !! ((y0 - 1) * width + x0)%nat))
                 = Some (Spec.rectSum gray width 0 (S x0) 0 (S y0))).
    { rewrite rectSum_snoc. destruct (Nat.eqb_spec y0 0) as [->|Hne].
      - rewrite rectSum_no_rows, Z.add_0_l. reflexivity.
      - rewrite (Hb x0 (y0 - 1)%nat) by lia.
        replace (S (y0 - 1)) with y0 by lia. cbn [addN mbind option_bind]. f_equal. lia. }
    cbn [addN mbind option_bind] in Hv. rewrite Hv. cbn [fst snd toUint32].
    pose proof (rectSum_bounds gray width gray_bytes 0 (S x0) 0 (S y0)) as Hbd.
    assert (Hsmall : Z.of_nat ((S x0 - 0) * (S y0 - 0)) <= Z.of_nat (width * height)).
    { apply Nat2Z.inj_le. nia. }
    rewrite Z.mod_small by lia.
    split; [reflexivity|]. split; [rewrite length_insert; exact Hlb|].
    intros x y Hx Hy.
    destruct (decide (y = y0 /\ x = x0)) as [[-> ->]|Hne].
    - apply list_lookup_insert_eq. lia.
    - rewrite list_lookup_insert_ne.
      + apply Hb; [exact Hx|lia].
      + intros Heq. apply raster_index_inj in Heq; [|lia|lia]. lia. }
  destruct Hinner as (_ & Hl & Hr). split; [exact Hl|].
  intros x y Hx Hy. apply Hr; [exact Hx|lia].
Qed.

Lemma rdZ_raster (l : list Z) (y x : nat) :
  rdZ l (Z.of_nat y * Z.of_nat width + Z.of_nat x) = l !! (y * width + x)%nat.
Proof.
  unfold rdZ. rewrite <- Nat2Z.inj_mul, <- Nat2Z.inj_add.
  destruct (Z.ltb_spec (Z.of_nat (y * width + x)) 0); [lia|].
  rewrite Nat2Z.id. reflexivity.
Qed.

(** [getSum] on a window that meets the image: the sum of the samples in
    the clipped window. *)
Lemma getSum_window (x1 y1 x2 y2 : Z) :
  Z.max 0 x1 <= Z.min (Z.of_nat width - 1) x2 ->
  Z.max 0 y1 <= Z.min (Z.of_nat height - 1) y2 ->
  getSum (integralImage gray width height) width height x1 y1 x2 y2
  = Some (Spec.rectSum gray width
            (Z.to_nat (Z.max 0 x1)) (S (Z.to_nat (Z.min (Z.of_nat width - 1) x2)))
            (Z.to_nat (Z.max 0 y1)) (S (Z.to_nat (Z.min (Z.of_nat height - 1) y2)))).
Proof.
  intros Hx Hy. unfold getSum.
  destruct integralImage_lookup as [_ Hint].
  set (xa := Z.to_nat (Z.max 0 x1)). set (ya := Z.to_nat (Z.max 0 y1)).
  set (xb := Z.to_nat (Z.min (Z.of_nat width - 1) x2)).
  set (yb := Z.to_nat (Z.min (Z.of_nat height - 1) y2)).
  replace (Z.max 0 x1) with (Z.of_nat xa) by (subst xa; lia).
  replace (Z.max 0 y1) with (Z.of_nat ya) by (subst ya; lia).
  replace (Z.min (Z.of_nat width - 1) x2) with (Z.of_nat xb) by (subst xb; lia).
  replace (Z.min (Z.of_nat height - 1) y2) with (Z.of_nat yb) by (subst yb; lia).
  assert (Hxb : (xb < width)%nat) by (subst xb; lia).
  assert (Hyb : (yb < height)%nat) by (subst yb; lia).
  assert (Hxab : (xa <= xb)%nat) by (subst xa xb; lia).
  assert (Hyab : (ya <= yb)%nat) by (subst ya yb; lia).
  clearbody xa ya xb yb.
  rewrite (rectSum_corners gray width xa (S xb) ya (S yb)) by lia.
  rewrite rdZ_raster, Hint by lia. cbn [mbind option_bind].
  assert (HB : (if 0 <? Z.of_nat ya
                then rdZ (integralImage gray width height)
                       ((Z.of_nat ya - 1) * Z.of_nat width + Z.of_nat xb)
                else Some 0) = Some (Spec.rectSum gray width 0 (S xb) 0 ya)).
  { destruct (Z.ltb_spec 0 (Z.of_nat ya)).
    - replace (Z.of_nat ya - 1) with (Z.of_nat (ya - 1)) by lia.
      rewrite rdZ_raster, Hint by lia. replace (S (ya - 1)) with ya by lia. reflexivity.
    - replace ya with 0%nat by lia. rewrite rectSum_no_rows. reflexivity. }
  assert (HC : (if 0 <? Z.of_nat xa
                then rdZ (integralImage gray width height)
                       (Z.of_nat yb * Z.of_nat width + (Z.of_nat xa - 1))
                else Some 0) = Some (Spec.rectSum gray width 0 xa 0 (S yb))).
  { destruct (Z.ltb_spec 0 (Z.of_nat xa)).
    - replace (Z.of_nat xa - 1) with (Z.of_nat (xa - 1)) by lia.
      rewrite rdZ_raster, Hint by lia. replace (S (xa - 1)) with xa by lia. reflexivity.
    - replace xa with 0%nat by lia. rewrite rectSum_no_columns. reflexivity. }
  assert (HD : (if (0 <? Z.of_nat xa) && (0 <? Z.of_nat ya)
                then rdZ (integralImage gray width height)
                       ((Z.of_nat ya - 1) * Z.of_nat width + (Z.of_nat xa - 1))
                else Some 0) = Some (Spec.rectSum gray width 0 xa 0 ya)).
  { destruct (Z.ltb_spec 0 (Z.of_nat xa)); destruct (Z.ltb_spec 0 (Z.of_nat ya)); simpl.
    - replace (Z.of_nat xa - 1) with (Z.of_nat (xa - 1)) by lia.
      replace (Z.of_nat ya - 1) with (Z.of_nat (ya - 1)) by lia.
      rewrite rdZ_raster, Hint by lia.
      replace (S (xa - 1)) with xa by lia. replace (S (ya - 1)) with ya by lia. reflexivity.
    - replace ya with 0%nat by lia. rewrite rectSum_no_rows. reflexivity.
    - replace xa with 0%nat by lia. rewrite rectSum_no_columns. reflexivity.
    - replace ya with 0%nat by lia. rewrite rectSum_no_rows. reflexivity. }
  rewrite HB, HC, HD. reflexivity.
Qed.

Variable cfg : Config.
Hypothesis window_size : 0 <= windowSize cfg.

(** The test the threshold loop makes at the pixel (x, y). *)
Lemma above_mean_window (x y : nat) :
  (x < width)%nat -> (y < height)%nat ->
  let offset := windowSize cfg / 2 in
  let x1 := Z.of_nat x - offset in
  let y1 := Z.of_nat y - offset in
  let x2 := Z.of_nat x + offset in
  let y2 := Z.of_nat y + offset in
  above_mean (gray !! (y * width + x)%nat)
    (getSum (integralImage gray width height) width height x1 y1 x2 y2)
    (Z.min (Z.of_nat width - 1) x2 - Z.max 0 x1 + 1)
    (Z.min (Z.of_nat height - 1) y2 - Z.max 0 y1 + 1) (c cfg)
  = JS.Qltb (Spec.windowMean cfg gray width height x y + c cfg)%Q
            (inject_Z (gray !!! (y * width + x)%nat)).
Proof.
  intros Hx Hy offset x1 y1 x2 y2.
  assert (Hoff : 0 <= offset) by (subst offset; apply Z.div_pos; lia).
  assert (Hidx : (y * width + x < width * height)%nat) by nia.
  rewrite (list_lookup_lookup_total_lt gray (y * width + x)) by lia.
  rewrite getSum_window by lia.
  unfold above_mean, Spec.windowMean, Spec.windowLo, Spec.windowHi.
  fold offset. fold x1 y1 x2 y2.
  set (xa := Z.to_nat (Z.max 0 x1)). set (ya := Z.to_nat (Z.max 0 y1)).
  set (xb := Z.to_nat (Z.min (Z.of_nat width - 1) x2)).
  set (yb := Z.to_nat (Z.min (Z.of_nat height - 1) y2)).
  replace (Z.min (Z.of_nat width - 1) x2 - Z.max 0 x1 + 1) with (Z.of_nat (S xb - xa))
    by (subst xa xb; lia).
  replace (Z.min (Z.of_nat height - 1) y2 - Z.max 0 y1 + 1) with (Z.of_nat (S yb - ya))
    by (subst ya yb; lia).
  assert (Hcw : 0 < Z.of_nat (S xb - xa)) by (subst xa xb; lia).
  assert (Hch : 0 < Z.of_nat (S yb - ya)) by (subst ya yb; lia).
  unfold JS.div_by_product.
  destruct (Z.eqb_spec (Z.of_nat (S xb - xa) * Z.of_nat (S yb - ya)) 0) as [H0|_]; [nia|].
  reflexivity.
Qed.

Lemma adaptiveThreshold_lookup :
  length (adaptiveThreshold cfg gray width height) = (width * height)%nat /\
  forall x y, (x < width)%nat -> (y < height)%nat ->
    adaptiveThreshold cfg gray width height !! (y * width + x)%nat
    = Some (Spec.thresholded cfg gray width height x y).
Proof.
  unfold adaptiveThreshold.
  match goal with
  | |- context [JS.for_range 0 height (fun y b => JS.for_range 0 width (@?body y) b) ?init] =>
      destruct (raster_cells width 0 height 0 width body
                  (fun y x o => (fun _ => Spec.thresholded cfg gray width height x y) <$> o)
                  init) as (Hlen & Hin & _)
  end.
  - lia.
  - intros y x a _ _. simpl. destruct (above_mean _ _ _ _ _); apply length_insert.
  - intros y x a j _ _ Hj. simpl.
    destruct (above_mean _ _ _ _ _); apply list_lookup_insert_ne; congruence.
  - intros y x a Hy Hx. simpl.
    assert (Hins : forall v : Z,
              <[(y * width + x)%nat := v]> a !! (y * width + x)%nat
              = (fun _ => v) <$> a !! (y * width + x)%nat).
    { intros v. destruct (a !! (y * width + x)%nat) eqn:E.
      - apply list_lookup_insert_eq. apply lookup_lt_Some in E. exact E.
      - simpl. apply lookup_ge_None. rewrite length_insert. apply lookup_ge_None. exact E. }
    rewrite (above_mean_window x y) by lia. unfold Spec.thresholded.
    destruct (JS.Qltb _ _); apply Hins.
  - split; [rewrite Hlen; apply length_replicate|].
    intros x y Hx Hy. rewrite Hin by lia.
    rewrite lookup_replicate_2 by nia. reflexivity.
Qed.

End Threshold.

Lemma raster_index_surj (w h j : nat) :
  (j < w * h)%nat -> exists x y, (x < w)%nat /\ (y < h)%nat /\ j = (y * w + x)%nat.
Proof.
  intros Hj. assert (Hw : (0 < w)%nat) by nia.
  exists (j mod w)%nat, (j / w)%nat.
  pose proof (Nat.mod_upper_bound j w ltac:(lia)) as Hm.
  pose proof (Nat.div_mod_eq j w) as Hd.
  split; [exact Hm|]. split; [|lia].
  apply Nat.Div0.div_lt_upper_bound. lia.
Qed.

(** X3. Adaptive thresholding, pixel by pixel: on a byte image small enough
    for the [Uint32Array] integral image not to wrap around, the output
    holds 1 exactly at the pixels whose sample exceeds the mean of the
    window around them, clipped to the image, by more than the constant
    [c]; it holds 0 at every other pixel. *)
Theorem adaptiveThreshold_local_mean (cfg : Config) (gray : list Z) (width height x y : nat) :
  length gray = (width * height)%nat ->
  Spec.bytes gray ->
  255 * Z.of_nat (width * height) < 2 ^ 32 ->
  0 <= windowSize cfg ->
  (x < width)%nat -> (y < height)%nat ->
  adaptiveThreshold cfg gray width height !! (y * width + x)%nat
  = Some (Spec.thresholded cfg gray width height x y).
Proof.
  intros Hlen Hbytes Hsmall Hw Hx Hy.
  apply (adaptiveThreshold_lookup gray width height Hlen Hbytes Hsmall cfg Hw); assumption.
Qed.

Lemma adaptiveThreshold_local_mean_witness :
  adaptiveThreshold CONFIG Spec.bright_corner 2 2 !! (1 * 2 + 1)%nat
  = Some (Spec.thresholded CONFIG Spec.bright_corner 2 2 1 1) /\
  Spec.thresholded CONFIG Spec.bright_corner 2 2 1 1 = 1 /\
  Spec.thresholded CONFIG Spec.bright_corner 2 2 0 0 = 0.
Proof.
  split; [|split; reflexivity].
  apply (adaptiveThreshold_local_mean CONFIG Spec.bright_corner 2 2 1 1).
  - reflexivity.
  - unfold Spec.bytes, Spec.bright_corner. repeat constructor; discriminate.
  - reflexivity.
  - discriminate.
  - lia.
  - lia.
Defined.

(** Whatever the input buffer and the configuration, the output of
    adaptive thresholding is a mask of [width * height] samples, each of
    them 0 or 1. *)
Theorem adaptiveThreshold_mask (cfg : Config) (gray : list Z) (width height : nat) :
  length (adaptiveThreshold cfg gray width height) = (width * height)%nat /\
  Forall (fun v => v = 0 \/ v = 1) (adaptiveThreshold cfg gray width height).
Proof.
  unfold adaptiveThreshold.
  apply (for_range_inv (fun a => length a = (width * height)%nat /\
                                 Forall (fun v => v = 0 \/ v = 1) a)).
  { split; [apply length_replicate|]. apply Forall_replicate. left. reflexivity. }
  intros y a _ Ha.
  apply (for_range_inv (fun a => length a = (width * height)%nat /\
                                 Forall (fun v => v = 0 \/ v = 1) a)); [exact Ha|].
  intros x b _ [Hl Hb]. simpl.
  destruct (above_mean _ _ _ _ _).
  - split; [rewrite length_insert; exact Hl|]. apply Forall_insert; [exact Hb|]. right. reflexivity.
  - split; [rewrite length_insert; exact Hl|]. apply Forall_insert; [exact Hb|]. left. reflexivity.
Qed.

Lemma rectSum_replicate (n : nat) (v : Z) (width height xa xb ya yb : nat) :
  n = (width * height)%nat -> (xb <= width)%nat -> (yb <= height)%nat ->
  Spec.rectSum (replicate n v) width xa xb ya yb
  = v * (Z.of_nat (xb - xa) * Z.of_nat (yb - ya)).
Proof.
  intros -> Hx Hy.
  assert (Hrow : forall y, (y < height)%nat ->
            Spec.rowSum (replicate (width * height) v) width y xa xb = v * Z.of_nat (xb - xa)).
  { intros y Hyh. unfold Spec.rowSum.
    rewrite (sumZ_fmap_ext _ (fun _ => v)).
    - pose proof (sumZ_fmap_bounds (fun _ : nat => v) v v (seq xa (xb - xa))) as H.
      rewrite length_seq in H. specialize (H ltac:(intros; lia)). lia.
    - intros x Hxe. apply elem_of_seq in Hxe.
      apply list_lookup_total_correct, lookup_replicate_2. nia. }
  unfold Spec.rectSum.
  rewrite (sumZ_fmap_ext _ (fun _ => v * Z.of_nat (xb - xa))).
  - pose proof (sumZ_fmap_bounds (fun _ : nat => v * Z.of_nat (xb - xa))
                  (v * Z.of_nat (xb - xa)) (v * Z.of_nat (xb - xa)) (seq ya (yb - ya))) as H.
    rewrite length_seq in H. specialize (H ltac:(intros; lia)). lia.
  - intros y Hye. apply elem_of_seq in Hye. apply Hrow. lia.
Qed.

Lemma thresholded_uniform (cfg : Config) (width height x y : nat) (v : Z) :
  0 <= windowSize cfg -> (0 <= c cfg)%Q ->
  (x < width)%nat -> (y < height)%nat ->
  Spec.thresholded cfg (replicate (width * height) v) width height x y = 0.
Proof.
  intros Hw Hc Hx Hy. unfold Spec.thresholded.
  assert (Hoff : 0 <= windowSize cfg / 2) by (apply Z.div_pos; lia).
  rewrite (list_lookup_total_correct _ _ v) by (apply lookup_replicate_2; nia).
  unfold Spec.windowMean.
  set (xa := Spec.windowLo (windowSize cfg / 2) x).
  set (xb := Spec.windowHi (windowSize cfg / 2) width x).
  set (ya := Spec.windowLo (windowSize cfg / 2) y).
  set (yb := Spec.windowHi (windowSize cfg / 2) height y).
  assert (Hxa : (xa < xb <= width)%nat) by (subst xa xb; unfold Spec.windowLo, Spec.windowHi; lia).
  assert (Hya : (ya < yb <= height)%nat) by (subst ya yb; unfold Spec.windowLo, Spec.windowHi; lia).
  rewrite (rectSum_replicate _ v width height) by (reflexivity || lia).
  assert (Hn : 0 < Z.of_nat (xb - xa) * Z.of_nat (yb - ya)) by nia.
  set (n := Z.of_nat (xb - xa) * Z.of_nat (yb - ya)) in *.
  assert (Hmean : (inject_Z (v * n) / inject_Z n == inject_Z v)%Q).
  { rewrite inject_Z_mult. field. apply inject_Z_nonzero. lia. }
  destruct (JS.Qltb (inject_Z (v * n) / inject_Z n + c cfg) (inject_Z v)) eqn:E; [|reflexivity].
  apply Qltb_true in E. rewrite Hmean in E. lra.
Qed.

Lemma adaptiveThreshold_flat (cfg : Config) (width height : nat) (v : Z) :
  0 <= v <= 255 ->
  255 * Z.of_nat (width * height) < 2 ^ 32 ->
  0 <= windowSize cfg -> (0 <= c cfg)%Q ->
  adaptiveThreshold cfg (replicate (width * height) v) width height
  = replicate (width * height) 0.
Proof.
  intros Hv Hsmall Hw Hc.
  assert (Hbytes : Spec.bytes (replicate (width * height) v))
    by (apply Forall_replicate; exact Hv).
  destruct (adaptiveThreshold_lookup (replicate (width * height) v) width height
              (length_replicate _ _) Hbytes Hsmall cfg Hw)
    as [Hlen Hcells].
  apply list_eq. intros i.
  destruct (decide (i < width * height)%nat) as [Hi|Hi].
  - destruct (raster_index_surj width height i Hi) as (x & y & Hx & Hy & ->).
    rewrite Hcells by assumption. rewrite thresholded_uniform by assumption.
    symmetry. apply lookup_replicate_2. exact Hi.
  - rewrite (proj2 (lookup_ge_None _ _)) by (rewrite Hlen; lia).
    symmetry. apply lookup_ge_None. rewrite length_replicate. lia.
Qed.

(** X4. An image of one gray level has no foreground: when the threshold
    constant is not negative, adaptive thresholding of a uniform byte
    image returns the all-zero mask. *)
Theorem adaptiveThreshold_uniform (cfg : Config) (width height : nat) (v : Z) :
  0 <= v <= 255 ->
  255 * Z.of_nat (width * height) < 2 ^ 32 ->
  0 <= windowSize cfg -> (0 <= c cfg)%Q ->
  adaptiveThreshold cfg (replicate (width * height) v) width height
  = replicate (width * height) 0.
Proof. apply adaptiveThreshold_flat. Qed.

Lemma adaptiveThreshold_uniform_witness :
  adaptiveThreshold CONFIG (replicate (2 * 2) 100) 2 2 = replicate (2 * 2) 0.
Proof.
  apply (adaptiveThreshold_uniform CONFIG 2 2 100).
  - lia.
  - reflexivity.
  - discriminate.
  - discriminate.
Defined.

(** ** Blob statistics *)

Section Blob.
Variables (labels : list nat) (label width height : nat).

Let seen (k : nat) : list (nat * nat) :=
  filter (fun p => labels !! Spec.index width p = Some label)
         (take k (Spec.coords width height)).

Lemma seen_snoc (x y : nat) :
  (x < width)%nat -> (y < height)%nat ->
  seen (S (y * width + x)) =
    seen (y * width + x) ++
    (if decide (labels !! (y * width + x)%nat = Some label) then [(x, y)] else []).
Proof.
  intros Hx Hy. unfold seen. rewrite coords_take_snoc by assumption.
  rewrite filter_app. reflexivity.
Qed.

Lemma blob_inv_hit (l : list (nat * nat)) (acc : BlobAcc) (x y : nat) :
  (x < width)%nat -> (y < height)%nat ->
  (forall p, p ∈ l -> (p.1 < width)%nat /\ (p.2 < height)%nat) ->
  Spec.blob_inv width height l acc ->
  Spec.blob_inv width height (l ++ [(x, y)])
    {| acc_area := acc_area acc + 1;
       acc_minX := if Z.of_nat x <? acc_minX acc then Z.of_nat x else acc_minX acc;
       acc_maxX := if Z.of_nat x >? acc_maxX acc then Z.of_nat x else acc_maxX acc;
       acc_minY := if Z.of_nat y <? acc_minY acc then Z.of_nat y else acc_minY acc;
       acc_maxY := if Z.of_nat y >? acc_maxY acc then Z.of_nat y else acc_maxY acc;
       acc_sumX := acc_sumX acc + Z.of_nat x;
       acc_sumY := acc_sumY acc + Z.of_nat y |}.
Proof.
  intros Hx Hy Hin [Ha Hsx Hsy Hbox Hnone Htight].
  rewrite !Z.gtb_ltb.
  split; cbn [acc_area acc_minX acc_maxX acc_minY acc_maxY acc_sumX acc_sumY].
  - rewrite length_app. simpl. lia.
  - rewrite fmap_app, sumZ_app, Hsx. unfold Spec.sumZ at 3. simpl. lia.
  - rewrite fmap_app, sumZ_app, Hsy. unfold Spec.sumZ at 3. simpl. lia.
  - intros p Hp. apply elem_of_app in Hp. destruct Hp as [Hp|Hp].
    + specialize (Hbox p Hp).
      destruct (Z.ltb_spec (Z.of_nat x) (acc_minX acc));
        destruct (Z.ltb_spec (acc_maxX acc) (Z.of_nat x));
        destruct (Z.ltb_spec (Z.of_nat y) (acc_minY acc));
        destruct (Z.ltb_spec (acc_maxY acc) (Z.of_nat y)); lia.
    + apply list_elem_of_singleton in Hp. subst p. simpl.
      destruct (Z.ltb_spec (Z.of_nat x) (acc_minX acc));
        destruct (Z.ltb_spec (acc_maxX acc) (Z.of_nat x));
        destruct (Z.ltb_spec (Z.of_nat y) (acc_minY acc));
        destruct (Z.ltb_spec (acc_maxY acc) (Z.of_nat y)); lia.
  - intros Hnil. destruct l; discriminate.
  - intros _.
    assert (Hnew : (x, y) ∈ l ++ [(x, y)]) by (apply elem_of_app; right; constructor).
    assert (Hold : forall p, p ∈ l -> p ∈ l ++ [(x, y)]) by (intros p Hp; apply elem_of_app; left; exact Hp).
    destruct l as [|p0 l'].
    + destruct (Hnone eq_refl) as (-> & -> & -> & ->).
      destruct (Z.ltb_spec (Z.of_nat x) (Z.of_nat width)); [|lia].
      destruct (Z.ltb_spec (Z.of_nat y) (Z.of_nat height)); [|lia].
      repeat split; exists (x, y); (split; [exact Hnew|]); simpl; try reflexivity.
      * destruct (Z.ltb_spec 0 (Z.of_nat x)); lia.
      * destruct (Z.ltb_spec 0 (Z.of_nat y)); lia.
    + destruct (Htight ltac:(discriminate))
        as ((p1 & Hp1 & E1) & (p2 & Hp2 & E2) & (p3 & Hp3 & E3) & (p4 & Hp4 & E4)).
      repeat split.
      * destruct (Z.ltb_spec (Z.of_nat x) (acc_minX acc));
          [exists (x, y); split; [exact Hnew|reflexivity]|exists p1; split; [apply Hold; exact Hp1|exact E1]].
      * destruct (Z.ltb_spec (acc_maxX acc) (Z.of_nat x));
          [exists (x, y); split; [exact Hnew|reflexivity]|exists p2; split; [apply Hold; exact Hp2|exact E2]].
      * destruct (Z.ltb_spec (Z.of_nat y) (acc_minY acc));
          [exists (x, y); split; [exact Hnew|reflexivity]|exists p3; split; [apply Hold; exact Hp3|exact E3]].
      * destruct (Z.ltb_spec (acc_maxY acc) (Z.of_nat y));
          [exists (x, y); split; [exact Hnew|reflexivity]|exists p4; split; [apply Hold; exact Hp4|exact E4]].
Qed.

Lemma seen_in_image (k : nat) (p : nat * nat) :
  p ∈ seen k -> (p.1 < width)%nat /\ (p.2 < height)%nat.
Proof.
  intros Hp. unfold seen in Hp. apply list_elem_of_filter in Hp. destruct Hp as [_ Hp].
  apply coords_elem. apply elem_of_take in Hp. destruct Hp as (i & Hi & _).
  apply list_elem_of_lookup. eauto.
Qed.

(** The accumulators at the end of the scan. *)
Lemma analyzeBlob_scan :
  Spec.blob_inv width height (Spec.pixels_of labels label width height)
    (JS.for_range 0 height (fun y acc =>
       JS.for_range 0 width (fun x acc =>
         if decide (labels !! (y * width + x)%nat = Some label) then
           {| acc_area := acc_area acc + 1;
              acc_minX := if Z.of_nat x <? acc_minX acc then Z.of_nat x else acc_minX acc;
              acc_maxX := if Z.of_nat x >? acc_maxX acc then Z.of_nat x else acc_maxX acc;
              acc_minY := if Z.of_nat y <? acc_minY acc then Z.of_nat y else acc_minY acc;
              acc_maxY := if Z.of_nat y >? acc_maxY acc then Z.of_nat y else acc_maxY acc;
              acc_sumX := acc_sumX acc + Z.of_nat x;
              acc_sumY := acc_sumY acc + Z.of_nat y |}
         else acc) acc)
       {| acc_area := 0;
          acc_minX := Z.of_nat width; acc_maxX := 0;
          acc_minY := Z.of_nat height; acc_maxY := 0;
          acc_sumX := 0; acc_sumY := 0 |}).
Proof.
  assert (Hall : Spec.pixels_of labels label width height = seen (height * width)).
  { unfold Spec.pixels_of, seen. rewrite take_ge by (rewrite coords_length; lia). reflexivity. }
  rewrite Hall.
  apply (raster_ind (fun k acc => Spec.blob_inv width height (seen k) acc)).
  - unfold seen. simpl. split; simpl; try reflexivity.
    + intros p Hp. inversion Hp.
    + intros _. repeat split.
    + intros Hne. exfalso. apply Hne. reflexivity.
  - intros y x acc Hy Hx Hacc. rewrite seen_snoc by assumption.
    destruct (decide (labels !! (y * width + x)%nat = Some label)).
    + apply blob_inv_hit; try assumption. intros p Hp. eapply seen_in_image; eauto.
    + rewrite app_nil_r. exact Hacc.
Qed.

End Blob.

Lemma sumZ_le_scaled (f : nat * nat -> Z) (lo hi : Z) (l : list (nat * nat)) :
  (forall p, p ∈ l -> lo <= f p <= hi) ->
  lo * Z.of_nat (length l) <= Spec.sumZ (f <$> l) <= hi * Z.of_nat (length l).
Proof.
  induction l as [|a l IH]; intros H; [unfold Spec.sumZ; simpl; lia|].
  rewrite fmap_cons, sumZ_cons. simpl length.
  pose proof (H a ltac:(constructor)) as Ha.
  specialize (IH ltac:(intros p Hp; apply H; constructor; exact Hp)). lia.
Qed.

(** X5. The statistics of a blob are those of the pixels that carry its
    label: the area is their number, the bounding box contains them all
    and each of its four sides passes through one of them, and the centre
    is the mean of their coordinates. *)
Theorem analyzeBlob_pixels (labels : list nat) (label width height : nat) :
  let blob := analyzeBlob labels label width height in
  let pixels := Spec.pixels_of labels label width height in
  area blob = Z.of_nat (length pixels) /\
  (forall p, p ∈ pixels ->
     minX blob <= Z.of_nat p.1 <= maxX blob /\ minY blob <= Z.of_nat p.2 <= maxY blob) /\
  (pixels <> [] ->
     (exists p, p ∈ pixels /\ Z.of_nat p.1 = minX blob) /\
     (exists p, p ∈ pixels /\ Z.of_nat p.1 = maxX blob) /\
     (exists p, p ∈ pixels /\ Z.of_nat p.2 = minY blob) /\
     (exists p, p ∈ pixels /\ Z.of_nat p.2 = maxY blob)) /\
  (pixels <> [] ->
     centerX blob = (inject_Z (Spec.sumZ ((fun p => Z.of_nat p.1) <$> pixels))
                     / inject_Z (Z.of_nat (length pixels)))%Q /\
     centerY blob = (inject_Z (Spec.sumZ ((fun p => Z.of_nat p.2) <$> pixels))
                     / inject_Z (Z.of_nat (length pixels)))%Q).
Proof.
  intros blob pixels.
  destruct (analyzeBlob_scan labels label width height) as [Ha Hsx Hsy Hbox Hnone Htight].
  subst blob. unfold analyzeBlob. cbn [area minX maxX minY maxY centerX centerY].
  fold pixels in Ha, Hsx, Hsy, Hbox, Hnone, Htight.
  split; [exact Ha|]. split; [exact Hbox|]. split; [exact Htight|].
  intros Hne. rewrite Ha, Hsx, Hsy.
  assert (Hpos : 0 < Z.of_nat (length pixels)) by (destruct pixels; [congruence|simpl; lia]).
  destruct (Z.gtb_spec (Z.of_nat (length pixels)) 0); [|lia]. split; reflexivity.
Qed.

(** X6. A label that no pixel carries, as a label merged away by the
    labeller is, gives the empty blob, and [isValidLoop] rejects it. *)
Theorem analyzeBlob_absent (labels : list nat) (label width height : nat) :
  (forall x y, (x < width)%nat -> (y < height)%nat ->
     labels !! (y * width + x)%nat <> Some label) ->
  analyzeBlob labels label width height = Spec.empty_blob width height /\
  isValidLoop CONFIG (analyzeBlob labels label width height) = false.
Proof.
  intros Habs.
  assert (Hnil : Spec.pixels_of labels label width height = []).
  { unfold Spec.pixels_of.
    destruct (filter _ (Spec.coords width height)) as [|p l] eqn:E; [reflexivity|].
    exfalso. assert (Hp : p ∈ p :: l) by constructor. rewrite <- E in Hp.
    apply list_elem_of_filter in Hp. destruct Hp as [Hlab Hp].
    apply coords_elem in Hp. apply (Habs p.1 p.2); [apply Hp|apply Hp|exact Hlab]. }
  destruct (analyzeBlob_scan labels label width height) as [Ha Hsx Hsy _ Hnone _].
  rewrite Hnil in Ha, Hsx, Hsy. destruct (Hnone Hnil) as (H1 & H2 & H3 & H4).
  assert (Heq : analyzeBlob labels label width height = Spec.empty_blob width height).
  { unfold analyzeBlob, Spec.empty_blob. rewrite Ha, H1, H2, H3, H4. reflexivity. }
  split; [exact Heq|]. rewrite Heq. reflexivity.
Qed.

Lemma analyzeBlob_absent_witness :
  analyzeBlob [1; 0; 1; 1; 1; 1]%nat 2 3 2 = Spec.empty_blob 3 2 /\
  isValidLoop CONFIG (analyzeBlob [1; 0; 1; 1; 1; 1]%nat 2 3 2) = false.
Proof.
  apply (analyzeBlob_absent [1; 0; 1; 1; 1; 1]%nat 2 3 2).
  intros x y Hx Hy.
  destruct x as [|[|[|x]]]; destruct y as [|[|y]]; try lia; simpl; discriminate.
Defined.

(** X7. The centre of a blob that has pixels lies within its bounding
    box. *)
Theorem analyzeBlob_centre_in_box (labels : list nat) (label width height : nat) :
  let blob := analyzeBlob labels label width height in
  0 < area blob ->
  (inject_Z (minX blob) <= centerX blob <= inject_Z (maxX blob))%Q /\
  (inject_Z (minY blob) <= centerY blob <= inject_Z (maxY blob))%Q.
Proof.
  intros blob Hpos.
  destruct (analyzeBlob_scan labels label width height) as [Ha Hsx Hsy Hbox _ _].
  set (pixels := Spec.pixels_of labels label width height) in *.
  subst blob. unfold analyzeBlob in *. cbn [area minX maxX minY maxY centerX centerY] in *.
  set (acc := JS.for_range _ _ _ _) in *.
  destruct (Z.gtb_spec (acc_area acc) 0); [|lia].
  pose proof (sumZ_le_scaled (fun p => Z.of_nat p.1) (acc_minX acc) (acc_maxX acc) pixels
                ltac:(intros p Hp; apply Hbox; exact Hp)) as HX.
  pose proof (sumZ_le_scaled (fun p => Z.of_nat p.2) (acc_minY acc) (acc_maxY acc) pixels
                ltac:(intros p Hp; apply Hbox; exact Hp)) as HY.
  rewrite <- Hsx, <- Ha in HX. rewrite <- Hsy, <- Ha in HY.
  assert (HposQ : (0 < inject_Z (acc_area acc))%Q).
  { change 0%Q with (inject_Z 0). rewrite <- Zlt_Qlt. lia. }
  assert (Hscale : forall a b : Z, a * acc_area acc <= b ->
            (inject_Z a <= inject_Z b / inject_Z (acc_area acc))%Q).
  { intros a b Hab. apply Qle_shift_div_l; [exact HposQ|].
    rewrite <- inject_Z_mult, <- Zle_Qle. exact Hab. }
  assert (Hscale' : forall a b : Z, b <= a * acc_area acc ->
            (inject_Z b / inject_Z (acc_area acc) <= inject_Z a)%Q).
  { intros a b Hab. apply Qle_shift_div_r; [exact HposQ|].
    rewrite <- inject_Z_mult, <- Zle_Qle. exact Hab. }
  repeat split; [apply Hscale|apply Hscale'|apply Hscale|apply Hscale']; lia.
Qed.

Lemma analyzeBlob_centre_in_box_witness :
  (inject_Z (minX (analyzeBlob [1; 0; 1; 1; 1; 1]%nat 1 3 2))
   <= centerX (analyzeBlob [1; 0; 1; 1; 1; 1]%nat 1 3 2)
   <= inject_Z (maxX (analyzeBlob [1; 0; 1; 1; 1; 1]%nat 1 3 2)))%Q /\
  (inject_Z (minY (analyzeBlob [1; 0; 1; 1; 1; 1]%nat 1 3 2))
   <= centerY (analyzeBlob [1; 0; 1; 1; 1; 1]%nat 1 3 2)
   <= inject_Z (maxY (analyzeBlob [1; 0; 1; 1; 1; 1]%nat 1 3 2)))%Q.
Proof.
  apply (analyzeBlob_centre_in_box [1; 0; 1; 1; 1; 1]%nat 1 3 2). reflexivity.
Defined.

(** ** Components and their blobs *)

Lemma connected4_foreground (binary : list Z) (width height : nat) (p q : nat * nat) :
  Spec.connected4 binary width height p q ->
  Spec.foreground binary width height p -> Spec.foreground binary width height q.
Proof.
  intros Hc. induction Hc as [p|p p' q (_ & Hp' & _) _ IH]; [auto|].
  intros _. apply IH. exact Hp'.
Qed.

Lemma pixels_of_label (labels : list nat) (label width height : nat) (p : nat * nat) :
  length labels = (width * height)%nat ->
  p ∈ Spec.pixels_of labels label width height <->
  Spec.in_image width height p /\ Spec.label_of labels width p = label.
Proof.
  intros Hlen. unfold Spec.pixels_of. rewrite list_elem_of_filter, coords_in_image.
  unfold Spec.label_of, label_at. split.
  - intros [Hl Hp]. split; [exact Hp|]. rewrite Hl. reflexivity.
  - intros [Hp Hl]. split; [|exact Hp].
    destruct (lookup_lt_is_Some_2 labels (Spec.index width p)) as [v Hv].
    { rewrite Hlen. apply (index_lt _ _ _ Hp). }
    rewrite Hv in Hl |- *. simpl in Hl. congruence.
Qed.

(** X8. The pixels that carry one label of the final label map are a whole
    4-connected component of the mask: they are foreground pixels, and a
    pixel carries the label of [p] exactly when a chain of 4-adjacent
    foreground pixels joins it to [p].  So each blob that [analyzeBlob]
    measures for a label is one component, or empty. *)
Theorem connectedComponents_label_is_component (binary : list Z) (width height : nat) :
  length binary = (width * height)%nat ->
  exists labels count,
    connectedComponents binary width height = Some (labels, count) /\
    forall label p, (1 <= label)%nat -> p ∈ Spec.pixels_of labels label width height ->
      Spec.foreground binary width height p /\
      forall q, q ∈ Spec.pixels_of labels label width height <->
                Spec.connected4 binary width height p q.
Proof.
  intros Hlen.
  destruct (connectedComponents_labels binary width height Hlen)
    as (labels & count & Hcc & Hl & Hfg & Hsame & _ & _).
  exists labels, count. split; [exact Hcc|].
  intros label p Hlab Hp. apply (pixels_of_label _ _ _ _ _ Hl) in Hp.
  destruct Hp as [Hin Hlp].
  assert (Hfp : Spec.foreground binary width height p) by (apply Hfg; [exact Hin|lia]).
  split; [exact Hfp|]. intros q. rewrite (pixels_of_label _ _ _ _ _ Hl). split.
  - intros [Hq Hlq]. apply Hsame; [exact Hfp| |congruence].
    apply Hfg; [exact Hq|lia].
  - intros Hc. pose proof (connected4_foreground _ _ _ _ _ Hc Hfp) as Hfq.
    split; [apply Hfq|]. rewrite <- Hlp. symmetry. apply Hsame; assumption.
Qed.

Lemma connectedComponents_label_is_component_witness :
  exists labels count,
    connectedComponents Spec.u_shape 3 2 = Some (labels, count) /\
    ((0%nat, 0%nat) ∈ Spec.pixels_of labels 1 3 2 ->
     (2%nat, 0%nat) ∈ Spec.pixels_of labels 1 3 2 <->
     Spec.connected4 Spec.u_shape 3 2 (0%nat, 0%nat) (2%nat, 0%nat)).
Proof.
  destruct (connectedComponents_label_is_component Spec.u_shape 3 2 eq_refl)
    as (labels & count & Hcc & Hcomp).
  exists labels, count. split; [exact Hcc|].
  intros Hp. apply (Hcomp 1%nat (0%nat, 0%nat)); [lia|exact Hp].
Defined.

Lemma filter_ext_in {A : Type} (P1 P2 : A -> Prop)
    `{!forall x, Decision (P1 x)} `{!forall x, Decision (P2 x)} (l : list A) :
  (forall x, x ∈ l -> P1 x <-> P2 x) -> filter P1 l = filter P2 l.
Proof.
  induction l as [|a l IH]; intros Hext; [reflexivity|].
  rewrite !filter_cons.
  pose proof (Hext a ltac:(constructor)) as Ha.
  rewrite IH by (intros x Hx; apply Hext; constructor; exact Hx).
  destruct (decide (P1 a)), (decide (P2 a)); tauto || reflexivity.
Qed.

(** The labels between 1 and [count] that a pixel list carries, counted
    label by label, are the pixels with a label that is not 0. *)
Lemma count_by_label (lab : nat * nat -> nat) (count : nat) (l : list (nat * nat)) :
  (forall p, p ∈ l -> (lab p <= count)%nat) ->
  Spec.sumZ ((fun i => Z.of_nat (length (filter (fun p => lab p = i) l))) <$> seq 1 count)
  = Z.of_nat (length (filter (fun p => lab p <> 0%nat) l)).
Proof.
  induction l as [|a l IH]; intros Hb.
  - simpl. pose proof (sumZ_fmap_bounds (fun _ : nat => 0) 0 0 (seq 1 count)
                         ltac:(intros; lia)) as H.
    rewrite (sumZ_fmap_ext _ (fun _ => 0)) by reflexivity. lia.
  - specialize (IH ltac:(intros p Hp; apply Hb; constructor; exact Hp)).
    pose proof (Hb a ltac:(constructor)) as Ha.
    rewrite (sumZ_fmap_ext _
               (fun i => (if decide (lab a = i) then 1 else 0)
                         + Z.of_nat (length (filter (fun p => lab p = i) l)))).
    2:{ intros i _. rewrite filter_cons. destruct (decide (lab a = i)); simpl; lia. }
    rewrite sumZ_fmap_add, IH. rewrite filter_cons.
    assert (Hind : forall n m : nat,
              Spec.sumZ ((fun i => if decide (lab a = i) then 1 else 0) <$> seq m n)
              = if decide (m <= lab a < m + n)%nat then 1 else 0).
    { induction n as [|n IHn]; intros m.
      - simpl. destruct (decide (m <= lab a < m + 0)%nat); [lia|reflexivity].
      - simpl seq. rewrite fmap_cons, sumZ_cons, IHn.
        destruct (decide (lab a = m)); destruct (decide (S m <= lab a < S m + n)%nat);
          destruct (decide (m <= lab a < m + S n)%nat); lia. }
    rewrite Hind.
    destruct (decide (lab a <> 0%nat)); destruct (decide (1 <= lab a < 1 + count)%nat);
      simpl length; lia.
Qed.

(** X9. The loop of [processImage] over the labels 1 to [count] loses no
    pixel and counts none twice: the areas of the blobs of all the labels
    add up to the number of foreground pixels of the mask. *)
Theorem analyzeBlob_areas_partition (binary : list Z) (width height : nat) :
  length binary = (width * height)%nat ->
  exists labels count,
    connectedComponents binary width height = Some (labels, count) /\
    Spec.sumZ ((fun i => area (analyzeBlob labels i width height)) <$> seq 1 count)
    = Z.of_nat (length (filter (fun p => Spec.fgb binary width p = true)
                          (Spec.coords width height))).
Proof.
  intros Hlen.
  destruct (connectedComponents_labels binary width height Hlen)
    as (labels & count & Hcc & Hl & Hfg & _ & Hle & _).
  exists labels, count. split; [exact Hcc|].
  rewrite (sumZ_fmap_ext _
             (fun i => Z.of_nat (length (filter (fun p => Spec.label_of labels width p = i)
                                           (Spec.coords width height))))).
  2:{ intros i _.
      unfold analyzeBlob. cbn [area].
      rewrite (Spec.blob_area _ _ _ _ (analyzeBlob_scan labels i width height)).
      f_equal. f_equal. unfold Spec.pixels_of.
      apply filter_ext_in. intros p Hp. apply coords_in_image in Hp.
      pose proof (pixels_of_label labels i width height p Hl) as Hiff.
      unfold Spec.pixels_of in Hiff. rewrite list_elem_of_filter, coords_in_image in Hiff.
      tauto. }
  rewrite count_by_label by (intros p _; apply Hle).
  f_equal. f_equal. apply filter_ext_in. intros p Hp.
  apply coords_in_image in Hp. rewrite (Hfg p Hp). unfold Spec.foreground. tauto.
Qed.

Lemma analyzeBlob_areas_partition_witness :
  exists labels count,
    connectedComponents Spec.u_shape 3 2 = Some (labels, count) /\
    Spec.sumZ ((fun i => area (analyzeBlob labels i 3 2)) <$> seq 1 count) = 5.
Proof.
  destruct (analyzeBlob_areas_partition Spec.u_shape 3 2 eq_refl)
    as (labels & count & Hcc & Hsum).
  exists labels, count. split; [exact Hcc|]. exact Hsum.
Defined.

(** ** The skyline, left to right *)

Lemma skyline_sorted (sk : list (option BlobStats)) (k : nat) :
  (forall i b, sk !! i = Some (Some b) -> Spec.column CONFIG b = Z.of_nat (k + i)) ->
  (forall i j b b', (i < j)%nat ->
     omap id sk !! i = Some b -> omap id sk !! j = Some b' ->
     Spec.column CONFIG b < Spec.column CONFIG b') /\
  (length (omap id sk) <= length sk)%nat.
Proof.
  revert k. induction sk as [|o sk IH]; intros k Hcol.
  - split; [|reflexivity]. intros i j b b' _ Hi. discriminate.
  - destruct (IH (S k)) as [Hs Hl].
    { intros i b Hi. rewrite (Hcol (S i) b Hi). f_equal. lia. }
    destruct (skyline_compact_columns sk (S k)) as [_ Hge].
    { intros i b Hi. rewrite (Hcol (S i) b Hi). f_equal. lia. }
    destruct o as [b0|].
    + change (omap id (Some b0 :: sk)) with (b0 :: omap id sk). simpl length.
      split; [|lia]. intros i j b b' Hij Hi Hj.
      destruct j as [|j]; [lia|]. simpl in Hj.
      destruct i as [|i]; simpl in Hi.
      * injection Hi as <-. rewrite (Hcol 0%nat b0 eq_refl).
        rewrite Forall_forall in Hge.
        assert (Hin : Spec.column CONFIG b' ∈ Spec.column CONFIG <$> omap id sk).
        { apply list_elem_of_fmap. exists b'. split; [reflexivity|].
          apply list_elem_of_lookup. eauto. }
        specialize (Hge _ Hin). simpl in Hge. lia.
      * apply (Hs i j); [lia|exact Hi|exact Hj].
    + change (omap id (None :: sk)) with (omap id sk). simpl length.
      split; [exact Hs|lia].
Qed.

(** X10. The skyline selector returns its blobs from left to right: their
    columns increase strictly along the result, so there are no more of
    them than the image has columns. *)
Theorem filterOutermost_left_to_right (blobs : list BlobStats) (imageWidth : Z) :
  0 <= imageWidth < 2 ^ 32 ->
  exists result,
    filterOutermost CONFIG blobs imageWidth = Some result /\
    (forall i j b b', (i < j)%nat ->
       result !! i = Some b -> result !! j = Some b' ->
       Spec.column CONFIG b < Spec.column CONFIG b') /\
    Z.of_nat (length result) <= Spec.numColumns CONFIG imageWidth.
Proof.
  intros Hw.
  destruct (decide (blobs = [])) as [->|Hne].
  { exists []. split; [reflexivity|]. split; [intros i j b b' _ Hi; discriminate|].
    pose proof (numColumns_bounds imageWidth Hw). simpl. lia. }
  pose proof (numColumns_bounds imageWidth Hw) as Hn.
  rewrite filterOutermost_unfold by assumption.
  set (n := Spec.numColumns CONFIG imageWidth) in *.
  set (sk := foldl (skyline_step CONFIG n) (replicate (Z.to_nat n) None) blobs).
  destruct (skyline_inv_foldl n (proj1 Hn) blobs [] _ (skyline_inv_init n))
    as (Hlen & Hsome & _). fold sk in Hlen, Hsome.
  destruct (skyline_sorted sk 0) as [Hs Hl].
  { intros i b Hi. destruct (Hsome i b Hi) as (_ & Hc & _). exact Hc. }
  exists (omap id sk). split; [reflexivity|]. split; [exact Hs|]. lia.
Qed.

Lemma filterOutermost_left_to_right_witness :
  exists result,
    filterOutermost CONFIG [Spec.blob_at_200; Spec.rect_5x20] 800 = Some result /\
    (forall i j b b', (i < j)%nat ->
       result !! i = Some b -> result !! j = Some b' ->
       Spec.column CONFIG b < Spec.column CONFIG b') /\
    Z.of_nat (length result) <= Spec.numColumns CONFIG 800.
Proof.
  apply (filterOutermost_left_to_right [Spec.blob_at_200; Spec.rect_5x20] 800). lia.
Defined.

Lemma Qceiling_le_iff (q : Q) (k : Z) : Qceiling q <= k <-> (q <= inject_Z k)%Q.
Proof.
  split.
  - intros H. apply Qle_trans with (inject_Z (Qceiling q)); [apply Qle_ceiling|].
    rewrite <- Zle_Qle. exact H.
  - intros H. rewrite <- (Qceiling_Z k). apply Qceiling_resp_le. exact H.
Qed.

Lemma columns_le_iff (imageWidth k : Z) :
  Spec.numColumns CONFIG imageWidth <= k <-> imageWidth <= 50 * k.
Proof.
  unfold Spec.numColumns. simpl columnWidth. rewrite Qceiling_le_iff.
  change (inject_Z 50) with 50%Q.
  assert (Hk : (inject_Z (50 * k) == 50 * inject_Z k)%Q) by (rewrite inject_Z_mult; reflexivity).
  rewrite (Zle_Qle imageWidth (50 * k)), Hk. split.
  - intros H. apply (Qmult_le_compat_r _ _ 50) in H; [|discriminate].
    assert (E : (inject_Z imageWidth / 50 * 50 == inject_Z imageWidth)%Q) by (field).
    rewrite E in H. lra.
  - intros H. apply Qle_shift_div_r; [reflexivity|lra].
Qed.

(** X11. The one way [filterOutermost] fails: given at least one blob, it
    throws (the [RangeError] of [new Array]) exactly when the image width
    makes the number of columns negative or too large for an array, that
    is for a width of -50 or less or of more than 50 * (2^32 - 1). *)
Theorem filterOutermost_throws_iff (blobs : list BlobStats) (imageWidth : Z) :
  blobs <> [] ->
  filterOutermost CONFIG blobs imageWidth = None <->
  imageWidth <= -50 \/ 50 * (2 ^ 32 - 1) < imageWidth.
Proof.
  intros Hne. unfold filterOutermost.
  destruct blobs as [|b blobs]; [congruence|]. simpl length. simpl Nat.eqb. cbn iota.
  rewrite div_finite by (apply inject_Z_nonzero; discriminate).
  fold (Spec.numColumns CONFIG imageWidth).
  pose proof (columns_le_iff imageWidth (-1)) as Hlo.
  pose proof (columns_le_iff imageWidth (2 ^ 32 - 1)) as Hhi.
  set (n := Spec.numColumns CONFIG imageWidth) in *.
  destruct (Z.ltb_spec n 0) as [Hn|Hn]; simpl.
  - split; [intros _; left; lia|reflexivity].
  - destruct (Z.leb_spec (2 ^ 32) n) as [Hm|Hm].
    + split; [intros _; right; lia|reflexivity].
    + split; [discriminate|]. intros [H|H]; lia.
Qed.

Lemma filterOutermost_throws_iff_witness :
  filterOutermost CONFIG [Spec.blob_at_100] (-50) = None /\
  filterOutermost CONFIG [Spec.blob_at_100] (-49) <> None.
Proof.
  split.
  - apply (filterOutermost_throws_iff [Spec.blob_at_100] (-50)); [discriminate|lia].
  - intros H. apply (filterOutermost_throws_iff [Spec.blob_at_100] (-49)) in H;
      [lia|discriminate].
Defined.

(** ** The detection pipeline *)

(** A loop whose body at [i] touches only the cell [i]. *)
Lemma for_range_cells {A : Type} (lo hi : nat) (body : nat -> list A -> list A)
    (g : nat -> option A -> option A) (init : list A) :
  (forall i a, (lo <= i < hi)%nat -> length (body i a) = length a) ->
  (forall i a j, (lo <= i < hi)%nat -> j <> i -> body i a !! j = a !! j) ->
  (forall i a, (lo <= i < hi)%nat -> body i a !! i = g i (a !! i)) ->
  let r := JS.for_range lo hi body init in
  length r = length init /\
  (forall i, (lo <= i < hi)%nat -> r !! i = g i (init !! i)) /\
  (forall j, ~ (lo <= j < hi)%nat -> r !! j = init !! j).
Proof.
  intros Hlen Hframe Hcell r.
  destruct (raster_cells hi 0 1 lo hi (fun _ i a => body i a) (fun _ i o => g i o) init)
    as (Hl & Hin & Hout).
  - lia.
  - intros y i a _ Hi. apply Hlen. exact Hi.
  - intros y i a j Hy Hi Hj. apply Hframe; [exact Hi|].
    replace y with 0%nat in Hj by lia. exact Hj.
  - intros y i a Hy Hi. replace y with 0%nat by lia. apply Hcell. exact Hi.
  - split; [exact Hl|]. split.
    + intros i Hi. apply (Hin i 0%nat); lia.
    + intros j Hj. apply Hout. intros x y Hy Hx.
      replace y with 0%nat by lia. simpl. lia.
Qed.

(** A store into a [Uint8Array] holds a byte. *)
Lemma toUint8_range (v : option Q) : 0 <= JS.toUint8 v <= 255.
Proof.
  destruct v as [q|]; simpl; [|lia].
  pose proof (Z.mod_pos_bound (JS.trunc q) 256 ltac:(lia)). lia.
Qed.

(** The exact luminance of a colour is a number of thousandths. *)
Lemma luma_thousandths (r g b : Z) :
  (Spec.luma r g b * 1000 == inject_Z (299 * r + 587 * g + 114 * b))%Q.
Proof.
  unfold Spec.luma. rewrite !inject_Z_plus, !inject_Z_mult.
  change (inject_Z 299) with 299%Q. change (inject_Z 587) with 587%Q.
  change (inject_Z 114) with 114%Q. field.
Qed.

(** Truncating a number [v] that is within 2^-30 of [255 - l], for [l] a
    number of thousandths between 0 and 255: the floor of [255 - l], or one
    less when [l] is an integer and [v] falls short of [255 - l]. *)
Lemma trunc_inverted (l v : Q) (K : Z) :
  (l * 1000 == inject_Z K)%Q -> (0 <= l <= 255)%Q ->
  (255 - l - (1 # 1073741824) <= v <= 255 - l + (1 # 1073741824))%Q ->
  JS.toUint8 (Some v) = 255 - Qceiling l \/
  (JS.toUint8 (Some v) = 254 - Qceiling l /\ (l == inject_Z (Qceiling l))%Q).
Proof.
  intros Hk Hl Hv.
  set (c := Qceiling l).
  pose proof (Qle_ceiling l) as Hc1. pose proof (Qceiling_lt l) as Hc2. fold c in Hc1, Hc2.
  assert (Hc0 : 0 <= c).
  { unfold c. rewrite <- (Qceiling_Z 0). apply Qceiling_resp_le. apply Hl. }
  assert (Hc255 : c <= 255).
  { unfold c. rewrite <- (Qceiling_Z 255). apply Qceiling_resp_le. apply Hl. }
  unfold Z.sub in Hc2. rewrite inject_Z_plus in Hc2. change (inject_Z (- (1))) with (-1)%Q in Hc2.
  assert (HcQ : (0 <= inject_Z c <= 255)%Q) by (apply byte_Q; lia).
  assert (Hs : JS.toUint8 (Some v) = JS.trunc v mod 256) by reflexivity.
  assert (Hfloor : forall z, (inject_Z z <= v)%Q -> (v < inject_Z z + 1)%Q -> Qfloor v = z).
  { intros z H1 H2. apply Qfloor_unique; [exact H1|].
    rewrite inject_Z_plus. exact H2. }
  assert (Hinj : forall z, (inject_Z (255 - z) == 255 - inject_Z z)%Q).
  { intros z. unfold Z.sub. rewrite inject_Z_plus, inject_Z_opp. reflexivity. }
  assert (Hinj' : forall z, (inject_Z (254 - z) == 254 - inject_Z z)%Q).
  { intros z. unfold Z.sub. rewrite inject_Z_plus, inject_Z_opp. reflexivity. }
  destruct (decide (K = 1000 * c)) as [Hint|Hfrac].
  - (* an integer *)
    assert (Hlc : (l == inject_Z c)%Q).
    { rewrite Hint, inject_Z_mult in Hk. change (inject_Z 1000) with 1000%Q in Hk. lra. }
    unfold JS.trunc in Hs. destruct (JS.Qltb v 0) eqn:Hneg.
    + apply Qltb_true in Hneg. left.
      assert (Hc : c = 255).
      { destruct (decide (c = 255)) as [E|E]; [exact E|]. exfalso.
        assert (H : (inject_Z c <= 254)%Q)
          by (change 254%Q with (inject_Z 254); rewrite <- Zle_Qle; lia).
        lra. }
      assert (Hceil : Qceiling v = 0).
      { unfold Qceiling.
        enough (Qfloor (- v) = 0) as -> by reflexivity.
        apply Qfloor_unique; [change (inject_Z 0) with 0%Q; lra|].
        change (inject_Z (0 + 1)) with 1%Q. rewrite Hc in Hlc.
        change (inject_Z 255) with 255%Q in Hlc. lra. }
      rewrite Hs, Hceil, Hc. reflexivity.
    + apply Qltb_false in Hneg.
      destruct (Qlt_le_dec v (inject_Z (255 - c))) as [Hlow|Hhigh].
      * right. split; [|exact Hlc].
        assert (Hc : c <= 254).
        { destruct (decide (c = 255)) as [E|E]; [|lia]. exfalso.
          rewrite E in Hlow. change (inject_Z (255 - 255)) with 0%Q in Hlow. lra. }
        rewrite Hs, (Hfloor (254 - c)).
        -- apply Z.mod_small. lia.
        -- rewrite Hinj'. lra.
        -- rewrite Hinj in Hlow. rewrite Hinj'. lra.
      * left. rewrite Hs, (Hfloor (255 - c)).
        -- apply Z.mod_small. lia.
        -- exact Hhigh.
        -- rewrite Hinj. lra.
  - (* at least a thousandth away from an integer *)
    left.
    assert (H1 : 1000 * (c - 1) < K).
    { rewrite Zlt_Qlt. rewrite inject_Z_mult. unfold Z.sub. rewrite inject_Z_plus.
      change (inject_Z 1000) with 1000%Q. change (inject_Z (- (1))) with (-1)%Q. lra. }
    assert (H2 : K <= 1000 * c).
    { rewrite Zle_Qle. rewrite inject_Z_mult. change (inject_Z 1000) with 1000%Q. lra. }
    assert (H3 : (inject_Z (1000 * (c - 1) + 1) <= inject_Z K)%Q) by (rewrite <- Zle_Qle; lia).
    assert (H4 : (inject_Z K <= inject_Z (1000 * c - 1))%Q) by (rewrite <- Zle_Qle; lia).
    unfold Z.sub in H3, H4.
    rewrite !inject_Z_plus, !inject_Z_mult, !inject_Z_plus in H3.
    rewrite !inject_Z_plus, !inject_Z_mult in H4.
    change (inject_Z 1000) with 1000%Q in *. change (inject_Z (- (1))) with (-1)%Q in *.
    change (inject_Z 1) with 1%Q in *.
    assert (Hneg : JS.Qltb v 0 = false) by (apply Qltb_false; lra).
    unfold JS.trunc in Hs. rewrite Hneg in Hs.
    rewrite Hs, (Hfloor (255 - c)).
    + apply Z.mod_small. lia.
    + rewrite Hinj. lra.
    + rewrite Hinj. lra.
Qed.

(** The inverted luminance, as the [Uint8Array] stores it: the double
    [255 - luminance] truncated.  The rounding of the doubles matters only
    when the exact luminance is an integer. *)
Lemma toUint8_inverted (r g b : Z) :
  0 <= r <= 255 -> 0 <= g <= 255 -> 0 <= b <= 255 ->
  let l := Spec.luma r g b in
  let s := JS.toUint8 (Some (JS.sub 255 (JS.luminance r g b))) in
  s = 255 - Qceiling l \/ (s = 254 - Qceiling l /\ (l == inject_Z (Qceiling l))%Q).
Proof.
  intros Hr Hg Hb l s. subst s.
  pose proof (luminance_error r g b Hr Hg Hb) as Herr.
  pose proof (luma_bounds r g b Hr Hg Hb) as Hl.
  apply (trunc_inverted l _ _ (luma_thousandths r g b) Hl).
  unfold JS.sub.
  pose proof (fl_near (255 - JS.luminance r g b) 512 ltac:(split; lra)) as Hv.
  unfold JS.epsilon in Hv. unfold l. lra.
Qed.

Lemma toGrayscale_length (data : list Z) (width height : nat) :
  length (toGrayscale data width height) = (width * height)%nat.
Proof.
  unfold toGrayscale.
  apply (for_range_inv (fun a => length a = (width * height)%nat)).
  - apply length_replicate.
  - intros p a _ Ha. rewrite length_insert. exact Ha.
Qed.

Lemma toGrayscale_lookup (data : list Z) (width height p : nat) :
  (p < width * height)%nat -> (p * 4 + 2 < length data)%nat ->
  toGrayscale data width height !! p
  = Some (JS.toUint8 (Some (JS.sub 255 (JS.luminance (data !!! (p * 4)%nat)
                                                     (data !!! (p * 4 + 1)%nat)
                                                     (data !!! (p * 4 + 2)%nat))))).
Proof.
  intros Hp Hd. unfold toGrayscale.
  match goal with
  | |- context [JS.for_range 0 ?hi ?body ?init] =>
      destruct (for_range_cells 0 hi body
                  (fun p o => (fun _ =>
                     JS.toUint8 ((fun l => JS.sub 255 l) <$>
                       (r ← data !! (p * 4)%nat; g ← data !! (p * 4 + 1)%nat;
                        b ← data !! (p * 4 + 2)%nat;
                        Some (JS.luminance r g b)))) <$> o)
                  init) as (_ & Hin & _)
  end.
  - intros i a _. apply length_insert.
  - intros i a j _ Hj. apply list_lookup_insert_ne. congruence.
  - intros i a _. destruct (a !! i) eqn:E.
    + apply list_lookup_insert_eq. apply lookup_lt_Some in E. exact E.
    + simpl. apply lookup_ge_None. rewrite length_insert. apply lookup_ge_None. exact E.
  - rewrite Hin.
    + rewrite lookup_replicate_2 by exact Hp.
      rewrite !(list_lookup_lookup_total_lt data) by lia. reflexivity.
    + split; [lia|]. apply Nat.lt_le_trans with (S p); [lia|].
      apply Nat.div_le_lower_bound; lia.
Qed.

(** X12. [toGrayscale] inverts the luminance: on the RGBA bytes of a
    [width] x [height] image it returns [width * height] bytes.  With l the
    exact luminance 0.299 R + 0.587 G + 0.114 B of a pixel, its sample is
    255 - ceil(l) whenever l is not an integer; when l is an integer the
    rounding of the double arithmetic decides between 255 - l and one
    less. *)
Theorem toGrayscale_inverts (data : list Z) (width height p : nat) :
  length data = (4 * (width * height))%nat ->
  Spec.bytes data ->
  (p < width * height)%nat ->
  let l := Spec.luma (data !!! (p * 4)%nat) (data !!! (p * 4 + 1)%nat)
                     (data !!! (p * 4 + 2)%nat) in
  exists s,
    length (toGrayscale data width height) = (width * height)%nat /\
    toGrayscale data width height !! p = Some s /\
    0 <= s <= 255 /\
    (s = 255 - Qceiling l \/ (s = 254 - Qceiling l /\ (l == inject_Z (Qceiling l))%Q)).
Proof.
  intros Hlen Hbytes Hp l.
  eexists. split; [apply toGrayscale_length|].
  split; [apply toGrayscale_lookup; lia|].
  split; [apply toUint8_range|].
  apply toUint8_inverted; apply bytes_lookup_total; exact Hbytes.
Qed.

Lemma toGrayscale_inverts_witness :
  toGrayscale (Spec.flat_pixels 1 255 0 0 255) 1 1 !! 0%nat = Some 178.
Proof.
  destruct (toGrayscale_inverts (Spec.flat_pixels 1 255 0 0 255) 1 1 0)
    as (s & _ & H & _ & [Hs|[_ Hint]]).
  - reflexivity.
  - unfold Spec.bytes, Spec.flat_pixels. simpl. repeat constructor; discriminate.
  - lia.
  - rewrite H, Hs. reflexivity.
  - exfalso. revert Hint. vm_compute. discriminate.
Defined.

(** The rounding shows: the exact luminance of the colour (2, 234, 246) is
    166, the double luminance is 166.00000000000003, and the sample is 88,
    not 89. *)
Lemma toGrayscale_integer_luminance :
  (Spec.luma 2 234 246 == 166)%Q /\
  toGrayscale [2; 234; 246; 255] 1 1 = [88].
Proof. split; vm_compute; reflexivity. Qed.

Lemma candidates_spec (cfg : Config) (labels : list nat) (count width height : nat)
    (b : BlobStats) :
  b ∈ candidates cfg labels count width height ->
  exists label, (1 <= label <= count)%nat /\
    b = analyzeBlob labels label width height /\ isValidLoop cfg b = true.
Proof.
  unfold candidates.
  assert (H : forall b, b ∈ JS.for_range 1 (S count) (fun i candidates =>
                 let blob := analyzeBlob labels i width height in
                 if isValidLoop cfg blob then candidates ++ [blob] else candidates) [] ->
              exists label, (1 <= label < S count)%nat /\
                b = analyzeBlob labels label width height /\ isValidLoop cfg b = true).
  { apply (for_range_ind (fun i l => forall b, b ∈ l ->
             exists label, (1 <= label < i)%nat /\
               b = analyzeBlob labels label width height /\ isValidLoop cfg b = true));
      [lia| |].
    - intros b' Hb. inversion Hb.
    - intros i l Hi Hl b' Hb. simpl in Hb.
      destruct (isValidLoop cfg (analyzeBlob labels i width height)) eqn:E.
      + apply elem_of_app in Hb. destruct Hb as [Hb|Hb].
        * destruct (Hl b' Hb) as (label & Hr & Heq & Hv). exists label. split; [lia|auto].
        * apply list_elem_of_singleton in Hb. subst b'. exists i. split; [lia|auto].
      + destruct (Hl b' Hb) as (label & Hr & Heq & Hv). exists label. split; [lia|auto]. }
  intros Hb. destruct (H b Hb) as (label & Hr & Heq & Hv).
  exists label. split; [lia|auto].
Qed.

Lemma isValidLoop_area (b : BlobStats) :
  isValidLoop CONFIG b = true -> 100 <= area b <= 2000.
Proof.
  unfold isValidLoop. simpl minArea. simpl maxArea.
  destruct (Z.ltb_spec (area b) 100); [discriminate|].
  rewrite Z.gtb_ltb. destruct (Z.ltb_spec 2000 (area b)); [discriminate|]. lia.
Qed.

Lemma filterOutermost_subset (blobs : list BlobStats) (imageWidth : Z) :
  0 <= imageWidth < 2 ^ 32 ->
  exists result,
    filterOutermost CONFIG blobs imageWidth = Some result /\
    (forall i j b b', (i < j)%nat ->
       result !! i = Some b -> result !! j = Some b' ->
       Spec.column CONFIG b < Spec.column CONFIG b') /\
    (forall b, b ∈ result -> b ∈ blobs).
Proof.
  intros Hw.
  destruct (decide (blobs = [])) as [->|Hne].
  { exists []. split; [reflexivity|]. split; [intros i j b b' _ Hi; discriminate|].
    intros b Hb. exact Hb. }
  pose proof (numColumns_bounds imageWidth Hw) as Hn.
  rewrite filterOutermost_unfold by assumption.
  set (n := Spec.numColumns CONFIG imageWidth) in *.
  set (sk := foldl (skyline_step CONFIG n) (replicate (Z.to_nat n) None) blobs).
  destruct (skyline_inv_foldl n (proj1 Hn) blobs [] _ (skyline_inv_init n))
    as (Hlen & Hsome & _). fold sk in Hlen, Hsome.
  destruct (skyline_sorted sk 0) as [Hs _].
  { intros i b Hi. destruct (Hsome i b Hi) as (_ & Hc & _). exact Hc. }
  exists (omap id sk). split; [reflexivity|]. split; [exact Hs|].
  intros b Hb. apply list_elem_of_omap in Hb. destruct Hb as (o & Ho & Hid).
  simpl in Hid. subst o. apply list_elem_of_lookup in Ho. destruct Ho as [i Hi].
  destruct (Hsome i b Hi) as (Hin & _). exact Hin.
Qed.

(** X13. What [processImage] detects: whatever the pixel buffer holds, the
    pipeline runs to its end, and every blob it returns is the blob of a
    label of the opened mask (a 4-connected component of it) that
    passed [isValidLoop]; its area lies between 100 and 2000 and its
    bounding box stays off the one-pixel border of the image.  The blobs
    come from left to right, in strictly increasing skyline columns. *)
Theorem outermostBlobs_sound (data : list Z) (width height : nat) :
  Z.of_nat width < 2 ^ 32 ->
  let opened :=
    morphologyOpen (adaptiveThreshold CONFIG (toGrayscale data width height) width height)
                   width height in
  exists labels count result,
    connectedComponents opened width height = Some (labels, count) /\
    outermostBlobs CONFIG data width height = Some result /\
    (forall i j b b', (i < j)%nat ->
       result !! i = Some b -> result !! j = Some b' ->
       Spec.column CONFIG b < Spec.column CONFIG b') /\
    forall b, b ∈ result ->
      (exists label, (1 <= label <= count)%nat /\
                     b = analyzeBlob labels label width height) /\
      isValidLoop CONFIG b = true /\
      100 <= area b <= 2000 /\
      1 <= minX b /\ maxX b <= Z.of_nat width - 2 /\
      1 <= minY b /\ maxY b <= Z.of_nat height - 2.
Proof.
  intros Hw opened.
  assert (Hlen : length opened = (width * height)%nat) by (subst opened; apply dilate_spec).
  destruct (connectedComponents_labels opened width height Hlen)
    as (labels & count & Hcc & Hl & Hfg & _ & _ & _).
  destruct (filterOutermost_subset (candidates CONFIG labels count width height)
              (Z.of_nat width) ltac:(lia)) as (result & Hres & Hsorted & Hsub).
  exists labels, count, result. split; [exact Hcc|]. split.
  { unfold outermostBlobs. fold opened. rewrite Hcc. simpl. exact Hres. }
  split; [exact Hsorted|].
  intros b Hb. apply Hsub, candidates_spec in Hb.
  destruct Hb as (label & Hlab & -> & Hvalid).
  split; [exists label; split; [exact Hlab|reflexivity]|]. split; [exact Hvalid|].
  pose proof (isValidLoop_area _ Hvalid) as Harea. split; [exact Harea|].
  destruct (analyzeBlob_scan labels label width height) as [Ha _ _ _ _ Htight].
  unfold analyzeBlob in Harea |- *. cbn [area minX maxX minY maxY] in Harea |- *.
  rewrite Ha in Harea.
  assert (Hne : Spec.pixels_of labels label width height <> []).
  { intros E. rewrite E in Harea. simpl in Harea. lia. }
  assert (Hinterior : forall p, p ∈ Spec.pixels_of labels label width height ->
            (1 <= p.1 < width - 1)%nat /\ (1 <= p.2 < height - 1)%nat).
  { intros p Hp. apply (pixels_of_label _ _ _ _ _ Hl) in Hp. destruct Hp as [Hin Hlp].
    assert (Hf : Spec.foreground opened width height p) by (apply Hfg; [exact Hin|lia]).
    destruct Hf as [_ Hf].
    assert (Ht : truthy (opened !! Spec.index width p) = true) by exact Hf.
    destruct (dilate_spec (erode (adaptiveThreshold CONFIG (toGrayscale data width height)
                                    width height) width height) width height) as [_ Hd].
    destruct (Hd _ Ht) as (y & x & Hy & Hx & Hidx & _).
    destruct Hin as [Hpx Hpy]. unfold Spec.index in Hidx.
    apply raster_index_inj in Hidx; [|lia|lia]. lia. }
  destruct (Htight Hne) as ((p1 & Hp1 & E1) & (p2 & Hp2 & E2) & (p3 & Hp3 & E3) & (p4 & Hp4 & E4)).
  pose proof (Hinterior p1 Hp1). pose proof (Hinterior p2 Hp2).
  pose proof (Hinterior p3 Hp3). pose proof (Hinterior p4 Hp4). lia.
Qed.

Lemma outermostBlobs_sound_witness :
  exists b,
    outermostBlobs CONFIG Spec.bar_image 12 20 = Some [b] /\
    area b = 108 /\ isValidLoop CONFIG b = true /\
    1 <= minX b /\ maxX b <= 10 /\ 1 <= minY b /\ maxY b <= 18.
Proof.
  destruct (outermostBlobs_sound Spec.bar_image 12 20 ltac:(reflexivity))
    as (labels & count & result & _ & Hres & _ & Hall).
  assert (E : outermostBlobs CONFIG Spec.bar_image 12 20
              = Some [{| area := 108; minX := 2; maxX := 9; minY := 3; maxY := 16;
                         centerX := 594 # 108; centerY := 1026 # 108 |}])
    by (vm_compute; reflexivity).
  rewrite E in Hres. injection Hres as <-.
  eexists. split; [exact E|].
  destruct (Hall _ ltac:(constructor)) as (_ & Hvalid & _ & Hx0 & Hx1 & Hy0 & Hy1).
  split; [reflexivity|]. split; [exact Hvalid|].
  split; [exact Hx0|]. split; [exact Hx1|]. split; [exact Hy0|exact Hy1].
Defined.

Lemma filter_none {A : Type} (P : A -> Prop) `{!forall x, Decision (P x)} (l : list A) :
  (forall x, x ∈ l -> ~ P x) -> filter P l = [].
Proof.
  intros Hno. destruct (filter P l) as [|a l'] eqn:E; [reflexivity|].
  exfalso. assert (Ha : a ∈ a :: l') by constructor. rewrite <- E in Ha.
  apply list_elem_of_filter in Ha. destruct Ha as [HP Ha]. exact (Hno a Ha HP).
Qed.

Lemma morphologyOpen_zero (width height : nat) :
  morphologyOpen (replicate (width * height) 0) width height = replicate (width * height) 0.
Proof.
  apply list_eq. intros i.
  destruct (decide (i < width * height)%nat) as [Hi|Hi].
  - destruct (raster_index_surj width height i Hi) as (x & y & Hx & Hy & ->).
    rewrite morphologyOpen_lookup by assumption.
    rewrite lookup_replicate_2 by exact Hi.
    assert (Hf : forall x y, Spec.fits (replicate (width * height) 0) width height x y = false).
    { intros x' y'. unfold Spec.fits. rewrite truthy_replicate_zero.
      rewrite andb_false_r. reflexivity. }
    unfold Spec.opened. rewrite !Hf, andb_false_r. reflexivity.
  - rewrite (proj2 (lookup_ge_None _ _)).
    + symmetry. apply lookup_ge_None. rewrite length_replicate. lia.
    + unfold morphologyOpen. rewrite (proj1 (dilate_spec _ width height)). lia.
Qed.

Lemma connectedComponents_zero_count (width height : nat) :
  exists labels,
    connectedComponents (replicate (width * height) 0) width height = Some (labels, 0%nat).
Proof.
  destruct (connectedComponents_labels (replicate (width * height) 0) width height
              (length_replicate _ _)) as (labels & count & Hcc & _ & _ & _ & _ & Hcount).
  exists labels. rewrite Hcc. f_equal. f_equal. rewrite Hcount.
  rewrite filter_none; [reflexivity|].
  intros p _. unfold Spec.starts_label, Spec.fgb.
  destruct (replicate (width * height) 0 !! Spec.index width p) as [v|] eqn:E.
  - apply lookup_replicate in E. destruct E as [-> _]. simpl. discriminate.
  - simpl. discriminate.
Qed.

Lemma toGrayscale_flat (width height : nat) (r g b a : Z) :
  toGrayscale (Spec.flat_pixels (width * height) r g b a) width height
  = replicate (width * height) (JS.toUint8 (Some (JS.sub 255 (JS.luminance r g b)))).
Proof.
  apply list_eq. intros i.
  destruct (decide (i < width * height)%nat) as [Hi|Hi].
  - assert (Hlen : length (Spec.flat_pixels (width * height) r g b a)
                   = (width * height * 4)%nat).
    { unfold Spec.flat_pixels. rewrite concat_replicate_length. reflexivity. }
    rewrite toGrayscale_lookup by lia.
    rewrite lookup_replicate_2 by exact Hi.
    assert (Hk : forall k, (k < 4)%nat ->
              Spec.flat_pixels (width * height) r g b a !!! (i * 4 + k)%nat
              = [r; g; b; a] !!! k).
    { intros k Hk. rewrite !list_lookup_total_alt. unfold Spec.flat_pixels.
      rewrite concat_replicate_lookup by (reflexivity || lia). reflexivity. }
    replace (i * 4)%nat with (i * 4 + 0)%nat at 1 by lia.
    rewrite !Hk by lia. reflexivity.
  - rewrite (proj2 (lookup_ge_None _ _)) by (rewrite toGrayscale_length; lia).
    symmetry. apply lookup_ge_None. rewrite length_replicate. lia.
Qed.

(** X14. An image of one colour has no loops: on the pixels of a uniform
    image, small enough for the integral image not to wrap around, the
    pipeline of [processImage] returns the empty list. *)
Theorem outermostBlobs_flat_image (width height : nat) (r g b a : Z) :
  0 <= r <= 255 -> 0 <= g <= 255 -> 0 <= b <= 255 ->
  255 * Z.of_nat (width * height) < 2 ^ 32 ->
  outermostBlobs CONFIG (Spec.flat_pixels (width * height) r g b a) width height = Some [].
Proof.
  intros Hr Hg Hb Hsmall. unfold outermostBlobs.
  rewrite toGrayscale_flat.
  rewrite adaptiveThreshold_flat;
    [|apply toUint8_range|exact Hsmall|discriminate|discriminate].
  rewrite morphologyOpen_zero.
  destruct (connectedComponents_zero_count width height) as [labels ->].
  reflexivity.
Qed.

Lemma outermostBlobs_flat_image_witness :
  outermostBlobs CONFIG (Spec.flat_pixels (3 * 3) 200 120 90 255) 3 3 = Some [].
Proof.
  apply (outermostBlobs_flat_image 3 3 200 120 90 255); lia.
Defined.

(** ** Raster loops that write one block of cells per pixel *)

Lemma block_unique (k p q j : nat) :
  (p * k <= j < p * k + k)%nat -> (q * k <= j < q * k + k)%nat -> p = q.
Proof.
  intros Hp Hq. destruct (Nat.lt_trichotomy p q) as [H|[H|H]]; [nia|exact H|nia].
Qed.

(** As [raster_cells], for a body that at (x, y) touches only the [k]
    cells from [(y * w + x) * k] on. *)
Lemma raster_blocks {A : Type} (w k ylo yhi xlo xhi : nat)
    (body : nat -> nat -> list A -> list A)
    (g : nat -> nat -> nat -> option A -> option A) (init : list A) :
  (xhi <= w)%nat ->
  (forall y x a, (ylo <= y < yhi)%nat -> (xlo <= x < xhi)%nat ->
     length (body y x a) = length a) ->
  (forall y x a j, (ylo <= y < yhi)%nat -> (xlo <= x < xhi)%nat ->
     ~ ((y * w + x) * k <= j < (y * w + x) * k + k)%nat -> body y x a !! j = a !! j) ->
  (forall y x a c, (ylo <= y < yhi)%nat -> (xlo <= x < xhi)%nat -> (c < k)%nat ->
     body y x a !! ((y * w + x) * k + c)%nat = g y x c (a !! ((y * w + x) * k + c)%nat)) ->
  let r := JS.for_range ylo yhi (fun y a => JS.for_range xlo xhi (body y) a) init in
  length r = length init /\
  (forall x y c, (ylo <= y < yhi)%nat -> (xlo <= x < xhi)%nat -> (c < k)%nat ->
     r !! ((y * w + x) * k + c)%nat = g y x c (init !! ((y * w + x) * k + c)%nat)) /\
  (forall j, (forall x y, (ylo <= y < yhi)%nat -> (xlo <= x < xhi)%nat ->
                ~ ((y * w + x) * k <= j < (y * w + x) * k + k)%nat) ->
     r !! j = init !! j).
Proof.
  intros Hw Hlen Hframe Hcell r.
  set (done := fun (y0 x0 x y : nat) =>
         (ylo <= y < yhi)%nat /\ (xlo <= x < xhi)%nat /\
         (y < y0 \/ (y = y0 /\ x < x0))%nat).
  set (block := fun (y x j : nat) => ((y * w + x) * k <= j < (y * w + x) * k + k)%nat).
  set (Inv := fun (y0 x0 : nat) (a : list A) =>
         length a = length init /\
         (forall x y c, done y0 x0 x y -> (c < k)%nat ->
            a !! ((y * w + x) * k + c)%nat = g y x c (init !! ((y * w + x) * k + c)%nat)) /\
         (forall j, (forall x y, done y0 x0 x y -> ~ block y x j) -> a !! j = init !! j)).
  assert (Hsame : forall x y x' y' j, (x < w)%nat -> (x' < w)%nat ->
            block y x j -> block y' x' j -> x = x' /\ y = y').
  { intros x y x' y' j Hx Hx' Hb Hb'.
    apply (raster_index_inj w); [exact Hx|exact Hx'|].
    apply (block_unique k _ _ j); assumption. }
  assert (Hrow : forall y0 a, Inv y0 xhi a -> Inv (S y0) xlo a).
  { intros y0 a (Hl & Hd & Hn). split; [exact Hl|]. split.
    - intros x y c (Hy & Hx & Hlt) Hc. apply Hd; [|exact Hc]. unfold done. lia.
    - intros j Hj. apply Hn. intros x y (Hy & Hx & Hlt). apply Hj. unfold done. lia. }
  assert (Hstep : forall y0 x0 a, (ylo <= y0 < yhi)%nat -> (xlo <= x0 < xhi)%nat ->
            Inv y0 x0 a -> Inv y0 (S x0) (body y0 x0 a)).
  { intros y0 x0 a Hy0 Hx0 (Hl & Hd & Hn).
    split; [rewrite Hlen by assumption; exact Hl|]. split.
    - intros x y c (Hy & Hx & Hlt) Hc.
      assert (Hb : block y x ((y * w + x) * k + c)%nat) by (unfold block; lia).
      destruct (decide (y = y0 /\ x = x0)) as [[-> ->]|Hne].
      + rewrite Hcell by assumption. f_equal. apply Hn.
        intros x' y' (Hy' & Hx' & Hlt') Hb'.
        assert (Hx0w : (x0 < w)%nat) by lia. assert (Hx'w : (x' < w)%nat) by lia.
        destruct (Hsame x0 y0 x' y' _ Hx0w Hx'w Hb Hb'). lia.
      + rewrite Hframe; [|assumption|assumption|].
        * apply Hd; [|exact Hc]. unfold done. lia.
        * intros Hb'. fold (block y0 x0 ((y * w + x) * k + c)%nat) in Hb'.
          assert (Hx0w : (x0 < w)%nat) by lia. assert (Hxw : (x < w)%nat) by lia.
          destruct (Hsame x y x0 y0 _ Hxw Hx0w Hb Hb'). lia.
    - intros j Hj. rewrite Hframe; [|assumption|assumption|].
      + apply Hn. intros x y (Hy & Hx & Hlt). apply Hj. unfold done. lia.
      + apply Hj. unfold done. lia. }
  assert (Hinit : Inv ylo xlo init).
  { split; [reflexivity|]. split.
    - intros x y c (Hy & Hx & Hlt). lia.
    - intros j _. reflexivity. }
  assert (Hfinal : Inv (Nat.max ylo yhi) xlo r).
  { destruct (decide (ylo <= yhi)%nat) as [Hle|Hgt].
    - replace (Nat.max ylo yhi) with yhi by lia. subst r.
      apply (for_range_ind (fun y a => Inv y xlo a)); [exact Hle|exact Hinit|].
      intros y a Hy Ha. apply Hrow.
      destruct (decide (xlo <= xhi)%nat) as [Hlx|Hgx].
      + apply (for_range_ind (fun x a => Inv y x a)); [exact Hlx|exact Ha|].
        intros x b Hx Hb. apply Hstep; [lia|lia|exact Hb].
      + rewrite for_range_empty by lia.
        destruct Ha as (Hl & Hd & Hn). split; [exact Hl|]. split.
        * intros x' y' c (Hy' & Hx' & Hlt). lia.
        * intros j Hj. apply Hn. intros x' y' (Hy' & Hx' & Hlt). lia.
    - replace (Nat.max ylo yhi) with ylo by lia. subst r.
      rewrite for_range_empty by lia. exact Hinit. }
  destruct Hfinal as (Hl & Hd & Hn). split; [exact Hl|]. split.
  - intros x y c Hy Hx Hc. apply Hd; [|exact Hc]. unfold done. lia.
  - intros j Hj. apply Hn. intros x y (Hy & Hx & Hlt). apply Hj; lia.
Qed.

Lemma lookup_insert_fmap {A : Type} (a : list A) (i j : nat) (v : A) :
  <[i := v]> a !! j = if decide (j = i) then (fun _ => v) <$> a !! j else a !! j.
Proof.
  destruct (decide (j = i)) as [->|Hne].
  - destruct (a !! i) eqn:E.
    + apply list_lookup_insert_eq. apply lookup_lt_Some in E. exact E.
    + simpl. apply lookup_ge_None. rewrite length_insert. apply lookup_ge_None. exact E.
  - apply list_lookup_insert_ne. congruence.
Qed.

Lemma for_range_three {St : Type} (f : nat -> St -> St) (s : St) :
  JS.for_range 0 3 f s = f 2%nat (f 1%nat (f 0%nat s)).
Proof. reflexivity. Qed.

Lemma lookup_three {A : Type} (a : list A) (i j : nat) (v0 v1 v2 : A) :
  <[(i + 2)%nat := v2]> (<[(i + 1)%nat := v1]> (<[(i + 0)%nat := v0]> a)) !! j
  = if decide (j = (i + 0)%nat) then (fun _ => v0) <$> a !! j
    else if decide (j = (i + 1)%nat) then (fun _ => v1) <$> a !! j
    else if decide (j = (i + 2)%nat) then (fun _ => v2) <$> a !! j
    else a !! j.
Proof.
  rewrite !lookup_insert_fmap.
  destruct (decide (j = (i + 0)%nat)); destruct (decide (j = (i + 1)%nat));
    destruct (decide (j = (i + 2)%nat)); try lia; reflexivity.
Qed.

(** ** Sharpening, pixel by pixel *)

Section Sharpen.
Variables (data : list Z) (width height : nat) (amount : Q).

(** What the loop body stores for channel [c] of the pixel (x, y). *)
Let stored (y x c : nat) : Z :=
  Enhance.clamp8
    (d ← data !! ((y * width + x) * 4 + c)%nat;
     s ← (fun sum => Z.max 0 (Z.min 255 sum)) <$> Enhance.convolve data width y x c;
     Some (JS.round (JS.add (JS.mul (inject_Z d) (JS.sub 1 amount))
                            (JS.mul (inject_Z s) amount)))).

Lemma sharpenImage_cells :
  let out := Enhance.data (Enhance.sharpenImage
               {| Enhance.width := width; Enhance.height := height; Enhance.data := data |}
               amount) in
  length out = length data /\
  (forall x y c, (1 <= y < height - 1)%nat -> (1 <= x < width - 1)%nat -> (c < 3)%nat ->
     out !! ((y * width + x) * 4 + c)%nat
     = (fun _ => stored y x c) <$> data !! ((y * width + x) * 4 + c)%nat) /\
  (forall x y, (x < width)%nat -> (y < height)%nat ->
     out !! ((y * width + x) * 4 + 3)%nat = data !! ((y * width + x) * 4 + 3)%nat) /\
  (forall x y c, (x < width)%nat -> (y < height)%nat -> (c < 4)%nat ->
     ~ ((1 <= y < height - 1)%nat /\ (1 <= x < width - 1)%nat) ->
     out !! ((y * width + x) * 4 + c)%nat = data !! ((y * width + x) * 4 + c)%nat).
Proof.
  unfold Enhance.sharpenImage. cbn [Enhance.data Enhance.width Enhance.height].
  match goal with
  | |- context [JS.for_range 1 (height - 1)
                  (fun y e => JS.for_range 1 (width - 1) (@?body y) e) data] =>
      destruct (raster_blocks width 4 1 (height - 1) 1 (width - 1) body
                  (fun y x c o => if (c <? 3)%nat then (fun _ => stored y x c) <$> o else o)
                  data) as (Hlen & Hin & Hout)
  end.
  - lia.
  - intros y x a _ _. rewrite for_range_three. cbv zeta.
    rewrite !length_insert. reflexivity.
  - intros y x a j _ _ Hj. rewrite for_range_three. cbv zeta. rewrite lookup_three.
    repeat (destruct (decide _) as [->|_]; [exfalso; apply Hj; lia|]). reflexivity.
  - intros y x a c _ _ Hc. rewrite for_range_three. cbv zeta. rewrite lookup_three.
    destruct c as [|[|[|[|c]]]]; [| | | |lia];
      repeat (match goal with
              | |- context [decide (?u = ?v)] => destruct (decide (u = v)); try lia
              end);
      reflexivity.
  - split; [exact Hlen|]. split; [|split].
    + intros x y c Hy Hx Hc. rewrite (Hin x y c Hy Hx ltac:(lia)).
      destruct (Nat.ltb_spec c 3); [reflexivity|lia].
    + intros x y Hx Hy.
      destruct (decide ((1 <= y < height - 1)%nat /\ (1 <= x < width - 1)%nat)) as [[Hy' Hx']|Hno].
      * rewrite (Hin x y 3%nat Hy' Hx' ltac:(lia)). reflexivity.
      * apply Hout. intros x' y' Hy' Hx' Hb.
        assert (E : (y' * width + x' = y * width + x)%nat).
        { apply (block_unique 4 _ _ ((y * width + x) * 4 + 3)%nat); lia. }
        apply raster_index_inj in E; [|lia|lia]. lia.
    + intros x y c Hx Hy Hc Hno.
      apply Hout. intros x' y' Hy' Hx' Hb.
      assert (E : (y' * width + x' = y * width + x)%nat).
      { apply (block_unique 4 _ _ ((y * width + x) * 4 + c)%nat); lia. }
      apply raster_index_inj in E; [|lia|lia]. lia.
Qed.

End Sharpen.

Lemma clamp8_id (v : Z) : 0 <= v <= 255 -> Enhance.clamp8 (Some v) = v.
Proof. intros Hv. simpl. lia. Qed.

Lemma clamp8_range (v : option Z) : 0 <= Enhance.clamp8 v <= 255.
Proof. destruct v as [v|]; simpl; lia. Qed.

(** The convolution sum at an interior pixel: the corners of the kernel
    weigh nothing. *)
Lemma convolve_interior (data : list Z) (width height x y c : nat) :
  length data = (4 * (width * height))%nat ->
  (1 <= y < height - 1)%nat -> (1 <= x < width - 1)%nat -> (c < 3)%nat ->
  Enhance.convolve data width y x c
  = Some (5 * data !!! ((y * width + x) * 4 + c)%nat
          - data !!! ((y * width + (x - 1)) * 4 + c)%nat
          - data !!! ((y * width + (x + 1)) * 4 + c)%nat
          - data !!! (((y - 1) * width + x) * 4 + c)%nat
          - data !!! (((y + 1) * width + x) * 4 + c)%nat).
Proof.
  intros Hlen Hy Hx Hc. unfold Enhance.convolve.
  rewrite for_range_three. rewrite !for_range_three. cbv zeta.
  replace (y + 0 - 1)%nat with (y - 1)%nat by lia.
  replace (y + 1 - 1)%nat with y by lia.
  replace (y + 2 - 1)%nat with (y + 1)%nat by lia.
  replace (x + 0 - 1)%nat with (x - 1)%nat by lia.
  replace (x + 1 - 1)%nat with x by lia.
  replace (x + 2 - 1)%nat with (x + 1)%nat by lia.
  assert (Hrd : forall y' x', (y' < height)%nat -> (x' < width)%nat ->
            data !! ((y' * width + x') * 4 + c)%nat
            = Some (data !!! ((y' * width + x') * 4 + c)%nat)).
  { intros y' x' Hy' Hx'. apply list_lookup_lookup_total_lt. rewrite Hlen. nia. }
  rewrite !Hrd by lia.
  cbn [mbind option_bind Enhance.kernel lookup list_lookup Nat.mul Nat.add].
  f_equal. lia.
Qed.

(** The blend of a byte [D] with itself, each operation within its
    rounding error: the result is within a quarter of [D]. *)
Lemma blend_bounds (D a T P S B : Q) :
  (0 <= D <= 255)%Q -> (0 <= a <= 1)%Q ->
  (1 - a - JS.epsilon <= T <= 1 - a + JS.epsilon)%Q ->
  (D * T - 256 * JS.epsilon <= P <= D * T + 256 * JS.epsilon)%Q ->
  (D * a - 256 * JS.epsilon <= S <= D * a + 256 * JS.epsilon)%Q ->
  (P + S - 512 * JS.epsilon <= B <= P + S + 512 * JS.epsilon)%Q ->
  (D - (1 # 4) <= B <= D + (1 # 4))%Q.
Proof.
  unfold JS.epsilon. intros HD Ha HT HP HS HB. split; nra.
Qed.

(** Blending a byte with itself by an amount between 0 and 1 gives the
    byte back. *)
Lemma blend_flat (d : Z) (amount : Q) :
  0 <= d <= 255 -> (0 <= amount <= 1)%Q ->
  JS.round (JS.add (JS.mul (inject_Z d) (JS.sub 1 amount)) (JS.mul (inject_Z d) amount)) = d.
Proof.
  intros Hd Ha. apply byte_Q in Hd. unfold JS.add, JS.mul, JS.sub.
  assert (Heps : JS.epsilon = (1 # 9007199254740992)%Q) by reflexivity.
  pose proof (fl_near (1 - amount) 1 ltac:(split; lra)) as HT.
  set (T := JS.fl (1 - amount)) in *.
  assert (HDT : (-256 <= inject_Z d * T <= 256)%Q) by (rewrite Heps in HT; split; nra).
  pose proof (fl_near (inject_Z d * T) 256 HDT) as HP.
  set (P := JS.fl (inject_Z d * T)) in *.
  assert (HDa : (-256 <= inject_Z d * amount <= 256)%Q) by (split; nra).
  pose proof (fl_near (inject_Z d * amount) 256 HDa) as HS.
  set (S := JS.fl (inject_Z d * amount)) in *.
  assert (HPS : (-512 <= P + S <= 512)%Q) by (rewrite Heps in HP, HS, HT; split; nra).
  pose proof (fl_near (P + S) 512 HPS) as HB.
  set (B := JS.fl (P + S)) in *.
  pose proof (blend_bounds (inject_Z d) amount T P S B Hd Ha
                ltac:(lra) HP HS HB) as Hres.
  apply round_near. lra.
Qed.

(** With the amount 0 the other value of the blend does not count. *)
Lemma blend_zero (d s : Z) :
  0 <= d <= 255 ->
  JS.round (JS.add (JS.mul (inject_Z d) (JS.sub 1 0)) (JS.mul (inject_Z s) 0)) = d.
Proof.
  intros Hd. apply byte_Q in Hd. unfold JS.add, JS.mul, JS.sub.
  assert (Heps : JS.epsilon = (1 # 9007199254740992)%Q) by reflexivity.
  pose proof (fl_near (1 - 0) 1 ltac:(split; lra)) as HT.
  set (T := JS.fl (1 - 0)) in *.
  assert (HDT : (-256 <= inject_Z d * T <= 256)%Q) by (rewrite Heps in HT; split; nra).
  pose proof (fl_near (inject_Z d * T) 256 HDT) as HP.
  set (P := JS.fl (inject_Z d * T)) in *.
  rewrite (fl_zero (inject_Z s * 0)) by ring.
  assert (HPS : (-512 <= P + 0 <= 512)%Q) by (rewrite Heps in HP; split; lra).
  pose proof (fl_near (P + 0) 512 HPS) as HB.
  set (B := JS.fl (P + 0)) in *.
  apply round_near. rewrite Heps in *. split; nra.
Qed.

(** X15. Sharpening skips the edge of the image: every sample of a pixel
    on the one-pixel border, colour and alpha alike, comes out as it went
    in, whatever the amount and whatever the buffer holds. *)
Theorem sharpenImage_border (imageData : Enhance.ImageData) (amount : Q) (x y c : nat) :
  (x < Enhance.width imageData)%nat -> (y < Enhance.height imageData)%nat ->
  Spec.on_border (Enhance.width imageData) (Enhance.height imageData) x y ->
  (c < 4)%nat ->
  Spec.sample (Enhance.data (Enhance.sharpenImage imageData amount))
              (Enhance.width imageData) x y c
  = Spec.sample (Enhance.data imageData) (Enhance.width imageData) x y c.
Proof.
  destruct imageData as [w h data]. cbn [Enhance.width Enhance.height Enhance.data].
  intros Hx Hy Hb Hc. unfold Spec.sample.
  destruct (sharpenImage_cells data w h amount) as (_ & _ & _ & Hout).
  apply Hout; try assumption. unfold Spec.on_border in Hb. lia.
Qed.

Lemma sharpenImage_border_witness :
  Spec.sample (Enhance.data (Enhance.sharpenImage (Spec.uniform_image 3 3 100) (6 # 10))) 3 0 1 2
  = Some 100.
Proof.
  pose proof (sharpenImage_border (Spec.uniform_image 3 3 100) (6 # 10) 0 1 2) as H.
  cbn [Enhance.width Enhance.height Spec.uniform_image] in H.
  rewrite H; [reflexivity|lia|lia|left; reflexivity|lia].
Defined.

Lemma pixel_index_split (w h j : nat) :
  (j < 4 * (w * h))%nat ->
  exists x y c, (x < w)%nat /\ (y < h)%nat /\ (c < 4)%nat /\ j = ((y * w + x) * 4 + c)%nat.
Proof.
  intros Hj.
  assert (Hp : (j / 4 < w * h)%nat) by (apply Nat.Div0.div_lt_upper_bound; lia).
  destruct (raster_index_surj w h _ Hp) as (x & y & Hx & Hy & E).
  exists x, y, (j mod 4)%nat. split; [exact Hx|]. split; [exact Hy|].
  pose proof (Nat.mod_upper_bound j 4 ltac:(lia)) as Hm.
  pose proof (Nat.div_mod_eq j 4) as Hd.
  split; [exact Hm|]. rewrite <- E. lia.
Qed.

(** X16. Sharpening by the amount 0 changes nothing: on the RGBA bytes of
    a [width] x [height] image, [sharpenImage] with [amount = 0] returns the
    image it was given. *)
Theorem sharpenImage_amount_zero (imageData : Enhance.ImageData) :
  length (Enhance.data imageData)
    = (4 * (Enhance.width imageData * Enhance.height imageData))%nat ->
  Spec.bytes (Enhance.data imageData) ->
  Enhance.data (Enhance.sharpenImage imageData 0) = Enhance.data imageData /\
  Enhance.width (Enhance.sharpenImage imageData 0) = Enhance.width imageData /\
  Enhance.height (Enhance.sharpenImage imageData 0) = Enhance.height imageData.
Proof.
  destruct imageData as [w h data]. cbn [Enhance.width Enhance.height Enhance.data].
  intros Hlen Hbytes. split; [|split; reflexivity].
  destruct (sharpenImage_cells data w h 0) as (Hl & Hin & Halpha & Hout).
  apply list_eq. intros j.
  destruct (decide (j < 4 * (w * h))%nat) as [Hj|Hj].
  - destruct (pixel_index_split w h j Hj) as (x & y & c & Hx & Hy & Hc & ->).
    destruct (decide ((1 <= y < h - 1)%nat /\ (1 <= x < w - 1)%nat)) as [[Hy' Hx']|Hno].
    + destruct (decide (c = 3%nat)) as [->|Hc3]; [apply Halpha; assumption|].
      rewrite Hin by lia.
      rewrite (convolve_interior data w h x y c Hlen Hy' Hx' ltac:(lia)).
      rewrite (list_lookup_lookup_total_lt data ((y * w + x) * 4 + c)) by (rewrite Hlen; nia).
      cbn [fmap option_fmap option_map mbind option_bind]. f_equal.
      pose proof (bytes_lookup_total data ((y * w + x) * 4 + c) Hbytes) as Hd.
      rewrite blend_zero by exact Hd. apply clamp8_id. exact Hd.
    + apply Hout; assumption.
  - rewrite (proj2 (lookup_ge_None _ _)) by lia.
    symmetry. apply lookup_ge_None. lia.
Qed.

Lemma sharpenImage_amount_zero_witness :
  Enhance.data (Enhance.sharpenImage (Spec.uniform_image 3 3 100) 0)
  = Enhance.data (Spec.uniform_image 3 3 100).
Proof.
  apply (sharpenImage_amount_zero (Spec.uniform_image 3 3 100)).
  - reflexivity.
  - unfold Spec.bytes. simpl. repeat constructor; discriminate.
Defined.

(** X17. Sharpening leaves flat regions alone: for an amount between 0
    and 1, where an interior pixel and its four neighbours hold the same
    byte in a colour channel, the pixel keeps that byte. *)
Theorem sharpenImage_flat_region (imageData : Enhance.ImageData) (amount : Q)
    (x y c : nat) (d : Z) :
  let w := Enhance.width imageData in
  let data := Enhance.data imageData in
  (0 <= amount <= 1)%Q ->
  length data = (4 * (w * Enhance.height imageData))%nat ->
  (1 <= y < Enhance.height imageData - 1)%nat -> (1 <= x < w - 1)%nat -> (c < 3)%nat ->
  0 <= d <= 255 ->
  Spec.sample data w x y c = Some d ->
  Spec.sample data w (x - 1) y c = Some d -> Spec.sample data w (x + 1) y c = Some d ->
  Spec.sample data w x (y - 1) c = Some d -> Spec.sample data w x (y + 1) c = Some d ->
  Spec.sample (Enhance.data (Enhance.sharpenImage imageData amount)) w x y c = Some d.
Proof.
  destruct imageData as [w h data]. cbn [Enhance.width Enhance.height Enhance.data].
  cbv zeta. unfold Spec.sample.
  intros Ha Hlen Hy Hx Hc Hd H0 H1 H2 H3 H4.
  destruct (sharpenImage_cells data w h amount) as (_ & Hin & _ & _).
  rewrite Hin by lia.
  rewrite (convolve_interior data w h x y c Hlen Hy Hx Hc).
  rewrite (list_lookup_total_correct _ _ _ H0), (list_lookup_total_correct _ _ _ H1),
    (list_lookup_total_correct _ _ _ H2), (list_lookup_total_correct _ _ _ H3),
    (list_lookup_total_correct _ _ _ H4).
  rewrite H0. cbn [fmap option_fmap option_map mbind option_bind]. f_equal.
  replace (5 * d - d - d - d - d) with d by lia.
  replace (Z.max 0 (Z.min 255 d)) with d by lia.
  rewrite (blend_flat d amount Hd Ha). apply clamp8_id. exact Hd.
Qed.

Lemma sharpenImage_flat_region_witness :
  Spec.sample (Enhance.data (Enhance.sharpenImage (Spec.uniform_image 3 3 100)
                               (JS.fl (6 # 10)))) 3 1 1 0
  = Some 100.
Proof.
  apply (sharpenImage_flat_region (Spec.uniform_image 3 3 100) (JS.fl (6 # 10)) 1 1 0 100);
    try reflexivity; try (simpl; lia).
  vm_compute. split; discriminate.
Defined.

(** The bound on the amount is needed: with the amount 10^17 the double
    [1 - amount] is [- amount], the blend of 100 with itself is 0, and the
    pixel turns black. *)
Lemma sharpenImage_huge_amount :
  Spec.sample (Enhance.data (Enhance.sharpenImage (Spec.uniform_image 3 3 100)
                               100000000000000000)) 3 1 1 0
  = Some 0.
Proof. vm_compute. reflexivity. Qed.

(** ** The enhancement stages keep images well-formed *)

Lemma bytes_insert_clamp8 (l : list Z) (k : nat) (v : option Z) :
  Spec.bytes l -> Spec.bytes (<[k := Enhance.clamp8 v]> l).
Proof. intros Hl. apply Forall_insert; [exact Hl|apply clamp8_range]. Qed.

Lemma applyCLAHE_bytes (imageData : Enhance.ImageData) (clipLimit : Q) (tileSize : nat) :
  Spec.bytes (Enhance.data imageData) ->
  Spec.bytes (Enhance.data (Enhance.applyCLAHE imageData clipLimit tileSize)).
Proof.
  intros Hb. unfold Enhance.applyCLAHE. cbn [Enhance.data].
  apply for_range_inv; [exact Hb|]. intros y e _ He.
  apply for_range_inv; [exact He|]. intros x e' _ He'.
  unfold Enhance.remapPixel. apply bytes_insert_clamp8.
  destruct (Enhance.luminance _ _ _) as [l|]; [destruct (JS.Qltb 0 l)|];
    repeat apply bytes_insert_clamp8; exact He'.
Qed.

Lemma adjustBrightnessContrast_bytes (imageData : Enhance.ImageData) :
  Spec.bytes (Enhance.data imageData) ->
  Spec.bytes (Enhance.data (Enhance.adjustBrightnessContrast imageData)).
Proof.
  intros Hb. unfold Enhance.adjustBrightnessContrast.
  destruct (Enhance.percentiles _ _ _) as [minVal maxVal].
  destruct (maxVal - minVal =? 0); [exact Hb|]. cbn [Enhance.data].
  apply for_range_inv; [exact Hb|]. intros p e _ He.
  apply bytes_insert_clamp8.
  apply for_range_inv; [exact He|]. intros ch e' _ He'.
  apply bytes_insert_clamp8. exact He'.
Qed.

Lemma sharpenImage_bytes (imageData : Enhance.ImageData) (amount : Q) :
  Spec.bytes (Enhance.data imageData) ->
  Spec.bytes (Enhance.data (Enhance.sharpenImage imageData amount)).
Proof.
  intros Hb. unfold Enhance.sharpenImage. cbn [Enhance.data].
  apply for_range_inv; [exact Hb|]. intros y e _ He.
  apply for_range_inv; [exact He|]. intros x e' _ He'.
  apply for_range_inv; [exact He'|]. intros ch e'' _ He''.
  apply bytes_insert_clamp8. exact He''.
Qed.

Lemma adjustBrightnessContrast_dims (imageData : Enhance.ImageData) :
  Enhance.width (Enhance.adjustBrightnessContrast imageData) = Enhance.width imageData /\
  Enhance.height (Enhance.adjustBrightnessContrast imageData) = Enhance.height imageData.
Proof.
  unfold Enhance.adjustBrightnessContrast.
  destruct (Enhance.percentiles _ _ _) as [minVal maxVal].
  destruct (maxVal - minVal =? 0); split; reflexivity.
Qed.

Lemma same_alpha_trans (d0 d1 d2 : list Z) :
  Spec.same_alpha d0 d1 -> Spec.same_alpha d1 d2 -> Spec.same_alpha d0 d2.
Proof.
  intros [Hl1 Ha1] [Hl2 Ha2]. split; [congruence|].
  intros j Hj. rewrite Ha2 by exact Hj. apply Ha1. exact Hj.
Qed.

(** X18. The enhancement pipeline keeps an image well-formed: the three
    stages of [enhanceImage], run one after the other on the RGBA bytes of
    an image, return an image of the same width and height whose buffer
    has the same length, holds bytes, and carries the alpha sample of
    every pixel unchanged. *)
Theorem enhanceImage_frame (imageData : Enhance.ImageData) :
  Spec.bytes (Enhance.data imageData) ->
  let out := Enhance.enhanceImage imageData in
  Enhance.width out = Enhance.width imageData /\
  Enhance.height out = Enhance.height imageData /\
  Spec.bytes (Enhance.data out) /\
  Spec.same_alpha (Enhance.data imageData) (Enhance.data out).
Proof.
  intros Hb out. subst out. unfold Enhance.enhanceImage. cbv zeta.
  set (i1 := Enhance.applyCLAHE imageData (25 # 10) 8).
  set (i2 := Enhance.adjustBrightnessContrast i1).
  assert (Hb1 : Spec.bytes (Enhance.data i1)) by (apply applyCLAHE_bytes; exact Hb).
  assert (Hb2 : Spec.bytes (Enhance.data i2))
    by (apply adjustBrightnessContrast_bytes; exact Hb1).
  destruct (adjustBrightnessContrast_dims i1) as [Hw2 Hh2]. fold i2 in Hw2, Hh2.
  split; [|split; [|split]].
  - cbn [Enhance.sharpenImage Enhance.width]. rewrite Hw2. reflexivity.
  - cbn [Enhance.sharpenImage Enhance.height]. rewrite Hh2. reflexivity.
  - apply sharpenImage_bytes. exact Hb2.
  - apply same_alpha_trans with (Enhance.data i2);
      [apply same_alpha_trans with (Enhance.data i1)|].
    + destruct imageData as [w h data].
      apply (applyCLAHE_alpha data Hb w h).
    + subst i2. destruct i1 as [w h data].
      apply (adjustBrightnessContrast_alpha data Hb1 w h).
    + destruct i2 as [w h data]. apply (sharpenImage_alpha data w h).
Qed.

Lemma enhanceImage_frame_witness :
  Enhance.width (Enhance.enhanceImage (Spec.uniform_image 2 2 100)) = 2%nat /\
  Spec.same_alpha (Enhance.data (Spec.uniform_image 2 2 100))
                  (Enhance.data (Enhance.enhanceImage (Spec.uniform_image 2 2 100))).
Proof.
  destruct (enhanceImage_frame (Spec.uniform_image 2 2 100)) as (Hw & _ & _ & Ha).
  - unfold Spec.bytes. simpl. repeat constructor; discriminate.
  - split; [exact Hw|exact Ha].
Defined.

(** ** Auto-levels *)

(** The two levels the percentile scan finds are ordered. *)
Lemma percentiles_ordered (hist : list Z) (lowPercentile highPercentile : Z) :
  0 <= (Enhance.percentiles hist lowPercentile highPercentile).1
    <= (Enhance.percentiles hist lowPercentile highPercentile).2 /\
  (Enhance.percentiles hist lowPercentile highPercentile).2 <= 255.
Proof.
  unfold Enhance.percentiles.
  match goal with
  | |- context [JS.for_range 0 256 ?body ?init] =>
      assert (Hinv : let '(_, mn, mx, done) := JS.for_range 0 256 body init in
                     0 <= mn /\
                     (done = true -> mn <= mx <= 255) /\
                     (done = false -> mx = 255 /\ mn <= Z.max 0 (Z.of_nat 256 - 1)));
      [|destruct (JS.for_range 0 256 body init) as [[[cum mn] mx] done]]
  end.
  { apply (for_range_ind (fun i (st : Z * Z * Z * bool) =>
             let '(_, mn, mx, done) := st in
             0 <= mn /\
             (done = true -> mn <= mx <= 255) /\
             (done = false -> mx = 255 /\ mn <= Z.max 0 (Z.of_nat i - 1)))); [lia| |].
    - simpl. split; [lia|]. split; [discriminate|]. intros _. lia.
    - intros i [[[cum mn] mx] done] Hi (H0 & Hd & Hn).
      destruct done; [split; [exact H0|]; split; [exact Hd|discriminate]|].
      destruct (Hn eq_refl) as [-> Hmn]. cbn beta iota zeta.
      destruct ((cum + hist !!! i >=? lowPercentile) && (mn =? 0));
        destruct (cum + hist !!! i >=? highPercentile);
        (split; [lia|]; split; [intros _; lia|intros; try discriminate; lia]). }
  simpl in Hinv |- *. destruct Hinv as (H0 & Hd & Hn).
  destruct done; [specialize (Hd eq_refl); lia|].
  destruct (Hn eq_refl) as [-> Hmn]. lia.
Qed.

Lemma round_mono (p q : Q) : (p <= q)%Q -> JS.round p <= JS.round q.
Proof. intros H. unfold JS.round. apply Qfloor_resp_le. lra. Qed.

Lemma stretch_mono (u v minVal range : Z) :
  0 < range -> u <= v ->
  Enhance.clamp8 (Enhance.stretch (Some u) minVal range)
  <= Enhance.clamp8 (Enhance.stretch (Some v) minVal range).
Proof.
  intros Hr Huv. unfold Enhance.stretch. cbn [mbind option_bind Enhance.clamp8].
  assert (Hq : (inject_Z (u - minVal) / inject_Z range * 255
                <= inject_Z (v - minVal) / inject_Z range * 255)%Q).
  { apply Qmult_le_compat_r; [|discriminate].
    unfold Qdiv. apply Qmult_le_compat_r.
    - rewrite <- Zle_Qle. lia.
    - apply Qinv_le_0_compat. change 0%Q with (inject_Z 0). rewrite <- Zle_Qle. lia. }
  pose proof (round_mono _ _ Hq). lia.
Qed.

Lemma for_range_blocks {A : Type} (k lo hi : nat) (body : nat -> list A -> list A)
    (g : nat -> nat -> option A -> option A) (init : list A) :
  (forall p a, (lo <= p < hi)%nat -> length (body p a) = length a) ->
  (forall p a j, (lo <= p < hi)%nat -> ~ (p * k <= j < p * k + k)%nat ->
     body p a !! j = a !! j) ->
  (forall p a c, (lo <= p < hi)%nat -> (c < k)%nat ->
     body p a !! (p * k + c)%nat = g p c (a !! (p * k + c)%nat)) ->
  let r := JS.for_range lo hi body init in
  length r = length init /\
  (forall p c, (lo <= p < hi)%nat -> (c < k)%nat ->
     r !! (p * k + c)%nat = g p c (init !! (p * k + c)%nat)).
Proof.
  intros Hlen Hframe Hcell r.
  destruct (raster_blocks hi k 0 1 lo hi (fun _ p a => body p a) (fun _ p c o => g p c o) init)
    as (Hl & Hin & _).
  - lia.
  - intros y p a _ Hp. apply Hlen. exact Hp.
  - intros y p a j Hy Hp Hj. apply Hframe; [exact Hp|].
    replace y with 0%nat in Hj by lia. exact Hj.
  - intros y p a c Hy Hp Hc. replace y with 0%nat by lia. apply (Hcell p a c Hp Hc).
  - split; [exact Hl|]. intros p c Hp Hc. apply (Hin p 0%nat c); [lia|exact Hp|exact Hc].
Qed.

Lemma lookup_four {A : Type} (a : list A) (i j : nat) (v0 v1 v2 v3 : A) :
  <[(i + 3)%nat := v3]>
    (<[(i + 2)%nat := v2]> (<[(i + 1)%nat := v1]> (<[(i + 0)%nat := v0]> a))) !! j
  = if decide (j = (i + 0)%nat) then (fun _ => v0) <$> a !! j
    else if decide (j = (i + 1)%nat) then (fun _ => v1) <$> a !! j
    else if decide (j = (i + 2)%nat) then (fun _ => v2) <$> a !! j
    else if decide (j = (i + 3)%nat) then (fun _ => v3) <$> a !! j
    else a !! j.
Proof.
  rewrite lookup_insert_fmap, lookup_three.
  destruct (decide (j = (i + 0)%nat)); destruct (decide (j = (i + 1)%nat));
    destruct (decide (j = (i + 2)%nat)); destruct (decide (j = (i + 3)%nat));
    try lia; reflexivity.
Qed.

(** The auto-levels loop, sample by sample. *)
Lemma stretch_cells (data : list Z) (minVal range : Z) (j : nat) (v : Z) :
  data !! j = Some v ->
  JS.for_range 0 ((length data + 3) / 4)%nat (fun p enhanced =>
    let i := (p * 4)%nat in
    let enhanced :=
      JS.for_range 0 3 (fun c enhanced =>
        <[(i + c)%nat := Enhance.clamp8 (Enhance.stretch (data !! (i + c)%nat) minVal range)]>
          enhanced) enhanced in
    <[(i + 3)%nat := Enhance.clamp8 (data !! (i + 3)%nat)]> enhanced) data !! j
  = Some (if (j mod 4 =? 3)%nat then Enhance.clamp8 (Some v)
          else Enhance.clamp8 (Enhance.stretch (Some v) minVal range)).
Proof.
  intros Hv.
  match goal with
  | |- JS.for_range 0 ?hi ?body data !! j = _ =>
      destruct (for_range_blocks 4 0 hi body
                  (fun p c o => (fun _ =>
                     if (c =? 3)%nat then Enhance.clamp8 (data !! (p * 4 + c)%nat)
                     else Enhance.clamp8 (Enhance.stretch (data !! (p * 4 + c)%nat)
                                            minVal range)) <$> o)
                  data) as (_ & Hin)
  end.
  - intros p a _. cbv zeta. rewrite for_range_three. rewrite !length_insert. reflexivity.
  - intros p a j' _ Hj. cbv zeta. rewrite for_range_three. rewrite lookup_four.
    repeat (destruct (decide _) as [->|_]; [exfalso; apply Hj; lia|]). reflexivity.
  - intros p a c _ Hc. cbv zeta. rewrite for_range_three. rewrite lookup_four.
    destruct c as [|[|[|[|c]]]]; [| | | |lia];
      repeat (match goal with
              | |- context [decide (?u = ?v)] => destruct (decide (u = v)); try lia
              end);
      reflexivity.
  - pose proof (lookup_lt_Some _ _ _ Hv) as Hj.
    pose proof (Nat.div_mod_eq j 4) as Hd.
    pose proof (Nat.mod_upper_bound j 4 ltac:(lia)) as Hm.
    assert (Hp : (j / 4 < (length data + 3) / 4)%nat).
    { apply Nat.lt_le_trans with (S (j / 4)); [lia|].
      apply Nat.div_le_lower_bound; lia. }
    replace j with (j / 4 * 4 + j mod 4)%nat at 1 by lia.
    rewrite Hin by lia.
    replace (j / 4 * 4 + j mod 4)%nat with j by lia.
    rewrite Hv. reflexivity.
Qed.

(** X19. Auto-levels never inverts an order: of two colour samples of a
    byte image, the one that is not larger going in is not larger coming
    out of [adjustBrightnessContrast]; both come out as bytes. *)
Theorem adjustBrightnessContrast_monotone (imageData : Enhance.ImageData)
    (i j : nat) (u v : Z) :
  Spec.bytes (Enhance.data imageData) ->
  (i mod 4 <> 3)%nat -> (j mod 4 <> 3)%nat ->
  Enhance.data imageData !! i = Some u -> Enhance.data imageData !! j = Some v ->
  u <= v ->
  exists u' v',
    Enhance.data (Enhance.adjustBrightnessContrast imageData) !! i = Some u' /\
    Enhance.data (Enhance.adjustBrightnessContrast imageData) !! j = Some v' /\
    u' <= v' /\ 0 <= u' /\ v' <= 255.
Proof.
  intros Hb Hi Hj Hu Hv Huv.
  pose proof (adjustBrightnessContrast_bytes imageData Hb) as Hout.
  unfold Enhance.adjustBrightnessContrast in *.
  match goal with
  | |- context [Enhance.percentiles ?h ?lo ?hi] =>
      pose proof (percentiles_ordered h lo hi) as Hord;
      destruct (Enhance.percentiles h lo hi) as [minVal maxVal]
  end.
  simpl in Hord.
  destruct (Z.eqb_spec (maxVal - minVal) 0) as [Hz|Hnz].
  - exists u, v. unfold Spec.bytes in Hb. rewrite Forall_lookup in Hb.
    pose proof (Hb i u Hu). pose proof (Hb j v Hv).
    split; [exact Hu|]. split; [exact Hv|]. lia.
  - cbn [Enhance.data] in *.
    eexists _, _.
    split; [exact (stretch_cells _ minVal (maxVal - minVal) i u Hu)|].
    split; [exact (stretch_cells _ minVal (maxVal - minVal) j v Hv)|].
    destruct (Nat.eqb_spec (i mod 4) 3); [contradiction|].
    destruct (Nat.eqb_spec (j mod 4) 3); [contradiction|].
    split; [apply stretch_mono; lia|].
    split; apply clamp8_range.
Qed.

Lemma adjustBrightnessContrast_monotone_witness :
  exists u' v',
    Enhance.data (Enhance.adjustBrightnessContrast Spec.two_pixels) !! 0%nat = Some u' /\
    Enhance.data (Enhance.adjustBrightnessContrast Spec.two_pixels) !! 4%nat = Some v' /\
    u' <= v' /\ 0 <= u' /\ v' <= 255.
Proof.
  apply (adjustBrightnessContrast_monotone Spec.two_pixels 0 4 10 200).
  - unfold Spec.bytes. simpl. repeat constructor; discriminate.
  - simpl. lia.
  - simpl. lia.
  - reflexivity.
  - reflexivity.
  - lia.
Defined.

(** ** CLAHE on images made of full tiles *)

Lemma toGray_length (data : list Z) (width height : nat) :
  length (Enhance.toGray data width height) = (width * height)%nat.
Proof.
  unfold Enhance.toGray.
  apply (for_range_inv (fun a => length a = (width * height)%nat)).
  - apply length_replicate.
  - intros i a _ Ha. rewrite length_insert. exact Ha.
Qed.

Lemma toGray_bytes (data : list Z) (width height : nat) :
  Spec.bytes (Enhance.toGray data width height).
Proof.
  unfold Enhance.toGray. apply for_range_inv.
  - apply Forall_replicate. lia.
  - intros i a _ Ha. apply bytes_insert_clamp8. exact Ha.
Qed.

Lemma toGray_lookup (data : list Z) (width height i : nat) (r g b : Z) :
  (i < width * height)%nat ->
  data !! (i * 4)%nat = Some r -> data !! (i * 4 + 1)%nat = Some g ->
  data !! (i * 4 + 2)%nat = Some b ->
  0 <= r <= 255 -> 0 <= g <= 255 -> 0 <= b <= 255 ->
  Enhance.toGray data width height !! i = Some (JS.round (JS.luminance r g b)).
Proof.
  intros Hi Hr Hg Hb Br Bg Bb. unfold Enhance.toGray.
  match goal with
  | |- JS.for_range 0 ?hi ?body ?init !! i = _ =>
      destruct (for_range_cells 0 hi body
                  (fun i o => (fun _ =>
                     Enhance.clamp8 (JS.round <$>
                       Enhance.luminance (data !! (i * 4)%nat) (data !! (i * 4 + 1)%nat)
                                         (data !! (i * 4 + 2)%nat))) <$> o)
                  init) as (_ & Hin & _)
  end.
  - intros k a _. apply length_insert.
  - intros k a j _ Hj. apply list_lookup_insert_ne. congruence.
  - intros k a _. rewrite lookup_insert_fmap. destruct (decide (k = k)); [reflexivity|congruence].
  - rewrite Hin by lia. rewrite lookup_replicate_2 by exact Hi.
    rewrite Hr, Hg, Hb. cbn [fmap option_fmap option_map Enhance.luminance mbind option_bind].
    f_equal. apply clamp8_id. apply luminance_round_byte; assumption.
Qed.

Lemma washed_out_saturates (v : Z) : 63 <= v <= 255 -> Spec.washed_out v = 255.
Proof.
  intros Hv.
  assert (Hall : forallb (fun v => Spec.washed_out v =? 255) (seqZ 63 193) = true)
    by (vm_compute; reflexivity).
  rewrite forallb_forall in Hall. specialize (Hall v).
  apply Z.eqb_eq, Hall. apply list_elem_of_In, elem_of_seqZ. lia.
Qed.

Lemma uniform_image_bytes (w h : nat) (v : Z) :
  0 <= v <= 255 -> Spec.bytes (Enhance.data (Spec.uniform_image w h v)).
Proof.
  intros Hv. unfold Spec.uniform_image, Spec.bytes. cbn [Enhance.data].
  induction (w * h)%nat as [|n IH]; [constructor|].
  simpl. repeat (constructor; [lia|]). exact IH.
Qed.

Section FullTiles.
Variables (a b : nat) (data : list Z).

Local Notation "'W'" := (8 * a)%nat (only parsing).
Local Notation "'H'" := (8 * b)%nat (only parsing).

Hypothesis data_length : length data = (4 * (W * H))%nat.
Hypothesis data_bytes : Spec.bytes data.

Local Notation "'GRAY'" := (Enhance.toGray data W H) (only parsing).
Local Notation "'TABLES'" :=
  ((fun ty => (fun tx => Enhance.tileLUT GRAY W H (25 # 10) 8 ty tx) <$> seq 0 a)
     <$> seq 0 b) (only parsing).

Lemma full_tables_lookup (x y : nat) :
  (x < W)%nat -> (y < H)%nat ->
  (TABLES !!! Nat.min (y / 8) (b - 1)) !!! Nat.min (x / 8) (a - 1) = Spec.full_tile_lut.
Proof.
  intros Hx Hy.
  assert (Htx : (x / 8 < a)%nat) by (apply Nat.Div0.div_lt_upper_bound; lia).
  assert (Hty : (y / 8 < b)%nat) by (apply Nat.Div0.div_lt_upper_bound; lia).
  rewrite (Nat.min_l (y / 8)), (Nat.min_l (x / 8)) by lia.
  assert (Hrow : TABLES !! (y / 8)%nat
            = Some ((fun tx => Enhance.tileLUT GRAY W H (25 # 10) 8 (y / 8) tx) <$> seq 0 a)).
  { rewrite list_lookup_fmap, lookup_seq_lt by exact Hty. reflexivity. }
  rewrite (list_lookup_total_correct _ _ _ Hrow).
  assert (Hcell : ((fun tx => Enhance.tileLUT GRAY W H (25 # 10) 8 (y / 8) tx) <$> seq 0 a)
                    !! (x / 8)%nat
            = Some (Enhance.tileLUT GRAY W H (25 # 10) 8 (y / 8) (x / 8))).
  { rewrite list_lookup_fmap, lookup_seq_lt by exact Htx. reflexivity. }
  rewrite (list_lookup_total_correct _ _ _ Hcell).
  apply tileLUT_full_tile.
  - apply toGray_bytes.
  - apply toGray_length.
  - lia.
  - lia.
Qed.

Lemma data_sample (x y c : nat) :
  (x < W)%nat -> (y < H)%nat -> (c < 4)%nat ->
  exists v, data !! ((y * W + x) * 4 + c)%nat = Some v /\ 0 <= v <= 255.
Proof.
  intros Hx Hy Hc.
  destruct (lookup_lt_is_Some_2 data ((y * W + x) * 4 + c)%nat) as [v Hv].
  { rewrite data_length. nia. }
  exists v. split; [exact Hv|].
  unfold Spec.bytes in data_bytes. rewrite Forall_lookup in data_bytes.
  apply (data_bytes _ _ Hv).
Qed.

Lemma scaled_nonneg (v newVal : Z) (l : Q) :
  0 <= v -> 0 <= newVal -> (0 < l)%Q ->
  0 <= JS.round (JS.mul (inject_Z v) (JS.quot (inject_Z newVal) l)).
Proof.
  intros Hv Hn Hl. rewrite <- (round_integer 0%Q 0) by reflexivity.
  apply round_mono. unfold JS.mul, JS.quot. apply fl_nonneg.
  apply Qmult_le_0_compat.
  - change 0%Q with (inject_Z 0). rewrite <- Zle_Qle. exact Hv.
  - apply fl_nonneg. apply Qle_shift_div_l; [exact Hl|]. rewrite Qmult_0_l.
    change 0%Q with (inject_Z 0). rewrite <- Zle_Qle. exact Hn.
Qed.

(** One step of the remapping loop, as four stores. *)
Lemma remapPixel_full_tiles (x y : nat) (r g bl al : Z) (enhanced : list Z) :
  (x < W)%nat -> (y < H)%nat ->
  data !! ((y * W + x) * 4 + 0)%nat = Some r ->
  data !! ((y * W + x) * 4 + 1)%nat = Some g ->
  data !! ((y * W + x) * 4 + 2)%nat = Some bl ->
  data !! ((y * W + x) * 4 + 3)%nat = Some al ->
  Enhance.remapPixel data GRAY TABLES W 8 a b y x enhanced
  = <[((y * W + x) * 4 + 3)%nat := al]>
      (<[((y * W + x) * 4 + 2)%nat := (Spec.tone r g bl).2]>
         (<[((y * W + x) * 4 + 1)%nat := (Spec.tone r g bl).1.2]>
            (<[((y * W + x) * 4 + 0)%nat := (Spec.tone r g bl).1.1]> enhanced))).
Proof.
  intros Hx Hy Hr Hg Hb Ha.
  assert (Hbytes : forall k v, data !! k = Some v -> 0 <= v <= 255).
  { intros k v Hv. unfold Spec.bytes in data_bytes. rewrite Forall_lookup in data_bytes.
    apply (data_bytes _ _ Hv). }
  pose proof (Hbytes _ _ Hr) as Br. pose proof (Hbytes _ _ Hg) as Bg.
  pose proof (Hbytes _ _ Hb) as Bb. pose proof (Hbytes _ _ Ha) as Ba.
  assert (Hp : (y * W + x < W * H)%nat) by nia.
  unfold Enhance.remapPixel.
  rewrite (full_tables_lookup x y Hx Hy).
  rewrite Nat.add_0_r in Hr |- *.
  rewrite (toGray_lookup data W H (y * W + x) r g bl Hp) by assumption.
  cbn [mbind option_bind].
  pose proof (luminance_round_byte r g bl Br Bg Bb) as Hround.
  destruct (full_tile_lut_lookup (JS.round (JS.luminance r g bl)) Hround) as [Hlut Ht].
  rewrite Hlut.
  rewrite Hr, Hg, Hb, Ha.
  cbn [Enhance.luminance mbind option_bind].
  unfold Spec.tone.
  rewrite (clamp8_id al Ba).
  destruct (JS.Qltb 0 (JS.luminance r g bl)) eqn:Hpos.
  - apply Qltb_true in Hpos. cbn [mbind option_bind Enhance.scaleChannel fst snd].
    assert (Hput : forall v, 0 <= v ->
              Enhance.clamp8 (Some (Z.min 255 (JS.round
                (JS.mul (inject_Z v)
                   (JS.quot (inject_Z (Spec.washed_out (JS.round (JS.luminance r g bl))))
                            (JS.luminance r g bl))))))
              = Z.min 255 (JS.round
                  (JS.mul (inject_Z v)
                     (JS.quot (inject_Z (Spec.washed_out (JS.round (JS.luminance r g bl))))
                              (JS.luminance r g bl))))).
    { intros v Hv. pose proof (scaled_nonneg v _ _ Hv (proj1 Ht) Hpos).
      cbn [Enhance.clamp8]. lia. }
    rewrite !Hput by lia. reflexivity.
  - cbn [fst snd]. rewrite (clamp8_id _ Ht). reflexivity.
Qed.

Lemma applyCLAHE_cells (x y : nat) (r g bl al : Z) :
  (x < W)%nat -> (y < H)%nat ->
  data !! ((y * W + x) * 4 + 0)%nat = Some r ->
  data !! ((y * W + x) * 4 + 1)%nat = Some g ->
  data !! ((y * W + x) * 4 + 2)%nat = Some bl ->
  data !! ((y * W + x) * 4 + 3)%nat = Some al ->
  let out := Enhance.data (Enhance.applyCLAHE
               {| Enhance.width := W; Enhance.height := H; Enhance.data := data |}
               (25 # 10) 8) in
  out !! ((y * W + x) * 4 + 0)%nat = Some (Spec.tone r g bl).1.1 /\
  out !! ((y * W + x) * 4 + 1)%nat = Some (Spec.tone r g bl).1.2 /\
  out !! ((y * W + x) * 4 + 2)%nat = Some (Spec.tone r g bl).2 /\
  out !! ((y * W + x) * 4 + 3)%nat = Some al.
Proof.
  intros Hx Hy Hr Hg Hb Ha out. subst out.
  unfold Enhance.applyCLAHE. cbn [Enhance.data Enhance.width Enhance.height].
  rewrite !tilesAlong_multiple.
  set (value := fun (y x c : nat) =>
         let r := data !!! ((y * W + x) * 4 + 0)%nat in
         let g := data !!! ((y * W + x) * 4 + 1)%nat in
         let bl := data !!! ((y * W + x) * 4 + 2)%nat in
         match c with
         | 0%nat => (Spec.tone r g bl).1.1
         | 1%nat => (Spec.tone r g bl).1.2
         | 2%nat => (Spec.tone r g bl).2
         | _ => data !!! ((y * W + x) * 4 + 3)%nat
         end).
  match goal with
  | |- context [JS.for_range 0 H (fun y e => JS.for_range 0 W (@?body y) e) data] =>
      destruct (raster_blocks W 4 0 H 0 W body
                  (fun y x c o => (fun _ => value y x c) <$> o) data) as (_ & Hin & _)
  end.
  - lia.
  - intros y' x' e Hy' Hx'.
    destruct (data_sample x' y' 0) as (r' & Hr' & _); [lia|lia|lia|].
    destruct (data_sample x' y' 1) as (g' & Hg' & _); [lia|lia|lia|].
    destruct (data_sample x' y' 2) as (b' & Hb' & _); [lia|lia|lia|].
    destruct (data_sample x' y' 3) as (a' & Ha' & _); [lia|lia|lia|].
    rewrite (remapPixel_full_tiles x' y' r' g' b' a') by (assumption || lia).
    rewrite !length_insert. reflexivity.
  - intros y' x' e j Hy' Hx' Hj.
    destruct (data_sample x' y' 0) as (r' & Hr' & _); [lia|lia|lia|].
    destruct (data_sample x' y' 1) as (g' & Hg' & _); [lia|lia|lia|].
    destruct (data_sample x' y' 2) as (b' & Hb' & _); [lia|lia|lia|].
    destruct (data_sample x' y' 3) as (a' & Ha' & _); [lia|lia|lia|].
    rewrite (remapPixel_full_tiles x' y' r' g' b' a') by (assumption || lia).
    rewrite lookup_four.
    repeat (destruct (decide _) as [->|_]; [exfalso; apply Hj; lia|]). reflexivity.
  - intros y' x' e c Hy' Hx' Hc.
    destruct (data_sample x' y' 0) as (r' & Hr' & _); [lia|lia|lia|].
    destruct (data_sample x' y' 1) as (g' & Hg' & _); [lia|lia|lia|].
    destruct (data_sample x' y' 2) as (b' & Hb' & _); [lia|lia|lia|].
    destruct (data_sample x' y' 3) as (a' & Ha' & _); [lia|lia|lia|].
    rewrite (remapPixel_full_tiles x' y' r' g' b' a') by (assumption || lia).
    rewrite lookup_four. unfold value.
    rewrite (list_lookup_total_correct _ _ _ Hr'), (list_lookup_total_correct _ _ _ Hg'),
      (list_lookup_total_correct _ _ _ Hb'), (list_lookup_total_correct _ _ _ Ha').
    destruct c as [|[|[|[|c]]]]; [| | | |lia];
      repeat (match goal with
              | |- context [decide (?u = ?v)] => destruct (decide (u = v)); try lia
              end);
      reflexivity.
  - rewrite !Hin by lia. unfold value.
    rewrite (list_lookup_total_correct _ _ _ Hr), (list_lookup_total_correct _ _ _ Hg),
      (list_lookup_total_correct _ _ _ Hb), (list_lookup_total_correct _ _ _ Ha).
    rewrite Hr, Hg, Hb, Ha. repeat split.
Qed.

End FullTiles.

(** X20. With the parameters [enhanceImage] passes (clip limit 2.5, tile
    size 8), CLAHE does not adapt to the image: on the RGBA bytes of an
    image made of full 8x8 tiles, every pixel comes out as the fixed tone
    curve [Spec.tone], computed in double arithmetic, makes of its own
    colour, whatever the rest of the image holds. *)
Theorem applyCLAHE_full_tiles_pointwise (a b : nat) (data : list Z) (x y : nat)
    (r g bl al : Z) :
  length data = (4 * (8 * a * (8 * b)))%nat ->
  Spec.bytes data ->
  (x < 8 * a)%nat -> (y < 8 * b)%nat ->
  Spec.sample data (8 * a) x y 0 = Some r -> Spec.sample data (8 * a) x y 1 = Some g ->
  Spec.sample data (8 * a) x y 2 = Some bl -> Spec.sample data (8 * a) x y 3 = Some al ->
  let out := Enhance.data (Enhance.applyCLAHE
               {| Enhance.width := 8 * a; Enhance.height := 8 * b; Enhance.data := data |}
               (25 # 10) 8) in
  Spec.sample out (8 * a) x y 0 = Some (Spec.tone r g bl).1.1 /\
  Spec.sample out (8 * a) x y 1 = Some (Spec.tone r g bl).1.2 /\
  Spec.sample out (8 * a) x y 2 = Some (Spec.tone r g bl).2 /\
  Spec.sample out (8 * a) x y 3 = Some al.
Proof.
  intros Hlen Hbytes Hx Hy Hr Hg Hb Ha. unfold Spec.sample in *.
  apply applyCLAHE_cells; assumption.
Qed.

Lemma applyCLAHE_full_tiles_pointwise_witness :
  Spec.sample (Enhance.data (Enhance.applyCLAHE
                 {| Enhance.width := 8 * 1; Enhance.height := 8 * 1;
                    Enhance.data := Enhance.data (Spec.uniform_image (8 * 1) (8 * 1) 200) |}
                 (25 # 10) 8)) (8 * 1) 3 5 0
  = Some (Spec.tone 200 200 200).1.1.
Proof.
  refine (proj1 (applyCLAHE_full_tiles_pointwise 1 1
                   (Enhance.data (Spec.uniform_image (8 * 1) (8 * 1) 200)) 3 5 200 200 200 255
                   _ _ _ _ _ _ _ _)); try reflexivity; try lia.
  apply uniform_image_bytes. lia.
Defined.

Lemma tone_neutral (v : Z) :
  1 <= v <= 255 ->
  Spec.tone v v v = (Spec.washed_out v, Spec.washed_out v, Spec.washed_out v).
Proof.
  intros Hv. unfold Spec.tone.
  destruct (luminance_gray v ltac:(lia)) as [Hround [Hl _]].
  rewrite Hround.
  assert (Hpos : JS.Qltb 0 (JS.luminance v v v) = true).
  { apply Qltb_true.
    assert (H1 : (1 <= inject_Z v)%Q)
      by (change 1%Q with (inject_Z 1); rewrite <- Zle_Qle; lia).
    lra. }
  rewrite Hpos, (scale_gray v Hv). reflexivity.
Qed.

(** Two colours whose exact luminance, or whose exact scaled channel, lies
    half-way between two integers: the doubles fall below the half, and the
    pixel comes out as (0, 142, 47) and (29, 54, 142). *)
Lemma tone_half_way :
  Spec.tone 0 36 12 = (0, 142, 47) /\ Spec.tone 7 13 34 = (29, 54, 142).
Proof. split; vm_compute; reflexivity. Qed.

(** X21. The washing-out is not particular to uniform images: in any image
    made of full 8x8 tiles, a neutral gray pixel of level 63 or more leaves
    CLAHE (clip limit 2.5, tile size 8) pure white, whatever surrounds
    it. *)
Theorem applyCLAHE_full_tiles_saturates (a b : nat) (data : list Z) (x y : nat)
    (v al : Z) (c : nat) :
  length data = (4 * (8 * a * (8 * b)))%nat ->
  Spec.bytes data ->
  (x < 8 * a)%nat -> (y < 8 * b)%nat ->
  Spec.sample data (8 * a) x y 0 = Some v -> Spec.sample data (8 * a) x y 1 = Some v ->
  Spec.sample data (8 * a) x y 2 = Some v -> Spec.sample data (8 * a) x y 3 = Some al ->
  63 <= v ->
  (c < 3)%nat ->
  Spec.sample (Enhance.data (Enhance.applyCLAHE
                 {| Enhance.width := 8 * a; Enhance.height := 8 * b; Enhance.data := data |}
                 (25 # 10) 8)) (8 * a) x y c = Some 255.
Proof.
  intros Hlen Hbytes Hx Hy Hr Hg Hb Ha Hv Hc. unfold Spec.sample in *.
  assert (Hv255 : v <= 255).
  { unfold Spec.bytes in Hbytes. rewrite Forall_lookup in Hbytes.
    apply (Hbytes _ _ Hr). }
  destruct (applyCLAHE_cells a b data Hlen Hbytes x y v v v al Hx Hy Hr Hg Hb Ha)
    as (H0 & H1 & H2 & _).
  rewrite tone_neutral in H0, H1, H2 by lia.
  rewrite washed_out_saturates in H0, H1, H2 by lia.
  destruct c as [|[|[|c]]]; [exact H0|exact H1|exact H2|lia].
Qed.

Lemma applyCLAHE_full_tiles_saturates_witness :
  Spec.sample (Enhance.data (Enhance.applyCLAHE
                 {| Enhance.width := 8 * 1; Enhance.height := 8 * 1;
                    Enhance.data := Enhance.data (Spec.uniform_image (8 * 1) (8 * 1) 200) |}
                 (25 # 10) 8)) (8 * 1) 3 5 1
  = Some 255.
Proof.
  refine (applyCLAHE_full_tiles_saturates 1 1
            (Enhance.data (Spec.uniform_image (8 * 1) (8 * 1) 200)) 3 5 200 255 1
            _ _ _ _ _ _ _ _ _ _); try reflexivity; try lia.
  apply uniform_image_bytes. lia.
Defined.

(** ** The edge map of the deskew estimator *)

Lemma toUint8_byte (z : Z) : 0 <= z <= 255 -> JS.toUint8 (Some (inject_Z z)) = z.
Proof.
  intros Hz. unfold JS.toUint8, JS.trunc.
  assert (Hnn : JS.Qltb (inject_Z z) 0 = false).
  { apply Qltb_false. change 0%Q with (inject_Z 0). rewrite <- Zle_Qle. lia. }
  rewrite Hnn, Qfloor_Z. apply Z.mod_small. lia.
Qed.

Lemma sobelX_lookup (gray : list Z) (width height x y : nat) :
  length gray = (width * height)%nat ->
  (x < width)%nat -> (y < height)%nat ->
  Deskew.sobelX gray width height !! (y * width + x)%nat
  = Some (if Spec.interior width height x y
          then Z.min 255 (Z.abs (Spec.gradientX gray width x y)) else 0).
Proof.
  intros Hlen Hx Hy. unfold Deskew.sobelX.
  assert (Hidx : (y * width + x < width * height)%nat) by nia.
  match goal with
  | |- context [JS.for_range 1 (height - 1)
                  (fun y e => JS.for_range 1 (width - 1) (@?body y) e) ?init] =>
      destruct (raster_cells width 1 (height - 1) 1 (width - 1) body
                  (fun y x o => (fun _ =>
                     Z.min 255 (Z.abs (Spec.gradientX gray width x y))) <$> o)
                  init) as (_ & Hin & Hout)
  end.
  - lia.
  - intros y' x' e _ _. apply length_insert.
  - intros y' x' e j _ _ Hj. apply list_lookup_insert_ne. congruence.
  - intros y' x' e Hy' Hx'. cbv zeta. rewrite lookup_insert_fmap.
    destruct (decide (_ = _)); [|congruence].
    assert (Hrd : forall x'' y'', (x'' < width)%nat -> (y'' < height)%nat ->
              gray !! (y'' * width + x'')%nat = Some (gray !!! (y'' * width + x'')%nat)).
    { intros x'' y'' Hx'' Hy''. apply list_lookup_lookup_total_lt. rewrite Hlen. nia. }
    replace (y' * width + x' - width - 1)%nat with ((y' - 1) * width + (x' - 1))%nat by nia.
    replace (y' * width + x' - width + 1)%nat with ((y' - 1) * width + (x' + 1))%nat by nia.
    replace (y' * width + x' - 1)%nat with (y' * width + (x' - 1))%nat by nia.
    replace (y' * width + x' + 1)%nat with (y' * width + (x' + 1))%nat by nia.
    replace (y' * width + x' + width - 1)%nat with ((y' + 1) * width + (x' - 1))%nat by nia.
    replace (y' * width + x' + width + 1)%nat with ((y' + 1) * width + (x' + 1))%nat by nia.
    rewrite !Hrd by lia. cbn [mbind option_bind fmap option_fmap option_map].
    destruct (e !! (y' * width + x')%nat); [|reflexivity].
    cbn [fmap option_fmap option_map]. f_equal.
    rewrite toUint8_byte by lia. unfold Spec.gradientX. f_equal. f_equal. lia.
  - destruct (Spec.interior width height x y) eqn:Hint.
    + apply interior_true in Hint. rewrite Hin by lia.
      rewrite lookup_replicate_2 by exact Hidx. reflexivity.
    + rewrite Hout.
      * apply lookup_replicate_2. exact Hidx.
      * intros x' y' Hy' Hx' Heq. apply raster_index_inj in Heq; [|lia|lia].
        destruct Heq as [-> ->].
        assert (Spec.interior width height x' y' = true) by (apply interior_true; lia).
        congruence.
Qed.

Lemma sobelX_length (gray : list Z) (width height : nat) :
  length (Deskew.sobelX gray width height) = (width * height)%nat.
Proof.
  unfold Deskew.sobelX.
  apply (for_range_inv (fun e => length e = (width * height)%nat)).
  - apply length_replicate.
  - intros y e _ He. apply for_range_inv; [exact He|].
    intros x e' _ He'. rewrite length_insert. exact He'.
Qed.

(** X22. The edge map of the deskew estimator: on a gray buffer of
    [width * height] samples, the Sobel pass stores, at every pixel off the
    border, the magnitude of the horizontal gradient capped at 255, and
    leaves 0 on the one-pixel border. *)
Theorem sobelX_edges (gray : list Z) (width height x y : nat) :
  length gray = (width * height)%nat ->
  (x < width)%nat -> (y < height)%nat ->
  length (Deskew.sobelX gray width height) = (width * height)%nat /\
  Deskew.sobelX gray width height !! (y * width + x)%nat
  = Some (if Spec.interior width height x y
          then Z.min 255 (Z.abs (Spec.gradientX gray width x y)) else 0).
Proof.
  intros Hlen Hx Hy. split; [apply sobelX_length|apply sobelX_lookup; assumption].
Qed.

Lemma sobelX_edges_witness :
  Deskew.sobelX Spec.step_edge 3 3 !! (1 * 3 + 1)%nat = Some 255 /\
  Deskew.sobelX Spec.step_edge 3 3 !! (0 * 3 + 1)%nat = Some 0.
Proof.
  split.
  - destruct (sobelX_edges Spec.step_edge 3 3 1 1) as [_ H]; [reflexivity|lia|lia|].
    rewrite H. reflexivity.
  - destruct (sobelX_edges Spec.step_edge 3 3 1 0) as [_ H]; [reflexivity|lia|lia|].
    rewrite H. reflexivity.
Defined.

Lemma sobelX_flat (gray : list Z) (width height : nat) :
  length gray = (width * height)%nat ->
  Spec.flat_rows gray width height ->
  Deskew.sobelX gray width height = replicate (width * height) 0.
Proof.
  intros Hlen Hflat. apply list_eq. intros i.
  destruct (decide (i < width * height)%nat) as [Hi|Hi].
  - destruct (raster_index_surj width height i Hi) as (x & y & Hx & Hy & ->).
    rewrite sobelX_lookup by assumption. rewrite lookup_replicate_2 by exact Hi.
    destruct (Spec.interior width height x y) eqn:Hint; [|reflexivity].
    apply interior_true in Hint. f_equal.
    assert (Hrow : forall y', (y' < height)%nat ->
              gray !!! (y' * width + (x - 1))%nat = gray !!! (y' * width + (x + 1))%nat).
    { intros y' Hy'. rewrite !list_lookup_total_alt.
      rewrite (Hflat (x - 1)%nat (x + 1)%nat y') by lia. reflexivity. }
    unfold Spec.gradientX. rewrite !Hrow by lia. lia.
  - rewrite (proj2 (lookup_ge_None _ _)) by (rewrite sobelX_length; lia).
    symmetry. apply lookup_ge_None. rewrite length_replicate. lia.
Qed.

(** An image without horizontal variation has no edges: when every
    row of the gray buffer holds one level, the Sobel pass returns the
    all-zero edge map. *)
Theorem sobelX_flat_rows (gray : list Z) (width height : nat) :
  length gray = (width * height)%nat ->
  Spec.flat_rows gray width height ->
  Deskew.sobelX gray width height = replicate (width * height) 0.
Proof. apply sobelX_flat. Qed.

Lemma sobelX_flat_rows_witness :
  Deskew.sobelX [7; 7; 7; 9; 9; 9; 4; 4; 4] 3 3 = replicate (3 * 3) 0.
Proof.
  apply (sobelX_flat_rows [7; 7; 7; 9; 9; 9; 4; 4; 4] 3 3); [reflexivity|].
  intros x x' y Hx Hx' Hy.
  destruct y as [|[|[|y]]]; [| | |lia];
    destruct x as [|[|[|x]]]; try lia; destruct x' as [|[|[|x']]]; try lia; reflexivity.
Defined.

(** ** The projection variance of an empty edge map *)

Lemma Forall_zero_lookup (l : list Q) (i : nat) (p : Q) :
  Forall (fun p => p == 0)%Q l -> l !! i = Some p -> (p == 0)%Q.
Proof. intros Hl Hp. rewrite Forall_lookup in Hl. apply (Hl _ _ Hp). Qed.

Lemma calculateProjectionVariance_blank (width height : nat) (sin cos : Q) :
  exists v,
    Deskew.calculateProjectionVariance (replicate (width * height) 0) width height sin cos
    = Some v /\ (v == 0)%Q.
Proof.
  unfold Deskew.calculateProjectionVariance.
  destruct (raster_indM
              (fun (_ : nat) (st : list Q * list Z) =>
                 length st.1 = width /\ length st.2 = width /\
                 Forall (fun p => p == 0)%Q st.1)
              width height
              (fun y x st =>
                 Deskew.accumulate (replicate (width * height) 0) width height sin cos y x st)
              (replicate width 0%Q, replicate width 0)) as (st & Hacc & Hl1 & Hl2 & Hz).
  { simpl. split; [apply length_replicate|]. split; [apply length_replicate|].
    apply Forall_replicate. reflexivity. }
  { intros y x [projection counts] Hy Hx (Hl1 & Hl2 & Hz). simpl in Hl1, Hl2, Hz.
    unfold Deskew.accumulate.
    set (bin := Qfloor (Deskew.rotX width height sin cos x y)).
    destruct ((0 <=? bin) && (bin <? Z.of_nat width)) eqn:Hbin.
    - apply andb_true_iff in Hbin. destruct Hbin as [Hb0 Hb1].
      apply Z.leb_le in Hb0. apply Z.ltb_lt in Hb1.
      rewrite lookup_replicate_2 by nia.
      destruct (lookup_lt_is_Some_2 projection (Z.to_nat bin)) as [p Hp]; [lia|].
      destruct (lookup_lt_is_Some_2 counts (Z.to_nat bin)) as [n Hn]; [lia|].
      rewrite Hp, Hn. cbn [mbind option_bind]. eexists. split; [reflexivity|].
      cbn [fst snd]. rewrite !length_insert. split; [exact Hl1|]. split; [exact Hl2|].
      apply Forall_insert; [exact Hz|].
      rewrite (Forall_zero_lookup _ _ _ Hz Hp). reflexivity.
    - eexists. split; [reflexivity|]. simpl. auto. }
  rewrite Hacc. cbn [mbind option_bind]. destruct st as [projection counts].
  simpl in Hl1, Hl2, Hz.
  destruct (for_rangeM_ind
              (fun (_ : nat) (st : Q * Q * Z) =>
                 (st.1.1 == 0)%Q /\ (st.1.2 == 0)%Q /\ 0 <= st.2)
              0 width (Deskew.normalise projection counts) (0%Q, 0%Q, 0))
    as (res & Hnorm & Hs & Hq & Hn).
  { lia. }
  { simpl. split; [reflexivity|]. split; [reflexivity|lia]. }
  { intros i [[sum sumSq] n] Hi (Hs & Hq & Hn). simpl in Hs, Hq, Hn.
    unfold Deskew.normalise.
    destruct (lookup_lt_is_Some_2 projection i) as [p Hp]; [lia|].
    destruct (lookup_lt_is_Some_2 counts i) as [cnt Hc]; [lia|].
    rewrite Hp, Hc. cbn [mbind option_bind].
    destruct (Z.ltb_spec 0 cnt) as [Hpos|Hle].
    - rewrite checked_div_nonzero by (apply inject_Z_nonzero; lia).
      cbn [mbind option_bind]. eexists. split; [reflexivity|]. cbn [fst snd].
      pose proof (Forall_zero_lookup _ _ _ Hz Hp) as Hp0.
      assert (Hval : (p / inject_Z cnt == 0)%Q).
      { rewrite Hp0. unfold Qdiv. apply Qmult_0_l. }
      split; [rewrite Hs, Hval; reflexivity|].
      split; [rewrite Hq, Hval; reflexivity|lia].
    - eexists. split; [reflexivity|]. simpl. auto. }
  rewrite Hnorm. cbn [mbind option_bind]. destruct res as [[sum sumSq] n].
  simpl in Hs, Hq, Hn.
  destruct (Z.eqb_spec n 0) as [Hn0|Hn0].
  - exists 0%Q. split; reflexivity.
  - rewrite !checked_div_nonzero by (apply inject_Z_nonzero; exact Hn0).
    cbn [mbind option_bind]. eexists. split; [reflexivity|].
    rewrite Hs, Hq. unfold Qdiv. rewrite !Qmult_0_l. reflexivity.
Qed.

(** X23. An empty edge map scores 0 at every angle: on the all-zero edge
    buffer the projection variance is 0 whatever the sine and the cosine
    of the candidate angle are. *)
Theorem calculateProjectionVariance_zero_edges (width height : nat) (sin cos : Q) :
  exists v,
    Deskew.calculateProjectionVariance (replicate (width * height) 0) width height sin cos
    = Some v /\ (v == 0)%Q.
Proof. apply calculateProjectionVariance_blank. Qed.

(** ** The angle search *)

Lemma sweep_snoc (score : Q -> option Q) (angles : list Q) (angle : Q) (st : Q * Q) :
  Deskew.sweep score (angles ++ [angle]) st
  = Deskew.sweep score [angle] (Deskew.sweep score angles st).
Proof. unfold Deskew.sweep. rewrite foldl_app. reflexivity. Qed.

(** X24. Each sweep of the angle search keeps the best score seen: the
    maximum it returns is at least the one it started from and at least
    the score of every angle of the sweep, and the angle it returns is the
    one it started from, with its maximum, or an angle of the sweep whose
    score is the maximum returned. *)
Theorem sweep_keeps_maximum (score : Q -> option Q) (angles : list Q) (a0 m0 : Q) :
  let '(a, m) := Deskew.sweep score angles (a0, m0) in
  (m0 <= m)%Q /\
  (forall angle v, angle ∈ angles -> score angle = Some v -> (v <= m)%Q) /\
  ((a, m) = (a0, m0) \/ (a ∈ angles /\ score a = Some m)).
Proof.
  induction angles as [|angle angles IH] using rev_ind.
  - simpl. split; [apply Qle_refl|]. split; [|left; reflexivity].
    intros angle v Hin. inversion Hin.
  - rewrite sweep_snoc. destruct (Deskew.sweep score angles (a0, m0)) as [a m].
    destruct IH as (Hm & Hall & Hbest). simpl.
    destruct (score angle) as [v|] eqn:Hs.
    + destruct (JS.Qltb m v) eqn:Hlt.
      * apply Qltb_true in Hlt. split; [lra|]. split.
        -- intros angle' v' Hin Hs'. apply elem_of_app in Hin. destruct Hin as [Hin|Hin].
           ++ specialize (Hall _ _ Hin Hs'). lra.
           ++ apply list_elem_of_singleton in Hin. subst angle'.
              rewrite Hs in Hs'. injection Hs' as <-. apply Qle_refl.
        -- right. split; [apply elem_of_app; right; constructor|exact Hs].
      * apply Qltb_false in Hlt. split; [exact Hm|]. split.
        -- intros angle' v' Hin Hs'. apply elem_of_app in Hin. destruct Hin as [Hin|Hin].
           ++ apply (Hall _ _ Hin Hs').
           ++ apply list_elem_of_singleton in Hin. subst angle'.
              rewrite Hs in Hs'. injection Hs' as <-. exact Hlt.
        -- destruct Hbest as [Hbest|[Hin Hsa]]; [left; exact Hbest|].
           right. split; [apply elem_of_app; left; exact Hin|exact Hsa].
    + split; [exact Hm|]. split.
      * intros angle' v' Hin Hs'. apply elem_of_app in Hin. destruct Hin as [Hin|Hin].
        -- apply (Hall _ _ Hin Hs').
        -- apply list_elem_of_singleton in Hin. subst angle'. congruence.
      * destruct Hbest as [Hbest|[Hin Hsa]]; [left; exact Hbest|].
        right. split; [apply elem_of_app; left; exact Hin|exact Hsa].
Qed.

Lemma sweep_cons (score : Q -> option Q) (angle : Q) (angles : list Q) (a m : Q) :
  Deskew.sweep score (angle :: angles) (a, m)
  = Deskew.sweep score angles
      (match score angle with
       | Some variance => if JS.Qltb m variance then (angle, variance) else (a, m)
       | None => (a, m)
       end).
Proof. reflexivity. Qed.

Lemma coarseAngles_head :
  Deskew.coarseAngles = inject_Z (-20) :: tl Deskew.coarseAngles.
Proof. reflexivity. Qed.

Lemma sweep_all_zero (score : Q -> option Q) (angles : list Q) (a m : Q) :
  (forall angle, exists v, score angle = Some v /\ (v == 0)%Q) ->
  (m == 0)%Q ->
  Deskew.sweep score angles (a, m) = (a, m).
Proof.
  intros Hscore Hm. induction angles as [|angle angles IH] using rev_ind; [reflexivity|].
  rewrite sweep_snoc, IH. simpl.
  destruct (Hscore angle) as (v & -> & Hv).
  assert (Hlt : JS.Qltb m v = false) by (apply Qltb_false; rewrite Hm, Hv; apply Qle_refl).
  rewrite Hlt. reflexivity.
Qed.

Lemma grayscale_flat (width height : nat) (r g b a : Z) :
  exists v, Deskew.grayscale (Spec.flat_pixels (width * height) r g b a) width height
            = replicate (width * height) v.
Proof.
  exists (JS.toUint8 (Some (inject_Z (JS.round (JS.luminance r g b))))).
  apply list_eq. intros i. unfold Deskew.grayscale.
  match goal with
  | |- JS.for_range 0 ?hi ?body ?init !! i = _ =>
      destruct (for_range_cells 0 hi body
                  (fun i o => (fun _ =>
                     JS.toUint8 ((fun l => inject_Z (JS.round l)) <$>
                       (r0 ← Spec.flat_pixels (width * height) r g b a !! (i * 4)%nat;
                        g0 ← Spec.flat_pixels (width * height) r g b a !! (i * 4 + 1)%nat;
                        b0 ← Spec.flat_pixels (width * height) r g b a !! (i * 4 + 2)%nat;
                        Some (JS.luminance r0 g0 b0)))) <$> o)
                  init) as (Hl & Hin & _)
  end.
  - intros k e _. apply length_insert.
  - intros k e j _ Hj. apply list_lookup_insert_ne. congruence.
  - intros k e _. rewrite lookup_insert_fmap. destruct (decide (k = k)); [reflexivity|congruence].
  - destruct (decide (i < width * height)%nat) as [Hi|Hi].
    + rewrite Hin by lia. rewrite !lookup_replicate_2 by exact Hi.
      unfold Spec.flat_pixels.
      pose proof (concat_replicate_lookup [r; g; b; a] (width * height) i 0
                    eq_refl Hi ltac:(lia)) as H0.
      rewrite Nat.add_0_r in H0. rewrite H0.
      rewrite !concat_replicate_lookup by (reflexivity || lia). reflexivity.
    + rewrite (proj2 (lookup_ge_None _ _)) by (rewrite Hl, length_replicate; lia).
      symmetry. apply lookup_ge_None. rewrite length_replicate. lia.
Qed.

Lemma search_all_zero (score : Q -> option Q) (fine : Q -> list Q) :
  (forall angle, exists v, score angle = Some v /\ (v == 0)%Q) ->
  (let '(bestAngle, maxVariance) := Deskew.sweep score Deskew.coarseAngles (0%Q, (-1)%Q) in
   let coarseBest := bestAngle in
   let '(bestAngle, _) := Deskew.sweep score (fine coarseBest) (bestAngle, maxVariance) in
   bestAngle) = inject_Z (-20).
Proof.
  intros Hscore.
  rewrite coarseAngles_head, sweep_cons.
  destruct (Hscore (inject_Z (-20))) as (v0 & -> & Hv0).
  assert (Hlt : JS.Qltb (-1) v0 = true) by (apply Qltb_true; rewrite Hv0; reflexivity).
  rewrite Hlt.
  rewrite (sweep_all_zero score _ _ _ Hscore Hv0). cbv zeta.
  rewrite (sweep_all_zero score _ _ _ Hscore Hv0). reflexivity.
Qed.

(** X25. On an image of one colour the deskew estimator answers -20
    degrees: the edge map is empty, every angle scores 0, and the first
    angle of the coarse search, the only one to beat the initial maximum
    of -1, is kept to the end, however the sines, the cosines and the
    angles of the fine search are rounded. *)
Theorem calculateSkewAngle_flat_image (trig : Q -> Q * Q) (fine : Q -> list Q)
    (width height : nat) (r g b a : Z) :
  Deskew.calculateSkewAngle trig fine (Spec.flat_pixels (width * height) r g b a) width height
  = inject_Z (-20).
Proof.
  unfold Deskew.calculateSkewAngle.
  destruct (grayscale_flat width height r g b a) as [v ->].
  rewrite sobelX_flat.
  2:{ apply length_replicate. }
  2:{ intros x x' y Hx Hx' Hy. rewrite !lookup_replicate_2 by nia. reflexivity. }
  cbv zeta. apply search_all_zero.
  intros angle. apply calculateProjectionVariance_blank.
Qed.

(** ** Union-find *)

(** [find] returns a root: the label it returns is its own parent,
    and looking it up again gives it back at once. *)
Theorem find_returns_root (fuel : nat) (parent : list nat) (i r : nat) :
  find fuel parent i = Some r ->
  parent !! r = Some r /\ find 1 parent r = Some r.
Proof.
  intros Hf. pose proof (find_root fuel parent i r Hf) as Hr.
  split; [exact Hr|]. apply find_self. exact Hr.
Qed.

Lemma find_returns_root_witness :
  [0; 1; 1; 2]%nat !! 1%nat = Some 1%nat /\ find 1 [0; 1; 1; 2]%nat 1 = Some 1%nat.
Proof. apply (find_returns_root 4 [0; 1; 1; 2]%nat 3 1). reflexivity. Defined.

(** X26. [union] joins two classes and touches no other: after
    [union(i, j)] both [i] and [j] resolve to the root [i] had before, an
    element whose root was that of [j] now resolves to the root of [i],
    and every other element keeps its root. *)
Theorem union_joins (fuel : nat) (parent parent' : list nat) (i j : nat) :
  union fuel parent i j = Some parent' ->
  exists rootI rootJ,
    find fuel parent i = Some rootI /\ find fuel parent j = Some rootJ /\
    find (S fuel) parent' i = Some rootI /\
    find (S fuel) parent' j = Some rootI /\
    forall x r, find fuel parent x = Some r ->
      find (S fuel) parent' x = Some (if decide (r = rootJ) then rootI else r).
Proof.
  unfold union. intros Hu.
  destruct (find fuel parent i) as [rootI|] eqn:Hi; [|discriminate].
  destruct (find fuel parent j) as [rootJ|] eqn:Hj; [|discriminate].
  cbn [mbind option_bind] in Hu. injection Hu as <-.
  exists rootI, rootJ. split; [reflexivity|]. split; [reflexivity|].
  assert (Hall : forall x r, find fuel parent x = Some r ->
            find (S fuel) (if decide (rootI = rootJ) then parent
                           else <[rootJ := rootI]> parent) x
            = Some (if decide (r = rootJ) then rootI else r)).
  { intros x r Hx. destruct (decide (rootI = rootJ)) as [<-|Hne].
    - destruct (decide (r = rootI)) as [->|_];
        apply (find_mono fuel (S fuel) _ _ _ Hx); lia.
    - apply find_link; [exact (find_root _ _ _ _ Hi)|exact (find_root _ _ _ _ Hj)
                       |exact Hne|exact Hx]. }
  split; [|split; [|exact Hall]].
  - rewrite (Hall i rootI Hi). destruct (decide (rootI = rootJ)); congruence.
  - rewrite (Hall j rootJ Hj). destruct (decide (rootJ = rootJ)); congruence.
Qed.

Lemma union_joins_witness :
  exists rootI rootJ,
    find 4 [0; 1; 1; 3]%nat 2 = Some rootI /\ find 4 [0; 1; 1; 3]%nat 3 = Some rootJ /\
    find 5 [0; 1; 1; 1]%nat 2 = Some rootI /\ find 5 [0; 1; 1; 1]%nat 3 = Some rootI.
Proof.
  destruct (union_joins 4 [0; 1; 1; 3]%nat [0; 1; 1; 1]%nat 2 3 eq_refl)
    as (rootI & rootJ & H1 & H2 & H3 & H4 & _).
  exists rootI, rootJ. auto.
Defined.

(** ** Loop classification *)

Lemma insert_by_x_perm (a : Geometry.Loop) (l : list Geometry.Loop) :
  Geometry.insert_by_x a l ≡ₚ a :: l.
Proof.
  induction l as [|b l IH]; [reflexivity|]. simpl.
  destruct (JS.Qltb (Geometry.x b) (Geometry.x a)); [|reflexivity].
  rewrite IH. apply Permutation_swap.
Qed.

Lemma sort_by_x_perm (l : list Geometry.Loop) : Geometry.sort_by_x l ≡ₚ l.
Proof.
  induction l as [|a l IH]; [reflexivity|].
  unfold Geometry.sort_by_x in *. simpl. rewrite insert_by_x_perm, IH. reflexivity.
Qed.

Lemma insert_by_x_sorted (a : Geometry.Loop) (l : list Geometry.Loop) :
  Spec.sorted_by_x l -> Spec.sorted_by_x (Geometry.insert_by_x a l).
Proof.
  induction l as [|b l IH]; intros Hs.
  - simpl. split; [constructor|exact I].
  - destruct Hs as [Hb Hs]. simpl.
    destruct (JS.Qltb (Geometry.x b) (Geometry.x a)) eqn:E.
    + apply Qltb_true in E. split; [|apply IH; exact Hs].
      rewrite Forall_forall in Hb |- *. intros c Hc.
      rewrite insert_by_x_perm in Hc. apply elem_of_cons in Hc.
      destruct Hc as [->|Hc]; [apply Qlt_le_weak; exact E|apply Hb; exact Hc].
    + apply Qltb_false in E. split; [|split; assumption].
      constructor; [exact E|].
      rewrite Forall_forall in Hb |- *. intros c Hc.
      apply Qle_trans with (Geometry.x b); [exact E|apply Hb; exact Hc].
Qed.

Lemma sort_by_x_sorted (l : list Geometry.Loop) : Spec.sorted_by_x (Geometry.sort_by_x l).
Proof.
  induction l as [|a l IH]; [exact I|].
  unfold Geometry.sort_by_x in *. simpl. apply insert_by_x_sorted. exact IH.
Qed.

Lemma sort_by_x_of_sorted (l : list Geometry.Loop) :
  Spec.sorted_by_x l -> Geometry.sort_by_x l = l.
Proof.
  induction l as [|a l IH]; intros Hs; [reflexivity|].
  destruct Hs as [Ha Hs]. unfold Geometry.sort_by_x in *. simpl. rewrite (IH Hs).
  destruct l as [|b l]; [reflexivity|]. simpl.
  assert (E : JS.Qltb (Geometry.x b) (Geometry.x a) = false).
  { apply Qltb_false. rewrite Forall_forall in Ha. apply Ha. constructor. }
  rewrite E. reflexivity.
Qed.

Lemma classify_flag (calculateAngle : Q * Q -> Q * Q -> Q * Q -> Q)
    (sortedLoops : list Geometry.Loop) (index : nat) (loop : Geometry.Loop) :
  (index < length sortedLoops)%nat ->
  Geometry.classify calculateAngle sortedLoops index loop
  = Some (Geometry.with_outermost loop
            (Spec.outermost_flag calculateAngle sortedLoops index loop)).
Proof.
  intros Hi. unfold Geometry.classify, Spec.outermost_flag.
  destruct ((index =? 0)%nat || (index =? length sortedLoops - 1)%nat) eqn:E; [reflexivity|].
  apply orb_false_iff in E. destruct E as [E0 E1].
  apply Nat.eqb_neq in E0. apply Nat.eqb_neq in E1.
  destruct (lookup_lt_is_Some_2 sortedLoops (index - 1)) as [prev ->]; [lia|].
  destruct (lookup_lt_is_Some_2 sortedLoops (index + 1)) as [next ->]; [lia|].
  cbn [mbind option_bind]. unfold Spec.point.
  destruct (JS.Qltb (Geometry.y prev) (Geometry.y loop)
            && JS.Qltb (Geometry.y next) (Geometry.y loop)); reflexivity.
Qed.

(** What [updateLoopClassifications] returns. *)
Lemma updateLoopClassifications_unfold (calculateAngle : Q * Q -> Q * Q -> Q * Q -> Q)
    (loops : list Geometry.Loop) :
  Geometry.updateLoopClassifications calculateAngle loops
  = Some (if (length loops <? 3)%nat
          then (fun l => Geometry.with_outermost l true) <$> loops
          else imap (fun i l => Geometry.with_outermost l
                       (Spec.outermost_flag calculateAngle (Geometry.sort_by_x loops) i l))
                    (Geometry.sort_by_x loops)).
Proof.
  unfold Geometry.updateLoopClassifications.
  destruct (length loops <? 3)%nat; [reflexivity|].
  cbv zeta. apply mapM_Some. apply Forall2_same_length_lookup.
  split; [rewrite !length_imap; reflexivity|].
  intros i o r Ho Hr. rewrite list_lookup_imap in Ho. rewrite list_lookup_imap in Hr.
  destruct (Geometry.sort_by_x loops !! i) as [l|] eqn:El; [|discriminate].
  simpl in Ho, Hr. injection Ho as <-. injection Hr as <-.
  apply classify_flag. eapply lookup_lt_Some. exact El.
Qed.

Lemma sorted_by_x_ext (l l' : list Geometry.Loop) :
  Geometry.x <$> l = Geometry.x <$> l' ->
  Spec.sorted_by_x l -> Spec.sorted_by_x l'.
Proof.
  revert l'. induction l as [|a l IH]; intros [|a' l'] Hx Hs; try discriminate; [exact I|].
  rewrite !fmap_cons in Hx. injection Hx as Ha Hl. destruct Hs as [Hall Hs].
  split; [|apply (IH l' Hl Hs)].
  rewrite Forall_forall in Hall |- *. intros c Hc. rewrite <- Ha.
  assert (Hin : Geometry.x c ∈ Geometry.x <$> l').
  { apply list_elem_of_fmap. exists c. split; [reflexivity|exact Hc]. }
  rewrite <- Hl in Hin. apply list_elem_of_fmap in Hin. destruct Hin as (c0 & -> & Hc0).
  apply Hall. exact Hc0.
Qed.

Lemma imap_flags_fmap {B : Type} (proj : Geometry.Loop -> B) (flag : nat -> Geometry.Loop -> bool)
    (l : list Geometry.Loop) :
  (forall a f, proj (Geometry.with_outermost a f) = proj a) ->
  proj <$> imap (fun i a => Geometry.with_outermost a (flag i a)) l = proj <$> l.
Proof.
  intros Hproj. apply list_eq. intros i.
  rewrite !list_lookup_fmap, list_lookup_imap.
  destruct (l !! i); simpl; [rewrite Hproj|]; reflexivity.
Qed.

(** X27. [updateLoopClassifications] never fails and returns the loops it
    was given, their flags apart: fewer than three loops come back in the
    order they came in, three or more come back from left to right, sorted
    by their x coordinate. *)
Theorem updateLoopClassifications_sorts (calculateAngle : Q * Q -> Q * Q -> Q * Q -> Q)
    (loops : list Geometry.Loop) :
  exists result,
    Geometry.updateLoopClassifications calculateAngle loops = Some result /\
    Spec.unflagged <$> result ≡ₚ Spec.unflagged <$> loops /\
    ((length loops < 3)%nat -> Spec.unflagged <$> result = Spec.unflagged <$> loops) /\
    ((3 <= length loops)%nat -> Spec.sorted_by_x result).
Proof.
  rewrite updateLoopClassifications_unfold. eexists. split; [reflexivity|].
  destruct (Nat.ltb_spec (length loops) 3) as [Hlt|Hge].
  - assert (E : Spec.unflagged <$> ((fun l => Geometry.with_outermost l true) <$> loops)
                = Spec.unflagged <$> loops).
    { rewrite <- list_fmap_compose. apply list_fmap_ext. intros i l _. reflexivity. }
    split; [rewrite E; reflexivity|]. split; [intros _; exact E|lia].
  - split; [|split; [lia|]].
    + rewrite (imap_flags_fmap Spec.unflagged) by reflexivity.
      rewrite sort_by_x_perm. reflexivity.
    + intros _. apply (sorted_by_x_ext (Geometry.sort_by_x loops)); [|apply sort_by_x_sorted].
      symmetry. apply (imap_flags_fmap Geometry.x). reflexivity.
Qed.

Lemma outermost_flag_false (calculateAngle : Q * Q -> Q * Q -> Q * Q -> Q)
    (sortedLoops : list Geometry.Loop) (index : nat) (loop : Geometry.Loop) :
  Spec.outermost_flag calculateAngle sortedLoops index loop = false <->
  exists prev next,
    (0 < index)%nat /\
    sortedLoops !! (index - 1)%nat = Some prev /\
    sortedLoops !! (index + 1)%nat = Some next /\
    (Geometry.y prev < Geometry.y loop)%Q /\
    (Geometry.y next < Geometry.y loop)%Q /\
    (calculateAngle (Spec.point prev) (Spec.point loop) (Spec.point next) <= 90)%Q.
Proof.
  unfold Spec.outermost_flag. split.
  - destruct ((index =? 0)%nat || (index =? length sortedLoops - 1)%nat) eqn:E; [discriminate|].
    apply orb_false_iff in E. destruct E as [E0 _]. apply Nat.eqb_neq in E0.
    destruct (sortedLoops !! (index - 1)%nat) as [prev|]; [|discriminate].
    destruct (sortedLoops !! (index + 1)%nat) as [next|]; [|discriminate].
    destruct (JS.Qltb (Geometry.y prev) (Geometry.y loop)) eqn:Ep; [|discriminate].
    destruct (JS.Qltb (Geometry.y next) (Geometry.y loop)) eqn:En; [|discriminate].
    cbn [andb]. intros Ea. exists prev, next.
    apply Qltb_true in Ep. apply Qltb_true in En. apply Qltb_false in Ea.
    repeat split; try assumption. lia.
  - intros (prev & next & Hi & Hp & Hn & Hyp & Hyn & Ha).
    assert (Hlen : (index + 1 < length sortedLoops)%nat) by (eapply lookup_lt_Some; exact Hn).
    replace (index =? 0)%nat with false by (symmetry; apply Nat.eqb_neq; lia).
    replace (index =? length sortedLoops - 1)%nat with false
      by (symmetry; apply Nat.eqb_neq; lia).
    cbn [orb]. rewrite Hp, Hn.
    apply Qltb_true in Hyp. apply Qltb_true in Hyn. rewrite Hyp, Hyn. cbn [andb].
    apply Qltb_false. exact Ha.
Qed.

Lemma outermost_flag_ext (calculateAngle : Q * Q -> Q * Q -> Q * Q -> Q)
    (l l' : list Geometry.Loop) (index : nat) (loop loop' : Geometry.Loop) :
  Spec.point <$> l = Spec.point <$> l' ->
  Spec.point loop = Spec.point loop' ->
  Spec.outermost_flag calculateAngle l index loop
  = Spec.outermost_flag calculateAngle l' index loop'.
Proof.
  intros Hl Hloop. unfold Spec.outermost_flag.
  assert (Hlen : length l = length l').
  { rewrite <- (length_fmap Spec.point l), Hl. apply length_fmap. }
  rewrite Hlen.
  destruct ((index =? 0)%nat || (index =? length l' - 1)%nat); [reflexivity|].
  assert (Hlook : forall j, Spec.point <$> l !! j = Spec.point <$> l' !! j).
  { intros j. rewrite <- !list_lookup_fmap, Hl. reflexivity. }
  pose proof (Hlook (index - 1)%nat) as Hp. pose proof (Hlook (index + 1)%nat) as Hn.
  destruct (l !! (index - 1)%nat) as [p|], (l' !! (index - 1)%nat) as [p'|];
    try discriminate; [|reflexivity].
  destruct (l !! (index + 1)%nat) as [n|], (l' !! (index + 1)%nat) as [n'|];
    try discriminate; [|reflexivity].
  simpl in Hp, Hn. unfold Spec.point in *.
  injection Hp as -> ->. injection Hn as -> ->. injection Hloop as -> ->. reflexivity.
Qed.

(** X28. In the result of [updateLoopClassifications] a loop is flagged as
    not outermost exactly when there are three loops or more, it has a
    neighbour on each side in the result, both neighbours lie strictly higher
    (smaller y), and the angle at the loop is at most 90 degrees. *)
Theorem updateLoopClassifications_not_outermost
    (calculateAngle : Q * Q -> Q * Q -> Q * Q -> Q)
    (loops result : list Geometry.Loop) (index : nat) (loop : Geometry.Loop) :
  Geometry.updateLoopClassifications calculateAngle loops = Some result ->
  result !! index = Some loop ->
  (Geometry.isOutermost loop = false <->
   (3 <= length loops)%nat /\
   exists prev next,
     (0 < index)%nat /\
     result !! (index - 1)%nat = Some prev /\
     result !! (index + 1)%nat = Some next /\
     (Geometry.y prev < Geometry.y loop)%Q /\
     (Geometry.y next < Geometry.y loop)%Q /\
     (calculateAngle (Spec.point prev) (Spec.point loop) (Spec.point next) <= 90)%Q).
Proof.
  rewrite updateLoopClassifications_unfold. intros Hres Hloop. injection Hres as <-.
  destruct (Nat.ltb_spec (length loops) 3) as [Hlt|Hge].
  - rewrite list_lookup_fmap in Hloop.
    destruct (loops !! index) as [l0|]; [|discriminate]. injection Hloop as <-.
    cbn. split; [discriminate|]. intros [Hlen _]. lia.
  - rewrite list_lookup_imap in Hloop.
    destruct (Geometry.sort_by_x loops !! index) as [l0|] eqn:El; [|discriminate].
    injection Hloop as <-. cbn [Geometry.isOutermost Geometry.with_outermost].
    rewrite outermost_flag_false. split.
    + intros (prev & next & Hi & Hp & Hn & Hrest). split; [exact Hge|].
      eexists _, _. split; [exact Hi|].
      rewrite !list_lookup_imap, Hp, Hn. split; [reflexivity|]. split; [reflexivity|].
      exact Hrest.
    + intros (_ & prev & next & Hi & Hp & Hn & Hrest).
      rewrite list_lookup_imap in Hp. rewrite list_lookup_imap in Hn.
      destruct (Geometry.sort_by_x loops !! (index - 1)%nat) as [p0|]; [|discriminate].
      destruct (Geometry.sort_by_x loops !! (index + 1)%nat) as [n0|]; [|discriminate].
      injection Hp as <-. injection Hn as <-.
      exists p0, n0. split; [exact Hi|]. split; [reflexivity|]. split; [reflexivity|].
      exact Hrest.
Qed.

Lemma updateLoopClassifications_not_outermost_witness :
  exists loop,
    Geometry.updateLoopClassifications (fun _ _ _ => 45%Q) Spec.retracted_row
    = Some [Geometry.with_outermost (Spec.loop_at 10 10 Geometry.Giant) true; loop;
            Geometry.with_outermost (Spec.loop_at 30 10 Geometry.Normal) true] /\
    Geometry.isOutermost loop = false.
Proof.
  exists (Spec.loop_at 20 50 Geometry.Normal).
  assert (Hrun : Geometry.updateLoopClassifications (fun _ _ _ => 45%Q) Spec.retracted_row
                 = Some [Geometry.with_outermost (Spec.loop_at 10 10 Geometry.Giant) true;
                         Spec.loop_at 20 50 Geometry.Normal;
                         Geometry.with_outermost (Spec.loop_at 30 10 Geometry.Normal) true])
    by reflexivity.
  split; [exact Hrun|].
  apply (updateLoopClassifications_not_outermost (fun _ _ _ => 45%Q) Spec.retracted_row _ 1
           _ Hrun eq_refl).
  split; [simpl; lia|].
  eexists _, _. split; [lia|]. split; [reflexivity|]. split; [reflexivity|].
  cbn. unfold Qlt, Qle. cbn. lia.
Defined.

(** X29. [updateLoopClassifications] is idempotent: classifying its own
    result again returns that result unchanged. *)
Theorem updateLoopClassifications_idempotent
    (calculateAngle : Q * Q -> Q * Q -> Q * Q -> Q) (loops result : list Geometry.Loop) :
  Geometry.updateLoopClassifications calculateAngle loops = Some result ->
  Geometry.updateLoopClassifications calculateAngle result = Some result.
Proof.
  rewrite !updateLoopClassifications_unfold. intros Hres. injection Hres as <-. f_equal.
  destruct (Nat.ltb_spec (length loops) 3) as [Hlt|Hge].
  - rewrite length_fmap. destruct (Nat.ltb_spec (length loops) 3) as [_|Hge]; [|lia].
    rewrite <- list_fmap_compose. apply list_fmap_ext. intros i l _. reflexivity.
  - set (classified := imap _ (Geometry.sort_by_x loops)).
    assert (Hlen : length classified = length loops).
    { unfold classified. rewrite length_imap.
      apply Permutation_length, sort_by_x_perm. }
    rewrite Hlen. destruct (Nat.ltb_spec (length loops) 3) as [Hlt|_]; [lia|].
    assert (Hsorted : Geometry.sort_by_x classified = classified).
    { apply sort_by_x_of_sorted.
      apply (sorted_by_x_ext (Geometry.sort_by_x loops)); [|apply sort_by_x_sorted].
      symmetry. apply (imap_flags_fmap Geometry.x). reflexivity. }
    rewrite Hsorted. apply list_eq. intros i. unfold classified at 2 3.
    rewrite !list_lookup_imap. fold classified.
    destruct (Geometry.sort_by_x loops !! i) as [l0|]; [|reflexivity].
    simpl. f_equal.
    rewrite (outermost_flag_ext calculateAngle classified (Geometry.sort_by_x loops) i _ l0).
    + reflexivity.
    + apply (imap_flags_fmap Spec.point). reflexivity.
    + reflexivity.
Qed.

Lemma updateLoopClassifications_idempotent_witness :
  exists result,
    Geometry.updateLoopClassifications (fun _ _ _ => 45%Q) Spec.retracted_row = Some result /\
    Geometry.updateLoopClassifications (fun _ _ _ => 45%Q) result = Some result.
Proof.
  eexists. split; [reflexivity|].
  apply (updateLoopClassifications_idempotent (fun _ _ _ => 45%Q) Spec.retracted_row).
  reflexivity.
Defined.

(** ** Morphology statistics *)

Lemma tally_count_from (m : Geometry.Morphology) (loops : list Geometry.Loop)
    (stats : Geometry.MorphologyStats.t) :
  Spec.count_of m (foldl Geometry.count_loop stats loops)
  = Spec.count_of m stats
    + Z.of_nat (length (filter (fun loop => Geometry.morphology loop = m) loops)).
Proof.
  revert stats. induction loops as [|loop loops IH]; intros stats; [simpl; lia|].
  cbn [foldl]. rewrite IH. rewrite filter_cons.
  destruct (decide (Geometry.morphology loop = m)) as [E|E].
  - cbn [length]. rewrite Nat2Z.inj_succ.
    unfold Geometry.count_loop. destruct stats, m; rewrite E; cbn; lia.
  - unfold Geometry.count_loop.
    destruct stats, m, (Geometry.morphology loop); try congruence; cbn; lia.
Qed.

Lemma tally_total_from (loops : list Geometry.Loop) (stats : Geometry.MorphologyStats.t) :
  Geometry.total (foldl Geometry.count_loop stats loops)
  = Geometry.total stats + Z.of_nat (length loops).
Proof.
  revert stats. induction loops as [|loop loops IH]; intros stats; [simpl; lia|].
  cbn [foldl]. rewrite IH. cbn [length]. rewrite Nat2Z.inj_succ.
  unfold Geometry.count_loop, Geometry.total.
  destruct stats, (Geometry.morphology loop); cbn; lia.
Qed.

(** X30. The morphology tally counts every loop exactly once: each counter
    is the number of loops of that morphology, and the total of the six
    counters is the number of loops. *)
Theorem tally_counts_each_loop_once (loops : list Geometry.Loop) :
  Geometry.total (Geometry.tally loops) = Z.of_nat (length loops) /\
  forall m, Spec.count_of m (Geometry.tally loops)
            = Z.of_nat (length (filter (fun loop => Geometry.morphology loop = m) loops)).
Proof.
  unfold Geometry.tally. split.
  - rewrite tally_total_from. reflexivity.
  - intros m. rewrite tally_count_from. destruct m; reflexivity.
Qed.
